(** * Melee at Sea: the combat-and-movement engine of the web edition

    A shallow embedding of [web/js/constants.js], [board.js], [ship.js],
    [combat.js], [ai.js] and of [Game.checkGameOver] ([game.js]), followed
    by the properties of the engine.

    Conventions of the embedding.
    - JavaScript numbers that hold grid coordinates, lengths, degrees and
      cannon counts are integers in the program; they are [Z] here.
    - A JavaScript object reference to a ship is its position in the
      roster [allShips] (a [list Ship.t]); [ship === this] is equality of
      positions, and a method that mutates a ship returns the new roster.
    - A thrown [TypeError] (reading a property of [undefined]) is the
      result [None]; every function that can reach one returns [option].
    - [Math.random()] is an explicit oracle: a list of naturals, the next
      draw below a bound [n] being the head of the list modulo [n]. *)

From Stdlib Require Import ZArith Lia.
From stdpp Require Import base tactics option list numbers strings relations sorting.

Local Open Scope Z_scope.

(* [naive_solver] clears hypotheses it has already consumed. *)
#[local] Set Warnings "-clear-no-such-hyp".

(** A grid cell [{x, y}]. *)
Abbreviation Cell := (Z * Z)%type.

(** [c.x === x && c.y === y] *)
Definition sameCell (a b : Cell) : bool := (a.1 =? b.1) && (a.2 =? b.2).

(** ** constants.js *)

Definition GRID_COLS : Z := 20.
Definition GRID_ROWS : Z := 15.
Definition CELL_SIZE : Z := 40.

Definition UP : Z := 0.
Definition RIGHT : Z := 90.
Definition DOWN : Z := 180.
Definition LEFT : Z := 270.

Record Dir := mkDir { dx : Z; dy : Z }.

(** The object literal keyed by the four orientations; any other key reads
    [undefined]. *)
Definition DIRECTION_VECTORS (o : Z) : option Dir :=
  if o =? UP then Some (mkDir 0 (-1))
  else if o =? RIGHT then Some (mkDir 1 0)
  else if o =? DOWN then Some (mkDir 0 1)
  else if o =? LEFT then Some (mkDir (-1) 0)
  else None.

Inductive GameState :=
  | TITLE | PLAYER_SELECT | PLAYER_MOVE | PLAYER_FIRE | ENEMY_TURN
  | PLAYER2_SELECT | PLAYER2_MOVE | PLAYER2_FIRE | GAME_OVER.

Inductive GameMode := SINGLE_PLAYER | TWO_PLAYER.

(** The two values of [ship.team]: ['player'] and ['enemy']. *)
Inductive Team := player | enemy.

Global Instance Team_eq_dec : EqDecision Team.
Proof. solve_decision. Defined.

Global Instance GameState_eq_dec : EqDecision GameState.
Proof. solve_decision. Defined.

(** ** board.js (the part the engine uses) *)

Module Board.
Record t := mk { cols : Z; rows : Z; cellSize : Z }.

Definition isValidCell (this : t) (gridX gridY : Z) : bool :=
  (0 <=? gridX) && (gridX <? cols this) && (0 <=? gridY) && (gridY <? rows this).
End Board.

(** ** ship.js *)

Module Ship.
Record t := mk {
  x : Z;
  y : Z;
  length : Z;
  maxLength : Z;
  orientation : Z;
  team : Team;
  board : Board.t;
  selected : bool;
  hasMoved : bool;
  hasFired : bool;
  maxCannonsPerSide : Z;
  cannonsPerSide : Z
}.

(** [constructor(x, y, length, orientation, team, board)] *)
Definition new (x y length orientation : Z) (team : Team) (board : Board.t) : t :=
  mk x y length length orientation team board false false false
     (length - 1) (length - 1).

(** Field assignments [this.f = v]. *)
Definition set_xy (this : t) (newX newY : Z) : t :=
  mk newX newY (length this) (maxLength this) (orientation this) (team this)
     (board this) (selected this) (hasMoved this) (hasFired this)
     (maxCannonsPerSide this) (cannonsPerSide this).

Definition set_orientation (this : t) (o : Z) : t :=
  mk (x this) (y this) (length this) (maxLength this) o (team this)
     (board this) (selected this) (hasMoved this) (hasFired this)
     (maxCannonsPerSide this) (cannonsPerSide this).

Definition set_cannonsPerSide (this : t) (c : Z) : t :=
  mk (x this) (y this) (length this) (maxLength this) (orientation this)
     (team this) (board this) (selected this) (hasMoved this) (hasFired this)
     (maxCannonsPerSide this) c.

Definition set_selected (this : t) (b : bool) : t :=
  mk (x this) (y this) (length this) (maxLength this) (orientation this)
     (team this) (board this) b (hasMoved this) (hasFired this)
     (maxCannonsPerSide this) (cannonsPerSide this).

Definition set_hasMoved (this : t) (b : bool) : t :=
  mk (x this) (y this) (length this) (maxLength this) (orientation this)
     (team this) (board this) (selected this) b (hasFired this)
     (maxCannonsPerSide this) (cannonsPerSide this).

Definition set_hasFired (this : t) (b : bool) : t :=
  mk (x this) (y this) (length this) (maxLength this) (orientation this)
     (team this) (board this) (selected this) (hasMoved this) b
     (maxCannonsPerSide this) (cannonsPerSide this).

Definition isAlive (this : t) : bool := 0 <? cannonsPerSide this.

Definition totalCannons (this : t) : Z := cannonsPerSide this * 2.

(** The loop [for (i = 0; i < len; i++) cells.push({x0 - dir.dx*i, y0 - dir.dy*i})].
    [dir] is dereferenced inside the body only, so an undefined [dir]
    throws exactly when the loop runs at least once. *)
Definition trail (dir : option Dir) (x0 y0 len : Z) : option (list Cell) :=
  mapM (λ i, d ← dir; Some (x0 - dx d * i, y0 - dy d * i)) (seqZ 0 len).

Definition getCells (this : t) : option (list Cell) :=
  trail (DIRECTION_VECTORS (orientation this)) (x this) (y this) (length this).

(** The two lateral unit steps, in the order of [perpDirs]. *)
Definition perpDirs (this : t) : list Dir :=
  if (orientation this =? UP) || (orientation this =? DOWN)
  then [mkDir 1 0; mkDir (-1) 0]
  else [mkDir 0 1; mkDir 0 (-1)].

(** [if (!fireCells.some(c => c.x === fx && c.y === fy)) fireCells.push(..)] *)
Definition pushNew (cells : list Cell) (c : Cell) : list Cell :=
  if existsb (λ e, sameCell e c) cells then cells else cells ++ [c].

Definition getFireZones (this : t) (maxRange : Z) : option (list Cell) :=
  shipCells ← getCells this;
  Some (foldl (λ fireCells cell,
          foldl (λ fireCells pdir,
            foldl (λ fireCells distance,
              let fireX := cell.1 + dx pdir * distance in
              let fireY := cell.2 + dy pdir * distance in
              if Board.isValidCell (board this) fireX fireY
              then pushNew fireCells (fireX, fireY)
              else fireCells)
            fireCells (seqZ 1 maxRange))
          fireCells (perpDirs this))
        [] shipCells).

(** The collision loop of [canOccupy] from roster position [j] on: [true]
    when it runs to its end; an early [return false] leaves the remaining
    ships unvisited. *)
Fixpoint clearOfShips (this : nat) (cells : list Cell) (j : nat) (ships : list t)
  : option bool :=
  match ships with
  | [] => Some true
  | ship :: rest =>
      if (j =? this)%nat || negb (isAlive ship)
      then clearOfShips this cells (S j) rest
      else
        otherCells ← getCells ship;
        if existsb (λ cell, existsb (λ other, sameCell cell other) otherCells) cells
        then Some false
        else clearOfShips this cells (S j) rest
  end.

Definition canOccupy (this : nat) (cells : list Cell) (allShips : list t)
  : option bool :=
  self ← allShips !! this;
  if forallb (λ cell, Board.isValidCell (board self) cell.1 cell.2) cells
  then clearOfShips this cells 0 allShips
  else Some false.

Definition getCellsAt (this : t) (newX newY : Z) (newOrientation : option Z)
  : option (list Cell) :=
  let newOrientation := default (orientation this) newOrientation in
  trail (DIRECTION_VECTORS newOrientation) newX newY (length this).

Definition canMoveTo (this : nat) (newX newY : Z) (allShips : list t)
  : option bool :=
  self ← allShips !! this;
  newCells ← getCellsAt self newX newY None;
  canOccupy this newCells allShips.

Definition move (this : nat) (direction : string) (allShips : list t)
  : option (bool * list t) :=
  self ← allShips !! this;
  let dir := DIRECTION_VECTORS (orientation self) in
  d ← (if String.eqb direction "forward" then v ← dir; Some (dx v, dy v)
       else if String.eqb direction "backward" then v ← dir; Some (- dx v, - dy v)
       else Some (0, 0));
  let newX := x self + d.1 in
  let newY := y self + d.2 in
  ok ← canMoveTo this newX newY allShips;
  if ok : bool
  then Some (true, <[this := set_xy self newX newY]> allShips)
  else Some (false, allShips).

Definition canRotateTo (this : nat) (newOrientation : Z) (allShips : list t)
  : option bool :=
  self ← allShips !! this;
  newCells ← getCellsAt self (x self) (y self) (Some newOrientation);
  canOccupy this newCells allShips.

Definition rotate (this : nat) (direction : string) (allShips : list t)
  : option (bool * list t) :=
  self ← allShips !! this;
  let newOrientation :=
    if String.eqb direction "cw"
    then Z.rem (orientation self + 90) 360
    else Z.rem (orientation self - 90 + 360) 360 in
  ok ← canRotateTo this newOrientation allShips;
  if ok : bool
  then Some (true, <[this := set_orientation self newOrientation]> allShips)
  else Some (false, allShips).

(** [takeDamage(amount = 1)]: the damaged ship and the [destroyed] flag. *)
Definition takeDamage (this : t) (amount : Z) : t * bool :=
  let c := Z.max 0 (cannonsPerSide this - amount) in
  (set_cannonsPerSide this c, c <=? 0).
End Ship.

(** ** combat.js *)

Module Combat.
(** [{ ship, hitCells }] and [{ ship, destroyed }] / [{ hitShip, destroyed }] *)
Abbreviation Target := (nat * list Cell)%type.
Abbreviation Hit := (nat * bool)%type.

Section WithBoard.
(** [this.board] of the [Combat] object. *)
Variable board : Board.t.

Definition sideOffsets (ship : Ship.t) : list Dir :=
  if (Ship.orientation ship =? UP) || (Ship.orientation ship =? DOWN)
  then [mkDir (-1) 0; mkDir 1 0]
  else [mkDir 0 (-1); mkDir 0 1].

(** The body of [for (const offset of sideOffsets)]. *)
Definition addSides (offsets : list Dir) (sideCells : list Cell) (cell : Cell)
  : list Cell :=
  foldl (λ sideCells offset,
           let targetX := cell.1 + dx offset in
           let targetY := cell.2 + dy offset in
           if Board.isValidCell board targetX targetY
           then Ship.pushNew sideCells (targetX, targetY)
           else sideCells)
        sideCells offsets.

(** [for (let i = 0; i < shipCells.length; i++)], from index [i] on. *)
Fixpoint sideLoop (offsets : list Dir) (cannonCount : Z) (i : nat)
    (shipCells : list Cell) (sideCells : list Cell) : list Cell :=
  match shipCells with
  | [] => sideCells
  | cell :: rest =>
      if (i =? 0)%nat then sideLoop offsets cannonCount (S i) rest sideCells
      else if Z.of_nat i >? cannonCount
           then sideLoop offsets cannonCount (S i) rest sideCells
           else sideLoop offsets cannonCount (S i) rest
                  (addSides offsets sideCells cell)
  end.

Definition getSideFireZones (ship : Ship.t) : option (list Cell) :=
  shipCells ← Ship.getCells ship;
  let bodySegments := Z.of_nat (length shipCells) - 1 in
  let cannonCount := Z.min (Ship.cannonsPerSide ship) bodySegments in
  Some (sideLoop (sideOffsets ship) cannonCount 0 shipCells []).

(** The cells of a ship matched by some zone (inner loop with [break]). *)
Definition hitCellsOf (fireZones shipCells : list Cell) : list Cell :=
  filter (λ cell, existsb (λ zone, sameCell cell zone) fireZones = true) shipCells.

Fixpoint targetLoop (attacker : nat) (attackerTeam : Team) (fireZones : list Cell)
    (j : nat) (ships : list Ship.t) (targets : list Target)
  : option (list Target) :=
  match ships with
  | [] => Some targets
  | ship :: rest =>
      if (j =? attacker)%nat || bool_decide (Ship.team ship = attackerTeam)
      then targetLoop attacker attackerTeam fireZones (S j) rest targets
      else if negb (Ship.isAlive ship)
      then targetLoop attacker attackerTeam fireZones (S j) rest targets
      else
        shipCells ← Ship.getCells ship;
        let hitCells := hitCellsOf fireZones shipCells in
        if (0 <? length hitCells)%nat
        then targetLoop attacker attackerTeam fireZones (S j) rest
               (targets ++ [(j, hitCells)])
        else targetLoop attacker attackerTeam fireZones (S j) rest targets
  end.

Definition getTargetsInRange (attacker : nat) (allShips : list Ship.t)
  : option (list Target) :=
  a ← allShips !! attacker;
  fireZones ← getSideFireZones a;
  targetLoop attacker (Ship.team a) fireZones 0 allShips [].

Fixpoint fireLoop (attacker : nat) (attackerTeam : Team) (targetCell : Cell)
    (j : nat) (ships : list Ship.t) (allShips : list Ship.t)
  : option (option nat * bool * list Ship.t) :=
  match ships with
  | [] => Some (None, false, allShips)
  | ship :: rest =>
      if (j =? attacker)%nat || bool_decide (Ship.team ship = attackerTeam)
      then fireLoop attacker attackerTeam targetCell (S j) rest allShips
      else if negb (Ship.isAlive ship)
      then fireLoop attacker attackerTeam targetCell (S j) rest allShips
      else
        cells ← Ship.getCells ship;
        if existsb (λ cell, sameCell cell targetCell) cells
        then let '(ship', destroyed) := Ship.takeDamage ship 1 in
             Some (Some j, destroyed, <[j := ship']> allShips)
        else fireLoop attacker attackerTeam targetCell (S j) rest allShips
  end.

Definition fire (attacker : nat) (targetCell : Cell) (allShips : list Ship.t)
  : option (option nat * bool * list Ship.t) :=
  a ← allShips !! attacker;
  fireZones ← getSideFireZones a;
  let inRange := existsb (λ z, sameCell z targetCell) fireZones in
  if negb inRange then Some (None, false, allShips)
  else fireLoop attacker (Ship.team a) targetCell 0 allShips allShips.

(** [for (const { ship, hitCells } of targets)] *)
Fixpoint broadsideLoop (targets : list Target) (hits : list Hit)
    (allShips : list Ship.t) : option (list Hit * list Ship.t) :=
  match targets with
  | [] => Some (hits, allShips)
  | (j, hitCells) :: rest =>
      if (0 <? length hitCells)%nat
      then ship ← allShips !! j;
           let '(ship', destroyed) := Ship.takeDamage ship 1 in
           broadsideLoop rest (hits ++ [(j, destroyed)]) (<[j := ship']> allShips)
      else broadsideLoop rest hits allShips
  end.

Definition fireBroadside (attacker : nat) (allShips : list Ship.t)
  : option (list Hit * list Ship.t) :=
  a ← allShips !! attacker;
  if Ship.cannonsPerSide a <=? 0 then Some ([], allShips)
  else
    targets ← getTargetsInRange attacker allShips;
    broadsideLoop targets [] allShips.
End WithBoard.
End Combat.

(** ** ai.js *)

Module AI.
(** [{ type, dir }]; [dir] is [null] for the fire action. *)
Record Action := mkAction { type : string; dir : option string }.

(** The oracle behind [Math.random()]. *)
Abbreviation Rng := (list nat).

(** [Math.floor(Math.random() * n)]: a natural below [n], and 0 for [n = 0]. *)
Definition randomBelow (n : nat) (rng : Rng) : nat * Rng :=
  match rng with
  | [] => (0%nat, [])
  | r :: rest => (if (n =? 0)%nat then 0%nat else (r `mod` n)%nat, rest)
  end.

(** [[array[i], array[j]] = [array[j], array[i]]] *)
Definition swap {A} (array : list A) (i j : nat) : list A :=
  match array !! i, array !! j with
  | Some ai, Some aj => <[j := ai]> (<[i := aj]> array)
  | _, _ => array
  end.

(** [for (let i = ...; i > 0; i--)] of [shuffle], from index [i] down. *)
Fixpoint shuffleFrom {A} (i : nat) (array : list A) (rng : Rng) : list A * Rng :=
  match i with
  | O => (array, rng)
  | S i' =>
      let '(j, rng) := randomBelow (S i) rng in
      shuffleFrom i' (swap array i j) rng
  end.

Definition shuffle {A} (array : list A) (rng : Rng) : list A * Rng :=
  shuffleFrom (length array - 1)%nat array rng.

Section WithCombat.
(** [this.combat.board] *)
Variable board : Board.t.

(** First loop of [evaluatePosition]. *)
Definition targetBonus (targets : list Combat.Target) (score : Z) : Z :=
  foldl (λ score target, score + Z.of_nat (length target.2) * 10) score targets.

(** The two inner loops of the penalty: one [score -= 5] per matching
    pair of an own cell and a zone cell. *)
Definition zonePenalty (shipCells enemyFireZones : list Cell) (score : Z) : Z :=
  foldl (λ score cell,
           foldl (λ score zone, if sameCell cell zone then score - 5 else score)
                 score enemyFireZones)
        score shipCells.

Fixpoint penaltyLoop (ship : Ship.t) (playerShips : list nat)
    (allShips : list Ship.t) (score : Z) : option Z :=
  match playerShips with
  | [] => Some score
  | p :: rest =>
      playerShip ← allShips !! p;
      if negb (Ship.isAlive playerShip) then penaltyLoop ship rest allShips score
      else
        enemyFireZones ← Ship.getFireZones playerShip 3;
        shipCells ← Ship.getCells ship;
        penaltyLoop ship rest allShips (zonePenalty shipCells enemyFireZones score)
  end.

Fixpoint distanceLoop (ship : Ship.t) (playerShips : list nat)
    (allShips : list Ship.t) (score : Z) : option Z :=
  match playerShips with
  | [] => Some score
  | p :: rest =>
      playerShip ← allShips !! p;
      if negb (Ship.isAlive playerShip) then distanceLoop ship rest allShips score
      else
        let distance := Z.abs (Ship.x ship - Ship.x playerShip)
                        + Z.abs (Ship.y ship - Ship.y playerShip) in
        distanceLoop ship rest allShips (score + Z.max 0 (10 - distance))
  end.

Definition evaluatePosition (ship : nat) (playerShips : list nat)
    (allShips : list Ship.t) : option Z :=
  targets ← Combat.getTargetsInRange board ship allShips;
  let score := targetBonus targets 0 in
  self ← allShips !! ship;
  score ← penaltyLoop self playerShips allShips score;
  distanceLoop self playerShips allShips score.

(** [ship.x = oldX; ship.y = oldY; ship.orientation = oldOrientation] *)
Definition restore (ship : nat) (oldX oldY oldOrientation : Z)
    (allShips : list Ship.t) : option (list Ship.t) :=
  self ← allShips !! ship;
  Some (<[ship := Ship.set_orientation (Ship.set_xy self oldX oldY) oldOrientation]>
          allShips).

(** [for (const move of moves)] of [findBestMove]. *)
Fixpoint tryMoves (ship : nat) (playerShips : list nat) (moves : list Action)
    (bestScore : Z) (bestMove : option Action) (allShips : list Ship.t)
  : option (option Action * list Ship.t) :=
  match moves with
  | [] => Some (bestMove, allShips)
  | move :: rest =>
      self ← allShips !! ship;
      let oldX := Ship.x self in
      let oldY := Ship.y self in
      let oldOrientation := Ship.orientation self in
      '(success, allShips) ←
        (if String.eqb (type move) "move"
         then Ship.move ship (default "" (dir move)) allShips
         else if String.eqb (type move) "rotate"
         then Ship.rotate ship (default "" (dir move)) allShips
         else Some (false, allShips));
      if success : bool then
        score ← evaluatePosition ship playerShips allShips;
        allShips ← restore ship oldX oldY oldOrientation allShips;
        if score >? bestScore
        then tryMoves ship playerShips rest score (Some move) allShips
        else tryMoves ship playerShips rest bestScore bestMove allShips
      else
        allShips ← restore ship oldX oldY oldOrientation allShips;
        tryMoves ship playerShips rest bestScore bestMove allShips
  end.

Definition candidateMoves : list Action :=
  [ mkAction "move" (Some "forward"); mkAction "move" (Some "backward");
    mkAction "rotate" (Some "cw"); mkAction "rotate" (Some "ccw") ].

Definition findBestMove (ship : nat) (playerShips : list nat)
    (allShips : list Ship.t) (rng : Rng)
  : option (option Action * list Ship.t * Rng) :=
  let '(moves, rng) := shuffle candidateMoves rng in
  '(bestMove, allShips) ← tryMoves ship playerShips moves (-1) None allShips;
  Some (bestMove, allShips, rng).

(** [enemyShips.filter(ship => ship.isAlive)] *)
Fixpoint filterAlive (ships : list nat) (allShips : list Ship.t)
  : option (list nat) :=
  match ships with
  | [] => Some []
  | j :: rest =>
      ship ← allShips !! j;
      alive ← filterAlive rest allShips;
      Some (if Ship.isAlive ship then j :: alive else alive)
  end.

(** The scan [for (const ship of aliveShips)] of [takeTurn]; the state
    of the scan is [bestShip], [bestAction], [bestPriority]. *)
Fixpoint scan (playerShips aliveShips : list nat)
    (bestShip : option nat) (bestAction : option Action) (bestPriority : Z)
    (allShips : list Ship.t) (rng : Rng)
  : option (option nat * option Action * list Ship.t * Rng) :=
  match aliveShips with
  | [] => Some (bestShip, bestAction, allShips, rng)
  | ship :: rest =>
      targets ← Combat.getTargetsInRange board ship allShips;
      if (0 <? length targets)%nat then
        if bestPriority <? 2
        then scan playerShips rest (Some ship) (Some (mkAction "fire" None)) 2
                  allShips rng
        else scan playerShips rest bestShip bestAction bestPriority allShips rng
      else
        '(move, allShips, rng) ← findBestMove ship playerShips allShips rng;
        if bool_decide (is_Some move) && (bestPriority <? 1)
        then scan playerShips rest (Some ship) move 1 allShips rng
        else scan playerShips rest bestShip bestAction bestPriority allShips rng
  end.

(** [hitNames.join(', ')] *)
Fixpoint join (sep : string) (parts : list string) : string :=
  match parts with
  | [] => ""
  | [p] => p
  | p :: rest => p +:+ sep +:+ join sep rest
  end.

(** The last block of [takeTurn]: carry out the chosen action. *)
Definition execute (bestShip : nat) (bestAction : Action)
    (allShips : list Ship.t) : option (list string * list Ship.t) :=
  if String.eqb (type bestAction) "fire" then
    '(hits, allShips) ← Combat.fireBroadside board bestShip allShips;
    self ← allShips !! bestShip;
    let allShips := <[bestShip := Ship.set_hasFired self true]> allShips in
    if (0 <? length hits)%nat then
      let hitNames :=
        (λ h : Combat.Hit, if h.2 then "destroyed a ship" else "hit a ship") <$> hits in
      Some (["Enemy fired: " +:+ join ", " hitNames +:+ "!"], allShips)
    else Some (["Enemy ship fired but missed!"], allShips)
  else if String.eqb (type bestAction) "move" then
    '(moved, allShips) ← Ship.move bestShip (default "" (dir bestAction)) allShips;
    if moved : bool then
      self ← allShips !! bestShip;
      Some (["Enemy ship advanced"], <[bestShip := Ship.set_hasMoved self true]> allShips)
    else Some ([], allShips)
  else if String.eqb (type bestAction) "rotate" then
    '(moved, allShips) ← Ship.rotate bestShip (default "" (dir bestAction)) allShips;
    if moved : bool then
      self ← allShips !! bestShip;
      Some (["Enemy ship maneuvered"], <[bestShip := Ship.set_hasMoved self true]> allShips)
    else Some ([], allShips)
  else Some ([], allShips).

Definition takeTurn (enemyShips playerShips : list nat)
    (allShips : list Ship.t) (rng : Rng)
  : option (list string * list Ship.t * Rng) :=
  aliveShips ← filterAlive enemyShips allShips;
  if (length aliveShips =? 0)%nat then Some ([], allShips, rng)
  else
    let '(aliveShips, rng) := shuffle aliveShips rng in
    '(bestShip, bestAction, allShips, rng) ←
      scan playerShips aliveShips None None (-1) allShips rng;
    '(bestShip, bestAction, allShips, rng) ←
      match bestShip with
      | Some _ => Some (bestShip, bestAction, allShips, rng)
      | None =>
          let '(k, rng) := randomBelow (length aliveShips) rng in
          bestShip ← aliveShips !! k;
          '(bestAction, allShips, rng) ←
            findBestMove bestShip playerShips allShips rng;
          Some (Some bestShip, bestAction, allShips, rng)
      end;
    match bestShip, bestAction with
    | Some bestShip, Some bestAction =>
        '(actions, allShips) ← execute bestShip bestAction allShips;
        Some (actions, allShips, rng)
    | _, _ => Some ([], allShips, rng)
    end.
End WithCombat.
End AI.

(** ** game.js: the end-of-match check *)

Module Game.
(** The fields of [Game] that the engine reads or writes.  [allShips] is
    built once as [[...playerShips, ...enemyShips]] and shares the ship
    objects of the two fleets. *)
Record t := mk {
  state : GameState;
  playerWon : bool;
  gameMode : GameMode;
  playerShips : list Ship.t;
  enemyShips : list Ship.t
}.

Definition allShips (this : t) : list Ship.t := playerShips this ++ enemyShips this.

Definition checkGameOver (this : t) : bool * t :=
  let playerAlive := existsb Ship.isAlive (playerShips this) in
  let enemyAlive := existsb Ship.isAlive (enemyShips this) in
  if negb enemyAlive
  then (true, mk GAME_OVER true (gameMode this) (playerShips this) (enemyShips this))
  else if negb playerAlive
  then (true, mk GAME_OVER false (gameMode this) (playerShips this) (enemyShips this))
  else (false, this).
End Game.

(** * The title screen and the turn controller

    A shallow embedding of [web/js/title_screen.js] (the menu state machine)
    and of the rest of [game.js]: the set-up of the fleets, the turn
    controller and the handlers of keys, clicks and frames.

    Further conventions.
    - A key is the string [event.key].
    - A click is given by the grid cell that [board.screenToGrid] computes
      for it.
    - Times in milliseconds ([messageTimer], [aiActionTimer], the elapsed
      [dt * 1000] of a frame) are JavaScript floating-point numbers; the
      controller is written over any number type with the operations it
      uses on them (class [Millis]).
    - Sounds, drawing and the blinking prompt of the title screen
      ([blinkTimer], [showPrompt]) are left out: the handlers never read
      them. *)

From stdpp Require Import pretty.

Local Open Scope Z_scope.

(** [key === a || key === b || ...] *)
Definition isKey (key : string) (names : list string) : bool :=
  existsb (String.eqb key) names.

(** ** title_screen.js *)

Module TitleScreen.
Definition STATE_TITLE : Z := 0.
Definition STATE_MENU : Z := 1.
Definition STATE_NEWGAME : Z := 2.

Record t := mk { state : Z; selectedIndex : Z }.

Definition mainMenu : list string := ["NEW GAME"; "QUIT"].
Definition newgameMenu : list string := ["SINGLE PLAYER"; "2 PLAYER"; "BACK"].

(** The fields the constructor sets. *)
Definition new : t := mk STATE_TITLE 0.

(** [menu[index]]: [undefined] outside the array. *)
Definition item (menu : list string) (index : Z) : option string :=
  if index <? 0 then None else menu !! Z.to_nat index.

(** [handleKey(key)] returns [null] ([None]) or one of ['quit'],
    ['start_single'], ['start_multi']. *)
Definition handleKey (this : t) (key : string) : option string * t :=
  if state this =? STATE_TITLE then
    if String.eqb key "Enter" then (None, mk STATE_MENU 0)
    else (None, this)
  else if state this =? STATE_MENU then
    if isKey key ["ArrowUp"; "w"; "W"] then
      (None, mk (state this)
                (Z.rem (selectedIndex this - 1 + Z.of_nat (length mainMenu))
                       (Z.of_nat (length mainMenu))))
    else if isKey key ["ArrowDown"; "s"; "S"] then
      (None, mk (state this)
                (Z.rem (selectedIndex this + 1) (Z.of_nat (length mainMenu))))
    else if String.eqb key "Enter" then
      let selected := item mainMenu (selectedIndex this) in
      if bool_decide (selected = Some "NEW GAME") then (None, mk STATE_NEWGAME 0)
      else if bool_decide (selected = Some "QUIT") then (Some "quit", this)
      else (None, this)
    else if String.eqb key "Escape" then (None, mk STATE_TITLE (selectedIndex this))
    else (None, this)
  else if state this =? STATE_NEWGAME then
    if isKey key ["ArrowUp"; "w"; "W"] then
      (None, mk (state this)
                (Z.rem (selectedIndex this - 1 + Z.of_nat (length newgameMenu))
                       (Z.of_nat (length newgameMenu))))
    else if isKey key ["ArrowDown"; "s"; "S"] then
      (None, mk (state this)
                (Z.rem (selectedIndex this + 1) (Z.of_nat (length newgameMenu))))
    else if String.eqb key "Enter" then
      let selected := item newgameMenu (selectedIndex this) in
      if bool_decide (selected = Some "SINGLE PLAYER") then (Some "start_single", this)
      else if bool_decide (selected = Some "2 PLAYER") then (Some "start_multi", this)
      else if bool_decide (selected = Some "BACK") then (None, mk STATE_MENU 0)
      else (None, this)
    else if String.eqb key "Escape" then (None, mk STATE_MENU 0)
    else (None, this)
  else (None, this).

Definition reset (this : t) : t := mk STATE_TITLE 0.
End TitleScreen.

(** ** Times *)

(** The operations of the controller on its timers: a literal, [a - b],
    [a > 0] and [a <= 0]. *)
Class Millis (T : Type) := {
  millis : Z → T;
  minus : T → T → T;
  isPositive : T → bool;
  isNonPositive : T → bool
}.

(** Whole milliseconds. *)
Global Instance Z_Millis : Millis Z := {|
  millis z := z;
  minus := Z.sub;
  isPositive t := 0 <? t;
  isNonPositive t := t <=? 0
|}.

(** ** game.js: the turn controller *)

Module Play.
Section WithMillis.
Context {T : Type} `{!Millis T}.

(** The fields of [Game] beside those of [Game.t].  [selectedShip] is a
    position in [allShips]; [random] is what is left of the oracle. *)
Record t := mk {
  game : Game.t;
  titleScreen : TitleScreen.t;
  selectedShip : option nat;
  message : string;
  messageTimer : T;
  aiActionTimer : T;
  aiActions : list string;
  aiActionIndex : nat;
  random : AI.Rng
}.

(** [new Board(GRID_COLS, GRID_ROWS, CELL_SIZE)] *)
Definition board : Board.t := Board.mk GRID_COLS GRID_ROWS CELL_SIZE.

Definition state (this : t) : GameState := Game.state (game this).
Definition gameMode (this : t) : GameMode := Game.gameMode (game this).
Definition playerWon (this : t) : bool := Game.playerWon (game this).
Definition allShips (this : t) : list Ship.t := Game.allShips (game this).

(** The ships of [playerShips] and of [enemyShips] as positions in
    [allShips = [...playerShips, ...enemyShips]]. *)
Definition playerShips (this : t) : list nat :=
  seq 0 (length (Game.playerShips (game this))).

Definition enemyShips (this : t) : list nat :=
  seq (length (Game.playerShips (game this))) (length (Game.enemyShips (game this))).

(** Field assignments. *)
Definition set_game (this : t) (g : Game.t) : t :=
  mk g (titleScreen this) (selectedShip this) (message this) (messageTimer this)
     (aiActionTimer this) (aiActions this) (aiActionIndex this) (random this).

Definition set_state (this : t) (s : GameState) : t :=
  set_game this (Game.mk s (Game.playerWon (game this)) (Game.gameMode (game this))
                         (Game.playerShips (game this)) (Game.enemyShips (game this))).

Definition set_playerWon (this : t) (b : bool) : t :=
  set_game this (Game.mk (Game.state (game this)) b (Game.gameMode (game this))
                         (Game.playerShips (game this)) (Game.enemyShips (game this))).

Definition set_gameMode (this : t) (mode : GameMode) : t :=
  set_game this (Game.mk (Game.state (game this)) (Game.playerWon (game this)) mode
                         (Game.playerShips (game this)) (Game.enemyShips (game this))).

Definition set_fleets (this : t) (players enemies : list Ship.t) : t :=
  set_game this (Game.mk (Game.state (game this)) (Game.playerWon (game this))
                         (Game.gameMode (game this)) players enemies).

(** The ship objects are shared by [allShips] and the two fleets: a roster
    with mutated ships is read back into the fleets. *)
Definition set_allShips (this : t) (roster : list Ship.t) : t :=
  set_fleets this (take (length (Game.playerShips (game this))) roster)
                  (drop (length (Game.playerShips (game this))) roster).

Definition set_titleScreen (this : t) (ts : TitleScreen.t) : t :=
  mk (game this) ts (selectedShip this) (message this) (messageTimer this)
     (aiActionTimer this) (aiActions this) (aiActionIndex this) (random this).

Definition set_selectedShip (this : t) (ship : option nat) : t :=
  mk (game this) (titleScreen this) ship (message this) (messageTimer this)
     (aiActionTimer this) (aiActions this) (aiActionIndex this) (random this).

Definition set_message (this : t) (text : string) : t :=
  mk (game this) (titleScreen this) (selectedShip this) text (messageTimer this)
     (aiActionTimer this) (aiActions this) (aiActionIndex this) (random this).

Definition set_messageTimer (this : t) (timer : T) : t :=
  mk (game this) (titleScreen this) (selectedShip this) (message this) timer
     (aiActionTimer this) (aiActions this) (aiActionIndex this) (random this).

Definition set_aiActionTimer (this : t) (timer : T) : t :=
  mk (game this) (titleScreen this) (selectedShip this) (message this)
     (messageTimer this) timer (aiActions this) (aiActionIndex this) (random this).

Definition set_aiActions (this : t) (actions : list string) : t :=
  mk (game this) (titleScreen this) (selectedShip this) (message this)
     (messageTimer this) (aiActionTimer this) actions (aiActionIndex this)
     (random this).

Definition set_aiActionIndex (this : t) (index : nat) : t :=
  mk (game this) (titleScreen this) (selectedShip this) (message this)
     (messageTimer this) (aiActionTimer this) (aiActions this) index (random this).

Definition set_random (this : t) (rng : AI.Rng) : t :=
  mk (game this) (titleScreen this) (selectedShip this) (message this)
     (messageTimer this) (aiActionTimer this) (aiActions this) (aiActionIndex this)
     rng.

(** [ship.f = v] on the ship at a position of the roster. *)
Definition update_ship (ship : nat) (f : Ship.t → Ship.t) (roster : list Ship.t)
  : option (list Ship.t) :=
  s ← roster !! ship;
  Some (<[ship := f s]> roster).

(** [shuffle(array)]: the same text as [AI.shuffle]. *)
Definition shuffle {A} (array : list A) (rng : AI.Rng) : list A * AI.Rng :=
  AI.shuffle array rng.

Definition shipConfigs : list (Z * nat) := [(2, 2%nat); (3, 3%nat); (4, 2%nat)].

(** One of the two loops [for (let i = 0; i < allLengths.length; i++)] of
    [initShips], from index [i] on; [build length y] is the ship it
    pushes. *)
Fixpoint placeShips (build : Z → Z → Ship.t) (i : nat) (lengths yPositions : list Z)
  : option (list Ship.t) :=
  match lengths with
  | [] => Some []
  | length :: rest =>
      y ← yPositions !! (i mod Datatypes.length yPositions)%nat;
      ships ← placeShips build (S i) rest yPositions;
      Some (build length y :: ships)
  end.

Definition initShips (this : t) : option t :=
  let allLengths :=
    flat_map (λ config : Z * nat, replicate config.2 config.1) shipConfigs in
  let '(allLengths, rng) := shuffle allLengths (random this) in
  let playerYPositions := [0; 2; 4; 6; 8; 10; 12] in
  let enemyYPositions := [0; 2; 4; 6; 8; 10; 12] in
  let '(playerYPositions, rng) := shuffle playerYPositions rng in
  let '(enemyYPositions, rng) := shuffle enemyYPositions rng in
  players ← placeShips (λ length y, Ship.new (length - 1) y length RIGHT player board)
                       0 allLengths playerYPositions;
  let '(allLengths, rng) := shuffle allLengths rng in
  enemies ← placeShips (λ length y, Ship.new (20 - length) y length LEFT enemy board)
                       0 allLengths enemyYPositions;
  Some (set_random (set_fleets this players enemies) rng).

(** The constructor, up to [initShips]: the game starts on the title
    screen with two empty fleets. *)
Definition fresh (rng : AI.Rng) : t :=
  mk (Game.mk TITLE false SINGLE_PLAYER [] []) TitleScreen.new None ""
     (millis 0) (millis 0) [] 0 rng.

Definition new (rng : AI.Rng) : option t := initShips (fresh rng).

Definition resetGame (this : t) : option t :=
  let this := set_state this PLAYER_SELECT in
  let this := set_selectedShip this None in
  let this := set_playerWon this false in
  let this := set_message this "" in
  let this := set_messageTimer this (millis 0) in
  initShips this.

(** [showMessage(text, duration = 2000)] *)
Definition showMessage (this : t) (text : string) (duration : Z) : t :=
  set_messageTimer (set_message this text) (millis duration).

Definition startGame (this : t) (mode : GameMode) : option t :=
  let this := set_gameMode this mode in
  this ← resetGame this;
  match mode with
  | TWO_PLAYER => Some (showMessage this "PLAYER 1'S TURN - Select a ship!" 3000)
  | SINGLE_PLAYER => Some (showMessage this "Select a ship to begin!" 3000)
  end.

Definition startPlayerTurn (this : t) : t :=
  let this := set_state this PLAYER_SELECT in
  let this := set_selectedShip this None in
  set_fleets this
    ((λ ship, Ship.set_selected
                (Ship.set_hasFired (Ship.set_hasMoved ship false) false) false)
       <$> Game.playerShips (game this))
    (Game.enemyShips (game this)).

Definition startPlayer2Turn (this : t) : t :=
  let this := set_state this PLAYER2_SELECT in
  let this := set_selectedShip this None in
  let this :=
    set_fleets this
      (Game.playerShips (game this))
      ((λ ship, Ship.set_selected
                  (Ship.set_hasFired (Ship.set_hasMoved ship false) false) false)
         <$> Game.enemyShips (game this)) in
  showMessage this "PLAYER 2'S TURN!" 1500.

Definition startEnemyTurn (this : t) : option t :=
  match gameMode this with
  | TWO_PLAYER => Some (startPlayer2Turn this)
  | SINGLE_PLAYER =>
      let this := set_state this ENEMY_TURN in
      let this := set_selectedShip this None in
      let this :=
        set_fleets this
          (Game.playerShips (game this))
          ((λ ship, Ship.set_hasFired (Ship.set_hasMoved ship false) false)
             <$> Game.enemyShips (game this)) in
      '(actions, roster, rng) ←
        AI.takeTurn board (enemyShips this) (playerShips this) (allShips this)
                    (random this);
      let this := set_random (set_allShips this roster) rng in
      let this := set_aiActions this actions in
      let this := set_aiActionIndex this 0 in
      Some (set_aiActionTimer this (millis 500))
  end.

Definition checkGameOver (this : t) : bool * t :=
  let '(over, g) := Game.checkGameOver (game this) in (over, set_game this g).

(** [selectShip(ship, player = 1)] *)
Definition selectShip (this : t) (ship : nat) (player : Z) : option t :=
  roster ← match selectedShip this with
            | Some old => update_ship old (λ s, Ship.set_selected s false) (allShips this)
            | None => Some (allShips this)
            end;
  let this := set_selectedShip (set_allShips this roster) (Some ship) in
  roster ← update_ship ship (λ s, Ship.set_selected s true) (allShips this);
  let this := set_allShips this roster in
  Some (set_state this (if player =? 1 then PLAYER_MOVE else PLAYER2_MOVE)).

(** The loops [for (const ship of this.playerShips)] and
    [for (const ship of this.enemyShips)] of [handleClick]: the first
    living ship of the fleet on the clicked cell is selected. *)
Fixpoint clickLoop (ships : list nat) (grid : Cell) (player : Z) (this : t)
  : option t :=
  match ships with
  | [] => Some this
  | ship :: rest =>
      s ← allShips this !! ship;
      if negb (Ship.isAlive s) then clickLoop rest grid player this
      else
        cells ← Ship.getCells s;
        if existsb (λ c, sameCell c grid) cells
        then selectShip this ship player
        else clickLoop rest grid player this
  end.

(** [handleClick(event)], from the grid cell of the click on. *)
Definition handleClick (this : t) (grid : Cell) : option t :=
  if bool_decide (state this = GAME_OVER) then Some this
  else if bool_decide (state this = PLAYER_SELECT) then
    clickLoop (playerShips this) grid 1 this
  else if bool_decide (state this = PLAYER2_SELECT) then
    clickLoop (enemyShips this) grid 2 this
  else if bool_decide (state this = PLAYER_FIRE)
          || bool_decide (state this = PLAYER2_FIRE) then
    match selectedShip this with
    | Some selected =>
        s ← allShips this !! selected;
        if negb (Ship.hasFired s) then
          fireZones ← Combat.getSideFireZones board s;
          if existsb (λ z, sameCell z grid) fireZones then
            '(hitShip, destroyed, roster) ←
              Combat.fire board selected grid (allShips this);
            roster ← update_ship selected (λ s, Ship.set_hasFired s true) roster;
            let this := set_allShips this roster in
            match hitShip with
            | Some _ =>
                let this :=
                  if destroyed : bool
                  then showMessage this "SHIP DESTROYED!" 2000
                  else showMessage this "HIT!" 2000 in
                Some (checkGameOver this).2
            | None => Some (showMessage this "MISS!" 2000)
            end
          else Some this
        else Some this
    | None => Some this
    end
  else Some this.

(** The keys of the move phases, the same text for both players: the
    selected ship sails or turns. *)
Definition steer (this : t) (key : string) : option t :=
  match selectedShip this with
  | Some selected =>
      '(moved, roster) ←
        (if isKey key ["w"; "W"; "ArrowUp"]
         then Ship.move selected "forward" (allShips this)
         else if isKey key ["s"; "S"; "ArrowDown"]
         then Ship.move selected "backward" (allShips this)
         else if isKey key ["q"; "Q"]
         then Ship.rotate selected "ccw" (allShips this)
         else if isKey key ["e"; "E"]
         then Ship.rotate selected "cw" (allShips this)
         else if isKey key ["a"; "A"; "ArrowLeft"]
         then Ship.rotate selected "ccw" (allShips this)
         else if isKey key ["d"; "D"; "ArrowRight"]
         then Ship.rotate selected "cw" (allShips this)
         else Some (false, allShips this));
      Some (set_allShips this roster)
  | None => Some this
  end.

(** [if (this.selectedShip) { this.selectedShip.selected = false;
    this.selectedShip = null; }] *)
Definition deselect (this : t) : option t :=
  match selectedShip this with
  | Some selected =>
      roster ← update_ship selected (λ s, Ship.set_selected s false) (allShips this);
      Some (set_selectedShip (set_allShips this roster) None)
  | None => Some this
  end.

(** The broadside of the fire phases, the same text for both players, from
    [fireBroadside] to [this.selectedShip = null]. *)
Definition broadside (this : t) (selected : nat) : option t :=
  '(hits, roster) ← Combat.fireBroadside board selected (allShips this);
  roster ← update_ship selected (λ s, Ship.set_hasFired s true) roster;
  let this := set_allShips this roster in
  let this :=
    if (0 <? length hits)%nat then
      let destroyedCount := length (filter (λ h : Combat.Hit, h.2 = true) hits) in
      let hitCount := (length hits - destroyedCount)%nat in
      let this :=
        if (0 <? destroyedCount)%nat
        then showMessage this (pretty destroyedCount +:+ " SHIP(S) DESTROYED!") 2000
        else if (0 <? hitCount)%nat
        then showMessage this (pretty hitCount +:+ " HIT(S)!") 2500
        else this in
      (checkGameOver this).2
    else showMessage this "NO TARGETS IN RANGE!" 2500 in
  roster ← update_ship selected (λ s, Ship.set_selected s false) (allShips this);
  Some (set_selectedShip (set_allShips this roster) None).

(** [this.selectedShip && !this.selectedShip.hasFired] *)
Definition canFire (this : t) : option (option nat) :=
  match selectedShip this with
  | Some selected =>
      s ← allShips this !! selected;
      Some (if Ship.hasFired s then None else Some selected)
  | None => Some None
  end.

(** The blocks of [handleKeyDown] after the Escape key, in the order of the
    source.  A move phase says whether it returned. *)
Definition player1Select (this : t) (key : string) : option t :=
  if bool_decide (state this = PLAYER_SELECT) then
    if String.eqb key "Enter" then startEnemyTurn this else Some this
  else Some this.

Definition player1Move (this : t) (key : string) : option (bool * t) :=
  if bool_decide (state this = PLAYER_MOVE) then
    this ← steer this key;
    if String.eqb key "Enter" then
      this ← deselect this;
      let this := set_state this PLAYER_FIRE in
      Some (true, showMessage this "SELECT SHIP TO FIRE" 2500)
    else Some (false, this)
  else Some (false, this).

Definition player1Fire (this : t) (key : string) : option t :=
  if bool_decide (state this = PLAYER_FIRE) then
    this ← (if isKey key [" "; "f"; "F"] then
              armed ← canFire this;
              match armed with
              | Some selected =>
                  this ← broadside this selected;
                  startEnemyTurn this
              | None => Some this
              end
            else Some this);
    if String.eqb key "Enter" then startEnemyTurn this else Some this
  else Some this.

Definition player2Move (this : t) (key : string) : option (bool * t) :=
  if bool_decide (state this = PLAYER2_MOVE) then
    this ← steer this key;
    if String.eqb key "Enter" then
      this ← deselect this;
      let this := set_state this PLAYER2_FIRE in
      Some (true, showMessage this "P2: SELECT SHIP TO FIRE" 1500)
    else Some (false, this)
  else Some (false, this).

Definition player2Fire (this : t) (key : string) : option t :=
  if bool_decide (state this = PLAYER2_FIRE) then
    this ← (if isKey key [" "; "f"; "F"] then
              armed ← canFire this;
              match armed with
              | Some selected =>
                  this ← broadside this selected;
                  let this := startPlayerTurn this in
                  Some (showMessage this "PLAYER 1'S TURN!" 2500)
              | None => Some this
              end
            else Some this);
    if String.eqb key "Enter"
    then Some (showMessage (startPlayerTurn this) "PLAYER 1'S TURN!" 1500)
    else Some this
  else Some this.

(** [if (key === 'Tab')] *)
Definition tabKey (this : t) (key : string) : option t :=
  if String.eqb key "Tab" then
    match selectedShip this with
    | Some _ =>
        this ← deselect this;
        if bool_decide (state this = PLAYER_MOVE) || bool_decide (state this = PLAYER_FIRE)
        then Some (set_state this PLAYER_SELECT)
        else if bool_decide (state this = PLAYER2_MOVE)
                || bool_decide (state this = PLAYER2_FIRE)
        then Some (set_state this PLAYER2_SELECT)
        else Some this
    | None => Some this
    end
  else Some this.

Definition handleKeyDown (this : t) (key : string) : option t :=
  if bool_decide (state this = TITLE) then
    let '(result, ts) := TitleScreen.handleKey (titleScreen this) key in
    let this := set_titleScreen this ts in
    if bool_decide (result = Some "start_single") then startGame this SINGLE_PLAYER
    else if bool_decide (result = Some "start_multi") then startGame this TWO_PLAYER
    else Some this
  else if bool_decide (state this = GAME_OVER) then
    if isKey key ["r"; "R"] then startGame this (gameMode this) else Some this
  else if String.eqb key "Escape" then
    let this := set_state this TITLE in
    Some (set_titleScreen this (TitleScreen.reset (titleScreen this)))
  else
    this ← player1Select this key;
    '(returned, this) ← player1Move this key;
    if returned : bool then Some this
    else
      this ← player1Fire this key;
      '(returned, this) ← player2Move this key;
      if returned : bool then Some this
      else
        this ← player2Fire this key;
        tabKey this key.

(** [update(dt)]; [elapsed] is [dt * 1000]. *)
Definition update (this : t) (elapsed : T) : t :=
  if bool_decide (state this = TITLE) then this
  else
    let this :=
      if isPositive (messageTimer this) then
        let this := set_messageTimer this (minus (messageTimer this) elapsed) in
        if isNonPositive (messageTimer this) then set_message this "" else this
      else this in
    if bool_decide (state this = ENEMY_TURN) then
      let this := set_aiActionTimer this (minus (aiActionTimer this) elapsed) in
      if isNonPositive (aiActionTimer this) then
        match aiActions this !! aiActionIndex this with
        | Some action =>
            let this := showMessage this action 1000 in
            let this := set_aiActionIndex this (S (aiActionIndex this)) in
            set_aiActionTimer this (millis 800)
        | None =>
            let '(over, this) := checkGameOver this in
            if over : bool then this
            else showMessage (startPlayerTurn this) "YOUR TURN!" 1500
        end
      else this
    else this.
End WithMillis.
Arguments t T : clear implicits.
End Play.

(** * Vocabulary of the properties *)

(** The four headings a ship is built with. *)
Definition validOrientation (o : Z) : Prop :=
  o = UP ∨ o = RIGHT ∨ o = DOWN ∨ o = LEFT.

Definition wellFormed (allShips : list Ship.t) : Prop :=
  ∀ s, s ∈ allShips → validOrientation (Ship.orientation s).

(** [ship.isAlive], as a proposition. *)
Definition living (s : Ship.t) : Prop := 0 < Ship.cannonsPerSide s.

(** [c] is one of the cells [s.getCells()] returns. *)
Definition occupies (s : Ship.t) (c : Cell) : Prop :=
  ∃ cells, Ship.getCells s = Some cells ∧ c ∈ cells.

Definition inBounds (b : Board.t) (c : Cell) : Prop :=
  0 ≤ c.1 < Board.cols b ∧ 0 ≤ c.2 < Board.rows b.

(** No cell is occupied by two distinct living ships of the roster. *)
Definition noOverlap (allShips : list Ship.t) : Prop :=
  ∀ i j s s' c,
    i ≠ j → allShips !! i = Some s → allShips !! j = Some s' →
    living s → living s' → occupies s c → ¬ occupies s' c.

(** Every cell of a living ship lies on the ship's board. *)
Definition allInBounds (allShips : list Ship.t) : Prop :=
  ∀ s c, s ∈ allShips → living s → occupies s c → inBounds (Ship.board s) c.

Definition validPlacement (allShips : list Ship.t) : Prop :=
  wellFormed allShips ∧ noOverlap allShips ∧ allInBounds allShips.

(** One step of a match on the roster: any ship moves, rotates, fires at a
    cell or fires its broadside; the opponent takes its turn; the game sets
    the selection mark and the per-turn flags of a ship.  An action that
    throws has no successor. *)
Inductive step (board : Board.t) : list Ship.t → list Ship.t → Prop :=
  | step_move this direction allShips ok allShips' :
      Ship.move this direction allShips = Some (ok, allShips') →
      step board allShips allShips'
  | step_rotate this direction allShips ok allShips' :
      Ship.rotate this direction allShips = Some (ok, allShips') →
      step board allShips allShips'
  | step_fire attacker targetCell allShips result allShips' :
      Combat.fire board attacker targetCell allShips = Some (result, allShips') →
      step board allShips allShips'
  | step_fireBroadside attacker allShips hits allShips' :
      Combat.fireBroadside board attacker allShips = Some (hits, allShips') →
      step board allShips allShips'
  | step_takeTurn enemyShips playerShips allShips rng actions allShips' rng' :
      AI.takeTurn board enemyShips playerShips allShips rng
        = Some (actions, allShips', rng') →
      step board allShips allShips'
  | step_flags this allShips self sel moved fired :
      allShips !! this = Some self →
      step board allShips
        (<[this := Ship.set_selected
                     (Ship.set_hasMoved (Ship.set_hasFired self fired) moved) sel]>
           allShips).

Definition reachable (board : Board.t) : list Ship.t → list Ship.t → Prop :=
  rtc (step board).

(** A boolean check of [validPlacement], for concrete rosters. *)
Definition cellsOrEmpty (s : Ship.t) : list Cell := default [] (Ship.getCells s).

Definition validOrientationb (o : Z) : bool :=
  (o =? UP) || (o =? RIGHT) || (o =? DOWN) || (o =? LEFT).

Definition disjointb (a b : list Cell) : bool :=
  forallb (λ c, negb (existsb (sameCell c) b)) a.

Fixpoint noOverlapb (ships : list Ship.t) : bool :=
  match ships with
  | [] => true
  | s :: rest =>
      forallb (λ s', negb (Ship.isAlive s) || negb (Ship.isAlive s')
                     || disjointb (cellsOrEmpty s) (cellsOrEmpty s')) rest
      && noOverlapb rest
  end.

Definition validPlacementb (allShips : list Ship.t) : bool :=
  forallb (λ s, validOrientationb (Ship.orientation s)) allShips
  && noOverlapb allShips
  && forallb (λ s, negb (Ship.isAlive s)
                   || forallb (λ c, Board.isValidCell (Ship.board s) c.1 c.2)
                              (cellsOrEmpty s)) allShips.

(** ** Fire zones, in the words of the specification *)

(** The unit vector of a heading ([(0, 0)] for a number that is none). *)
Definition heading (s : Ship.t) : Dir :=
  default (mkDir 0 0) (DIRECTION_VECTORS (Ship.orientation s)).

(** Occupied cell number [i], counted from the bow (number 0) backward. *)
Definition segment (s : Ship.t) (i : Z) : Cell :=
  (Ship.x s - dx (heading s) * i, Ship.y s - dy (heading s) * i).

Definition vertical (s : Ship.t) : Prop :=
  Ship.orientation s = UP ∨ Ship.orientation s = DOWN.

(** [c] is next to [p] across the ship: at ±X of it for a vertical ship,
    at ±Y for a horizontal one. *)
Definition lateralOf (s : Ship.t) (p c : Cell) : Prop :=
  (vertical s ∧ (c = (p.1 - 1, p.2) ∨ c = (p.1 + 1, p.2))) ∨
  (¬ vertical s ∧ (c = (p.1, p.2 - 1) ∨ c = (p.1, p.2 + 1))).

(** The segments that fire: numbers 1 to [min(cannonCapacity, length − 1)]. *)
Definition firingSegment (s : Ship.t) (i : Z) : Prop :=
  1 ≤ i ≤ Z.min (Ship.cannonsPerSide s) (Ship.length s - 1).

(** [c] is in the narrow fire zone as the specification describes it. *)
Definition inNarrowZone (board : Board.t) (s : Ship.t) (c : Cell) : Prop :=
  inBounds board c ∧ ∃ i, firingSegment s i ∧ lateralOf s (segment s i) c.

(** The loop "push the cell [f a] if it is on the board and not yet in the
    list", which [getSideFireZones] and [getFireZones] both run. *)
Definition collect {A} (board : Board.t) (f : A → Cell) (acc : list Cell)
    (l : list A) : list Cell :=
  foldl (λ acc a, if Board.isValidCell board (f a).1 (f a).2
                  then Ship.pushNew acc (f a) else acc) acc l.

(** [c] is pushed while the loop of [getSideFireZones] runs over
    [shipCells] from index [i] on. *)
Definition pushedFrom (offsets : list Dir) (cannonCount : Z) (i : nat)
    (shipCells : list Cell) (c : Cell) : Prop :=
  ∃ (k : nat) (cell : Cell) (o : Dir),
    shipCells !! k = Some cell ∧ (i + k)%nat ≠ 0%nat ∧
    Z.of_nat (i + k) ≤ cannonCount ∧ o ∈ offsets ∧
    c = (cell.1 + dx o, cell.2 + dy o).

(** ** Broadside targets, in the words of the specification *)

(** A ship is hit by a broadside over [zones] fired by team [t]: it is of
    the other team, alive, and at least one of its cells is in the zones. *)
Definition isTarget (zones : list Cell) (t : Team) (s : Ship.t) : Prop :=
  Ship.team s ≠ t ∧ living s ∧ ∃ c, occupies s c ∧ c ∈ zones.

(** ** End of the match *)

(** A side has zero living ships. *)
Definition noneLiving (ships : list Ship.t) : Prop := ∀ s, s ∈ ships → ¬ living s.

(** ** Repeated calls *)

(** The heading [rotate] proposes. *)
Definition turned (direction : string) (o : Z) : Z :=
  if String.eqb direction "cw" then Z.rem (o + 90) 360 else Z.rem (o - 90 + 360) 360.

(** [rotate] called [n] times in a row on the same ship: the results of the
    calls, in order, and the roster after the last one. *)
Fixpoint rotateTimes (n : nat) (this : nat) (direction : string)
    (allShips : list Ship.t) : option (list bool * list Ship.t) :=
  match n with
  | O => Some ([], allShips)
  | S n' =>
      '(ok, allShips) ← Ship.rotate this direction allShips;
      '(oks, allShips) ← rotateTimes n' this direction allShips;
      Some (ok :: oks, allShips)
  end.

(** ** The score of a position, in the words of the specification *)

Global Instance living_dec (s : Ship.t) : Decision (living s).
Proof. unfold living. apply _. Defined.

Definition sumZ {A} (f : A → Z) (l : list A) : Z := foldr (λ a acc, f a + acc) 0 l.

(** How many of [cells] lie in [zone]. *)
Definition cellsWithin (zone cells : list Cell) : Z :=
  Z.of_nat (length (filter (λ c, c ∈ zone) cells)).

(** The wide threat zone of a ship: [getFireZones()] with its default
    [maxRange = 3]. *)
Definition wideZone (s : Ship.t) : list Cell := default [] (Ship.getFireZones s 3).

Definition manhattan (a b : Ship.t) : Z :=
  Z.abs (Ship.x a - Ship.x b) + Z.abs (Ship.y a - Ship.y b).

(** The cells of living ships of the other team that lie in [zones]. *)
Definition threatened (zones : list Cell) (t : Team) (allShips : list Ship.t) : Z :=
  sumZ (λ s, cellsWithin zones (cellsOrEmpty s))
       (filter (λ s, Ship.team s ≠ t ∧ living s) allShips).

(** The score as the specification words it: the penalty counts the own
    cells that lie in the wide zone of some living enemy ship. *)
Definition claimedScore (zones : list Cell) (self : Ship.t)
    (players allShips : list Ship.t) : Z :=
  10 * threatened zones (Ship.team self) allShips
  - 5 * Z.of_nat (length (filter (λ c, Exists (λ p, c ∈ wideZone p) (filter living players))
                                 (cellsOrEmpty self)))
  + sumZ (λ p, Z.max 0 (10 - manhattan self p)) (filter living players).

(** The score with the penalty counted per living enemy ship: for each of
    them, the own cells that lie in its wide zone. *)
Definition pairwiseScore (zones : list Cell) (self : Ship.t)
    (players allShips : list Ship.t) : Z :=
  10 * threatened zones (Ship.team self) allShips
  - 5 * sumZ (λ p, cellsWithin (wideZone p) (cellsOrEmpty self)) (filter living players)
  + sumZ (λ p, Z.max 0 (10 - manhattan self p)) (filter living players).

(** ** The wide zone, in the words of the specification *)

(** [c] is [d] cells away from [p] across the ship. *)
Definition lateralAt (s : Ship.t) (p : Cell) (d : Z) (c : Cell) : Prop :=
  (vertical s ∧ (c = (p.1 + d, p.2) ∨ c = (p.1 - d, p.2))) ∨
  (¬ vertical s ∧ (c = (p.1, p.2 + d) ∨ c = (p.1, p.2 - d))).

(** [c] is on the ship's board and at most [maxRange] cells to either side
    of one of its occupied cells, the bow included. *)
Definition inWideZone (s : Ship.t) (maxRange : Z) (c : Cell) : Prop :=
  inBounds (Ship.board s) c ∧
  ∃ i d, 0 ≤ i < Ship.length s ∧ 1 ≤ d ≤ maxRange ∧ lateralAt s (segment s i) d c.

(** The three nested loops of [getFireZones], over [collect]. *)
Definition sweep (board : Board.t) (dirs : list Dir) (maxRange : Z)
    (acc : list Cell) (cells : list Cell) : list Cell :=
  foldl (λ acc cell,
           foldl (λ acc pdir,
                    collect board
                      (λ d, (cell.1 + dx pdir * d, cell.2 + dy pdir * d))
                      acc (seqZ 1 maxRange))
                 acc dirs)
        acc cells.

(** * Vocabulary of the further properties *)

(** A single shot at [cell] by team [t] would hit the ship: it is of the
    other team, alive, and occupies the cell. *)
Definition shotAt (t : Team) (cell : Cell) (s : Ship.t) : Prop :=
  Ship.team s ≠ t ∧ living s ∧ occupies s cell.

(** The three ways the engine writes to a ship of the roster: a new pose
    ([x], [y], [orientation]), one [takeDamage(1)], new values of the
    selection mark and the per-turn flags. *)
Inductive touch : list Ship.t → list Ship.t → Prop :=
  | touch_pose i allShips s newX newY newOrientation :
      allShips !! i = Some s →
      touch allShips
        (<[i := Ship.set_orientation (Ship.set_xy s newX newY) newOrientation]> allShips)
  | touch_damage i allShips s :
      allShips !! i = Some s →
      touch allShips (<[i := (Ship.takeDamage s 1).1]> allShips)
  | touch_flags i allShips s sel moved fired :
      allShips !! i = Some s →
      touch allShips
        (<[i := Ship.set_selected
                  (Ship.set_hasMoved (Ship.set_hasFired s fired) moved) sel]> allShips).

(** What stays of a ship [s0] in a later state [s] of it: its team, its
    length, its board and its full complement of cannons; and, for a ship
    whose cannons were not negative, the cannons left are not negative and
    have not grown. *)
Definition laterStateOf (s0 s : Ship.t) : Prop :=
  Ship.team s = Ship.team s0 ∧
  Ship.length s = Ship.length s0 ∧
  Ship.maxLength s = Ship.maxLength s0 ∧
  Ship.board s = Ship.board s0 ∧
  Ship.maxCannonsPerSide s = Ship.maxCannonsPerSide s0 ∧
  (0 ≤ Ship.cannonsPerSide s0 →
   0 ≤ Ship.cannonsPerSide s ≤ Ship.cannonsPerSide s0).

(** ** The opponent's choices *)

(** The call a candidate action stands for. *)
Definition attempt (ship : nat) (move : AI.Action) (allShips : list Ship.t)
  : option (bool * list Ship.t) :=
  if String.eqb (AI.type move) "move"
  then Ship.move ship (default "" (AI.dir move)) allShips
  else if String.eqb (AI.type move) "rotate"
  then Ship.rotate ship (default "" (AI.dir move)) allShips
  else Some (false, allShips).

(** The candidate is accepted and the position after it scores [z]. *)
Definition scores (board : Board.t) (ship : nat) (playerShips : list nat)
    (allShips : list Ship.t) (move : AI.Action) (z : Z) : Prop :=
  ∃ allShips1,
    attempt ship move allShips = Some (true, allShips1) ∧
    AI.evaluatePosition board ship playerShips allShips1 = Some z.

(** The attacker has at least one target in range. *)
Definition hasTargets (board : Board.t) (allShips : list Ship.t) (ship : nat) : Prop :=
  ∃ targets, Combat.getTargetsInRange board ship allShips = Some targets ∧
             targets ≠ [].

(** The line [takeTurn] logs for a broadside that hit. *)
Definition firedLine (hits : list Combat.Hit) : string :=
  "Enemy fired: "
  +:+ AI.join ", " ((λ h : Combat.Hit, if h.2 then "destroyed a ship" else "hit a ship")
                     <$> hits)
  +:+ "!".

(** A candidate the ship can legally make and whose position scores at
    least 0. *)
Definition usefulMove (board : Board.t) (playerShips : list nat)
    (allShips : list Ship.t) (ship : nat) (m : AI.Action) : Prop :=
  m ∈ AI.candidateMoves ∧
  ∃ z, scores board ship playerShips allShips m z ∧ 0 ≤ z.

(** The ship has something to do: a target to fire at or a useful move. *)
Definition canAct (board : Board.t) (playerShips : list nat)
    (allShips : list Ship.t) (ship : nat) : Prop :=
  hasTargets board allShips ship ∨ ∃ m, usefulMove board playerShips allShips ship m.

(** The line [takeTurn] logs for an accepted move or rotation. *)
Definition movedLine (m : AI.Action) : string :=
  if String.eqb (AI.type m) "move" then "Enemy ship advanced"
  else "Enemy ship maneuvered".

(** ** The title screen *)

(** The menu the title screen shows: none on the title itself. *)
Definition menuShown (ts : TitleScreen.t) : list string :=
  if TitleScreen.state ts =? TitleScreen.STATE_MENU then TitleScreen.mainMenu
  else if TitleScreen.state ts =? TitleScreen.STATE_NEWGAME then TitleScreen.newgameMenu
  else [].

(** The screen is in one of its three states and, where a menu is shown,
    the selected index names one of its items. *)
Definition onMenu (ts : TitleScreen.t) : Prop :=
  (TitleScreen.state ts = TitleScreen.STATE_TITLE ∧
   0 ≤ TitleScreen.selectedIndex ts < 2) ∨
  (TitleScreen.state ts ≠ TitleScreen.STATE_TITLE ∧
   is_Some (TitleScreen.item (menuShown ts) (TitleScreen.selectedIndex ts))).

(** ** The fleets *)

(** The seven ship lengths and the seven rows of a fleet. *)
Definition fleetLengths : list Z := [2; 2; 3; 3; 3; 4; 4].
Definition fleetRows : list Z := [0; 2; 4; 6; 8; 10; 12].

(** A ship as [initShips] builds it for the left and for the right fleet:
    stern on the edge of the board, bow toward the other fleet. *)
Definition playerShipOf (length y : Z) : Ship.t :=
  Ship.new (length - 1) y length RIGHT player (Board.mk GRID_COLS GRID_ROWS CELL_SIZE).

Definition enemyShipOf (length y : Z) : Ship.t :=
  Ship.new (20 - length) y length LEFT enemy (Board.mk GRID_COLS GRID_ROWS CELL_SIZE).

(** A fleet of seven ships built by [build], one per row, with the seven
    lengths in some order. *)
Definition freshFleet (build : Z → Z → Ship.t) (ships : list Ship.t) : Prop :=
  ∃ lengths rows,
    lengths ≡ₚ fleetLengths ∧ rows ≡ₚ fleetRows ∧
    ships = zip_with build lengths rows.

(** The ship has all the cannons it was built with, and at least one. *)
Definition fullyArmed (s : Ship.t) : Prop :=
  Ship.cannonsPerSide s = Ship.maxCannonsPerSide s ∧ 0 < Ship.cannonsPerSide s.

(** ** A match at the controller *)

(** What reaches the game: a key, a click on a grid cell, a frame after
    [elapsed] milliseconds. *)
Inductive Event (T : Type) :=
  | KeyDown (key : string)
  | Click (grid : Cell)
  | Frame (elapsed : T).
Arguments KeyDown {T} key.
Arguments Click {T} grid.
Arguments Frame {T} elapsed.

Definition handle {T} `{!Millis T} (this : Play.t T) (event : Event T)
  : option (Play.t T) :=
  match event with
  | KeyDown key => Play.handleKeyDown this key
  | Click grid => Play.handleClick this grid
  | Frame elapsed => Some (Play.update this elapsed)
  end.

(** The events handled one after the other; [None] when a handler throws. *)
Fixpoint play {T} `{!Millis T} (events : list (Event T)) (this : Play.t T)
  : option (Play.t T) :=
  match events with
  | [] => Some this
  | event :: rest => this ← handle this event; play rest this
  end.

(** The ships no human broadside and no opponent's broadside can reach in
    a game of the given mode: the enemy fleet, and in a two-player game
    every ship. *)
Definition outOfReach (mode : GameMode) (s : Ship.t) : Prop :=
  Ship.team s = enemy ∨ mode = TWO_PLAYER.

(** [s'] is a later state of the ship [s] in a game of the given mode: the
    same team, still destroyed if it was, and with the cannons it had if it
    is out of reach. *)
Definition kept (mode : GameMode) (s s' : Ship.t) : Prop :=
  Ship.team s' = Ship.team s ∧
  (¬ living s → ¬ living s') ∧
  (outOfReach mode s →
   Ship.cannonsPerSide s' = Ship.cannonsPerSide s ∧
   Ship.maxCannonsPerSide s' = Ship.maxCannonsPerSide s).

(** [s'] lies where [s] lies and has the cannons [s] has. *)
Definition samePlace (s s' : Ship.t) : Prop :=
  Ship.getCells s' = Ship.getCells s ∧
  Ship.orientation s' = Ship.orientation s ∧
  Ship.board s' = Ship.board s ∧
  Ship.team s' = Ship.team s ∧
  Ship.cannonsPerSide s' = Ship.cannonsPerSide s ∧
  Ship.maxCannonsPerSide s' = Ship.maxCannonsPerSide s.

(** The two fleets of a match: seven ships a side, validly placed, each
    fleet of its team, and every ship out of reach fully armed. *)
Definition fleetsInOrder (mode : GameMode) (players enemies : list Ship.t) : Prop :=
  length players = 7%nat ∧ length enemies = 7%nat ∧
  validPlacement (players ++ enemies) ∧
  Forall (λ s, Ship.team s = player) players ∧
  Forall (λ s, Ship.team s = enemy) enemies ∧
  Forall (λ s, outOfReach mode s → fullyArmed s) (players ++ enemies).

(** The state of a game in progress. *)
Definition inPlay {T} (this : Play.t T) : Prop :=
  fleetsInOrder (Play.gameMode this) (Game.playerShips (Play.game this))
                (Game.enemyShips (Play.game this)) ∧
  (∀ i, Play.selectedShip this = Some i → (i < 14)%nat) ∧
  (Play.state this = PLAYER_FIRE ∨ Play.state this = PLAYER2_FIRE →
   Play.selectedShip this = None) ∧
  Play.playerWon this = false ∧
  (Play.state this = GAME_OVER → noneLiving (Game.playerShips (Play.game this))).

(** [s'] has the cannons [s] has. *)
Definition sameCannons (s s' : Ship.t) : Prop :=
  Ship.cannonsPerSide s' = Ship.cannonsPerSide s.

(** Who holds the helm: a ship is selected only in a move phase (or on the
    title screen, when a match was left by Escape), and in the move phase
    of a player the selected ship is a living ship of that player's fleet. *)
Definition ownShipSelected {T} (this : Play.t T) : Prop :=
  (∀ i, Play.selectedShip this = Some i →
        Play.state this = PLAYER_MOVE ∨ Play.state this = PLAYER2_MOVE ∨
        Play.state this = TITLE) ∧
  (Play.state this = PLAYER_MOVE →
   ∃ i s, Play.selectedShip this = Some i ∧ (i < 7)%nat ∧
          Play.allShips this !! i = Some s ∧ living s) ∧
  (Play.state this = PLAYER2_MOVE →
   ∃ i s, Play.selectedShip this = Some i ∧ (7 ≤ i)%nat ∧
          Play.allShips this !! i = Some s ∧ living s).

(** [this'] has the state, the selection and, ship by ship, the cannons of
    [this]. *)
Definition sameHands {T} (this this' : Play.t T) : Prop :=
  Play.state this' = Play.state this ∧
  Play.selectedShip this' = Play.selectedShip this ∧
  Forall2 sameCannons (Play.allShips this) (Play.allShips this').

(** The event is not the restart key. *)
Definition notRestart {T} (event : Event T) : Prop :=
  match event with
  | KeyDown key => isKey key ["r"; "R"] = false
  | _ => True
  end.

(** The select phase and the move phase of a player (1 or 2), and the
    fleet the player commands, as positions of the roster. *)
Definition selectPhase (player : Z) : GameState :=
  if player =? 1 then PLAYER_SELECT else PLAYER2_SELECT.

Definition movePhase (player : Z) : GameState :=
  if player =? 1 then PLAYER_MOVE else PLAYER2_MOVE.

Definition fleetOf {T} (this : Play.t T) (player : Z) : list nat :=
  if player =? 1 then Play.playerShips this else Play.enemyShips this.

(** ** The order of the phases *)

(** The moves of the turn controller: what an event may do to the mode and
    the phase of the game. *)
Inductive turnStep {T} : Event T → GameMode → GameState → GameMode → GameState → Prop :=
  | turn_stay event mode phase :
      turnStep event mode phase mode phase
  | turn_start key mode mode' :
      turnStep (KeyDown key) mode TITLE mode' PLAYER_SELECT
  | turn_restart key mode :
      isKey key ["r"; "R"] = true →
      turnStep (KeyDown key) mode GAME_OVER mode PLAYER_SELECT
  | turn_escape mode phase :
      phase ≠ TITLE → phase ≠ GAME_OVER →
      turnStep (KeyDown "Escape") mode phase mode TITLE
  | turn_select grid mode :
      turnStep (Click grid) mode PLAYER_SELECT mode PLAYER_MOVE
  | turn_deselect mode :
      turnStep (KeyDown "Tab") mode PLAYER_MOVE mode PLAYER_SELECT
  | turn_moved mode :
      turnStep (KeyDown "Enter") mode PLAYER_MOVE mode PLAYER_FIRE
  | turn_pass phase :
      phase = PLAYER_SELECT ∨ phase = PLAYER_FIRE →
      turnStep (KeyDown "Enter") SINGLE_PLAYER phase SINGLE_PLAYER ENEMY_TURN
  | turn_pass_to_player2 phase :
      phase = PLAYER_SELECT ∨ phase = PLAYER_FIRE →
      turnStep (KeyDown "Enter") TWO_PLAYER phase TWO_PLAYER PLAYER2_SELECT
  | turn_enemy_done elapsed mode :
      turnStep (Frame elapsed) mode ENEMY_TURN mode PLAYER_SELECT
  | turn_enemy_won elapsed mode :
      turnStep (Frame elapsed) mode ENEMY_TURN mode GAME_OVER
  | turn_select2 grid mode :
      turnStep (Click grid) mode PLAYER2_SELECT mode PLAYER2_MOVE
  | turn_deselect2 mode :
      turnStep (KeyDown "Tab") mode PLAYER2_MOVE mode PLAYER2_SELECT
  | turn_moved2 mode :
      turnStep (KeyDown "Enter") mode PLAYER2_MOVE mode PLAYER2_FIRE
  | turn_pass_to_player1 mode :
      turnStep (KeyDown "Enter") mode PLAYER2_FIRE mode PLAYER_SELECT.

(** The phases of a mode: a single-player game is never in a phase of the
    second player, a two-player game never in the opponent's turn. *)
Definition phaseOfMode (mode : GameMode) (phase : GameState) : Prop :=
  match mode with
  | SINGLE_PLAYER =>
      phase ≠ PLAYER2_SELECT ∧ phase ≠ PLAYER2_MOVE ∧ phase ≠ PLAYER2_FIRE
  | TWO_PLAYER => phase ≠ ENEMY_TURN
  end.

(** * Scenarios *)

(** The board of the game: [new Board(GRID_COLS, GRID_ROWS, CELL_SIZE)]. *)
Definition gameBoard : Board.t := Board.mk GRID_COLS GRID_ROWS CELL_SIZE.

(** Two length-3 ships facing each other on row 0, and the roster after the
    first one has sailed one cell forward. *)
Definition duelStart : list Ship.t :=
  [ Ship.new 2 0 3 RIGHT player gameBoard; Ship.new 17 0 3 LEFT enemy gameBoard ].

Definition duelAfterMove : list Ship.t :=
  [ Ship.set_xy (Ship.new 2 0 3 RIGHT player gameBoard) 3 0;
    Ship.new 17 0 3 LEFT enemy gameBoard ].

(** The length-3 ship of the scenarios: bow at (5,5), facing right. *)
Definition frigate : Ship.t := Ship.new 5 5 3 RIGHT player gameBoard.

(** The frigate with an enemy ship lying along its port side, two of whose
    cells, (3,4) and (4,4), are in the frigate's zone; and a friendly ship
    on the other side. *)
Definition broadsideRoster : list Ship.t :=
  [ frigate; Ship.new 2 4 3 LEFT enemy gameBoard; Ship.new 5 6 3 RIGHT player gameBoard ].

(** The roster of the broadside scenario with the frigate disarmed. *)
Definition disarmedRoster : list Ship.t :=
  [ (Ship.takeDamage frigate 2).1; Ship.new 2 4 3 LEFT enemy gameBoard ].

(** A player frigate and two sunk enemy ships. *)
Definition sunkFleetRoster : list Ship.t :=
  [ frigate;
    (Ship.takeDamage (Ship.new 17 0 3 LEFT enemy gameBoard) 2).1;
    (Ship.takeDamage (Ship.new 18 2 2 LEFT enemy gameBoard) 1).1 ].

(** A length-2 ship in the top-left corner of the board, heading up. *)
Definition cornerShip : Ship.t := Ship.new 0 0 2 UP player gameBoard.

(** A length-2 ship in open water. *)
Definition sloop : Ship.t := Ship.new 5 5 2 UP player gameBoard.

(** A player sloop heading right and an enemy sloop on its port quarter;
    and the same waters after the enemy has sunk the player sloop with a
    broadside, turned, advanced and turned back, so that it lies across
    the stern cell (4,5) of the wreck. *)
Definition wreckStart : list Ship.t :=
  [ Ship.new 5 5 2 RIGHT player gameBoard; Ship.new 3 4 2 UP enemy gameBoard ].

Definition wreckRoster : list Ship.t :=
  [ (Ship.takeDamage (Ship.new 5 5 2 RIGHT player gameBoard) 1).1;
    Ship.set_xy (Ship.new 3 4 2 UP enemy gameBoard) 4 4 ].

Definition wreckMoved : list Ship.t :=
  [ Ship.set_xy (Ship.takeDamage (Ship.new 5 5 2 RIGHT player gameBoard) 1).1 6 5;
    Ship.set_xy (Ship.new 3 4 2 UP enemy gameBoard) 4 4 ].

(** An enemy sloop between two player sloops: its bow cell (5,5) lies in
    the wide zone of both. *)
Definition crossfire : list Ship.t :=
  [ Ship.new 5 3 2 RIGHT player gameBoard; Ship.new 5 7 2 RIGHT player gameBoard;
    Ship.new 5 5 2 LEFT enemy gameBoard ].

(** Three matches in the enemy's turn: the enemy fleet sunk, the player
    fleet sunk, and both fleets sunk. *)
Definition enemySunk : Game.t :=
  Game.mk ENEMY_TURN false SINGLE_PLAYER
    [ frigate ] [ (Ship.takeDamage (Ship.new 17 0 3 LEFT enemy gameBoard) 2).1 ].

Definition playerSunk : Game.t :=
  Game.mk ENEMY_TURN false SINGLE_PLAYER
    [ (Ship.takeDamage frigate 2).1 ] [ Ship.new 17 0 3 LEFT enemy gameBoard ].

Definition bothSunk : Game.t :=
  Game.mk ENEMY_TURN false SINGLE_PLAYER
    [ (Ship.takeDamage frigate 2).1 ]
    [ (Ship.takeDamage (Ship.new 17 0 3 LEFT enemy gameBoard) 2).1 ].

(** A single-player match from the title screen, with whole milliseconds
    and an oracle that always draws 0: through the menus, the ship on the
    clicked cell sails twice, the move and the fire phase are ended, and the
    opponent's turn is shown. *)
Definition openingMatch : list (Event Z) :=
  [ KeyDown "Enter"; KeyDown "Enter"; KeyDown "Enter";
    Click (0, 0); KeyDown "w"; KeyDown "w"; KeyDown "Enter";
    KeyDown " "; Click (5, 1); KeyDown "Enter";
    Frame 600; Frame 1000 ].

(** The state the constructor builds with that oracle, and the state the
    match ends in: the player's turn again, after the opponent advanced. *)
Definition openingStart : Play.t Z :=
  Eval vm_compute in default (Play.fresh []) (Play.new []).

Definition openingEnd : Play.t Z :=
  Eval vm_compute in default openingStart (play openingMatch openingStart).

(** The same match up to the click on (0, 0): the player's ship lying on
    that cell is selected. *)
Definition firstSelection : list (Event Z) := take 4 openingMatch.

Definition firstSelected : Play.t Z :=
  Eval vm_compute in default openingStart (play firstSelection openingStart).

(** A lost game, and what a player may try on it. *)
Definition lostGame : Play.t Z := Play.set_state openingStart GAME_OVER.

Definition idleEvents : list (Event Z) :=
  [ KeyDown "Escape"; KeyDown "Enter"; Click (0, 0); KeyDown " "; Frame 16;
    KeyDown "Tab" ].

(** The same match after the three keys of the menus: the first player is
    to select a ship. *)
Definition menusDone : Play.t Z :=
  Eval vm_compute in default openingStart (play (take 3 openingMatch) openingStart).

(** * Basic facts about the embedding *)

Lemma sameCell_eq (a b : Cell) : sameCell a b = true ↔ a = b.
Proof.
  unfold sameCell. destruct a as [a1 a2], b as [b1 b2]; simpl.
  rewrite andb_true_iff, !Z.eqb_eq. split; [intros [-> ->]; done | by inversion 1].
Qed.

Lemma sameCell_refl (a : Cell) : sameCell a a = true.
Proof. by apply sameCell_eq. Qed.

Lemma existsb_sameCell_l (c : Cell) (l : list Cell) :
  existsb (λ e, sameCell e c) l = true ↔ c ∈ l.
Proof.
  rewrite existsb_exists. setoid_rewrite <- list_elem_of_In. split.
  - intros (e & He & Heq). apply sameCell_eq in Heq. by subst.
  - intros Hc. exists c. split; [done | apply sameCell_refl].
Qed.

Lemma existsb_sameCell_r (c : Cell) (l : list Cell) :
  existsb (λ e, sameCell c e) l = true ↔ c ∈ l.
Proof.
  rewrite existsb_exists. setoid_rewrite <- list_elem_of_In. split.
  - intros (e & He & Heq). apply sameCell_eq in Heq. by subst.
  - intros Hc. exists c. split; [done | apply sameCell_refl].
Qed.

Lemma isValidCell_inBounds (b : Board.t) (c : Cell) :
  Board.isValidCell b c.1 c.2 = true ↔ inBounds b c.
Proof.
  unfold Board.isValidCell, inBounds.
  rewrite !andb_true_iff, !Z.leb_le, !Z.ltb_lt. lia.
Qed.

Lemma isAlive_living (s : Ship.t) : Ship.isAlive s = true ↔ living s.
Proof. unfold Ship.isAlive, living. apply Z.ltb_lt. Qed.

Lemma validOrientation_vector (o : Z) :
  validOrientation o ↔ is_Some (DIRECTION_VECTORS o).
Proof.
  unfold validOrientation, DIRECTION_VECTORS, UP, RIGHT, DOWN, LEFT. split.
  - intros [-> | [-> | [-> | ->]]]; simpl; eauto.
  - intros [d Hd]. repeat case_match; rewrite ?Z.eqb_eq in *; try done; auto.
Qed.

(** The cells behind a bow at [(x0, y0)] along the direction [d]. *)
Lemma trail_Some (d : Dir) (x0 y0 len : Z) :
  Ship.trail (Some d) x0 y0 len
  = Some ((λ i, (x0 - dx d * i, y0 - dy d * i)) <$> seqZ 0 len).
Proof.
  unfold Ship.trail. generalize (seqZ 0 len). intros l.
  induction l as [|i l IH]; [done|]. simpl in *. by rewrite IH.
Qed.

Lemma trail_None (x0 y0 len : Z) (cells : list Cell) :
  Ship.trail None x0 y0 len = Some cells → len ≤ 0 ∧ cells = [].
Proof.
  unfold Ship.trail. intros H.
  destruct (decide (len ≤ 0)) as [Hle|Hgt].
  - rewrite seqZ_nil in H by done. inversion H. by split.
  - rewrite seqZ_cons in H by lia. simpl in H. done.
Qed.

Lemma getCells_valid (s : Ship.t) :
  validOrientation (Ship.orientation s) → is_Some (Ship.getCells s).
Proof.
  intros [d Hd]%validOrientation_vector. unfold Ship.getCells.
  rewrite Hd, trail_Some. by eexists.
Qed.

(** ** What [canOccupy] accepts *)

Lemma clearOfShips_true (this : nat) (cells : list Cell) (ships : list Ship.t) :
  ∀ j, Ship.clearOfShips this cells j ships = Some true →
  ∀ k s', ships !! k = Some s' → (j + k)%nat ≠ this → living s' →
          ∀ c, c ∈ cells → ¬ occupies s' c.
Proof.
  induction ships as [|ship rest IH]; intros j Hrun k s' Hk Hne Hliv c Hc;
    [done|].
  simpl in Hrun. destruct k as [|k]; simpl in Hk.
  - simplify_eq. rewrite Nat.add_0_r in Hne.
    apply isAlive_living in Hliv. rewrite Hliv in Hrun.
    destruct (Nat.eqb_spec j this) as [?|_]; [done|]. simpl in Hrun.
    destruct (Ship.getCells s') as [otherCells|] eqn:Hcells; [|done].
    simpl in Hrun. case_match eqn:Hex; [done|].
    intros (cells' & Hcells' & Hin). simplify_eq.
    apply not_true_iff_false in Hex. apply Hex.
    apply existsb_exists. exists c. split; [by apply list_elem_of_In|].
    by apply existsb_sameCell_r.
  - assert (Ship.clearOfShips this cells (S j) rest = Some true) as Hrest.
    { destruct ((j =? this)%nat || negb (Ship.isAlive ship)); [done|].
      destruct (Ship.getCells ship); [|done]. simpl in Hrun.
      by case_match. }
    eapply (IH (S j) Hrest k s'); eauto. lia.
Qed.

Lemma clearOfShips_complete (this : nat) (cells : list Cell) (ships : list Ship.t) :
  ∀ j,
  (∀ k s', ships !! k = Some s' → (j + k)%nat ≠ this → living s' →
           is_Some (Ship.getCells s') ∧ ∀ c, c ∈ cells → ¬ occupies s' c) →
  Ship.clearOfShips this cells j ships = Some true.
Proof.
  induction ships as [|ship rest IH]; intros j Hall; [done|].
  simpl.
  assert (Ship.clearOfShips this cells (S j) rest = Some true) as Hrest.
  { apply IH. intros k s' Hk Hne. apply (Hall (S k) s'); [done | lia]. }
  destruct (Nat.eqb_spec j this) as [?|Hne]; [done|]. simpl.
  destruct (Ship.isAlive ship) eqn:Hliv; [|done]. simpl.
  apply isAlive_living in Hliv.
  destruct (Hall 0%nat ship) as [[otherCells Hcells] Hfree];
    [done | lia | done |].
  rewrite Hcells. simpl. case_match eqn:Hex; [|done].
  apply existsb_exists in Hex as (c & Hc & Hex).
  apply existsb_sameCell_r in Hex. apply list_elem_of_In in Hc.
  destruct (Hfree c Hc). by exists otherCells.
Qed.

Lemma canOccupy_true (this : nat) (cells : list Cell) (allShips : list Ship.t)
    (self : Ship.t) :
  allShips !! this = Some self →
  Ship.canOccupy this cells allShips = Some true →
  (∀ c, c ∈ cells → inBounds (Ship.board self) c) ∧
  (∀ j s', j ≠ this → allShips !! j = Some s' → living s' →
           ∀ c, c ∈ cells → ¬ occupies s' c).
Proof.
  unfold Ship.canOccupy. intros -> Hrun. simpl in Hrun.
  case_match eqn:Hvalid; [|done]. split.
  - intros c Hc. apply isValidCell_inBounds.
    rewrite forallb_forall in Hvalid. apply Hvalid. by apply list_elem_of_In.
  - intros j s' Hne Hj Hliv c Hc.
    by eapply (clearOfShips_true this cells allShips 0%nat Hrun j s').
Qed.

Lemma canOccupy_complete (this : nat) (cells : list Cell) (allShips : list Ship.t)
    (self : Ship.t) :
  allShips !! this = Some self →
  (∀ c, c ∈ cells → inBounds (Ship.board self) c) →
  (∀ j s', j ≠ this → allShips !! j = Some s' → living s' →
           is_Some (Ship.getCells s') ∧ ∀ c, c ∈ cells → ¬ occupies s' c) →
  Ship.canOccupy this cells allShips = Some true.
Proof.
  unfold Ship.canOccupy. intros -> Hin Hfree. simpl.
  assert (forallb (λ cell, Board.isValidCell (Ship.board self) cell.1 cell.2) cells
          = true) as ->.
  { apply forallb_forall. intros c Hc%list_elem_of_In.
    by apply isValidCell_inBounds, Hin. }
  apply clearOfShips_complete. intros k s' Hk Hne. by apply (Hfree k s').
Qed.

(** ** The two ways [move] and [rotate] end *)

Lemma move_inv (this : nat) (direction : string) (allShips allShips' : list Ship.t)
    (ok : bool) :
  Ship.move this direction allShips = Some (ok, allShips') →
  ∃ self, allShips !! this = Some self ∧
    ((ok = false ∧ allShips' = allShips) ∨
     (∃ newX newY cells,
        ok = true ∧
        allShips' = <[this := Ship.set_xy self newX newY]> allShips ∧
        Ship.getCells (Ship.set_xy self newX newY) = Some cells ∧
        Ship.canOccupy this cells allShips = Some true)).
Proof.
  unfold Ship.move, Ship.canMoveTo. intros H.
  destruct (allShips !! this) as [self|] eqn:Hself; [|done].
  exists self. split; [done|]. simpl in H.
  match type of H with context [mbind _ ?d] =>
    destruct d as [[ddx ddy]|]; [|done] end.
  simpl in H.
  destruct (Ship.getCellsAt self (Ship.x self + ddx) (Ship.y self + ddy) None)
    as [cells|] eqn:Hcells; [|done].
  simpl in H.
  destruct (Ship.canOccupy this cells allShips) as [[|]|] eqn:Hocc;
    simpl in H; simplify_eq; [right|left; done].
  by exists (Ship.x self + ddx), (Ship.y self + ddy), cells.
Qed.

Lemma rotate_inv (this : nat) (direction : string) (allShips allShips' : list Ship.t)
    (ok : bool) :
  Ship.rotate this direction allShips = Some (ok, allShips') →
  ∃ self, allShips !! this = Some self ∧
    ((ok = false ∧ allShips' = allShips) ∨
     (∃ newOrientation cells,
        ok = true ∧
        newOrientation = (if String.eqb direction "cw"
                          then Z.rem (Ship.orientation self + 90) 360
                          else Z.rem (Ship.orientation self - 90 + 360) 360) ∧
        allShips' = <[this := Ship.set_orientation self newOrientation]> allShips ∧
        Ship.getCells (Ship.set_orientation self newOrientation) = Some cells ∧
        Ship.canOccupy this cells allShips = Some true)).
Proof.
  unfold Ship.rotate, Ship.canRotateTo. intros H.
  destruct (allShips !! this) as [self|] eqn:Hself; [|done].
  exists self. split; [done|]. simpl in H.
  match type of H with context [Ship.getCellsAt self _ _ (Some ?o)] =>
    destruct (Ship.getCellsAt self (Ship.x self) (Ship.y self) (Some o))
      as [cells|] eqn:Hcells; [|done];
    simpl in H;
    destruct (Ship.canOccupy this cells allShips) as [[|]|] eqn:Hocc;
      simpl in H; simplify_eq; [right|left; done];
    by exists o, cells
  end.
Qed.

Lemma rotated_valid (o : Z) (direction : string) :
  validOrientation o →
  validOrientation (if String.eqb direction "cw"
                    then Z.rem (o + 90) 360 else Z.rem (o - 90 + 360) 360).
Proof.
  unfold validOrientation, UP, RIGHT, DOWN, LEFT.
  intros [-> | [-> | [-> | ->]]]; destruct (String.eqb direction "cw");
    vm_compute; auto.
Qed.

(** ** Replacing one ship of a valid roster *)

Lemma validPlacement_update (allShips : list Ship.t) (i : nat) (s s' : Ship.t) :
  validPlacement allShips →
  allShips !! i = Some s →
  validOrientation (Ship.orientation s') →
  (living s' → ∀ c, occupies s' c →
     inBounds (Ship.board s') c ∧
     ∀ j s2, j ≠ i → allShips !! j = Some s2 → living s2 → ¬ occupies s2 c) →
  validPlacement (<[i := s']> allShips).
Proof.
  intros (Hwf & Hno & Hin) Hi Hvalid Hnew. split; [|split].
  - intros s0 [k Hk]%list_elem_of_lookup.
    apply list_lookup_insert_Some in Hk as [(_ & <- & _) | (_ & Hk)]; [done|].
    apply Hwf. by eapply list_elem_of_lookup_2.
  - intros i1 j1 s1 s2 c Hne H1 H2 Hl1 Hl2 Ho1 Ho2.
    apply list_lookup_insert_Some in H1 as [(<- & <- & _) | (Hn1 & H1)];
      apply list_lookup_insert_Some in H2 as [(<- & <- & _) | (Hn2 & H2)].
    + done.
    + destruct (Hnew Hl1 c Ho1) as [_ Hfree]. by apply (Hfree j1 s2).
    + destruct (Hnew Hl2 c Ho2) as [_ Hfree]. by apply (Hfree i1 s1).
    + by apply (Hno i1 j1 s1 s2 c).
  - intros s0 c [k Hk]%list_elem_of_lookup Hl0 Ho0.
    apply list_lookup_insert_Some in Hk as [(_ & <- & _) | (_ & Hk)].
    + by apply Hnew.
    + apply Hin; [by eapply list_elem_of_lookup_2 | done | done].
Qed.

(** Damage keeps a ship where it is and never revives it. *)
Lemma validPlacement_damage (allShips : list Ship.t) (j : nat) (s : Ship.t)
    (amount : Z) :
  validPlacement allShips →
  allShips !! j = Some s →
  0 ≤ amount →
  validPlacement (<[j := (Ship.takeDamage s amount).1]> allShips).
Proof.
  intros Hvp Hj Hamount. pose proof Hvp as (Hwf & Hno & Hin).
  apply (validPlacement_update allShips j s); [done | done | |].
  - simpl. apply Hwf. by eapply list_elem_of_lookup_2.
  - unfold living. simpl. intros Hliv c Hocc.
    assert (living s) as Hl by (unfold living; lia).
    assert (occupies s c) as Hocc' by done.
    split.
    + apply (Hin s c); [by eapply list_elem_of_lookup_2 | done | done].
    + intros k s2 Hne Hk Hl2. by apply (Hno j k s s2 c).
Qed.

(** ** Firing changes the roster by damage only *)

Lemma fireLoop_result (board : Board.t) (attacker : nat) (attackerTeam : Team)
    (targetCell : Cell) (allShips : list Ship.t) (ships : list Ship.t) :
  ∀ j hitShip destroyed allShips',
  (∀ k s, ships !! k = Some s → allShips !! (j + k)%nat = Some s) →
  Combat.fireLoop attacker attackerTeam targetCell j ships allShips
    = Some (hitShip, destroyed, allShips') →
  allShips' = allShips ∨
  ∃ k s, allShips !! k = Some s ∧
         allShips' = <[k := (Ship.takeDamage s 1).1]> allShips.
Proof.
  induction ships as [|ship rest IH]; intros j hitShip destroyed allShips' Hsuf Hrun.
  { simpl in Hrun. left. by simplify_eq. }
  assert (∀ k s, rest !! k = Some s → allShips !! (S j + k)%nat = Some s) as Hsuf'.
  { intros k s Hk. specialize (Hsuf (S k) s Hk).
    by replace (S j + k)%nat with (j + S k)%nat by lia. }
  simpl in Hrun.
  destruct ((j =? attacker)%nat || bool_decide (Ship.team ship = attackerTeam));
    [by eapply IH|].
  destruct (negb (Ship.isAlive ship)); [by eapply IH|].
  destruct (Ship.getCells ship) as [cells|]; [|done]. simpl in Hrun.
  destruct (existsb (λ cell, sameCell cell targetCell) cells); [|by eapply IH].
  simplify_eq. right. exists j, ship. split; [|done].
  specialize (Hsuf 0%nat ship eq_refl). by rewrite Nat.add_0_r in Hsuf.
Qed.

Lemma fire_result (board : Board.t) (attacker : nat) (targetCell : Cell)
    (allShips allShips' : list Ship.t) (result : option nat * bool) :
  Combat.fire board attacker targetCell allShips = Some (result, allShips') →
  allShips' = allShips ∨
  ∃ k s, allShips !! k = Some s ∧
         allShips' = <[k := (Ship.takeDamage s 1).1]> allShips.
Proof.
  unfold Combat.fire. intros Hrun.
  destruct (allShips !! attacker) as [a|]; [|done]. simpl in Hrun.
  destruct (Combat.getSideFireZones board a) as [fireZones|]; [|done].
  simpl in Hrun. case_match.
  - left. by simplify_eq.
  - destruct result as [hitShip destroyed].
    eapply (fireLoop_result board attacker (Ship.team a) targetCell allShips
              allShips 0%nat hitShip destroyed); [by intros k s|done].
Qed.

(** A property kept by one [takeDamage] on any ship is kept by the whole
    loop of [fireBroadside]. *)
Lemma broadsideLoop_preserves (P : list Ship.t → Prop) :
  (∀ allShips j s, P allShips → allShips !! j = Some s →
                   P (<[j := (Ship.takeDamage s 1).1]> allShips)) →
  ∀ targets hits allShips hits' allShips',
    P allShips →
    Combat.broadsideLoop targets hits allShips = Some (hits', allShips') →
    P allShips'.
Proof.
  intros Hstep targets.
  induction targets as [|[j hitCells] rest IH];
    intros hits allShips hits' allShips' HP Hrun; simpl in Hrun.
  { by simplify_eq. }
  destruct (0 <? length hitCells)%nat; [|by eapply IH].
  destruct (allShips !! j) as [ship|] eqn:Hj; [|done]. simpl in Hrun.
  eapply IH; [|done]. by apply Hstep.
Qed.

Lemma fireBroadside_preserves (P : list Ship.t → Prop) (board : Board.t)
    (attacker : nat) (allShips allShips' : list Ship.t) (hits : list Combat.Hit) :
  (∀ allShips j s, P allShips → allShips !! j = Some s →
                   P (<[j := (Ship.takeDamage s 1).1]> allShips)) →
  P allShips →
  Combat.fireBroadside board attacker allShips = Some (hits, allShips') →
  P allShips'.
Proof.
  unfold Combat.fireBroadside. intros Hstep HP Hrun.
  destruct (allShips !! attacker) as [a|]; [|done]. simpl in Hrun.
  destruct (Ship.cannonsPerSide a <=? 0); [by simplify_eq|].
  destruct (Combat.getTargetsInRange board attacker allShips) as [targets|];
    [|done].
  simpl in Hrun. by eapply (broadsideLoop_preserves P Hstep).
Qed.

(** ** Each action keeps the placement valid *)

Lemma move_validPlacement (this : nat) (direction : string)
    (allShips allShips' : list Ship.t) (ok : bool) :
  validPlacement allShips →
  Ship.move this direction allShips = Some (ok, allShips') →
  validPlacement allShips'.
Proof.
  intros Hvp Hrun. pose proof Hvp as (Hwf & Hno & Hin).
  apply move_inv in Hrun
    as (self & Hself & [[_ ->] | (newX & newY & cells & _ & -> & Hcells & Hocc)]);
    [done|].
  destruct (canOccupy_true this cells allShips self Hself Hocc) as [Hb Hfree].
  apply (validPlacement_update allShips this self); [done | done | |].
  - simpl. apply Hwf. by eapply list_elem_of_lookup_2.
  - intros _ c (cells' & Hcells' & Hc). simplify_eq. split; [by apply Hb|].
    intros j s2 Hne Hj Hl2. by apply (Hfree j s2).
Qed.

Lemma rotate_validPlacement (this : nat) (direction : string)
    (allShips allShips' : list Ship.t) (ok : bool) :
  validPlacement allShips →
  Ship.rotate this direction allShips = Some (ok, allShips') →
  validPlacement allShips'.
Proof.
  intros Hvp Hrun. pose proof Hvp as (Hwf & Hno & Hin).
  apply rotate_inv in Hrun
    as (self & Hself & [[_ ->] | (o & cells & _ & -> & -> & Hcells & Hocc)]);
    [done|].
  destruct (canOccupy_true this cells allShips self Hself Hocc) as [Hb Hfree].
  apply (validPlacement_update allShips this self); [done | done | |].
  - simpl. apply rotated_valid, Hwf. by eapply list_elem_of_lookup_2.
  - intros _ c (cells' & Hcells' & Hc). simplify_eq. split; [by apply Hb|].
    intros j s2 Hne Hj Hl2. by apply (Hfree j s2).
Qed.

Lemma fire_validPlacement (board : Board.t) (attacker : nat) (targetCell : Cell)
    (allShips allShips' : list Ship.t) (result : option nat * bool) :
  validPlacement allShips →
  Combat.fire board attacker targetCell allShips = Some (result, allShips') →
  validPlacement allShips'.
Proof.
  intros Hvp Hrun.
  apply fire_result in Hrun as [-> | (k & s & Hk & ->)]; [done|].
  by apply validPlacement_damage.
Qed.

Lemma fireBroadside_validPlacement (board : Board.t) (attacker : nat)
    (allShips allShips' : list Ship.t) (hits : list Combat.Hit) :
  validPlacement allShips →
  Combat.fireBroadside board attacker allShips = Some (hits, allShips') →
  validPlacement allShips'.
Proof.
  intros Hvp Hrun.
  eapply (fireBroadside_preserves validPlacement); [|done|done].
  intros st j s HP Hj. by apply validPlacement_damage.
Qed.

(** ** The boolean placement check is sound *)

Lemma occupies_cellsOrEmpty (s : Ship.t) (c : Cell) :
  occupies s c → c ∈ cellsOrEmpty s.
Proof. intros (cells & Hcells & Hc). unfold cellsOrEmpty. by rewrite Hcells. Qed.

Lemma disjointb_spec (a b : list Cell) (c : Cell) :
  disjointb a b = true → c ∈ a → c ∉ b.
Proof.
  unfold disjointb. rewrite forallb_forall. intros Hall Ha Hb.
  specialize (Hall c (proj1 (list_elem_of_In _ _) Ha)).
  apply negb_true_iff, not_true_iff_false in Hall. apply Hall.
  apply existsb_sameCell_r, Hb.
Qed.

Lemma disjointb_sym_spec (a b : list Cell) (c : Cell) :
  disjointb a b = true → c ∈ b → c ∉ a.
Proof. intros Hd Hb Ha. by eapply disjointb_spec. Qed.

Lemma noOverlapb_lt (ships : list Ship.t) :
  noOverlapb ships = true →
  ∀ i j s s', (i < j)%nat → ships !! i = Some s → ships !! j = Some s' →
    living s → living s' →
    disjointb (cellsOrEmpty s) (cellsOrEmpty s') = true.
Proof.
  induction ships as [|s0 rest IH]; intros Hb i j s s' Hlt Hi Hj Hl Hl'; [done|].
  simpl in Hb. apply andb_true_iff in Hb as [Hhead Hrest].
  destruct j as [|j]; [lia|]. simpl in Hj. destruct i as [|i]; simpl in Hi.
  - simplify_eq. rewrite forallb_forall in Hhead.
    specialize (Hhead s' (proj1 (list_elem_of_In _ _) (list_elem_of_lookup_2 _ _ _ Hj))).
    apply isAlive_living in Hl, Hl'. by rewrite Hl, Hl' in Hhead.
  - apply (IH Hrest i j s s'); [lia|done..].
Qed.

Lemma validPlacementb_sound (allShips : list Ship.t) :
  validPlacementb allShips = true → validPlacement allShips.
Proof.
  unfold validPlacementb. rewrite !andb_true_iff. intros [[Hwf Hno] Hin].
  split; [|split].
  - intros s Hs%list_elem_of_In. rewrite forallb_forall in Hwf.
    specialize (Hwf s Hs). unfold validOrientationb in Hwf.
    rewrite !orb_true_iff, !Z.eqb_eq in Hwf. unfold validOrientation. tauto.
  - intros i j s s' c Hne Hi Hj Hl Hl' Ho Ho'.
    apply occupies_cellsOrEmpty in Ho, Ho'.
    destruct (decide (i < j)%nat) as [Hlt|Hge].
    + by eapply disjointb_spec; [eapply (noOverlapb_lt allShips Hno i j)|..].
    + by eapply disjointb_sym_spec;
        [eapply (noOverlapb_lt allShips Hno j i); [lia|..]|..].
  - intros s c Hs%list_elem_of_In Hl Ho%occupies_cellsOrEmpty.
    rewrite forallb_forall in Hin. specialize (Hin s Hs).
    apply isAlive_living in Hl. rewrite Hl in Hin. simpl in Hin.
    rewrite forallb_forall in Hin. apply isValidCell_inBounds, Hin.
    by apply list_elem_of_In.
Qed.

(** ** Lists without repetition built by [pushNew] *)

Lemma pushNew_elem (l : list Cell) (x c : Cell) :
  c ∈ Ship.pushNew l x ↔ c ∈ l ∨ c = x.
Proof.
  unfold Ship.pushNew. case_match eqn:Hex.
  - apply existsb_sameCell_l in Hex. split; [by left|]. by intros [?| ->].
  - rewrite elem_of_app, list_elem_of_singleton. done.
Qed.

Lemma pushNew_NoDup (l : list Cell) (x : Cell) :
  NoDup l → NoDup (Ship.pushNew l x).
Proof.
  unfold Ship.pushNew. intros Hnd. case_match eqn:Hex; [done|].
  apply NoDup_app. split; [done|]. split; [|apply NoDup_singleton].
  intros c Hc ->%list_elem_of_singleton.
  apply not_true_iff_false in Hex. by apply Hex, existsb_sameCell_l.
Qed.

Lemma collect_elem {A} (board : Board.t) (f : A → Cell) (l : list A) :
  ∀ acc c, c ∈ collect board f acc l
           ↔ c ∈ acc ∨ (inBounds board c ∧ ∃ a, a ∈ l ∧ c = f a).
Proof.
  induction l as [|a l IH]; intros acc c; simpl.
  { split; [by left|]. intros [?|(_ & a & Ha & _)]; [done|]. by inversion Ha. }
  fold (collect board f). rewrite IH. case_match eqn:Hv.
  - rewrite pushNew_elem. apply isValidCell_inBounds in Hv. split.
    + intros [[?| ->]|(Hb & a' & Ha' & ->)]; [by left| |].
      * right. split; [done|]. exists a. split; [left|done].
      * right. split; [done|]. exists a'. split; [by right|done].
    + intros [?|(Hb & a' & Ha' & ->)]; [by left; left|].
      apply elem_of_cons in Ha' as [->|Ha']; [left; by right|].
      right. split; [done|]. by exists a'.
  - split.
    + intros [?|(Hb & a' & Ha' & ->)]; [by left|].
      right. split; [done|]. exists a'. split; [by right|done].
    + intros [?|(Hb & a' & Ha' & ->)]; [by left|].
      apply elem_of_cons in Ha' as [->|Ha'].
      * apply isValidCell_inBounds in Hb. congruence.
      * right. split; [done|]. by exists a'.
Qed.

Lemma collect_NoDup {A} (board : Board.t) (f : A → Cell) (l : list A) :
  ∀ acc, NoDup acc → NoDup (collect board f acc l).
Proof.
  induction l as [|a l IH]; intros acc Hnd; simpl; [done|].
  fold (collect board f). apply IH. case_match; [by apply pushNew_NoDup|done].
Qed.

Lemma addSides_collect (board : Board.t) (offsets : list Dir) (acc : list Cell)
    (cell : Cell) :
  Combat.addSides board offsets acc cell
  = collect board (λ o, (cell.1 + dx o, cell.2 + dy o)) acc offsets.
Proof. done. Qed.

(** ** The narrow zone loop *)

Section SideLoop.
Variable board : Board.t.
Variable offsets : list Dir.
Variable cannonCount : Z.

Local Lemma pushed_cons (i : nat) (cell : Cell) (rest : list Cell) (c : Cell) :
  pushedFrom offsets cannonCount i (cell :: rest) c ↔
  (i ≠ 0%nat ∧ Z.of_nat i ≤ cannonCount ∧
   ∃ o, o ∈ offsets ∧ c = (cell.1 + dx o, cell.2 + dy o))
  ∨ pushedFrom offsets cannonCount (S i) rest c.
Proof.
  unfold pushedFrom. split.
  - intros ([|k] & cell0 & o & Hk & Hne & Hle & Ho & ->); simpl in Hk.
    + simplify_eq. rewrite Nat.add_0_r in *. left. eauto.
    + right. exists k, cell0, o.
      replace (S i + k)%nat with (i + S k)%nat by lia. eauto.
  - intros [(Hne & Hle & o & Ho & ->)|(k & cell0 & o & Hk & Hne & Hle & Ho & ->)].
    + exists 0%nat, cell, o. rewrite Nat.add_0_r. eauto.
    + exists (S k), cell0, o.
      replace (i + S k)%nat with (S i + k)%nat by lia. eauto.
Qed.

Lemma sideLoop_elem (shipCells : list Cell) :
  ∀ i acc c,
    c ∈ Combat.sideLoop board offsets cannonCount i shipCells acc ↔
    c ∈ acc ∨ (inBounds board c ∧ pushedFrom offsets cannonCount i shipCells c).
Proof.
  induction shipCells as [|cell rest IH]; intros i acc c; simpl.
  { split; [by left|]. by intros [?|(_ & k & ? & ? & ? & _)]. }
  rewrite pushed_cons.
  destruct (Nat.eqb_spec i 0) as [->|Hi0]; [rewrite IH; naive_solver|].
  destruct (Z.gtb_spec (Z.of_nat i) cannonCount) as [Hgt|Hle].
  { rewrite IH. split; [naive_solver|].
    intros [?|[Hb [(_ & ? & _)|?]]]; [by left | lia | by right]. }
  rewrite IH, addSides_collect, collect_elem. naive_solver.
Qed.

Lemma sideLoop_NoDup (shipCells : list Cell) :
  ∀ i acc, NoDup acc →
           NoDup (Combat.sideLoop board offsets cannonCount i shipCells acc).
Proof.
  induction shipCells as [|cell rest IH]; intros i acc Hnd; simpl; [done|].
  repeat case_match; try by apply IH.
  apply IH. rewrite addSides_collect. by apply collect_NoDup.
Qed.

Lemma sideLoop_from_start (shipCells : list Cell) (c : Cell) :
  c ∈ Combat.sideLoop board offsets cannonCount 0 shipCells [] ↔
  inBounds board c ∧
  ∃ (k : nat) (cell : Cell) (o : Dir),
    shipCells !! k = Some cell ∧ 1 ≤ Z.of_nat k ≤ cannonCount ∧
    o ∈ offsets ∧ c = (cell.1 + dx o, cell.2 + dy o).
Proof.
  rewrite sideLoop_elem. unfold pushedFrom. simpl. split.
  - intros [Hnil|[Hb (k & cell & o & Hk & Hne & Hle & Ho & ->)]];
      [by inversion Hnil|].
    split; [done|]. exists k, cell, o. repeat split; [done|lia|done..].
  - intros [Hb (k & cell & o & Hk & Hle & Ho & ->)]. right. split; [done|].
    exists k, cell, o. repeat split; [done|lia|lia|done].
Qed.
End SideLoop.

(** ** Occupied cells as numbered segments *)

Lemma heading_valid (s : Ship.t) :
  validOrientation (Ship.orientation s) →
  DIRECTION_VECTORS (Ship.orientation s) = Some (heading s).
Proof.
  intros [d Hd]%validOrientation_vector. unfold heading. by rewrite Hd.
Qed.

Lemma getCells_segments (s : Ship.t) :
  validOrientation (Ship.orientation s) →
  Ship.getCells s = Some (segment s <$> seqZ 0 (Ship.length s)).
Proof.
  intros Hv. unfold Ship.getCells. by rewrite (heading_valid s Hv), trail_Some.
Qed.

Lemma lookup_segments (s : Ship.t) (k : nat) (cell : Cell) :
  (segment s <$> seqZ 0 (Ship.length s)) !! k = Some cell ↔
  cell = segment s (Z.of_nat k) ∧ Z.of_nat k < Ship.length s.
Proof.
  rewrite list_lookup_fmap, fmap_Some. setoid_rewrite lookup_seqZ. split.
  - intros (i & [-> Hlt] & ->). done.
  - intros [-> Hlt]. by exists (Z.of_nat k).
Qed.

Lemma sideOffsets_lateral (s : Ship.t) (p c : Cell) :
  (∃ o, o ∈ Combat.sideOffsets s ∧ c = (p.1 + dx o, p.2 + dy o)) ↔ lateralOf s p c.
Proof.
  unfold Combat.sideOffsets, lateralOf, vertical.
  destruct (Z.eqb_spec (Ship.orientation s) UP) as [Hup|Hup];
    [|destruct (Z.eqb_spec (Ship.orientation s) DOWN) as [Hdn|Hdn]]; simpl.
  - split.
    + intros (o & Ho & ->). left. split; [by left|].
      apply elem_of_cons in Ho as [->|Ho]; [left|]; simpl.
      * f_equal; lia.
      * apply list_elem_of_singleton in Ho as ->. right. simpl. f_equal; lia.
    + intros [[_ [->| ->]]|[Hnv _]]; [| |destruct Hnv; by left].
      * exists (mkDir (-1) 0). split; [left|simpl; f_equal; lia].
      * exists (mkDir 1 0). split; [right; left|simpl; f_equal; lia].
  - split.
    + intros (o & Ho & ->). left. split; [by right|].
      apply elem_of_cons in Ho as [->|Ho]; [left|]; simpl.
      * f_equal; lia.
      * apply list_elem_of_singleton in Ho as ->. right. simpl. f_equal; lia.
    + intros [[_ [->| ->]]|[Hnv _]]; [| |destruct Hnv; by right].
      * exists (mkDir (-1) 0). split; [left|simpl; f_equal; lia].
      * exists (mkDir 1 0). split; [right; left|simpl; f_equal; lia].
  - split.
    + intros (o & Ho & ->). right. split; [by intros [?|?]|].
      apply elem_of_cons in Ho as [->|Ho]; [left|]; simpl.
      * f_equal; lia.
      * apply list_elem_of_singleton in Ho as ->. right. simpl. f_equal; lia.
    + intros [[[?|?] _]|[_ [->| ->]]]; [done|done| |].
      * exists (mkDir 0 (-1)). split; [left|simpl; f_equal; lia].
      * exists (mkDir 0 1). split; [right; left|simpl; f_equal; lia].
Qed.

(** Lateral neighbours of different segments are different cells. *)
Lemma lateral_segment_inj (s : Ship.t) (i i' : Z) (c : Cell) :
  validOrientation (Ship.orientation s) →
  lateralOf s (segment s i) c → lateralOf s (segment s i') c → i = i'.
Proof.
  unfold lateralOf, vertical, segment, heading, DIRECTION_VECTORS.
  unfold validOrientation, UP, RIGHT, DOWN, LEFT.
  intros [Ho | [Ho | [Ho | Ho]]]; rewrite Ho; simpl;
    intros [[Hv [-> | ->]] | [Hv [-> | ->]]] [[_ [[=] | [=]]] | [_ [[=] | [=]]]];
    lia.
Qed.

Lemma getSideFireZones_elem (board : Board.t) (s : Ship.t) :
  validOrientation (Ship.orientation s) →
  ∃ zones, Combat.getSideFireZones board s = Some zones ∧ NoDup zones ∧
           ∀ c, c ∈ zones ↔ inNarrowZone board s c.
Proof.
  intros Hv. unfold Combat.getSideFireZones.
  rewrite (getCells_segments s Hv). simpl. eexists. split; [done|].
  split; [apply sideLoop_NoDup, NoDup_nil_2|].
  intros c. rewrite sideLoop_from_start. unfold inNarrowZone, firingSegment.
  rewrite length_fmap, length_seqZ.
  split; intros [Hb Hex]; (split; [done|]).
  - destruct Hex as (k & cell & o & [-> Hk]%lookup_segments & Hle & Ho & ->).
    exists (Z.of_nat k). split; [lia|]. apply sideOffsets_lateral. eauto.
  - destruct Hex as (i & Hi & (o & Ho & ->)%sideOffsets_lateral).
    exists (Z.to_nat i), (segment s i), o.
    rewrite lookup_segments, Z2Nat.id by lia. repeat split; [lia..|done].
Qed.

(** ** Targets of a broadside *)

Lemma hitCellsOf_elem (zones shipCells : list Cell) (c : Cell) :
  c ∈ Combat.hitCellsOf zones shipCells ↔ c ∈ shipCells ∧ c ∈ zones.
Proof.
  unfold Combat.hitCellsOf. rewrite list_elem_of_filter, existsb_sameCell_r. tauto.
Qed.

Lemma hitCellsOf_nonempty (zones shipCells : list Cell) :
  (0 <? length (Combat.hitCellsOf zones shipCells))%nat = true ↔
  ∃ c, c ∈ shipCells ∧ c ∈ zones.
Proof.
  rewrite Nat.ltb_lt. setoid_rewrite <- hitCellsOf_elem.
  destruct (Combat.hitCellsOf zones shipCells) as [|c l]; simpl.
  - split; [lia|]. intros [c Hc]. by inversion Hc.
  - split; [|lia]. intros _. exists c. left.
Qed.

Lemma targetLoop_spec (attacker : nat) (t : Team) (zones : list Cell)
    (ships : list Ship.t) :
  (∀ s, s ∈ ships → validOrientation (Ship.orientation s)) →
  ∀ j targets,
  ∃ new,
    Combat.targetLoop attacker t zones j ships targets = Some (targets ++ new) ∧
    (∀ i, i ∈ new.*1 ↔
          ∃ k s, i = (j + k)%nat ∧ ships !! k = Some s ∧ i ≠ attacker ∧
                 isTarget zones t s) ∧
    Forall (λ target, (0 <? length target.2)%nat = true) new ∧
    StronglySorted lt new.*1.
Proof.
  induction ships as [|ship rest IH]; intros Hwf j targets.
  { exists []. rewrite app_nil_r. split; [done|]. split; [|split; constructor].
    intros i. split; [by inversion 1|]. by intros (k & s & _ & ? & _). }
  assert (∀ s, s ∈ rest → validOrientation (Ship.orientation s)) as Hwf'.
  { intros s Hs. apply Hwf. by right. }
  assert (∀ i (new : list Combat.Target),
    (∀ i, i ∈ new.*1 ↔
          ∃ k s, i = (S j + k)%nat ∧ rest !! k = Some s ∧ i ≠ attacker ∧
                 isTarget zones t s) →
    (i ∈ new.*1 ↔
     ∃ k s, i = (j + S k)%nat ∧ (ship :: rest) !! S k = Some s ∧ i ≠ attacker ∧
            isTarget zones t s)) as Hshift.
  { intros i new Hnew. rewrite Hnew. simpl.
    by split; intros (k & s & -> & ?); exists k, s; (split; [lia|]). }
  assert (∀ (P : nat → Prop), (∃ k, P k) ↔ P 0%nat ∨ ∃ k, P (S k)) as Hsplit.
  { intros P. split; [intros [[|k] ?]; eauto|intros [?|[? ?]]; eauto]. }
  assert (∀ new : list Combat.Target, StronglySorted lt new.*1 →
    (∀ i, i ∈ new.*1 ↔
          ∃ k s, i = (S j + k)%nat ∧ rest !! k = Some s ∧ i ≠ attacker ∧
                 isTarget zones t s) →
    Forall (lt j) new.*1) as Hbound.
  { intros new _ Hnew. apply Forall_forall. intros i Hi.
    apply Hnew in Hi as (k & _ & -> & _). lia. }
  (* the ship at [j] is passed over *)
  assert (¬ ((j + 0)%nat ≠ attacker ∧ isTarget zones t ship) →
    ∃ new,
      Combat.targetLoop attacker t zones (S j) rest targets = Some (targets ++ new) ∧
      (∀ i, i ∈ new.*1 ↔
          ∃ k s, i = (j + k)%nat ∧ (ship :: rest) !! k = Some s ∧ i ≠ attacker ∧
                 isTarget zones t s) ∧
      Forall (λ target, (0 <? length target.2)%nat = true) new ∧
      StronglySorted lt new.*1) as Hskip.
  { intros Hnot. destruct (IH Hwf' (S j) targets) as (new & Hrun & Hnew & Hne & Hs).
    exists new. split; [done|]. split; [|done].
    intros i. rewrite (Hsplit (λ k, ∃ s, i = (j + k)%nat ∧ _)).
    rewrite <- (Hshift i new Hnew). simpl. split; [by right|].
    intros [(s & -> & [= <-] & ? & ?)|?]; [|done]. by destruct Hnot. }
  simpl.
  destruct (Nat.eqb_spec j attacker) as [Heq|Hne]; simpl.
  { apply Hskip. intros [Hne _]. apply Hne. lia. }
  case_bool_decide as Hteam.
  { apply Hskip. by intros [_ [Ht _]]. }
  destruct (Ship.isAlive ship) eqn:Halive; simpl.
  2: { apply Hskip. intros [_ (_ & Hl%isAlive_living & _)]. congruence. }
  destruct (getCells_valid ship) as [shipCells Hcells]; [apply Hwf; left|].
  rewrite Hcells. simpl.
  destruct (0 <? length (Combat.hitCellsOf zones shipCells))%nat eqn:Hhit.
  2: { apply Hskip. intros [_ (_ & _ & c & (cells & ? & Hc) & Hz)].
       simplify_eq. apply not_true_iff_false in Hhit. apply Hhit.
       apply hitCellsOf_nonempty. eauto. }
  destruct (IH Hwf' (S j) (targets ++ [(j, Combat.hitCellsOf zones shipCells)]))
    as (new & Hrun & Hnew & Hnonempty & Hs).
  exists ((j, Combat.hitCellsOf zones shipCells) :: new).
  rewrite Hrun, <- app_assoc. split; [done|]. split; [|split].
  - intros i. rewrite (Hsplit (λ k, ∃ s, i = (j + k)%nat ∧ _)).
    rewrite <- (Hshift i new Hnew). simpl. rewrite elem_of_cons.
    split; (intros [Hi|Hi]; [left|by right]).
    + subst i. exists ship. rewrite Nat.add_0_r. repeat split; [done..| |].
      * by apply isAlive_living.
      * apply hitCellsOf_nonempty in Hhit as (c & Hc & Hz).
        exists c. split; [by exists shipCells|done].
    + destruct Hi as (s & -> & _). lia.
  - by constructor.
  - simpl. constructor; [done|]. by apply Hbound.
Qed.

Lemma StronglySorted_lt_NoDup (l : list nat) : StronglySorted lt l → NoDup l.
Proof.
  induction 1 as [|a l _ IH Hall]; constructor; [|done].
  intros Ha. rewrite Forall_forall in Hall. specialize (Hall a Ha). lia.
Qed.

Lemma getTargetsInRange_spec (board : Board.t) (attacker : nat)
    (allShips : list Ship.t) (a : Ship.t) :
  wellFormed allShips →
  allShips !! attacker = Some a →
  ∃ zones targets,
    Combat.getSideFireZones board a = Some zones ∧
    Combat.getTargetsInRange board attacker allShips = Some targets ∧
    (∀ j, j ∈ targets.*1 ↔
          ∃ s, allShips !! j = Some s ∧ isTarget zones (Ship.team a) s) ∧
    Forall (λ target, (0 <? length target.2)%nat = true) targets ∧
    StronglySorted lt targets.*1.
Proof.
  intros Hwf Ha. unfold Combat.getTargetsInRange. rewrite Ha. simpl.
  destruct (getSideFireZones_elem board a) as (zones & Hzones & _);
    [apply Hwf; by eapply list_elem_of_lookup_2|].
  rewrite Hzones. simpl.
  destruct (targetLoop_spec attacker (Ship.team a) zones allShips Hwf 0%nat [])
    as (targets & Hrun & Htargets & Hnonempty & Hsorted).
  exists zones, targets. repeat split; try done.
  - intros (k & s & -> & Hk & _ & Ht)%Htargets. by exists s.
  - intros (s & Hj & Ht). apply Htargets. exists j, s.
    split; [done|]. split; [done|]. split; [|done].
    intros ->. destruct Ht as [Hteam _]. by simplify_eq.
Qed.

Lemma broadsideLoop_spec (targets : list Combat.Target) :
  ∀ hits (allShips : list Ship.t),
  NoDup targets.*1 →
  Forall (λ target, (0 <? length target.2)%nat = true) targets →
  (∀ j, j ∈ targets.*1 → is_Some (allShips !! j)) →
  ∃ new allShips',
    Combat.broadsideLoop targets hits allShips = Some (hits ++ new, allShips') ∧
    length allShips' = length allShips ∧
    (∀ i s, allShips !! i = Some s →
            allShips' !! i = Some (if decide (i ∈ targets.*1)
                                   then (Ship.takeDamage s 1).1 else s)) ∧
    new.*1 = targets.*1 ∧
    (∀ j d, (j, d) ∈ new →
            ∃ s, allShips !! j = Some s ∧ d = (Ship.takeDamage s 1).2).
Proof.
  induction targets as [|[j hitCells] rest IH]; intros hits allShips Hnd Hne Hin.
  { exists [], allShips. rewrite app_nil_r. repeat split; try done.
    intros j d Hj. by inversion Hj. }
  simpl in *. apply NoDup_cons in Hnd as [Hfresh Hnd].
  apply Forall_cons in Hne as [Hhit Hne]. simpl in Hhit. rewrite Hhit.
  destruct (Hin j) as [ship Hship]; [left|]. rewrite Hship. simpl.
  set (damaged := Ship.set_cannonsPerSide ship (Z.max 0 (Ship.cannonsPerSide ship - 1))).
  set (destroyed := Z.max 0 (Ship.cannonsPerSide ship - 1) <=? 0).
  destruct (IH (hits ++ [(j, destroyed)]) (<[j := damaged]> allShips) Hnd Hne)
    as (new & allShips' & Hrun & Hlen & Hlookup & Hfst & Hflags).
  { intros j' Hj'. apply lookup_lt_is_Some. rewrite length_insert.
    apply lookup_lt_is_Some, Hin. by right. }
  exists ((j, destroyed) :: new), allShips'.
  rewrite Hrun, <- app_assoc. split; [done|].
  rewrite length_insert in Hlen. split; [done|]. split; [|split].
  - intros i s Hi. destruct (decide (i = j)) as [->|Hij].
    + simplify_eq. rewrite (Hlookup j damaged).
      * rewrite decide_False by done. rewrite decide_True by left. done.
      * apply list_lookup_insert_eq. by eapply lookup_lt_Some.
    + rewrite (Hlookup i s) by (by rewrite list_lookup_insert_ne).
      f_equal. destruct (decide (i ∈ rest.*1)) as [Hr|Hr].
      * rewrite decide_True; [done | by right].
      * rewrite decide_False; [done|]. by intros [?|?]%elem_of_cons.
  - cbn. f_equal. apply Hfst.
  - intros j' d [[= -> ->]|Hj']%elem_of_cons; [by exists ship|].
    destruct (Hflags j' d Hj') as (s & Hs & ->).
    assert (j' ≠ j) as Hij.
    { intros ->. apply Hfresh. change (j ∈ rest.*1). rewrite <- Hfst.
      apply list_elem_of_fmap. by exists (j, (Ship.takeDamage s 1).2). }
    rewrite list_lookup_insert_ne in Hs by done. by exists s.
Qed.

(** ** Sides without a living ship *)

Lemma existsb_isAlive_false (ships : list Ship.t) :
  existsb Ship.isAlive ships = false ↔ noneLiving ships.
Proof.
  unfold noneLiving. rewrite <- not_true_iff_false, existsb_exists. split.
  - intros Hnone s Hs Hl. apply Hnone. exists s.
    split; [by apply list_elem_of_In | by apply isAlive_living].
  - intros Hnone (s & Hs%list_elem_of_In & Hl%isAlive_living). by eapply Hnone.
Qed.

Lemma filterAlive_none (ships : list nat) (allShips : list Ship.t) :
  (∀ j, j ∈ ships → ∃ s, allShips !! j = Some s ∧ Ship.cannonsPerSide s ≤ 0) →
  AI.filterAlive ships allShips = Some [].
Proof.
  induction ships as [|j rest IH]; intros Hdead; [done|]. simpl.
  destruct (Hdead j) as (s & -> & Hcap); [left|]. simpl.
  rewrite IH by (intros j' Hj'; apply Hdead; by right). simpl.
  unfold Ship.isAlive. by destruct (Z.ltb_spec 0 (Ship.cannonsPerSide s)); [lia|].
Qed.

(** ** Setting fields back *)

Lemma set_orientation_twice (s : Ship.t) (o o' : Z) :
  Ship.set_orientation (Ship.set_orientation s o) o' = Ship.set_orientation s o'.
Proof. done. Qed.

Lemma set_orientation_same (s : Ship.t) :
  Ship.set_orientation s (Ship.orientation s) = s.
Proof. by destruct s. Qed.

Lemma set_xy_twice (s : Ship.t) (x1 y1 x2 y2 : Z) :
  Ship.set_xy (Ship.set_xy s x1 y1) x2 y2 = Ship.set_xy s x2 y2.
Proof. done. Qed.

Lemma set_xy_same (s : Ship.t) : Ship.set_xy s (Ship.x s) (Ship.y s) = s.
Proof. by destruct s. Qed.

Lemma turned_four_times (direction : string) (o : Z) :
  validOrientation o →
  turned direction (turned direction (turned direction (turned direction o))) = o.
Proof.
  unfold validOrientation, UP, RIGHT, DOWN, LEFT, turned.
  by intros [-> | [-> | [-> | ->]]]; destruct (String.eqb direction "cw").
Qed.

(** ** Accepted rotations and moves, step by step *)

Lemma rotate_accepted (this : nat) (direction : string)
    (allShips allShips' : list Ship.t) (self : Ship.t) :
  allShips !! this = Some self →
  Ship.rotate this direction allShips = Some (true, allShips') →
  allShips' = <[this := Ship.set_orientation self (turned direction (Ship.orientation self))]>
                allShips.
Proof.
  intros Hself Hrun.
  apply rotate_inv in Hrun
    as (self' & Hself' & [[? _] | (o & cells & _ & -> & -> & _)]); [done|].
  by simplify_eq.
Qed.

Lemma rotateTimes_succ (n : nat) (this : nat) (direction : string)
    (allShips allShips' : list Ship.t) (ok : bool) (oks : list bool) :
  rotateTimes (S n) this direction allShips = Some (ok :: oks, allShips') →
  ∃ allShips1,
    Ship.rotate this direction allShips = Some (ok, allShips1) ∧
    rotateTimes n this direction allShips1 = Some (oks, allShips').
Proof.
  simpl. intros Hrun.
  destruct (Ship.rotate this direction allShips) as [[ok1 allShips1]|]; [|done].
  simpl in Hrun.
  destruct (rotateTimes n this direction allShips1) as [[oks1 allShips2]|] eqn:Hrest;
    [|done].
  simpl in Hrun. simplify_eq. by exists allShips1.
Qed.

(** Another pose of [this] ship does not change what [canOccupy] answers
    for it: the ship never collides with itself. *)
Lemma clearOfShips_ignores_self (this : nat) (cells : list Cell) (ships : list Ship.t) :
  ∀ j ships',
    Forall2 (λ s s', s = s' ∨ True) ships ships' →
    (∀ k s s', ships !! k = Some s → ships' !! k = Some s' →
               (j + k)%nat ≠ this → s = s') →
    Ship.clearOfShips this cells j ships = Ship.clearOfShips this cells j ships'.
Proof.
  induction ships as [|ship rest IH]; intros j ships' Hlen Hsame.
  { by inversion Hlen. }
  inversion Hlen as [|? ship' ? rest' _ Hlen']; subst. simpl.
  rewrite (IH (S j) rest' Hlen').
  2: { intros k s s' Hk Hk' Hne. apply (Hsame (S k) s s'); [done..|lia]. }
  destruct (Nat.eqb_spec j this) as [?|Hne]; [done|]. simpl.
  by rewrite (Hsame 0%nat ship ship' eq_refl eq_refl) by lia.
Qed.

Lemma canOccupy_ignores_self (this : nat) (cells : list Cell)
    (allShips : list Ship.t) (self self' : Ship.t) :
  allShips !! this = Some self →
  Ship.board self' = Ship.board self →
  Ship.canOccupy this cells (<[this := self']> allShips)
  = Ship.canOccupy this cells allShips.
Proof.
  intros Hself Hboard. unfold Ship.canOccupy.
  rewrite list_lookup_insert_eq by (by eapply lookup_lt_Some).
  rewrite Hself. simpl. rewrite Hboard. case_match; [|done].
  apply clearOfShips_ignores_self.
  - apply Forall2_same_length_lookup_2; [by rewrite length_insert|]. auto.
  - intros k s s' Hk Hk' Hne. simpl in Hne.
    rewrite list_lookup_insert_ne in Hk by done. by simplify_eq.
Qed.

Lemma rotate_accepted_lookup (this : nat) (direction : string)
    (allShips allShips' : list Ship.t) (self : Ship.t) :
  allShips !! this = Some self →
  Ship.rotate this direction allShips = Some (true, allShips') →
  allShips' !! this
  = Some (Ship.set_orientation self (turned direction (Ship.orientation self))).
Proof.
  intros Hself Hrun. rewrite (rotate_accepted _ _ _ _ _ Hself Hrun).
  apply list_lookup_insert_eq. by eapply lookup_lt_Some.
Qed.

(** A living ship of a valid placement stands where [canOccupy] lets it. *)
Lemma placed_ship_canOccupy (this : nat) (allShips : list Ship.t) (self : Ship.t) :
  validPlacement allShips →
  allShips !! this = Some self →
  living self →
  ∃ cells, Ship.getCells self = Some cells ∧
           Ship.canOccupy this cells allShips = Some true.
Proof.
  intros (Hwf & Hno & Hin) Hself Hliv.
  assert (self ∈ allShips) as Hmem by (by eapply list_elem_of_lookup_2).
  destruct (getCells_valid self (Hwf self Hmem)) as [cells Hcells].
  exists cells. split; [done|]. apply (canOccupy_complete this cells allShips self).
  - done.
  - intros c Hc. apply (Hin self c Hmem Hliv). by exists cells.
  - intros j s' Hne Hj Hl'. split.
    + apply getCells_valid, Hwf. by eapply list_elem_of_lookup_2.
    + intros c Hc. apply (Hno this j self s' c); [done..|]. by exists cells.
Qed.

Lemma move_forward_accepted (this : nat) (allShips allShips' : list Ship.t)
    (self : Ship.t) :
  allShips !! this = Some self →
  Ship.move this "forward" allShips = Some (true, allShips') →
  ∃ v, DIRECTION_VECTORS (Ship.orientation self) = Some v ∧
       allShips' = <[this := Ship.set_xy self (Ship.x self + dx v) (Ship.y self + dy v)]>
                     allShips.
Proof.
  intros Hself Hrun. unfold Ship.move in Hrun. rewrite Hself in Hrun.
  simpl in Hrun.
  destruct (DIRECTION_VECTORS (Ship.orientation self)) as [v|]; [|done].
  simpl in Hrun. exists v. split; [done|].
  destruct (Ship.canMoveTo this (Ship.x self + dx v) (Ship.y self + dy v) allShips)
    as [[|]|]; simpl in Hrun; by simplify_eq.
Qed.

(** ** The three sums of [evaluatePosition] *)

Lemma targetBonus_snoc (targets : list Combat.Target) (target : Combat.Target)
    (score : Z) :
  AI.targetBonus (targets ++ [target]) score
  = AI.targetBonus targets score + Z.of_nat (length target.2) * 10.
Proof. unfold AI.targetBonus. by rewrite foldl_snoc. Qed.

Lemma hitCellsOf_length (zones shipCells : list Cell) :
  Z.of_nat (length (Combat.hitCellsOf zones shipCells)) = cellsWithin zones shipCells.
Proof.
  unfold Combat.hitCellsOf, cellsWithin. do 2 f_equal.
  apply list_filter_iff. intros c. apply existsb_sameCell_r.
Qed.

Lemma threatened_cons (zones : list Cell) (t : Team) (s : Ship.t)
    (rest : list Ship.t) :
  threatened zones t (s :: rest)
  = (if decide (Ship.team s ≠ t ∧ living s)
     then cellsWithin zones (cellsOrEmpty s) else 0)
    + threatened zones t rest.
Proof.
  unfold threatened. rewrite filter_cons. by case_decide.
Qed.

Lemma targetLoop_bonus (attacker : nat) (t : Team) (zones : list Cell)
    (ships : list Ship.t) :
  ∀ j targets result,
    (∀ k s, ships !! k = Some s → (j + k)%nat = attacker → Ship.team s = t) →
    Combat.targetLoop attacker t zones j ships targets = Some result →
    AI.targetBonus result 0
    = AI.targetBonus targets 0 + 10 * threatened zones t ships.
Proof.
  induction ships as [|ship rest IH]; intros j targets result Hteam Hrun.
  { simpl in Hrun. simplify_eq. unfold threatened. simpl. lia. }
  assert (∀ k s, rest !! k = Some s → (S j + k)%nat = attacker → Ship.team s = t)
    as Hteam'.
  { intros k s Hk Heq. apply (Hteam (S k) s); [done|lia]. }
  rewrite threatened_cons. simpl in Hrun.
  destruct (Nat.eqb_spec j attacker) as [Heq|Hne]; simpl in Hrun.
  { rewrite (IH _ _ _ Hteam' Hrun). rewrite decide_False; [lia|].
    intros [Ht _]. apply Ht, (Hteam 0%nat ship); [done|lia]. }
  case_bool_decide as Ht.
  { rewrite (IH _ _ _ Hteam' Hrun). rewrite decide_False; [lia|]. by intros [? _]. }
  destruct (Ship.isAlive ship) eqn:Halive; simpl in Hrun.
  2: { rewrite (IH _ _ _ Hteam' Hrun). rewrite decide_False; [lia|].
       intros [_ Hl%isAlive_living]. congruence. }
  apply isAlive_living in Halive. rewrite decide_True by done.
  destruct (Ship.getCells ship) as [shipCells|] eqn:Hcells; [|done].
  simpl in Hrun. unfold cellsOrEmpty. rewrite Hcells. simpl.
  rewrite <- hitCellsOf_length.
  destruct (0 <? length (Combat.hitCellsOf zones shipCells))%nat eqn:Hhit.
  - rewrite (IH _ _ _ Hteam' Hrun), targetBonus_snoc. simpl. lia.
  - rewrite (IH _ _ _ Hteam' Hrun). apply Nat.ltb_ge in Hhit. lia.
Qed.

(** One own cell against a zone without repetition: at most one match. *)
Lemma zone_matches (cell : Cell) (zone : list Cell) (score : Z) :
  NoDup zone →
  foldl (λ score z, if sameCell cell z then score - 5 else score) score zone
  = score - 5 * (if decide (cell ∈ zone) then 1 else 0).
Proof.
  revert score. induction zone as [|z zone IH]; intros score Hnd; simpl; [lia|].
  apply NoDup_cons in Hnd as [Hz Hnd]. rewrite IH by done.
  destruct (sameCell cell z) eqn:Heq.
  - apply sameCell_eq in Heq as ->.
    rewrite (decide_False (P := z ∈ zone)) by done.
    rewrite decide_True by left. lia.
  - assert (cell ≠ z) as Hne.
    { intros ->. by rewrite sameCell_refl in Heq. }
    destruct (decide (cell ∈ zone)) as [Hin|Hout].
    + rewrite decide_True by (by right). lia.
    + rewrite decide_False; [lia|]. by intros [?|?]%elem_of_cons.
Qed.

Lemma zonePenalty_count (shipCells zone : list Cell) (score : Z) :
  NoDup zone →
  AI.zonePenalty shipCells zone score = score - 5 * cellsWithin zone shipCells.
Proof.
  intros Hnd. unfold AI.zonePenalty, cellsWithin. revert score.
  induction shipCells as [|cell rest IH]; intros score; simpl; [lia|].
  rewrite IH, zone_matches by done. rewrite filter_cons.
  destruct (decide (cell ∈ zone)); simpl; lia.
Qed.

Lemma getFireZones_NoDup (s : Ship.t) (maxRange : Z) (zone : list Cell) :
  Ship.getFireZones s maxRange = Some zone → NoDup zone.
Proof.
  unfold Ship.getFireZones. intros Hrun.
  destruct (Ship.getCells s) as [shipCells|]; [|done]. simpl in Hrun.
  injection Hrun as <-.
  assert (∀ cells acc, NoDup acc → NoDup (foldl (λ fireCells cell,
            foldl (λ fireCells pdir,
              foldl (λ fireCells distance,
                let fireX := cell.1 + dx pdir * distance in
                let fireY := cell.2 + dy pdir * distance in
                if Board.isValidCell (Ship.board s) fireX fireY
                then Ship.pushNew fireCells (fireX, fireY)
                else fireCells)
              fireCells (seqZ 1 maxRange))
            fireCells (Ship.perpDirs s)) acc cells)) as Hloop.
  { induction cells as [|cell cells IH]; intros acc Hnd; simpl; [done|].
    apply IH. generalize (Ship.perpDirs s). intros dirs. revert acc Hnd.
    induction dirs as [|pdir dirs IHd]; intros acc Hnd; simpl; [done|].
    apply IHd.
    by apply (collect_NoDup (Ship.board s)
                (λ distance, (cell.1 + dx pdir * distance, cell.2 + dy pdir * distance))). }
  apply Hloop, NoDup_nil_2.
Qed.

Lemma getFireZones_valid (s : Ship.t) (maxRange : Z) :
  validOrientation (Ship.orientation s) → is_Some (Ship.getFireZones s maxRange).
Proof.
  intros [cells Hcells]%getCells_valid. unfold Ship.getFireZones.
  rewrite Hcells. by eexists.
Qed.

Lemma filter_living_cons (s : Ship.t) (rest : list Ship.t) :
  filter living (s :: rest)
  = if Ship.isAlive s then s :: filter living rest else filter living rest.
Proof.
  rewrite filter_cons. destruct (Ship.isAlive s) eqn:Ha.
  - apply isAlive_living in Ha. by rewrite decide_True.
  - rewrite decide_False; [done|]. intros Hl%isAlive_living. congruence.
Qed.

Lemma penaltyLoop_sum (self : Ship.t) (allShips : list Ship.t)
    (playerShips : list nat) (players : list Ship.t) :
  wellFormed allShips →
  validOrientation (Ship.orientation self) →
  Forall2 (λ p s, allShips !! p = Some s) playerShips players →
  ∀ score,
    AI.penaltyLoop self playerShips allShips score
    = Some (score - 5 * sumZ (λ p, cellsWithin (wideZone p) (cellsOrEmpty self))
                             (filter living players)).
Proof.
  intros Hwf Hself Hplayers.
  induction Hplayers as [|p s playerShips players Hp _ IH]; intros score; simpl.
  { f_equal. unfold sumZ. simpl. lia. }
  rewrite Hp. simpl. rewrite filter_living_cons.
  destruct (Ship.isAlive s) eqn:Ha; simpl; [|apply IH].
  destruct (getFireZones_valid s 3) as [zone Hzone].
  { apply Hwf. by eapply list_elem_of_lookup_2. }
  destruct (getCells_valid self Hself) as [cells Hcells].
  rewrite Hzone, Hcells. simpl.
  rewrite IH, (zonePenalty_count cells zone) by (by eapply getFireZones_NoDup).
  unfold wideZone, cellsOrEmpty, sumZ. rewrite Hzone, Hcells. simpl. f_equal. lia.
Qed.

Lemma distanceLoop_sum (self : Ship.t) (allShips : list Ship.t)
    (playerShips : list nat) (players : list Ship.t) :
  Forall2 (λ p s, allShips !! p = Some s) playerShips players →
  ∀ score,
    AI.distanceLoop self playerShips allShips score
    = Some (score + sumZ (λ p, Z.max 0 (10 - manhattan self p)) (filter living players)).
Proof.
  intros Hplayers.
  induction Hplayers as [|p s playerShips players Hp _ IH]; intros score; simpl.
  { f_equal. unfold sumZ. simpl. lia. }
  rewrite Hp. simpl. rewrite filter_living_cons.
  destruct (Ship.isAlive s) eqn:Ha; simpl; [|apply IH].
  rewrite IH. unfold sumZ, manhattan. simpl. f_equal. lia.
Qed.

Lemma evaluatePosition_value (board : Board.t) (ship : nat) (playerShips : list nat)
    (allShips : list Ship.t) (self : Ship.t) (players : list Ship.t) :
  wellFormed allShips →
  allShips !! ship = Some self →
  Forall2 (λ p s, allShips !! p = Some s) playerShips players →
  ∃ zones,
    Combat.getSideFireZones board self = Some zones ∧
    AI.evaluatePosition board ship playerShips allShips
    = Some (pairwiseScore zones self players allShips).
Proof.
  intros Hwf Hself Hplayers.
  destruct (getTargetsInRange_spec board ship allShips self Hwf Hself)
    as (zones & targets & Hzones & Htargets & _).
  exists zones. split; [done|].
  unfold AI.evaluatePosition. rewrite Htargets. simpl. rewrite Hself. simpl.
  assert (validOrientation (Ship.orientation self)) as Hv.
  { apply Hwf. by eapply list_elem_of_lookup_2. }
  rewrite (penaltyLoop_sum self allShips playerShips players Hwf Hv Hplayers).
  simpl. rewrite (distanceLoop_sum self allShips playerShips players Hplayers).
  f_equal. unfold pairwiseScore.
  unfold Combat.getTargetsInRange in Htargets. rewrite Hself in Htargets.
  simpl in Htargets. rewrite Hzones in Htargets. simpl in Htargets.
  rewrite (targetLoop_bonus ship (Ship.team self) zones allShips 0%nat [] targets);
    [simpl; lia| |done].
  intros k s Hk Heq. simpl in Heq. subst k. by simplify_eq.
Qed.

(** ** Calls that cannot throw *)

Lemma wellFormed_insert (allShips : list Ship.t) (i : nat) (s : Ship.t) :
  wellFormed allShips → validOrientation (Ship.orientation s) →
  wellFormed (<[i := s]> allShips).
Proof.
  intros Hwf Hv s' [k Hk]%list_elem_of_lookup.
  apply list_lookup_insert_Some in Hk as [(_ & <- & _) | (_ & Hk)]; [done|].
  apply Hwf. by eapply list_elem_of_lookup_2.
Qed.

Lemma clearOfShips_total (this : nat) (cells : list Cell) (ships : list Ship.t) :
  (∀ s, s ∈ ships → validOrientation (Ship.orientation s)) →
  ∀ j, is_Some (Ship.clearOfShips this cells j ships).
Proof.
  induction ships as [|ship rest IH]; intros Hwf j; simpl; [by eexists|].
  assert (is_Some (Ship.clearOfShips this cells (S j) rest)) as Hrest.
  { apply IH. intros s Hs. apply Hwf. by right. }
  destruct ((j =? this)%nat || negb (Ship.isAlive ship)); [done|].
  destruct (getCells_valid ship) as [otherCells ->]; [apply Hwf; left|].
  simpl. by case_match.
Qed.

Lemma canOccupy_total (this : nat) (cells : list Cell) (allShips : list Ship.t) :
  wellFormed allShips → is_Some (allShips !! this) →
  is_Some (Ship.canOccupy this cells allShips).
Proof.
  intros Hwf [self Hself]. unfold Ship.canOccupy. rewrite Hself. simpl.
  case_match; [by apply clearOfShips_total | by eexists].
Qed.

Lemma move_total (this : nat) (direction : string) (allShips : list Ship.t) :
  wellFormed allShips → is_Some (allShips !! this) →
  is_Some (Ship.move this direction allShips).
Proof.
  intros Hwf [self Hself]. unfold Ship.move, Ship.canMoveTo. rewrite Hself. simpl.
  assert (validOrientation (Ship.orientation self)) as Hv.
  { apply Hwf. by eapply list_elem_of_lookup_2. }
  rewrite (heading_valid self Hv). unfold Ship.getCellsAt. simpl.
  rewrite (heading_valid self Hv).
  destruct (String.eqb direction "forward"); simpl;
    [|destruct (String.eqb direction "backward"); simpl];
    rewrite trail_Some; simpl;
    match goal with |- context [Ship.canOccupy this ?cells allShips] =>
      destruct (canOccupy_total this cells allShips Hwf) as [[|] ->]; eauto
    end.
Qed.

Lemma rotate_total (this : nat) (direction : string) (allShips : list Ship.t) :
  wellFormed allShips → is_Some (allShips !! this) →
  is_Some (Ship.rotate this direction allShips).
Proof.
  intros Hwf [self Hself]. unfold Ship.rotate, Ship.canRotateTo. rewrite Hself. simpl.
  assert (validOrientation (Ship.orientation self)) as Hv.
  { apply Hwf. by eapply list_elem_of_lookup_2. }
  pose proof (rotated_valid _ direction Hv) as [v Hvec]%validOrientation_vector.
  unfold Ship.getCellsAt. simpl. rewrite Hvec, trail_Some. simpl.
  match goal with |- context [Ship.canOccupy this ?cells allShips] =>
    destruct (canOccupy_total this cells allShips Hwf) as [[|] ->]; eauto
  end.
Qed.

Lemma move_wellFormed (this : nat) (direction : string)
    (allShips allShips' : list Ship.t) (ok : bool) :
  wellFormed allShips →
  Ship.move this direction allShips = Some (ok, allShips') →
  wellFormed allShips'.
Proof.
  intros Hwf Hrun.
  apply move_inv in Hrun as (self & Hself & [[_ ->] | (? & ? & ? & _ & -> & _)]);
    [done|].
  apply wellFormed_insert; [done|]. simpl. apply Hwf. by eapply list_elem_of_lookup_2.
Qed.

Lemma rotate_wellFormed (this : nat) (direction : string)
    (allShips allShips' : list Ship.t) (ok : bool) :
  wellFormed allShips →
  Ship.rotate this direction allShips = Some (ok, allShips') →
  wellFormed allShips'.
Proof.
  intros Hwf Hrun.
  apply rotate_inv in Hrun as (self & Hself & [[_ ->] | (? & ? & _ & -> & -> & _)]);
    [done|].
  apply wellFormed_insert; [done|]. simpl.
  apply rotated_valid, Hwf. by eapply list_elem_of_lookup_2.
Qed.

Lemma positions_ships (allShips : list Ship.t) (positions : list nat) :
  (∀ p, p ∈ positions → is_Some (allShips !! p)) →
  ∃ ships, Forall2 (λ p s, allShips !! p = Some s) positions ships.
Proof.
  induction positions as [|p rest IH]; intros Hall; [by exists []|].
  destruct (Hall p) as [s Hs]; [left|].
  destruct IH as [ships Hships]; [intros q Hq; apply Hall; by right|].
  exists (s :: ships). by constructor.
Qed.

Lemma evaluatePosition_total (board : Board.t) (ship : nat) (playerShips : list nat)
    (allShips : list Ship.t) :
  wellFormed allShips →
  is_Some (allShips !! ship) →
  (∀ p, p ∈ playerShips → is_Some (allShips !! p)) →
  is_Some (AI.evaluatePosition board ship playerShips allShips).
Proof.
  intros Hwf [self Hself] [players Hplayers]%positions_ships.
  destruct (evaluatePosition_value board ship playerShips allShips self players)
    as (zones & _ & ->); [done..|]. by eexists.
Qed.

(** ** Trial and roll-back *)

Lemma move_restore (ship : nat) (direction : string)
    (allShips allShips1 : list Ship.t) (self : Ship.t) (ok : bool) :
  allShips !! ship = Some self →
  Ship.move ship direction allShips = Some (ok, allShips1) →
  AI.restore ship (Ship.x self) (Ship.y self) (Ship.orientation self) allShips1
  = Some allShips.
Proof.
  intros Hself Hrun. unfold AI.restore.
  apply move_inv in Hrun
    as (self' & Hself' & [[_ ->] | (newX & newY & ? & _ & -> & _)]); simplify_eq.
  - rewrite Hself. simpl. f_equal.
    rewrite set_xy_same, set_orientation_same. by apply list_insert_id.
  - rewrite list_lookup_insert_eq by (by eapply lookup_lt_Some). simpl. f_equal.
    rewrite list_insert_insert_eq, set_xy_twice, set_xy_same, set_orientation_same.
    by apply list_insert_id.
Qed.

Lemma rotate_restore (ship : nat) (direction : string)
    (allShips allShips1 : list Ship.t) (self : Ship.t) (ok : bool) :
  allShips !! ship = Some self →
  Ship.rotate ship direction allShips = Some (ok, allShips1) →
  AI.restore ship (Ship.x self) (Ship.y self) (Ship.orientation self) allShips1
  = Some allShips.
Proof.
  intros Hself Hrun. unfold AI.restore.
  apply rotate_inv in Hrun
    as (self' & Hself' & [[_ ->] | (o & ? & _ & _ & -> & _)]); simplify_eq.
  - rewrite Hself. simpl. f_equal.
    rewrite set_xy_same, set_orientation_same. by apply list_insert_id.
  - rewrite list_lookup_insert_eq by (by eapply lookup_lt_Some). simpl. f_equal.
    rewrite list_insert_insert_eq.
    replace (Ship.set_orientation
               (Ship.set_xy (Ship.set_orientation self o) (Ship.x self) (Ship.y self))
               (Ship.orientation self)) with self by (by destruct self).
    by apply list_insert_id.
Qed.

(** One trial of [findBestMove]: the attempt, then the roll-back, give the
    roster back, whatever the attempt answered. *)
Lemma trial_restore (ship : nat) (move : AI.Action)
    (allShips allShips1 : list Ship.t) (self : Ship.t) (success : bool) :
  allShips !! ship = Some self →
  (if String.eqb (AI.type move) "move"
   then Ship.move ship (default "" (AI.dir move)) allShips
   else if String.eqb (AI.type move) "rotate"
   then Ship.rotate ship (default "" (AI.dir move)) allShips
   else Some (false, allShips)) = Some (success, allShips1) →
  AI.restore ship (Ship.x self) (Ship.y self) (Ship.orientation self) allShips1
  = Some allShips.
Proof.
  intros Hself Hrun.
  destruct (String.eqb (AI.type move) "move"); [by eapply move_restore|].
  destruct (String.eqb (AI.type move) "rotate"); [by eapply rotate_restore|].
  simplify_eq. unfold AI.restore. rewrite Hself. simpl. f_equal.
  rewrite set_xy_same, set_orientation_same. by apply list_insert_id.
Qed.

Lemma trial_total (ship : nat) (move : AI.Action) (allShips : list Ship.t) :
  wellFormed allShips → is_Some (allShips !! ship) →
  ∃ success allShips1,
    (if String.eqb (AI.type move) "move"
     then Ship.move ship (default "" (AI.dir move)) allShips
     else if String.eqb (AI.type move) "rotate"
     then Ship.rotate ship (default "" (AI.dir move)) allShips
     else Some (false, allShips)) = Some (success, allShips1) ∧
    wellFormed allShips1 ∧ length allShips1 = length allShips.
Proof.
  intros Hwf Hship.
  destruct (String.eqb (AI.type move) "move");
    [|destruct (String.eqb (AI.type move) "rotate")].
  - destruct (move_total ship (default "" (AI.dir move)) allShips Hwf Hship)
      as [[ok st1] Hrun].
    exists ok, st1. split; [done|]. split; [by eapply move_wellFormed|].
    apply move_inv in Hrun as (? & ? & [[_ ->] | (? & ? & ? & _ & -> & _)]);
      [done | by rewrite length_insert].
  - destruct (rotate_total ship (default "" (AI.dir move)) allShips Hwf Hship)
      as [[ok st1] Hrun].
    exists ok, st1. split; [done|]. split; [by eapply rotate_wellFormed|].
    apply rotate_inv in Hrun as (? & ? & [[_ ->] | (? & ? & _ & _ & -> & _)]);
      [done | by rewrite length_insert].
  - by exists false, allShips.
Qed.

Lemma tryMoves_unchanged (board : Board.t) (ship : nat) (playerShips : list nat)
    (moves : list AI.Action) :
  ∀ bestScore bestMove (allShips allShips' : list Ship.t) best,
    AI.tryMoves board ship playerShips moves bestScore bestMove allShips
      = Some (best, allShips') →
    allShips' = allShips.
Proof.
  induction moves as [|move rest IH];
    intros bestScore bestMove allShips allShips' best Hrun; simpl in Hrun.
  { by simplify_eq. }
  destruct (allShips !! ship) as [self|] eqn:Hself; [|done]. simpl in Hrun.
  match type of Hrun with context [mbind _ ?trial] =>
    destruct trial as [[success allShips1]|] eqn:Htrial; [|done] end.
  pose proof (trial_restore ship move allShips allShips1 self success Hself Htrial)
    as Hrestore.
  simpl in Hrun. destruct success.
  - destruct (AI.evaluatePosition board ship playerShips allShips1) as [score|];
      [|done].
    simpl in Hrun. rewrite Hrestore in Hrun. simpl in Hrun.
    destruct (score >? bestScore); by eapply IH.
  - rewrite Hrestore in Hrun. simpl in Hrun. by eapply IH.
Qed.

Lemma tryMoves_total (board : Board.t) (ship : nat) (playerShips : list nat)
    (allShips : list Ship.t) (moves : list AI.Action) :
  wellFormed allShips →
  is_Some (allShips !! ship) →
  (∀ p, p ∈ playerShips → is_Some (allShips !! p)) →
  ∀ bestScore bestMove,
    ∃ best, AI.tryMoves board ship playerShips moves bestScore bestMove allShips
            = Some (best, allShips).
Proof.
  intros Hwf Hship Hplayers.
  induction moves as [|move rest IH]; intros bestScore bestMove; simpl;
    [by eexists|].
  destruct Hship as [self Hself]. rewrite Hself. simpl.
  destruct (trial_total ship move allShips Hwf (mk_is_Some _ _ Hself))
    as (success & allShips1 & Htrial & Hwf1 & Hlen1).
  rewrite Htrial. simpl.
  rewrite (trial_restore ship move allShips allShips1 self success Hself Htrial).
  destruct success; simpl.
  - destruct (evaluatePosition_total board ship playerShips allShips1 Hwf1)
      as [score ->].
    + apply lookup_lt_is_Some. rewrite Hlen1. by eapply lookup_lt_Some.
    + intros p Hp. apply lookup_lt_is_Some. rewrite Hlen1.
      by apply lookup_lt_is_Some, Hplayers.
    + simpl. destruct (score >? bestScore); apply IH.
  - apply IH.
Qed.

Lemma findBestMove_unchanged (board : Board.t) (ship : nat) (playerShips : list nat)
    (allShips allShips' : list Ship.t) (rng rng' : AI.Rng) (best : option AI.Action) :
  AI.findBestMove board ship playerShips allShips rng = Some (best, allShips', rng') →
  allShips' = allShips.
Proof.
  unfold AI.findBestMove. destruct (AI.shuffle AI.candidateMoves rng) as [moves rng1].
  intros Hrun.
  destruct (AI.tryMoves board ship playerShips moves (-1) None allShips)
    as [[best1 allShips1]|] eqn:Htry; [|done].
  simpl in Hrun. simplify_eq. by eapply tryMoves_unchanged.
Qed.

Lemma fireLoop_total (attacker : nat) (t : Team) (targetCell : Cell)
    (allShips : list Ship.t) (ships : list Ship.t) :
  (∀ s, s ∈ ships → validOrientation (Ship.orientation s)) →
  ∀ j, is_Some (Combat.fireLoop attacker t targetCell j ships allShips).
Proof.
  induction ships as [|ship rest IH]; intros Hwf j; simpl; [by eexists|].
  assert (is_Some (Combat.fireLoop attacker t targetCell (S j) rest allShips))
    as Hrest.
  { apply IH. intros s Hs. apply Hwf. by right. }
  destruct ((j =? attacker)%nat || bool_decide (Ship.team ship = t)); [done|].
  destruct (negb (Ship.isAlive ship)); [done|].
  destruct (getCells_valid ship) as [cells ->]; [apply Hwf; left|].
  simpl. case_match; [by eexists | done].
Qed.

Lemma fire_total (board : Board.t) (attacker : nat) (targetCell : Cell)
    (allShips : list Ship.t) :
  wellFormed allShips → is_Some (allShips !! attacker) →
  is_Some (Combat.fire board attacker targetCell allShips).
Proof.
  intros Hwf [a Ha]. unfold Combat.fire. rewrite Ha. simpl.
  destruct (getSideFireZones_elem board a) as (zones & -> & _).
  { apply Hwf. by eapply list_elem_of_lookup_2. }
  simpl. case_match; [by eexists | by apply fireLoop_total].
Qed.

Lemma fireBroadside_total (board : Board.t) (attacker : nat)
    (allShips : list Ship.t) :
  wellFormed allShips → is_Some (allShips !! attacker) →
  is_Some (Combat.fireBroadside board attacker allShips).
Proof.
  intros Hwf [a Ha]. unfold Combat.fireBroadside. rewrite Ha. simpl.
  case_match; [by eexists|].
  destruct (getTargetsInRange_spec board attacker allShips a Hwf Ha)
    as (zones & targets & _ & -> & Hmem & Hnonempty & Hsorted).
  simpl.
  destruct (broadsideLoop_spec targets [] allShips) as (hits & allShips' & -> & _);
    [by apply StronglySorted_lt_NoDup | done | | by eexists].
  intros j (s & Hs & _)%Hmem. by exists s.
Qed.

(** ** The wide zone *)

Lemma getFireZones_sweep (s : Ship.t) (maxRange : Z) :
  Ship.getFireZones s maxRange
  = (cells ← Ship.getCells s;
     Some (sweep (Ship.board s) (Ship.perpDirs s) maxRange [] cells)).
Proof. done. Qed.

Lemma sweep_dirs_elem (board : Board.t) (cell : Cell) (maxRange : Z)
    (dirs : list Dir) :
  ∀ acc c,
    c ∈ foldl (λ acc pdir,
                 collect board (λ d, (cell.1 + dx pdir * d, cell.2 + dy pdir * d))
                         acc (seqZ 1 maxRange)) acc dirs ↔
    c ∈ acc ∨
    (inBounds board c ∧
     ∃ pdir d, pdir ∈ dirs ∧ 1 ≤ d ≤ maxRange ∧
               c = (cell.1 + dx pdir * d, cell.2 + dy pdir * d)).
Proof.
  induction dirs as [|pdir dirs IH]; intros acc c; simpl.
  { split; [by left|]. intros [?|(_ & ? & ? & Hin & _)]; [done|]. by inversion Hin. }
  rewrite IH, collect_elem. split.
  - intros [[?|(Hb & d & Hd%elem_of_seqZ & ->)]|(Hb & pdir' & d & Hp & Hd & ->)].
    + by left.
    + right. split; [done|]. exists pdir, d. split; [left|]. split; [lia|done].
    + right. split; [done|]. exists pdir', d. split; [by right|done].
  - intros [?|(Hb & pdir' & d & Hp & Hd & ->)]; [by left; left|].
    apply elem_of_cons in Hp as [->|Hp].
    + left. right. split; [done|]. exists d. split; [|done].
      apply elem_of_seqZ. lia.
    + right. split; [done|]. by exists pdir', d.
Qed.

Lemma sweep_elem (board : Board.t) (dirs : list Dir) (maxRange : Z)
    (cells : list Cell) :
  ∀ acc c,
    c ∈ sweep board dirs maxRange acc cells ↔
    c ∈ acc ∨
    (inBounds board c ∧
     ∃ cell pdir d, cell ∈ cells ∧ pdir ∈ dirs ∧ 1 ≤ d ≤ maxRange ∧
                    c = (cell.1 + dx pdir * d, cell.2 + dy pdir * d)).
Proof.
  induction cells as [|cell cells IH]; intros acc c; simpl.
  { split; [by left|]. intros [?|(_ & ? & ? & ? & Hin & _)]; [done|].
    by inversion Hin. }
  fold (sweep board dirs maxRange). rewrite IH, sweep_dirs_elem. split.
  - intros [[?|(Hb & pdir & d & Hp & Hd & ->)]|(Hb & cell' & pdir & d & Hc & Hp & Hd & ->)].
    + by left.
    + right. split; [done|]. exists cell, pdir, d. split; [left|done].
    + right. split; [done|]. exists cell', pdir, d. split; [by right|done].
  - intros [?|(Hb & cell' & pdir & d & Hc & Hp & Hd & ->)]; [by left; left|].
    apply elem_of_cons in Hc as [->|Hc].
    + left. right. split; [done|]. by exists pdir, d.
    + right. split; [done|]. by exists cell', pdir, d.
Qed.

Lemma perpDirs_lateral (s : Ship.t) (p : Cell) (d : Z) (c : Cell) :
  (∃ pdir, pdir ∈ Ship.perpDirs s ∧ c = (p.1 + dx pdir * d, p.2 + dy pdir * d))
  ↔ lateralAt s p d c.
Proof.
  unfold Ship.perpDirs, lateralAt, vertical.
  assert (∀ a b : Dir, ∀ P : Dir → Prop,
            (∃ pdir, pdir ∈ [a; b] ∧ P pdir) ↔ P a ∨ P b) as Hpair.
  { intros a b P. split.
    - intros (pdir & [->|[->|[]%elem_of_nil]%elem_of_cons]%elem_of_cons & ?); auto.
    - intros [?|?]; [exists a|exists b]; (split; [|done]); [left|right; left]. }
  destruct (Z.eqb_spec (Ship.orientation s) UP) as [Hup|Hup];
    [|destruct (Z.eqb_spec (Ship.orientation s) DOWN) as [Hdn|Hdn]]; simpl;
    rewrite (Hpair _ _ (λ pdir, c = (p.1 + dx pdir * d, p.2 + dy pdir * d)));
    simpl.
  - replace (p.1 + 1 * d) with (p.1 + d) by lia.
    replace (p.1 + -1 * d) with (p.1 - d) by lia.
    replace (p.2 + 0 * d) with p.2 by lia.
    split; [intros ?; left; split; [by left|done] | intros [[_ ?]|[[] ?]]; auto].
  - replace (p.1 + 1 * d) with (p.1 + d) by lia.
    replace (p.1 + -1 * d) with (p.1 - d) by lia.
    replace (p.2 + 0 * d) with p.2 by lia.
    split; [intros ?; left; split; [by right|done] | intros [[_ ?]|[[] ?]]; auto].
  - replace (p.2 + 1 * d) with (p.2 + d) by lia.
    replace (p.2 + -1 * d) with (p.2 - d) by lia.
    replace (p.1 + 0 * d) with p.1 by lia.
    split; [intros ?; right; split; [by intros [?|?]|done]|].
    intros [[[?|?] _]|[_ ?]]; done.
Qed.

Lemma getFireZones_elem (s : Ship.t) (maxRange : Z) :
  validOrientation (Ship.orientation s) →
  ∃ zone, Ship.getFireZones s maxRange = Some zone ∧ NoDup zone ∧
          ∀ c, c ∈ zone ↔ inWideZone s maxRange c.
Proof.
  intros Hv. destruct (getFireZones_valid s maxRange Hv) as [zone Hzone].
  exists zone. split; [done|]. split; [by eapply getFireZones_NoDup|].
  rewrite getFireZones_sweep, (getCells_segments s Hv) in Hzone. simpl in Hzone.
  injection Hzone as <-. intros c. rewrite sweep_elem. unfold inWideZone. split.
  - intros [Hnil|(Hb & cell & pdir & d & Hc & Hp & Hd & ->)]; [by inversion Hnil|].
    split; [done|]. apply list_elem_of_fmap in Hc as (i & -> & Hi%elem_of_seqZ).
    exists i, d. split; [lia|]. split; [done|]. apply perpDirs_lateral. eauto.
  - intros (Hb & i & d & Hi & Hd & (pdir & Hp & ->)%perpDirs_lateral).
    right. split; [done|]. exists (segment s i), pdir, d.
    split; [|done]. apply list_elem_of_fmap. exists i. split; [done|].
    apply elem_of_seqZ. lia.
Qed.

Lemma wideZone_elem (s : Ship.t) (c : Cell) :
  validOrientation (Ship.orientation s) → c ∈ wideZone s ↔ inWideZone s 3 c.
Proof.
  intros Hv. destruct (getFireZones_elem s 3 Hv) as (zone & Hzone & _ & Hmem).
  unfold wideZone. by rewrite Hzone.
Qed.

(** ** The opponent's turn keeps the placement valid *)

Lemma validPlacement_flags (allShips : list Ship.t) (i : nat) (s s' : Ship.t) :
  validPlacement allShips →
  allShips !! i = Some s →
  Ship.getCells s' = Ship.getCells s →
  Ship.orientation s' = Ship.orientation s →
  Ship.board s' = Ship.board s →
  Ship.cannonsPerSide s' = Ship.cannonsPerSide s →
  validPlacement (<[i := s']> allShips).
Proof.
  intros Hvp Hi Hcells Ho Hb Hc. pose proof Hvp as (Hwf & Hno & Hin).
  assert (s ∈ allShips) as Hmem by (by eapply list_elem_of_lookup_2).
  apply (validPlacement_update allShips i s); [done | done | |].
  - rewrite Ho. by apply Hwf.
  - unfold living, occupies. rewrite Hc, Hcells, Hb. intros Hliv c Hocc. split.
    + by apply (Hin s c).
    + intros j s2 Hne Hj Hl2. by apply (Hno i j s s2 c).
Qed.

Lemma scan_unchanged (board : Board.t) (playerShips aliveShips : list nat) :
  ∀ bestShip bestAction bestPriority (allShips allShips' : list Ship.t)
    (rng rng' : AI.Rng) bestShip' bestAction',
    AI.scan board playerShips aliveShips bestShip bestAction bestPriority
            allShips rng
      = Some (bestShip', bestAction', allShips', rng') →
    allShips' = allShips.
Proof.
  induction aliveShips as [|ship rest IH];
    intros bestShip bestAction bestPriority allShips allShips' rng rng'
           bestShip' bestAction' Hrun; simpl in Hrun.
  { by simplify_eq. }
  destruct (Combat.getTargetsInRange board ship allShips) as [targets|]; [|done].
  simpl in Hrun. destruct (0 <? length targets)%nat.
  { destruct (bestPriority <? 2); by eapply IH. }
  destruct (AI.findBestMove board ship playerShips allShips rng)
    as [[[move allShips1] rng1]|] eqn:Hbest; [|done].
  apply findBestMove_unchanged in Hbest as ->. simpl in Hrun.
  destruct (bool_decide (is_Some move) && (bestPriority <? 1)); by eapply IH.
Qed.

Lemma execute_validPlacement (board : Board.t) (bestShip : nat)
    (bestAction : AI.Action) (allShips allShips' : list Ship.t)
    (actions : list string) :
  validPlacement allShips →
  AI.execute board bestShip bestAction allShips = Some (actions, allShips') →
  validPlacement allShips'.
Proof.
  intros Hvp Hrun. unfold AI.execute in Hrun.
  destruct (String.eqb (AI.type bestAction) "fire").
  { destruct (Combat.fireBroadside board bestShip allShips)
      as [[hits allShips1]|] eqn:Hfire; [|done].
    simpl in Hrun.
    assert (validPlacement allShips1) as Hvp1.
    { by eapply fireBroadside_validPlacement. }
    destruct (allShips1 !! bestShip) as [self|] eqn:Hself; [|done].
    simpl in Hrun.
    assert (validPlacement (<[bestShip := Ship.set_hasFired self true]> allShips1)).
    { by apply (validPlacement_flags allShips1 bestShip self). }
    destruct (0 <? length hits)%nat; by simplify_eq. }
  destruct (String.eqb (AI.type bestAction) "move").
  { destruct (Ship.move bestShip (default "" (AI.dir bestAction)) allShips)
      as [[moved allShips1]|] eqn:Hmove; [|done].
    simpl in Hrun.
    assert (validPlacement allShips1) as Hvp1.
    { by eapply move_validPlacement. }
    destruct moved; [|by simplify_eq].
    destruct (allShips1 !! bestShip) as [self|] eqn:Hself; [|done].
    simpl in Hrun. simplify_eq.
    by apply (validPlacement_flags allShips1 bestShip self). }
  destruct (String.eqb (AI.type bestAction) "rotate"); [|by simplify_eq].
  destruct (Ship.rotate bestShip (default "" (AI.dir bestAction)) allShips)
    as [[moved allShips1]|] eqn:Hrot; [|done].
  simpl in Hrun.
  assert (validPlacement allShips1) as Hvp1.
  { by eapply rotate_validPlacement. }
  destruct moved; [|by simplify_eq].
  destruct (allShips1 !! bestShip) as [self|] eqn:Hself; [|done].
  simpl in Hrun. simplify_eq.
  by apply (validPlacement_flags allShips1 bestShip self).
Qed.

(** The opponent acts through the same [move], [rotate] and
    [fireBroadside] as a player, so its turn keeps the placement valid. *)
Lemma takeTurn_validPlacement (board : Board.t) (enemyShips playerShips : list nat)
    (allShips allShips' : list Ship.t) (rng rng' : AI.Rng) (actions : list string) :
  validPlacement allShips →
  AI.takeTurn board enemyShips playerShips allShips rng
    = Some (actions, allShips', rng') →
  validPlacement allShips'.
Proof.
  intros Hvp Hrun. unfold AI.takeTurn in Hrun.
  destruct (AI.filterAlive enemyShips allShips) as [aliveShips|]; [|done].
  simpl in Hrun. destruct (length aliveShips =? 0)%nat; [by simplify_eq|].
  destruct (AI.shuffle aliveShips rng) as [shuffled rng1].
  destruct (AI.scan board playerShips shuffled None None (-1) allShips rng1)
    as [[[[bestShip bestAction] allShips1] rng2]|] eqn:Hscan; [|done].
  apply scan_unchanged in Hscan as ->. simpl in Hrun.
  destruct bestShip as [chosen|].
  - simpl in Hrun. destruct bestAction as [action|]; [|by simplify_eq].
    destruct (AI.execute board chosen action allShips)
      as [[acts allShips2]|] eqn:Hexec; [|done].
    simpl in Hrun. simplify_eq. by eapply execute_validPlacement.
  - destruct (AI.randomBelow (length shuffled) rng2) as [k rng3].
    destruct (shuffled !! k) as [chosen|]; [|done]. simpl in Hrun.
    destruct (AI.findBestMove board chosen playerShips allShips rng3)
      as [[[fallback allShips2] rng4]|] eqn:Hbest; [|done].
    apply findBestMove_unchanged in Hbest as ->. simpl in Hrun.
    destruct fallback as [action|]; [|by simplify_eq].
    destruct (AI.execute board chosen action allShips)
      as [[acts allShips3]|] eqn:Hexec; [|done].
    simpl in Hrun. simplify_eq. by eapply execute_validPlacement.
Qed.

(** ** One step of the match keeps the placement valid *)

Lemma step_validPlacement (board : Board.t) (allShips allShips' : list Ship.t) :
  step board allShips allShips' →
  validPlacement allShips → validPlacement allShips'.
Proof.
  intros Hstep Hvp.
  destruct Hstep as [this direction allShips ok allShips' Hrun
                    |this direction allShips ok allShips' Hrun
                    |attacker targetCell allShips result allShips' Hrun
                    |attacker allShips hits allShips' Hrun
                    |enemyShips playerShips allShips rng actions allShips' rng' Hrun
                    |this allShips self sel moved fired Hself].
  - by eapply move_validPlacement.
  - by eapply rotate_validPlacement.
  - by eapply fire_validPlacement.
  - by eapply fireBroadside_validPlacement.
  - by eapply takeTurn_validPlacement.
  - by apply (validPlacement_flags allShips this self).
Qed.

Lemma reachable_validPlacement (board : Board.t) (init allShips : list Ship.t) :
  reachable board init allShips → validPlacement init → validPlacement allShips.
Proof.
  induction 1 as [|st1 st2 st3 Hstep _ IH]; [done|].
  intros Hvp. by eapply IH, step_validPlacement.
Qed.

(** * The properties of the engine *)

(** ** Placement invariant *)

(** C1.  In every roster reachable from a valid initial placement by
    [move], [rotate], [fire] and [fireBroadside] (and by the opponent's
    turns and the game's flag updates, which a match interleaves with
    them), every ship has its cells, no cell is occupied by two distinct
    living ships, and every cell of a living ship is on the board.  The
    reason is visible in the same state: a [move] or [rotate] that changes
    the roster changes one ship's bow or heading only, to a pose whose
    cells [canOccupy] accepted against the roster, and a refused one
    changes nothing.  None of the four actions of a ship of the roster
    throws there. *)
Theorem reachable_ships_disjoint_in_bounds
    (board : Board.t) (init allShips : list Ship.t) :
  validPlacement init →
  reachable board init allShips →
  (∀ s, s ∈ allShips → is_Some (Ship.getCells s)) ∧
  noOverlap allShips ∧
  allInBounds allShips ∧
  (∀ this direction ok allShips',
     Ship.move this direction allShips = Some (ok, allShips') →
     ∃ self, allShips !! this = Some self ∧
       if ok
       then ∃ newX newY cells,
              allShips' = <[this := Ship.set_xy self newX newY]> allShips ∧
              Ship.getCells (Ship.set_xy self newX newY) = Some cells ∧
              Ship.canOccupy this cells allShips = Some true
       else allShips' = allShips) ∧
  (∀ this direction ok allShips',
     Ship.rotate this direction allShips = Some (ok, allShips') →
     ∃ self, allShips !! this = Some self ∧
       if ok
       then ∃ newOrientation cells,
              allShips' = <[this := Ship.set_orientation self newOrientation]> allShips ∧
              Ship.getCells (Ship.set_orientation self newOrientation) = Some cells ∧
              Ship.canOccupy this cells allShips = Some true
       else allShips' = allShips) ∧
  (∀ this direction targetCell,
     is_Some (allShips !! this) →
     is_Some (Ship.move this direction allShips) ∧
     is_Some (Ship.rotate this direction allShips) ∧
     is_Some (Combat.fire board this targetCell allShips) ∧
     is_Some (Combat.fireBroadside board this allShips)).
Proof.
  intros Hinit Hreach.
  destruct (reachable_validPlacement board init allShips Hreach Hinit)
    as (Hwf & Hno & Hin).
  split; [|split; [done|split; [done|split; [|split]]]].
  - intros s Hs. by apply getCells_valid, Hwf.
  - intros this direction ok allShips' Hrun.
    apply move_inv in Hrun
      as (self & Hself & [[-> ->] | (newX & newY & cells & -> & -> & Hcells & Hocc)]);
      exists self; (split; [done|]); [done|].
    by exists newX, newY, cells.
  - intros this direction ok allShips' Hrun.
    apply rotate_inv in Hrun
      as (self & Hself & [[-> ->] | (o & cells & -> & _ & -> & Hcells & Hocc)]);
      exists self; (split; [done|]); [done|].
    by exists o, cells.
  - intros this direction targetCell Hthis.
    split; [by apply move_total|]. split; [by apply rotate_total|].
    split; [by apply fire_total | by apply fireBroadside_total].
Qed.

Lemma reachable_ships_disjoint_in_bounds_witness :
  validPlacement duelStart ∧
  reachable gameBoard duelStart duelAfterMove ∧
  noOverlap duelAfterMove ∧ allInBounds duelAfterMove.
Proof.
  assert (validPlacement duelStart) as Hstart.
  { apply validPlacementb_sound. vm_compute. reflexivity. }
  assert (reachable gameBoard duelStart duelAfterMove) as Hreach.
  { apply rtc_once. apply (step_move gameBoard 0%nat "forward" duelStart true).
    vm_compute. reflexivity. }
  split; [exact Hstart|]. split; [exact Hreach|].
  destruct (reachable_ships_disjoint_in_bounds gameBoard duelStart duelAfterMove
              Hstart Hreach) as (_ & Hno & Hin & _).
  split; [exact Hno | exact Hin].
Defined.

(** ** Narrow fire zones *)

(** C2.  For a ship with one of the four headings, [getSideFireZones]
    returns a list without repetition whose members are exactly the
    on-board cells laterally adjacent (±X of a vertical ship, ±Y of a
    horizontal one) to a segment numbered 1 to
    [min(cannonsPerSide, length − 1)]; a lateral neighbour of the bow, or of
    a segment beyond that minimum, is never in it.  The frigate at (5,5)
    facing right occupies (5,5), (4,5), (3,5) and its zone is (4,4), (4,6),
    (3,4), (3,6); after [takeDamage(1)] it is (4,4), (4,6). *)
Theorem getSideFireZones_firing_segments (board : Board.t) (s : Ship.t) :
  validOrientation (Ship.orientation s) →
  (∃ zones,
     Combat.getSideFireZones board s = Some zones ∧
     NoDup zones ∧
     (∀ c, c ∈ zones ↔
           inBounds board c ∧
           ∃ i, 1 ≤ i ≤ Z.min (Ship.cannonsPerSide s) (Ship.length s - 1) ∧
                lateralOf s (segment s i) c) ∧
     (∀ c, lateralOf s (segment s 0) c → c ∉ zones) ∧
     (∀ i c, Z.min (Ship.cannonsPerSide s) (Ship.length s - 1) < i →
             lateralOf s (segment s i) c → c ∉ zones)) ∧
  Ship.getCells frigate = Some [(5, 5); (4, 5); (3, 5)] ∧
  Combat.getSideFireZones gameBoard frigate = Some [(4, 4); (4, 6); (3, 4); (3, 6)] ∧
  Combat.getSideFireZones gameBoard (Ship.takeDamage frigate 1).1
    = Some [(4, 4); (4, 6)].
Proof.
  intros Hv. split; [|by vm_compute].
  destruct (getSideFireZones_elem board s Hv) as (zones & Hrun & Hnd & Hzone).
  exists zones. split; [done|]. split; [done|]. split; [exact Hzone|].
  assert (∀ i c, ¬ firingSegment s i → lateralOf s (segment s i) c → c ∉ zones)
    as Hsilent.
  { intros i c Hnot Hlat [_ (i' & Hi' & Hlat')]%Hzone.
    by rewrite (lateral_segment_inj s i i' c Hv Hlat Hlat') in Hnot. }
  split.
  - intros c. apply Hsilent. unfold firingSegment. lia.
  - intros i c Hi. apply Hsilent. unfold firingSegment. lia.
Qed.

Lemma getSideFireZones_firing_segments_witness :
  validOrientation (Ship.orientation frigate) ∧
  ∃ zones, Combat.getSideFireZones gameBoard frigate = Some zones ∧
           (3, 4) ∈ zones ∧ (5, 4) ∉ zones.
Proof.
  assert (validOrientation (Ship.orientation frigate)) as Hv.
  { right. left. reflexivity. }
  split; [exact Hv|].
  destruct (getSideFireZones_firing_segments gameBoard frigate Hv)
    as [(zones & Hrun & _ & Hzone & Hbow & _) _].
  exists zones. split; [exact Hrun|]. split.
  - apply Hzone. split; [vm_compute; intuition discriminate|].
    exists 2. split; [vm_compute; intuition discriminate|].
    right. split; [vm_compute; intuition discriminate|]. left. reflexivity.
  - apply Hbow. right. split; [vm_compute; intuition discriminate|].
    left. reflexivity.
Defined.

(** ** Broadsides *)

(** C3.  An attacker with cannons left fires at the roster: the broadside
    returns, and with [zones] the attacker's narrow fire zones,
    - every ship that is a target (other team, alive, at least one cell in
      the zones, however many) has [takeDamage(1)] applied once: it loses
      exactly one cannon, and the result holds its entry with the
      [destroyed] flag of that damage;
    - every other ship is unchanged and has no entry;
    - the entries are in increasing roster position, hence in the order of
      [allShips] and one per target. *)
Theorem fireBroadside_one_damage_per_target
    (board : Board.t) (attacker : nat) (allShips : list Ship.t) (a : Ship.t) :
  wellFormed allShips →
  allShips !! attacker = Some a →
  0 < Ship.cannonsPerSide a →
  ∃ zones hits allShips',
    Combat.getSideFireZones board a = Some zones ∧
    Combat.fireBroadside board attacker allShips = Some (hits, allShips') ∧
    length allShips' = length allShips ∧
    (∀ j s, allShips !! j = Some s → isTarget zones (Ship.team a) s →
            allShips' !! j = Some (Ship.takeDamage s 1).1 ∧
            Ship.cannonsPerSide (Ship.takeDamage s 1).1 = Ship.cannonsPerSide s - 1 ∧
            (j, (Ship.takeDamage s 1).2) ∈ hits) ∧
    (∀ j s, allShips !! j = Some s → ¬ isTarget zones (Ship.team a) s →
            allShips' !! j = Some s ∧ j ∉ hits.*1) ∧
    StronglySorted lt hits.*1.
Proof.
  intros Hwf Ha Hcap.
  destruct (getTargetsInRange_spec board attacker allShips a Hwf Ha)
    as (zones & targets & Hzones & Htargets & Hmem & Hnonempty & Hsorted).
  destruct (broadsideLoop_spec targets [] allShips) as
    (hits & allShips' & Hrun & Hlen & Hlookup & Hfst & Hflags).
  { by apply StronglySorted_lt_NoDup. }
  { done. }
  { intros j (s & Hs & _)%Hmem. by exists s. }
  exists zones, hits, allShips'. split; [done|]. split.
  { unfold Combat.fireBroadside. rewrite Ha. simpl.
    destruct (Z.leb_spec (Ship.cannonsPerSide a) 0) as [?|_]; [lia|].
    rewrite Htargets. simpl. by rewrite Hrun. }
  split; [done|]. rewrite Hfst. split; [|split; [|done]].
  - intros j s Hj Ht.
    assert (j ∈ targets.*1) as Hin by (apply Hmem; by exists s).
    rewrite (Hlookup j s Hj), decide_True by done. split; [done|]. split.
    + destruct Ht as (_ & Hliv & _). unfold living in Hliv. simpl. lia.
    + rewrite <- Hfst in Hin. apply list_elem_of_fmap in Hin as ([j' d] & -> & Hin).
      simpl in *. destruct (Hflags j' d Hin) as (s' & Hs' & Hd).
      by simplify_eq.
  - intros j s Hj Hnt.
    assert (j ∉ targets.*1) as Hout.
    { intros (s' & Hs' & Ht)%Hmem. by simplify_eq. }
    by rewrite (Hlookup j s Hj), decide_False.
Qed.

Lemma fireBroadside_one_damage_per_target_witness :
  wellFormed broadsideRoster ∧
  broadsideRoster !! 0%nat = Some frigate ∧
  0 < Ship.cannonsPerSide frigate ∧
  ∃ hits allShips',
    Combat.fireBroadside gameBoard 0 broadsideRoster = Some (hits, allShips') ∧
    hits = [(1%nat, false)] ∧
    Ship.cannonsPerSide <$> allShips' = [2; 1; 2].
Proof.
  assert (wellFormed broadsideRoster) as Hwf.
  { apply validPlacementb_sound. vm_compute. reflexivity. }
  split; [exact Hwf|]. split; [reflexivity|]. split; [reflexivity|].
  destruct (fireBroadside_one_damage_per_target gameBoard 0 broadsideRoster frigate
              Hwf eq_refl eq_refl)
    as (zones & hits & allShips' & _ & Hrun & _).
  exists hits, allShips'. split; [exact Hrun|].
  vm_compute in Hrun. injection Hrun as <- <-. split; reflexivity.
Defined.

(** C6.  An attacker without cannons fires at the roster: [fireBroadside]
    returns normally, its result is the empty list, and the roster it
    leaves is the roster it was given: no ship took damage.  Nothing is
    assumed about the other ships, so no state of theirs can make the call
    throw. *)
Theorem fireBroadside_without_cannons
    (board : Board.t) (attacker : nat) (allShips : list Ship.t) (a : Ship.t) :
  allShips !! attacker = Some a →
  Ship.cannonsPerSide a ≤ 0 →
  Combat.fireBroadside board attacker allShips = Some ([], allShips).
Proof.
  intros Ha Hcap. unfold Combat.fireBroadside. rewrite Ha. simpl.
  by destruct (Z.leb_spec (Ship.cannonsPerSide a) 0); [|lia].
Qed.

Lemma fireBroadside_without_cannons_witness :
  disarmedRoster !! 0%nat = Some (Ship.takeDamage frigate 2).1 ∧
  Ship.cannonsPerSide (Ship.takeDamage frigate 2).1 ≤ 0 ∧
  Combat.fireBroadside gameBoard 0 disarmedRoster = Some ([], disarmedRoster).
Proof.
  assert (Ship.cannonsPerSide (Ship.takeDamage frigate 2).1 ≤ 0) as Hcap.
  { vm_compute. discriminate. }
  split; [reflexivity|]. split; [exact Hcap|].
  exact (fireBroadside_without_cannons gameBoard 0 disarmedRoster
           (Ship.takeDamage frigate 2).1 eq_refl Hcap).
Defined.

(** ** End of the match *)

(** C4.  [checkGameOver] returns [true] exactly when a side has no living
    ship.  With no living enemy ship the state becomes [GAME_OVER] and the
    player is the winner; with no living player ship while an enemy ship
    lives, the state becomes [GAME_OVER] and the player is not the winner;
    with a living ship on both sides it returns [false] and changes
    nothing.  In particular a fleet whose ships all have
    [cannonsPerSide = 0] ends the match with the other side as winner:
    the enemy fleet in any case, the player fleet when an enemy ship lives. *)
Theorem checkGameOver_decides_the_match (g : Game.t) :
  let over := (Game.checkGameOver g).1 in
  let g' := (Game.checkGameOver g).2 in
  (over = true ↔ noneLiving (Game.playerShips g) ∨ noneLiving (Game.enemyShips g)) ∧
  (noneLiving (Game.enemyShips g) →
     over = true ∧ Game.state g' = GAME_OVER ∧ Game.playerWon g' = true) ∧
  (noneLiving (Game.playerShips g) → ¬ noneLiving (Game.enemyShips g) →
     over = true ∧ Game.state g' = GAME_OVER ∧ Game.playerWon g' = false) ∧
  (¬ noneLiving (Game.playerShips g) → ¬ noneLiving (Game.enemyShips g) →
     over = false ∧ g' = g) ∧
  ((∀ s, s ∈ Game.enemyShips g → Ship.cannonsPerSide s = 0) →
     over = true ∧ Game.state g' = GAME_OVER ∧ Game.playerWon g' = true) ∧
  ((∀ s, s ∈ Game.playerShips g → Ship.cannonsPerSide s = 0) →
   (∃ s, s ∈ Game.enemyShips g ∧ living s) →
     over = true ∧ Game.state g' = GAME_OVER ∧ Game.playerWon g' = false) ∧
  Game.playerShips g' = Game.playerShips g ∧
  Game.enemyShips g' = Game.enemyShips g.
Proof.
  unfold Game.checkGameOver.
  destruct (existsb Ship.isAlive (Game.enemyShips g)) eqn:He;
    destruct (existsb Ship.isAlive (Game.playerShips g)) eqn:Hp; simpl.
  all: assert (∀ ships, (∀ s, s ∈ ships → Ship.cannonsPerSide s = 0) →
                        noneLiving ships) as Hzero
         by (intros ships H0 s Hs; unfold living; rewrite (H0 s Hs); lia).
  all: assert (∀ ships, (∃ s, s ∈ ships ∧ living s) → ¬ noneLiving ships) as Hsome
         by (intros ships (s & Hs & Hl) Hnone; by apply (Hnone s)).
  all: try apply existsb_isAlive_false in He.
  all: try apply existsb_isAlive_false in Hp.
  all: try (apply not_false_iff_true in He; rewrite existsb_isAlive_false in He).
  all: try (apply not_false_iff_true in Hp; rewrite existsb_isAlive_false in Hp).
  all: repeat split; intros; try done; try tauto; try (exfalso; naive_solver).
Qed.

(** The check on three matches.  With both fleets sunk the enemy fleet is
    looked at first, and the player is the winner. *)
Example checkGameOver_enemySunk :
  Game.checkGameOver enemySunk
  = (true, Game.mk GAME_OVER true SINGLE_PLAYER
             (Game.playerShips enemySunk) (Game.enemyShips enemySunk)).
Proof. reflexivity. Qed.

Example checkGameOver_playerSunk :
  Game.checkGameOver playerSunk
  = (true, Game.mk GAME_OVER false SINGLE_PLAYER
             (Game.playerShips playerSunk) (Game.enemyShips playerSunk)).
Proof. reflexivity. Qed.

Example checkGameOver_bothSunk :
  Game.checkGameOver bothSunk
  = (true, Game.mk GAME_OVER true SINGLE_PLAYER
             (Game.playerShips bothSunk) (Game.enemyShips bothSunk)).
Proof. reflexivity. Qed.

(** ** The opponent *)

(** C10.  When every ship of [enemyShips] has [cannonsPerSide ≤ 0],
    [takeTurn] returns normally with the empty action list, the roster it
    was given (positions, headings, cannons and per-turn flags of all
    ships) and the random source untouched. *)
Theorem takeTurn_without_living_ships
    (board : Board.t) (enemyShips playerShips : list nat)
    (allShips : list Ship.t) (rng : AI.Rng) :
  (∀ j, j ∈ enemyShips → ∃ s, allShips !! j = Some s ∧ Ship.cannonsPerSide s ≤ 0) →
  AI.takeTurn board enemyShips playerShips allShips rng = Some ([], allShips, rng).
Proof.
  intros Hdead. unfold AI.takeTurn. by rewrite (filterAlive_none _ _ Hdead).
Qed.

Lemma takeTurn_without_living_ships_witness :
  (∀ j, j ∈ [1; 2]%nat →
        ∃ s, sunkFleetRoster !! j = Some s ∧ Ship.cannonsPerSide s ≤ 0) ∧
  AI.takeTurn gameBoard [1; 2]%nat [0%nat] sunkFleetRoster [3; 1; 4]%nat
  = Some ([], sunkFleetRoster, [3; 1; 4]%nat).
Proof.
  assert (∀ j, j ∈ [1; 2]%nat →
               ∃ s, sunkFleetRoster !! j = Some s ∧ Ship.cannonsPerSide s ≤ 0)
    as Hdead.
  { intros j Hj. apply elem_of_cons in Hj as [-> | Hj].
    - eexists. split; [reflexivity|]. vm_compute. discriminate.
    - apply list_elem_of_singleton in Hj as ->.
      eexists. split; [reflexivity|]. vm_compute. discriminate. }
  split; [exact Hdead|].
  exact (takeTurn_without_living_ships gameBoard [1; 2]%nat [0%nat] sunkFleetRoster
           [3; 1; 4]%nat Hdead).
Defined.

(** ** Rotating and sailing back *)

(** C7, as stated, fails: the corner ship turned counter-clockwise four
    times turns once (to the left, lying along the top edge); the next
    heading, down, would put its stern off the board, so the three other
    calls are refused and the ship ends heading left, on other cells. *)
Lemma rotate_four_times_counterexample :
  ∃ allShips' self',
    rotateTimes 4 0 "ccw" [cornerShip] = Some ([true; false; false; false], allShips') ∧
    allShips' !! 0%nat = Some self' ∧
    Ship.orientation self' ≠ Ship.orientation cornerShip ∧
    Ship.getCells self' ≠ Ship.getCells cornerShip.
Proof.
  exists [Ship.set_orientation cornerShip LEFT], (Ship.set_orientation cornerShip LEFT).
  split; [by vm_compute|]. split; [done|]. split; by vm_compute.
Qed.

(** C7, amended.  A ship with one of the four headings, rotated four times
    in the same direction with every one of the four calls accepted, is
    back to its original heading and cells: the roster after the fourth
    call is the roster before the first. *)
Theorem rotate_four_times_accepted
    (this : nat) (direction : string) (allShips allShips' : list Ship.t)
    (self : Ship.t) :
  allShips !! this = Some self →
  validOrientation (Ship.orientation self) →
  rotateTimes 4 this direction allShips = Some ([true; true; true; true], allShips') →
  allShips' = allShips ∧
  ∃ self', allShips' !! this = Some self' ∧
           Ship.orientation self' = Ship.orientation self ∧
           Ship.getCells self' = Ship.getCells self.
Proof.
  intros Hself Hv Hrun.
  apply rotateTimes_succ in Hrun as (st1 & Hr1 & Hrun).
  apply rotateTimes_succ in Hrun as (st2 & Hr2 & Hrun).
  apply rotateTimes_succ in Hrun as (st3 & Hr3 & Hrun).
  apply rotateTimes_succ in Hrun as (st4 & Hr4 & Hrun).
  simpl in Hrun. injection Hrun as <-.
  pose proof (rotate_accepted_lookup _ _ _ _ _ Hself Hr1) as Hs1.
  pose proof (rotate_accepted_lookup _ _ _ _ _ Hs1 Hr2) as Hs2.
  pose proof (rotate_accepted_lookup _ _ _ _ _ Hs2 Hr3) as Hs3.
  assert (st4 = allShips) as ->.
  { rewrite (rotate_accepted _ _ _ _ _ Hs3 Hr4), (rotate_accepted _ _ _ _ _ Hs2 Hr3),
      (rotate_accepted _ _ _ _ _ Hs1 Hr2), (rotate_accepted _ _ _ _ _ Hself Hr1).
    rewrite !list_insert_insert_eq, !set_orientation_twice. simpl.
    rewrite (turned_four_times direction _ Hv), set_orientation_same.
    by apply list_insert_id. }
  split; [done|]. by exists self.
Qed.

Lemma rotate_four_times_accepted_witness :
  [sloop] !! 0%nat = Some sloop ∧
  validOrientation (Ship.orientation sloop) ∧
  rotateTimes 4 0 "cw" [sloop] = Some ([true; true; true; true], [sloop]) ∧
  ∃ self', [sloop] !! 0%nat = Some self' ∧
           Ship.orientation self' = Ship.orientation sloop ∧
           Ship.getCells self' = Ship.getCells sloop.
Proof.
  assert (validOrientation (Ship.orientation sloop)) as Hv by (by left).
  assert (rotateTimes 4 0 "cw" [sloop] = Some ([true; true; true; true], [sloop]))
    as Hrun by (by vm_compute).
  split; [reflexivity|]. split; [exact Hv|]. split; [exact Hrun|].
  exact (proj2 (rotate_four_times_accepted 0 "cw" [sloop] [sloop] sloop
                  eq_refl Hv Hrun)).
Defined.

(** C8, as stated, fails in a roster reachable from a valid placement: the
    wreck can be moved forward, its bow going from (5,5) to (6,5), but the
    move backward that follows at once is refused, because the living
    enemy sloop lies on the cell (4,5) the stern would return to. *)
Lemma move_forward_backward_counterexample :
  validPlacement wreckStart ∧
  reachable gameBoard wreckStart wreckRoster ∧
  Ship.move 0 "forward" wreckRoster = Some (true, wreckMoved) ∧
  Ship.move 0 "backward" wreckMoved = Some (false, wreckMoved) ∧
  Ship.x <$> wreckMoved !! 0%nat ≠ Ship.x <$> wreckRoster !! 0%nat.
Proof.
  split; [apply validPlacementb_sound; by vm_compute|]. split.
  { eapply rtc_l.
    { eapply (step_fireBroadside gameBoard 1). by vm_compute. }
    eapply rtc_l.
    { eapply (step_rotate gameBoard 1 "cw"). by vm_compute. }
    eapply rtc_l.
    { eapply (step_move gameBoard 1 "forward"). by vm_compute. }
    eapply rtc_once.
    eapply (step_rotate gameBoard 1 "ccw"). by vm_compute. }
  split; [by vm_compute|]. split; by vm_compute.
Qed.

(** C8, amended.  For a ship that stands where [canOccupy] accepts it (as
    every living ship of a validly placed roster does), a [move('forward')]
    that succeeds is undone by the [move('backward')] that follows at once:
    that call succeeds too and gives back the roster from before the
    forward move, so the bow position and the cells of the ship are the
    original ones. *)
Theorem move_forward_then_backward
    (this : nat) (allShips allShips1 : list Ship.t) (self : Ship.t)
    (cells : list Cell) :
  allShips !! this = Some self →
  Ship.getCells self = Some cells →
  Ship.canOccupy this cells allShips = Some true →
  Ship.move this "forward" allShips = Some (true, allShips1) →
  Ship.move this "backward" allShips1 = Some (true, allShips) ∧
  ∃ v, DIRECTION_VECTORS (Ship.orientation self) = Some v ∧
       allShips1 !! this
       = Some (Ship.set_xy self (Ship.x self + dx v) (Ship.y self + dy v)).
Proof.
  intros Hself Hcells Hocc Hfwd.
  destruct (move_forward_accepted this allShips allShips1 self Hself Hfwd)
    as (v & Hv & ->).
  assert (this < length allShips)%nat as Hlt by (by eapply lookup_lt_Some).
  split; [|exists v; split; [done|by apply list_lookup_insert_eq]].
  unfold Ship.move, Ship.canMoveTo.
  rewrite list_lookup_insert_eq by done. simpl. rewrite Hv. simpl.
  replace (Ship.x self + dx v + - dx v) with (Ship.x self) by lia.
  replace (Ship.y self + dy v + - dy v) with (Ship.y self) by lia.
  unfold Ship.getCellsAt. simpl. rewrite Hv.
  unfold Ship.getCells in Hcells. rewrite Hv in Hcells. rewrite Hcells. simpl.
  rewrite (canOccupy_ignores_self this cells allShips self) by done.
  rewrite Hocc. simpl.
  rewrite list_insert_insert_eq, set_xy_twice, set_xy_same.
  by rewrite list_insert_id.
Qed.

Lemma move_forward_then_backward_witness :
  duelStart !! 0%nat = Some (Ship.new 2 0 3 RIGHT player gameBoard) ∧
  Ship.getCells (Ship.new 2 0 3 RIGHT player gameBoard) = Some [(2, 0); (1, 0); (0, 0)] ∧
  Ship.canOccupy 0 [(2, 0); (1, 0); (0, 0)] duelStart = Some true ∧
  Ship.move 0 "forward" duelStart = Some (true, duelAfterMove) ∧
  Ship.move 0 "backward" duelAfterMove = Some (true, duelStart).
Proof.
  assert (Ship.canOccupy 0 [(2, 0); (1, 0); (0, 0)] duelStart = Some true) as Hocc
    by (by vm_compute).
  assert (Ship.move 0 "forward" duelStart = Some (true, duelAfterMove)) as Hfwd
    by (by vm_compute).
  split; [reflexivity|]. split; [by vm_compute|]. split; [exact Hocc|].
  split; [exact Hfwd|].
  destruct (move_forward_then_backward 0 duelStart duelAfterMove
              (Ship.new 2 0 3 RIGHT player gameBoard) [(2, 0); (1, 0); (0, 0)]
              eq_refl eq_refl Hocc Hfwd) as [Hback _].
  exact Hback.
Defined.

(** ** The opponent's evaluation *)

(** C9.  In a roster whose ships have one of the four headings, for a ship
    and enemy positions that are in the roster, [findBestMove] returns, and
    the roster it leaves is the roster it was given, whatever the random
    order of the candidates; so does the trial loop for every list of
    candidate actions and every best-so-far.  In particular the ship's
    [x], [y] and [orientation] after the call are those before it. *)
Theorem findBestMove_leaves_ship_unchanged
    (board : Board.t) (ship : nat) (playerShips : list nat)
    (allShips : list Ship.t) (rng : AI.Rng) (self : Ship.t) :
  wellFormed allShips →
  allShips !! ship = Some self →
  (∀ p, p ∈ playerShips → is_Some (allShips !! p)) →
  (∃ best rng',
     AI.findBestMove board ship playerShips allShips rng = Some (best, allShips, rng')) ∧
  (∀ moves bestScore bestMove,
     ∃ best, AI.tryMoves board ship playerShips moves bestScore bestMove allShips
             = Some (best, allShips)) ∧
  (∀ best allShips' rng',
     AI.findBestMove board ship playerShips allShips rng = Some (best, allShips', rng') →
     ∃ self', allShips' !! ship = Some self' ∧
              Ship.x self' = Ship.x self ∧ Ship.y self' = Ship.y self ∧
              Ship.orientation self' = Ship.orientation self).
Proof.
  intros Hwf Hself Hplayers.
  assert (∀ moves bestScore bestMove,
     ∃ best, AI.tryMoves board ship playerShips moves bestScore bestMove allShips
             = Some (best, allShips)) as Htry.
  { intros moves. by apply tryMoves_total. }
  split; [|split; [done|]].
  - unfold AI.findBestMove.
    destruct (AI.shuffle AI.candidateMoves rng) as [moves rng1].
    destruct (Htry moves (-1) None) as [best ->]. simpl. by exists best, rng1.
  - intros best allShips' rng' ->%findBestMove_unchanged. by exists self.
Qed.

Lemma findBestMove_leaves_ship_unchanged_witness :
  wellFormed duelStart ∧
  duelStart !! 1%nat = Some (Ship.new 17 0 3 LEFT enemy gameBoard) ∧
  (∀ p, p ∈ [0%nat] → is_Some (duelStart !! p)) ∧
  ∃ best rng',
    AI.findBestMove gameBoard 1 [0%nat] duelStart [2; 0; 1]%nat
    = Some (best, duelStart, rng').
Proof.
  assert (wellFormed duelStart) as Hwf.
  { apply validPlacementb_sound. vm_compute. reflexivity. }
  assert (∀ p, p ∈ [0%nat] → is_Some (duelStart !! p)) as Hplayers.
  { intros p ->%list_elem_of_singleton. by eexists. }
  split; [exact Hwf|]. split; [reflexivity|]. split; [exact Hplayers|].
  destruct (findBestMove_leaves_ship_unchanged gameBoard 1 [0%nat] duelStart
              [2; 0; 1]%nat _ Hwf eq_refl Hplayers) as [Hrun _].
  exact Hrun.
Defined.

(** C5, as stated, fails: in the crossfire the sloop threatens no cell, one
    of its two cells lies in a wide zone, and both player bows are at
    distance 2, so the score as worded is [−5 + 8 + 8 = 11]; the code
    returns 6, because it takes 5 off once for each of the two player
    ships whose wide zone covers the cell. *)
Lemma evaluatePosition_counterexample :
  validPlacement crossfire ∧
  Combat.getSideFireZones gameBoard (Ship.new 5 5 2 LEFT enemy gameBoard)
    = Some [(6, 4); (6, 6)] ∧
  AI.evaluatePosition gameBoard 2 [0; 1]%nat crossfire = Some 6 ∧
  claimedScore [(6, 4); (6, 6)] (Ship.new 5 5 2 LEFT enemy gameBoard)
    [ Ship.new 5 3 2 RIGHT player gameBoard; Ship.new 5 7 2 RIGHT player gameBoard ]
    crossfire = 11 ∧
  AI.evaluatePosition gameBoard 2 [0; 1]%nat crossfire
  ≠ Some (claimedScore [(6, 4); (6, 6)] (Ship.new 5 5 2 LEFT enemy gameBoard)
            [ Ship.new 5 3 2 RIGHT player gameBoard; Ship.new 5 7 2 RIGHT player gameBoard ]
            crossfire).
Proof.
  split; [apply validPlacementb_sound; by vm_compute|].
  split; [by vm_compute|]. split; [by vm_compute|]. split; by vm_compute.
Qed.

(** C5, amended.  In a roster whose ships have one of the four headings,
    with [players] the ships at the positions [playerShips],
    [evaluatePosition] returns
    - 10 for each cell of a living ship of the other team that lies in the
      ship's narrow fire zones,
    - minus 5 for each pair of a living player ship and an own cell that
      lies in that ship's wide zone,
    - plus [max(0, 10 − d)] for each living player ship, [d] being the
      Manhattan distance between the two bows;
    the narrow zones are those of [getSideFireZones], and the wide zone of
    a player ship holds the on-board cells at most 3 cells to either side
    of any of its occupied cells. *)
Theorem evaluatePosition_score
    (board : Board.t) (ship : nat) (playerShips : list nat)
    (allShips : list Ship.t) (self : Ship.t) (players : list Ship.t) :
  wellFormed allShips →
  allShips !! ship = Some self →
  Forall2 (λ p s, allShips !! p = Some s) playerShips players →
  ∃ zones ownCells,
    Combat.getSideFireZones board self = Some zones ∧
    Ship.getCells self = Some ownCells ∧
    AI.evaluatePosition board ship playerShips allShips
    = Some (10 * sumZ (λ s, cellsWithin zones (cellsOrEmpty s))
                      (filter (λ s, Ship.team s ≠ Ship.team self ∧ living s) allShips)
            - 5 * sumZ (λ p, cellsWithin (wideZone p) ownCells) (filter living players)
            + sumZ (λ p, Z.max 0 (10 - (Z.abs (Ship.x self - Ship.x p)
                                        + Z.abs (Ship.y self - Ship.y p))))
                   (filter living players)) ∧
    (∀ c, c ∈ zones ↔ inNarrowZone board self c) ∧
    (∀ p c, p ∈ players → c ∈ wideZone p ↔ inWideZone p 3 c).
Proof.
  intros Hwf Hself Hplayers.
  destruct (evaluatePosition_value board ship playerShips allShips self players
              Hwf Hself Hplayers) as (zones & Hzones & Hrun).
  assert (validOrientation (Ship.orientation self)) as Hv.
  { apply Hwf. by eapply list_elem_of_lookup_2. }
  destruct (getCells_valid self Hv) as [ownCells Hcells].
  exists zones, ownCells. split; [done|]. split; [done|]. split; [|split].
  - rewrite Hrun. unfold pairwiseScore, threatened, manhattan, cellsOrEmpty at 2.
    by rewrite Hcells.
  - destruct (getSideFireZones_elem board self Hv) as (zones' & Hzones' & _ & Hmem).
    by simplify_eq.
  - intros p c Hp. apply wideZone_elem, Hwf.
    apply list_elem_of_lookup in Hp as [k Hk].
    destruct (Forall2_lookup_r _ _ _ _ _ Hplayers Hk) as (pos & _ & Hpos).
    by eapply list_elem_of_lookup_2.
Qed.

Lemma evaluatePosition_score_witness :
  wellFormed crossfire ∧
  crossfire !! 2%nat = Some (Ship.new 5 5 2 LEFT enemy gameBoard) ∧
  Forall2 (λ p s, crossfire !! p = Some s) [0; 1]%nat
    [ Ship.new 5 3 2 RIGHT player gameBoard; Ship.new 5 7 2 RIGHT player gameBoard ] ∧
  AI.evaluatePosition gameBoard 2 [0; 1]%nat crossfire = Some (10 * 0 - 5 * 2 + 16).
Proof.
  assert (wellFormed crossfire) as Hwf.
  { apply validPlacementb_sound. vm_compute. reflexivity. }
  assert (Forall2 (λ p s, crossfire !! p = Some s) [0; 1]%nat
    [ Ship.new 5 3 2 RIGHT player gameBoard; Ship.new 5 7 2 RIGHT player gameBoard ])
    as Hplayers.
  { repeat constructor. }
  split; [exact Hwf|]. split; [reflexivity|]. split; [exact Hplayers|].
  destruct (evaluatePosition_score gameBoard 2 [0; 1]%nat crossfire _ _
              Hwf eq_refl Hplayers) as (zones & ownCells & Hzones & Hcells & Hrun & _).
  rewrite Hrun. vm_compute in Hzones, Hcells.
  injection Hzones as <-. injection Hcells as <-. vm_compute. reflexivity.
Defined.

(** * Further properties of the engine *)

(** ** Ships on the grid *)

Lemma segment_inj (s : Ship.t) (i j : Z) :
  validOrientation (Ship.orientation s) → segment s i = segment s j → i = j.
Proof.
  unfold segment, heading, DIRECTION_VECTORS, validOrientation, UP, RIGHT, DOWN, LEFT.
  intros [Ho | [Ho | [Ho | Ho]]]; rewrite Ho; simpl; intros [=]; lia.
Qed.

(** X1.  For a ship with one of the four headings, [getCells] returns
    [length] cells (none for a length that is not positive): cell number
    [i] is the bow moved [i] steps against the heading, so the bow comes
    first; no cell is repeated; and [getCellsAt] asked for the ship's own
    bow with no new orientation returns the same cells. *)
Theorem getCells_trails_behind_the_bow (s : Ship.t) :
  validOrientation (Ship.orientation s) →
  ∃ cells,
    Ship.getCells s = Some cells ∧
    Ship.getCellsAt s (Ship.x s) (Ship.y s) None = Some cells ∧
    length cells = Z.to_nat (Ship.length s) ∧
    (∀ (i : nat) c,
       cells !! i = Some c ↔
       Z.of_nat i < Ship.length s ∧
       c = (Ship.x s - dx (heading s) * Z.of_nat i,
            Ship.y s - dy (heading s) * Z.of_nat i)) ∧
    (0 < Ship.length s → cells !! 0%nat = Some (Ship.x s, Ship.y s)) ∧
    NoDup cells.
Proof.
  intros Hv. exists (segment s <$> seqZ 0 (Ship.length s)).
  pose proof (getCells_segments s Hv) as Hcells.
  split; [done|]. split; [done|].
  split; [by rewrite length_fmap, length_seqZ|].
  split; [|split].
  - intros i c. rewrite lookup_segments. unfold segment. tauto.
  - intros Hlen. apply lookup_segments. split; [|lia].
    unfold segment. simpl. f_equal; lia.
  - apply NoDup_fmap_2_strong; [|apply NoDup_seqZ].
    intros i j _ _. by apply segment_inj.
Qed.

Lemma getCells_trails_behind_the_bow_witness :
  validOrientation (Ship.orientation frigate) ∧
  Ship.getCells frigate = Some [(5, 5); (4, 5); (3, 5)].
Proof.
  assert (validOrientation (Ship.orientation frigate)) as Hv by (right; by left).
  split; [exact Hv|].
  destruct (getCells_trails_behind_the_bow frigate Hv) as (cells & Hcells & _).
  rewrite Hcells. vm_compute in Hcells. injection Hcells as <-. reflexivity.
Defined.

(** X2.  In a roster of ships with one of the four headings, [canOccupy]
    returns, and it answers [true] exactly when every candidate cell is on
    the ship's board and none is a cell of another living ship: the ship's
    own cells and the cells of destroyed ships never stand in the way. *)
Theorem canOccupy_accepts_free_cells
    (this : nat) (cells : list Cell) (allShips : list Ship.t) (self : Ship.t) :
  wellFormed allShips →
  allShips !! this = Some self →
  ∃ ok,
    Ship.canOccupy this cells allShips = Some ok ∧
    (ok = true ↔
     (∀ c, c ∈ cells → inBounds (Ship.board self) c) ∧
     (∀ j other, j ≠ this → allShips !! j = Some other → living other →
                 ∀ c, c ∈ cells → ¬ occupies other c)).
Proof.
  intros Hwf Hself.
  destruct (canOccupy_total this cells allShips Hwf (mk_is_Some _ _ Hself))
    as [ok Hrun].
  exists ok. split; [done|]. split.
  - intros ->. by apply (canOccupy_true this cells allShips self).
  - intros [Hin Hfree].
    rewrite (canOccupy_complete this cells allShips self Hself Hin) in Hrun.
    + by simplify_eq.
    + intros j other Hne Hj Hl. split; [|by apply (Hfree j other)].
      apply getCells_valid, Hwf. by eapply list_elem_of_lookup_2.
Qed.

Lemma canOccupy_accepts_free_cells_witness :
  wellFormed wreckRoster ∧
  wreckRoster !! 1%nat = Some (Ship.set_xy (Ship.new 3 4 2 UP enemy gameBoard) 4 4) ∧
  Ship.canOccupy 1 [(5, 5); (4, 5)] wreckRoster = Some true ∧
  Ship.canOccupy 0 [(5, 5); (4, 5)] wreckRoster = Some false.
Proof.
  assert (wellFormed wreckRoster) as Hwf.
  { intros s Hs. repeat (apply elem_of_cons in Hs as [-> | Hs]); [by right; left|by left|].
    by inversion Hs. }
  split; [exact Hwf|]. split; [reflexivity|].
  destruct (canOccupy_accepts_free_cells 1 [(5, 5); (4, 5)] wreckRoster _ Hwf eq_refl)
    as (ok & Hrun & _).
  split; [|by vm_compute]. rewrite Hrun. vm_compute in Hrun. by injection Hrun as <-.
Defined.

Lemma forallb_false_elem {A} (f : A → bool) (l : list A) (a : A) :
  a ∈ l → f a = false → forallb f l = false.
Proof.
  intros Ha Hf. apply not_true_iff_false. rewrite forallb_forall. intros Hall.
  rewrite (Hall a) in Hf; [done | by apply list_elem_of_In].
Qed.

Lemma canOccupy_off_board (this : nat) (cells : list Cell) (allShips : list Ship.t)
    (self : Ship.t) (c : Cell) :
  allShips !! this = Some self →
  c ∈ cells → ¬ inBounds (Ship.board self) c →
  Ship.canOccupy this cells allShips = Some false.
Proof.
  intros Hself Hc Hout. unfold Ship.canOccupy. rewrite Hself. simpl.
  rewrite (forallb_false_elem _ cells c); [done..|].
  apply not_true_iff_false. by rewrite isValidCell_inBounds.
Qed.

(** X3.  A ship of positive length is never moved off its board: when the
    cell ahead of the bow is off the board, [move('forward')] is refused,
    and when the cell behind the stern is, [move('backward')] is; the call
    returns [false] and the roster is unchanged, whatever the other ships
    are. *)
Theorem move_off_the_board_is_refused
    (this : nat) (allShips : list Ship.t) (self : Ship.t) (v : Dir) :
  allShips !! this = Some self →
  DIRECTION_VECTORS (Ship.orientation self) = Some v →
  0 < Ship.length self →
  (¬ inBounds (Ship.board self) (Ship.x self + dx v, Ship.y self + dy v) →
   Ship.move this "forward" allShips = Some (false, allShips)) ∧
  (¬ inBounds (Ship.board self)
       (Ship.x self - dx v * Ship.length self, Ship.y self - dy v * Ship.length self) →
   Ship.move this "backward" allShips = Some (false, allShips)).
Proof.
  intros Hself Hv Hlen. split; intros Hout.
  - unfold Ship.move, Ship.canMoveTo. rewrite Hself. simpl. rewrite Hv. simpl.
    unfold Ship.getCellsAt. simpl. rewrite Hv, trail_Some. simpl.
    rewrite (canOccupy_off_board this _ allShips self
               (Ship.x self + dx v, Ship.y self + dy v)); [done..| |done].
    apply list_elem_of_fmap. exists 0. split; [f_equal; lia|].
    apply elem_of_seqZ. lia.
  - unfold Ship.move, Ship.canMoveTo. rewrite Hself. simpl. rewrite Hv. simpl.
    unfold Ship.getCellsAt. simpl. rewrite Hv, trail_Some. simpl.
    rewrite (canOccupy_off_board this _ allShips self
               (Ship.x self - dx v * Ship.length self,
                Ship.y self - dy v * Ship.length self)); [done..| |done].
    apply list_elem_of_fmap. exists (Ship.length self - 1). split; [f_equal; lia|].
    apply elem_of_seqZ. lia.
Qed.

Lemma move_off_the_board_is_refused_witness :
  duelStart !! 1%nat = Some (Ship.new 17 0 3 LEFT enemy gameBoard) ∧
  DIRECTION_VECTORS (Ship.orientation (Ship.new 17 0 3 LEFT enemy gameBoard))
    = Some (mkDir (-1) 0) ∧
  0 < Ship.length (Ship.new 17 0 3 LEFT enemy gameBoard) ∧
  ¬ inBounds gameBoard (17 - -1 * 3, 0 - 0 * 3) ∧
  Ship.move 1 "backward" duelStart = Some (false, duelStart).
Proof.
  assert (¬ inBounds gameBoard (17 - -1 * 3, 0 - 0 * 3)) as Hout.
  { unfold inBounds. vm_compute. intros [[_ Hlt] _]. discriminate. }
  split; [reflexivity|]. split; [reflexivity|]. split; [reflexivity|].
  split; [exact Hout|].
  exact (proj2 (move_off_the_board_is_refused 1 duelStart
                  (Ship.new 17 0 3 LEFT enemy gameBoard) (mkDir (-1) 0)
                  eq_refl eq_refl eq_refl) Hout).
Defined.

Lemma turned_back (o : Z) :
  validOrientation o →
  turned "ccw" (turned "cw" o) = o ∧ turned "cw" (turned "ccw" o) = o.
Proof.
  unfold validOrientation, UP, RIGHT, DOWN, LEFT.
  by intros [-> | [-> | [-> | ->]]].
Qed.

Lemma rotate_back (this : nat) (d d' : string) (allShips allShips1 : list Ship.t)
    (self : Ship.t) (cells : list Cell) :
  allShips !! this = Some self →
  turned d' (turned d (Ship.orientation self)) = Ship.orientation self →
  Ship.getCells self = Some cells →
  Ship.canOccupy this cells allShips = Some true →
  Ship.rotate this d allShips = Some (true, allShips1) →
  Ship.rotate this d' allShips1 = Some (true, allShips).
Proof.
  intros Hself Hback Hcells Hocc Hrun.
  rewrite (rotate_accepted _ _ _ _ _ Hself Hrun).
  assert (this < length allShips)%nat as Hlt by (by eapply lookup_lt_Some).
  unfold Ship.rotate, Ship.canRotateTo.
  rewrite list_lookup_insert_eq by done. simpl.
  fold (turned d (Ship.orientation self)).
  fold (turned d' (turned d (Ship.orientation self))). rewrite Hback.
  unfold Ship.getCellsAt. simpl. fold (Ship.getCells self). rewrite Hcells. simpl.
  rewrite (canOccupy_ignores_self this cells allShips self) by done.
  rewrite Hocc. simpl.
  rewrite list_insert_insert_eq, set_orientation_twice, set_orientation_same.
  by rewrite list_insert_id.
Qed.

(** X4.  A quarter turn is undone by the opposite one: for a ship with one
    of the four headings that stands where [canOccupy] accepts it, a
    [rotate('cw')] that succeeds is followed by a [rotate('ccw')] that
    succeeds and gives back the roster from before, and the same with the
    two directions exchanged. *)
Theorem rotate_then_rotate_back
    (this : nat) (allShips : list Ship.t) (self : Ship.t) (cells : list Cell) :
  allShips !! this = Some self →
  validOrientation (Ship.orientation self) →
  Ship.getCells self = Some cells →
  Ship.canOccupy this cells allShips = Some true →
  (∀ allShips1, Ship.rotate this "cw" allShips = Some (true, allShips1) →
                Ship.rotate this "ccw" allShips1 = Some (true, allShips)) ∧
  (∀ allShips1, Ship.rotate this "ccw" allShips = Some (true, allShips1) →
                Ship.rotate this "cw" allShips1 = Some (true, allShips)).
Proof.
  intros Hself Hv Hcells Hocc.
  destruct (turned_back _ Hv) as [Hcw Hccw].
  split; intros allShips1 Hrun; by eapply rotate_back.
Qed.

Lemma rotate_then_rotate_back_witness :
  [sloop] !! 0%nat = Some sloop ∧
  validOrientation (Ship.orientation sloop) ∧
  Ship.getCells sloop = Some [(5, 5); (5, 6)] ∧
  Ship.canOccupy 0 [(5, 5); (5, 6)] [sloop] = Some true ∧
  Ship.rotate 0 "cw" [sloop] = Some (true, [Ship.set_orientation sloop RIGHT]) ∧
  Ship.rotate 0 "ccw" [Ship.set_orientation sloop RIGHT] = Some (true, [sloop]).
Proof.
  assert (validOrientation (Ship.orientation sloop)) as Hv by (by left).
  assert (Ship.canOccupy 0 [(5, 5); (5, 6)] [sloop] = Some true) as Hocc
    by (by vm_compute).
  assert (Ship.rotate 0 "cw" [sloop] = Some (true, [Ship.set_orientation sloop RIGHT]))
    as Hrun by (by vm_compute).
  split; [reflexivity|]. split; [exact Hv|]. split; [reflexivity|].
  split; [exact Hocc|]. split; [exact Hrun|].
  exact (proj1 (rotate_then_rotate_back 0 [sloop] sloop [(5, 5); (5, 6)]
                  eq_refl Hv eq_refl Hocc) _ Hrun).
Defined.

(** ** Every step writes to ships in one of three ways *)

Lemma move_touches (this : nat) (direction : string)
    (allShips allShips' : list Ship.t) (ok : bool) :
  Ship.move this direction allShips = Some (ok, allShips') →
  rtc touch allShips allShips'.
Proof.
  intros Hrun.
  apply move_inv in Hrun
    as (self & Hself & [[_ ->] | (newX & newY & ? & _ & -> & _)]); [done|].
  apply rtc_once.
  replace (Ship.set_xy self newX newY)
    with (Ship.set_orientation (Ship.set_xy self newX newY) (Ship.orientation self))
    by done.
  by constructor.
Qed.

Lemma rotate_touches (this : nat) (direction : string)
    (allShips allShips' : list Ship.t) (ok : bool) :
  Ship.rotate this direction allShips = Some (ok, allShips') →
  rtc touch allShips allShips'.
Proof.
  intros Hrun.
  apply rotate_inv in Hrun
    as (self & Hself & [[_ ->] | (o & ? & _ & _ & -> & _)]); [done|].
  apply rtc_once.
  replace (Ship.set_orientation self o)
    with (Ship.set_orientation (Ship.set_xy self (Ship.x self) (Ship.y self)) o)
    by (by destruct self).
  by constructor.
Qed.

Lemma fire_touches (board : Board.t) (attacker : nat) (targetCell : Cell)
    (allShips allShips' : list Ship.t) (result : option nat * bool) :
  Combat.fire board attacker targetCell allShips = Some (result, allShips') →
  rtc touch allShips allShips'.
Proof.
  intros [-> | (k & s & Hk & ->)]%fire_result; [done|].
  apply rtc_once. by constructor.
Qed.

Lemma fireBroadside_touches (board : Board.t) (attacker : nat)
    (allShips allShips' : list Ship.t) (hits : list Combat.Hit) :
  Combat.fireBroadside board attacker allShips = Some (hits, allShips') →
  rtc touch allShips allShips'.
Proof.
  intros Hrun.
  eapply (fireBroadside_preserves (rtc touch allShips)); [|done|done].
  intros st j s Hst Hj. eapply rtc_r; [done|]. by constructor.
Qed.

Lemma set_hasFired_touches (i : nat) (allShips : list Ship.t) (s : Ship.t) (b : bool) :
  allShips !! i = Some s →
  touch allShips (<[i := Ship.set_hasFired s b]> allShips).
Proof.
  intros Hi.
  replace (Ship.set_hasFired s b)
    with (Ship.set_selected
            (Ship.set_hasMoved (Ship.set_hasFired s b) (Ship.hasMoved s))
            (Ship.selected s)) by done.
  by constructor.
Qed.

Lemma set_hasMoved_touches (i : nat) (allShips : list Ship.t) (s : Ship.t) (b : bool) :
  allShips !! i = Some s →
  touch allShips (<[i := Ship.set_hasMoved s b]> allShips).
Proof.
  intros Hi.
  replace (Ship.set_hasMoved s b)
    with (Ship.set_selected
            (Ship.set_hasMoved (Ship.set_hasFired s (Ship.hasFired s)) b)
            (Ship.selected s)) by (by destruct s).
  by constructor.
Qed.

Lemma execute_touches (board : Board.t) (bestShip : nat) (bestAction : AI.Action)
    (allShips allShips' : list Ship.t) (actions : list string) :
  AI.execute board bestShip bestAction allShips = Some (actions, allShips') →
  rtc touch allShips allShips'.
Proof.
  intros Hrun. unfold AI.execute in Hrun.
  destruct (String.eqb (AI.type bestAction) "fire").
  { destruct (Combat.fireBroadside board bestShip allShips)
      as [[hits allShips1]|] eqn:Hfire; [|done].
    simpl in Hrun. apply fireBroadside_touches in Hfire.
    destruct (allShips1 !! bestShip) as [self|] eqn:Hself; [|done].
    simpl in Hrun.
    assert (rtc touch allShips (<[bestShip := Ship.set_hasFired self true]> allShips1)).
    { eapply rtc_r; [done|]. by apply set_hasFired_touches. }
    destruct (0 <? length hits)%nat; by simplify_eq. }
  destruct (String.eqb (AI.type bestAction) "move").
  { destruct (Ship.move bestShip (default "" (AI.dir bestAction)) allShips)
      as [[moved allShips1]|] eqn:Hmove; [|done].
    simpl in Hrun. apply move_touches in Hmove.
    destruct moved; [|by simplify_eq].
    destruct (allShips1 !! bestShip) as [self|] eqn:Hself; [|done].
    simpl in Hrun. simplify_eq.
    eapply rtc_r; [done|]. by apply set_hasMoved_touches. }
  destruct (String.eqb (AI.type bestAction) "rotate"); [|by simplify_eq].
  destruct (Ship.rotate bestShip (default "" (AI.dir bestAction)) allShips)
    as [[moved allShips1]|] eqn:Hrot; [|done].
  simpl in Hrun. apply rotate_touches in Hrot.
  destruct moved; [|by simplify_eq].
  destruct (allShips1 !! bestShip) as [self|] eqn:Hself; [|done].
  simpl in Hrun. simplify_eq.
  eapply rtc_r; [done|]. by apply set_hasMoved_touches.
Qed.

(** The turn of the opponent, taken apart: the alive ships, the shuffled
    order, the ship and action the scan and the fall-back end with. *)
Lemma takeTurn_inv (board : Board.t) (enemyShips playerShips : list nat)
    (allShips allShips' : list Ship.t) (rng rng' : AI.Rng) (actions : list string) :
  AI.takeTurn board enemyShips playerShips allShips rng
    = Some (actions, allShips', rng') →
  (actions = [] ∧ allShips' = allShips) ∨
  ∃ bestShip bestAction,
    AI.execute board bestShip bestAction allShips = Some (actions, allShips').
Proof.
  intros Hrun. unfold AI.takeTurn in Hrun.
  destruct (AI.filterAlive enemyShips allShips) as [aliveShips|]; [|done].
  simpl in Hrun. destruct (length aliveShips =? 0)%nat; [left; by simplify_eq|].
  destruct (AI.shuffle aliveShips rng) as [shuffled rng1].
  destruct (AI.scan board playerShips shuffled None None (-1) allShips rng1)
    as [[[[bestShip bestAction] allShips1] rng2]|] eqn:Hscan; [|done].
  apply scan_unchanged in Hscan as ->. simpl in Hrun.
  destruct bestShip as [chosen|].
  - simpl in Hrun. destruct bestAction as [action|]; [|left; by simplify_eq].
    destruct (AI.execute board chosen action allShips)
      as [[acts allShips2]|] eqn:Hexec; [|done].
    simpl in Hrun. simplify_eq. right. by exists chosen, action.
  - destruct (AI.randomBelow (length shuffled) rng2) as [k rng3].
    destruct (shuffled !! k) as [chosen|]; [|done]. simpl in Hrun.
    destruct (AI.findBestMove board chosen playerShips allShips rng3)
      as [[[fallback allShips2] rng4]|] eqn:Hbest; [|done].
    apply findBestMove_unchanged in Hbest as ->. simpl in Hrun.
    destruct fallback as [action|]; [|left; by simplify_eq].
    destruct (AI.execute board chosen action allShips)
      as [[acts allShips3]|] eqn:Hexec; [|done].
    simpl in Hrun. simplify_eq. right. by exists chosen, action.
Qed.

Lemma takeTurn_touches (board : Board.t) (enemyShips playerShips : list nat)
    (allShips allShips' : list Ship.t) (rng rng' : AI.Rng) (actions : list string) :
  AI.takeTurn board enemyShips playerShips allShips rng
    = Some (actions, allShips', rng') →
  rtc touch allShips allShips'.
Proof.
  intros [[_ ->] | (bestShip & bestAction & Hexec)]%takeTurn_inv; [done|].
  by eapply execute_touches.
Qed.

Lemma step_touches (board : Board.t) (allShips allShips' : list Ship.t) :
  step board allShips allShips' → rtc touch allShips allShips'.
Proof.
  intros [this direction st ok st' Hrun
         |this direction st ok st' Hrun
         |attacker targetCell st result st' Hrun
         |attacker st hits st' Hrun
         |enemyShips playerShips st rng actions st' rng' Hrun
         |this st self sel moved fired Hself].
  - by eapply move_touches.
  - by eapply rotate_touches.
  - by eapply fire_touches.
  - by eapply fireBroadside_touches.
  - by eapply takeTurn_touches.
  - apply rtc_once. by constructor.
Qed.

Lemma reachable_touches (board : Board.t) (init allShips : list Ship.t) :
  reachable board init allShips → rtc touch init allShips.
Proof.
  induction 1 as [|st1 st2 st3 Hstep _ IH]; [done|].
  etrans; [by eapply step_touches | done].
Qed.

(** ** The fleet is fixed and only loses cannons *)

Lemma laterStateOf_refl (s : Ship.t) : laterStateOf s s.
Proof. unfold laterStateOf. repeat split; done || lia. Qed.

Lemma laterStateOf_trans (s0 s1 s2 : Ship.t) :
  laterStateOf s0 s1 → laterStateOf s1 s2 → laterStateOf s0 s2.
Proof.
  unfold laterStateOf.
  intros (-> & -> & -> & -> & -> & ?) (-> & -> & -> & -> & -> & ?).
  repeat split; try done; lia.
Qed.

Lemma insert_laterStateOf (allShips : list Ship.t) (i : nat) (s s' : Ship.t) :
  allShips !! i = Some s → laterStateOf s s' →
  Forall2 laterStateOf allShips (<[i := s']> allShips).
Proof.
  intros Hi Hs. apply Forall2_same_length_lookup_2.
  { by rewrite length_insert. }
  intros k a b Ha Hb.
  apply list_lookup_insert_Some in Hb as [(<- & <- & _) | (_ & Hb)].
  - by simplify_eq.
  - simplify_eq. apply laterStateOf_refl.
Qed.

Lemma touch_laterStateOf (allShips allShips' : list Ship.t) :
  touch allShips allShips' → Forall2 laterStateOf allShips allShips'.
Proof.
  intros [i st s x' y' o' Hi | i st s Hi | i st s sel moved fired Hi];
    apply (insert_laterStateOf st i s); try done;
    unfold laterStateOf; simpl; repeat split; done || lia.
Qed.

Lemma Forall2_laterStateOf_trans (a b c : list Ship.t) :
  Forall2 laterStateOf a b → Forall2 laterStateOf b c → Forall2 laterStateOf a c.
Proof.
  intros Hab. revert c. induction Hab as [|x y a b Hxy _ IH]; intros c Hbc.
  - by inversion Hbc.
  - inversion Hbc as [|? z ? c' Hyz Hrest]; subst. constructor; [|by apply IH].
    by eapply laterStateOf_trans.
Qed.

Lemma touches_laterStateOf (allShips allShips' : list Ship.t) :
  rtc touch allShips allShips' → Forall2 laterStateOf allShips allShips'.
Proof.
  induction 1 as [st|st1 st2 st3 Htouch _ IH].
  - apply Forall2_same_length_lookup_2; [done|].
    intros i a b Ha Hb. simplify_eq. apply laterStateOf_refl.
  - eapply Forall2_laterStateOf_trans; [by apply touch_laterStateOf | done].
Qed.

(** X5.  Through a match the fleet is fixed and only loses cannons: a
    roster reached from [init] has the same number of ships, and the ship at
    each position has kept its team, length, board and full complement of
    cannons; if the cannons it had at the start were between 0 and that
    complement, the cannons it has left are between 0 and what it had. *)
Theorem reachable_fleet_only_loses_cannons
    (board : Board.t) (init allShips : list Ship.t) :
  reachable board init allShips →
  length allShips = length init ∧
  ∀ i s0 s, init !! i = Some s0 → allShips !! i = Some s →
    Ship.team s = Ship.team s0 ∧
    Ship.length s = Ship.length s0 ∧
    Ship.board s = Ship.board s0 ∧
    Ship.maxCannonsPerSide s = Ship.maxCannonsPerSide s0 ∧
    (0 ≤ Ship.cannonsPerSide s0 ≤ Ship.maxCannonsPerSide s0 →
     0 ≤ Ship.cannonsPerSide s ≤ Ship.cannonsPerSide s0 ∧
     Ship.cannonsPerSide s ≤ Ship.maxCannonsPerSide s).
Proof.
  intros Hreach%reachable_touches%touches_laterStateOf.
  split; [symmetry; by eapply Forall2_length|].
  intros i s0 s Hi0 Hi.
  destruct (Forall2_lookup_lr _ _ _ _ _ _ Hreach Hi0 Hi)
    as (Ht & Hl & _ & Hb & Hm & Hc).
  repeat split; try done; lia.
Qed.

Lemma reachable_fleet_only_loses_cannons_witness :
  reachable gameBoard wreckStart wreckRoster ∧
  length wreckRoster = length wreckStart ∧
  Ship.cannonsPerSide <$> wreckStart = [1; 1] ∧
  Ship.cannonsPerSide <$> wreckRoster = [0; 1].
Proof.
  assert (reachable gameBoard wreckStart wreckRoster) as Hreach.
  { eapply rtc_l.
    { eapply (step_fireBroadside gameBoard 1). by vm_compute. }
    eapply rtc_l.
    { eapply (step_rotate gameBoard 1 "cw"). by vm_compute. }
    eapply rtc_l.
    { eapply (step_move gameBoard 1 "forward"). by vm_compute. }
    eapply rtc_once.
    eapply (step_rotate gameBoard 1 "ccw"). by vm_compute. }
  split; [exact Hreach|].
  split; [exact (proj1 (reachable_fleet_only_loses_cannons _ _ _ Hreach))|].
  split; reflexivity.
Defined.

(** ** Zones and targets *)

(** X6.  For a ship with one of the four headings, [getFireZones(maxRange)]
    returns a list without repetition that holds exactly the cells of the
    ship's board lying 1 to [maxRange] cells to either side of one of its
    occupied cells, the bow included, whatever cannons it has left (so it is
    empty for [maxRange < 1]).  For [maxRange ≥ 1] it contains every cell of
    the narrow zone [getSideFireZones] computes on the same board: what a
    ship can hit is always part of what it is shown to threaten. *)
Theorem getFireZones_covers_the_narrow_zone (s : Ship.t) (maxRange : Z) :
  validOrientation (Ship.orientation s) →
  ∃ zone,
    Ship.getFireZones s maxRange = Some zone ∧
    NoDup zone ∧
    (∀ c, c ∈ zone ↔
          inBounds (Ship.board s) c ∧
          ∃ i d, 0 ≤ i < Ship.length s ∧ 1 ≤ d ≤ maxRange ∧
                 lateralAt s (segment s i) d c) ∧
    (maxRange < 1 → zone = []) ∧
    (1 ≤ maxRange →
     ∃ narrow, Combat.getSideFireZones (Ship.board s) s = Some narrow ∧
               ∀ c, c ∈ narrow → c ∈ zone).
Proof.
  intros Hv.
  destruct (getFireZones_elem s maxRange Hv) as (zone & Hrun & Hnd & Hzone).
  exists zone. split; [done|]. split; [done|]. split; [exact Hzone|]. split.
  - intros Hr. destruct zone as [|c zone]; [done|].
    destruct (proj1 (Hzone c)) as (_ & i & d & _ & Hd & _); [left|lia].
  - intros Hr.
    destruct (getSideFireZones_elem (Ship.board s) s Hv)
      as (narrow & Hnarrow & _ & Hmem).
    exists narrow. split; [done|].
    intros c (Hb & i & [Hi1 Hi2] & Hlat)%Hmem. apply Hzone. split; [done|].
    exists i, 1. split; [lia|]. split; [lia|].
    unfold lateralOf in Hlat. unfold lateralAt.
    destruct Hlat as [[Hvert [-> | ->]] | [Hvert [-> | ->]]]; auto.
Qed.

Lemma getFireZones_covers_the_narrow_zone_witness :
  validOrientation (Ship.orientation sloop) ∧
  Ship.getFireZones sloop 3
  = Some [(6, 5); (7, 5); (8, 5); (4, 5); (3, 5); (2, 5);
          (6, 6); (7, 6); (8, 6); (4, 6); (3, 6); (2, 6)] ∧
  Combat.getSideFireZones gameBoard sloop = Some [(4, 6); (6, 6)].
Proof.
  assert (validOrientation (Ship.orientation sloop)) as Hv by (by left).
  split; [exact Hv|].
  destruct (getFireZones_covers_the_narrow_zone sloop 3 Hv)
    as (zone & Hrun & _ & _ & _ & Hnarrow).
  destruct Hnarrow as (narrow & Hside & _); [done|].
  split.
  - rewrite Hrun. vm_compute in Hrun. by injection Hrun as <-.
  - change (Ship.board sloop) with gameBoard in Hside.
    rewrite Hside. vm_compute in Hside. by injection Hside as <-.
Defined.

Lemma targetLoop_hitCells (attacker : nat) (t : Team) (zones : list Cell)
    (ships : list Ship.t) :
  ∀ j targets result,
    Combat.targetLoop attacker t zones j ships targets = Some result →
    ∀ i hitCells, (i, hitCells) ∈ result →
      (i, hitCells) ∈ targets ∨
      ∃ k s cells, i = (j + k)%nat ∧ ships !! k = Some s ∧
                   Ship.getCells s = Some cells ∧
                   hitCells = filter (λ c, c ∈ zones) cells ∧ hitCells ≠ [].
Proof.
  induction ships as [|ship rest IH]; intros j targets result Hrun i hitCells Hin.
  { simpl in Hrun. simplify_eq. by left. }
  assert (∀ targets',
    Combat.targetLoop attacker t zones (S j) rest targets' = Some result →
    (i, hitCells) ∈ targets' ∨
    ∃ k s cells, i = (j + k)%nat ∧ (ship :: rest) !! k = Some s ∧
                 Ship.getCells s = Some cells ∧
                 hitCells = filter (λ c, c ∈ zones) cells ∧ hitCells ≠ [])
    as Hrest.
  { intros targets' Hrun'.
    destruct (IH (S j) targets' result Hrun' i hitCells Hin)
      as [?|(k & s & cells & -> & Hk & ?)]; [by left|].
    right. exists (S k), s, cells. split; [lia|done]. }
  simpl in Hrun.
  destruct ((j =? attacker)%nat || bool_decide (Ship.team ship = t)); [by apply Hrest|].
  destruct (negb (Ship.isAlive ship)); [by apply Hrest|].
  destruct (Ship.getCells ship) as [shipCells|] eqn:Hcells; [|done].
  simpl in Hrun.
  destruct (0 <? length (Combat.hitCellsOf zones shipCells))%nat eqn:Hhit;
    [|by apply Hrest].
  destruct (Hrest _ Hrun) as [[Hold | Hnew%list_elem_of_singleton]%elem_of_app | ?];
    [by left | | by right].
  right. exists 0%nat, ship, shipCells. simplify_eq.
  split; [lia|]. split; [done|]. split; [done|]. split.
  - unfold Combat.hitCellsOf. apply list_filter_iff. intros c.
    apply existsb_sameCell_r.
  - intros Hnil. rewrite Hnil in Hhit. done.
Qed.

(** X7.  In a roster of ships with one of the four headings,
    [getTargetsInRange] returns one entry for each living ship of the other
    team that has a cell in the attacker's narrow zone, and no other entry;
    the entries are in roster order, the attacker is never among them, and
    the [hitCells] of an entry are the cells of that ship lying in the zone,
    in the order of the ship's cells, never an empty list. *)
Theorem getTargetsInRange_lists_the_ships_in_the_zone
    (board : Board.t) (attacker : nat) (allShips : list Ship.t) (a : Ship.t) :
  wellFormed allShips →
  allShips !! attacker = Some a →
  ∃ zones targets,
    Combat.getSideFireZones board a = Some zones ∧
    Combat.getTargetsInRange board attacker allShips = Some targets ∧
    (∀ j, j ∈ targets.*1 ↔
          ∃ s, allShips !! j = Some s ∧ Ship.team s ≠ Ship.team a ∧ living s ∧
               ∃ c, occupies s c ∧ c ∈ zones) ∧
    StronglySorted lt targets.*1 ∧
    (attacker ∉ targets.*1) ∧
    (∀ j hitCells, (j, hitCells) ∈ targets →
       hitCells ≠ [] ∧
       ∃ s cells, allShips !! j = Some s ∧ Ship.getCells s = Some cells ∧
                  hitCells = filter (λ c, c ∈ zones) cells).
Proof.
  intros Hwf Ha.
  destruct (getTargetsInRange_spec board attacker allShips a Hwf Ha)
    as (zones & targets & Hzones & Hrun & Hmem & _ & Hsorted).
  exists zones, targets. split; [done|]. split; [done|].
  split; [exact Hmem|]. split; [done|]. split.
  - intros (s & Hs & Hteam & _)%Hmem. by simplify_eq.
  - intros j hitCells Hin.
    unfold Combat.getTargetsInRange in Hrun. rewrite Ha in Hrun. simpl in Hrun.
    rewrite Hzones in Hrun. simpl in Hrun.
    destruct (targetLoop_hitCells _ _ _ _ _ _ _ Hrun j hitCells Hin)
      as [Hnil | (k & s & cells & -> & Hk & Hcells & -> & Hne)];
      [by inversion Hnil|].
    split; [done|]. by exists s, cells.
Qed.

Lemma getTargetsInRange_lists_the_ships_in_the_zone_witness :
  wellFormed broadsideRoster ∧
  broadsideRoster !! 0%nat = Some frigate ∧
  Combat.getTargetsInRange gameBoard 0 broadsideRoster
  = Some [(1%nat, [(3, 4); (4, 4)])].
Proof.
  assert (wellFormed broadsideRoster) as Hwf.
  { apply validPlacementb_sound. vm_compute. reflexivity. }
  split; [exact Hwf|]. split; [reflexivity|].
  destruct (getTargetsInRange_lists_the_ships_in_the_zone gameBoard 0
              broadsideRoster frigate Hwf eq_refl)
    as (zones & targets & _ & Hrun & _).
  rewrite Hrun. vm_compute in Hrun. by injection Hrun as <-.
Defined.

(** ** The single shot *)

Lemma shotAt_getCells (t : Team) (cell : Cell) (s : Ship.t) (cells : list Cell) :
  Ship.getCells s = Some cells →
  (Ship.team s ≠ t ∧ Ship.isAlive s = true ∧
   existsb (λ c, sameCell c cell) cells = true) ↔ shotAt t cell s.
Proof.
  intros Hcells. unfold shotAt, occupies.
  rewrite isAlive_living, existsb_sameCell_l, Hcells. split.
  - intros (? & ? & ?). repeat split; [done..|]. by exists cells.
  - intros (? & ? & cells' & [= <-] & ?). done.
Qed.

Lemma fireLoop_spec (attacker : nat) (t : Team) (targetCell : Cell)
    (allShips : list Ship.t) (ships : list Ship.t) :
  (∀ s, s ∈ ships → validOrientation (Ship.orientation s)) →
  ∀ j,
    (∀ k s, ships !! k = Some s → (j + k)%nat = attacker → Ship.team s = t) →
    (Combat.fireLoop attacker t targetCell j ships allShips
       = Some (None, false, allShips) ∧
     ∀ k s, ships !! k = Some s → ¬ shotAt t targetCell s) ∨
    (∃ k s, ships !! k = Some s ∧ shotAt t targetCell s ∧
            (∀ k' s', (k' < k)%nat → ships !! k' = Some s' →
                      ¬ shotAt t targetCell s') ∧
            Combat.fireLoop attacker t targetCell j ships allShips
              = Some (Some (j + k)%nat, (Ship.takeDamage s 1).2,
                      <[(j + k)%nat := (Ship.takeDamage s 1).1]> allShips)).
Proof.
  induction ships as [|ship rest IH]; intros Hwf j Hteam.
  { left. split; [done|]. intros k s Hk. done. }
  assert (∀ s, s ∈ rest → validOrientation (Ship.orientation s)) as Hwf'.
  { intros s Hs. apply Hwf. by right. }
  assert (∀ k s, rest !! k = Some s → (S j + k)%nat = attacker → Ship.team s = t)
    as Hteam'.
  { intros k s Hk Heq. apply (Hteam (S k) s); [done|lia]. }
  destruct (getCells_valid ship) as [cells Hcells]; [apply Hwf; left|].
  pose proof (shotAt_getCells t targetCell ship cells Hcells) as Hshot.
  (* the ship at [j] is passed over *)
  assert (¬ shotAt t targetCell ship →
    Combat.fireLoop attacker t targetCell j (ship :: rest) allShips
    = Combat.fireLoop attacker t targetCell (S j) rest allShips) as Hskip.
  { intros Hnot. simpl.
    destruct (Nat.eqb_spec j attacker) as [Heq|Hne]; [done|]. simpl.
    case_bool_decide as Ht; [done|].
    destruct (Ship.isAlive ship) eqn:Halive; [|done]. simpl.
    rewrite Hcells. simpl.
    destruct (existsb (λ c, sameCell c targetCell) cells) eqn:Hex; [|done].
    destruct Hnot. by apply Hshot. }
  destruct (decide (Ship.team ship ≠ t ∧ Ship.isAlive ship = true ∧
                    existsb (λ c, sameCell c targetCell) cells = true))
    as [Hyes | Hno].
  - right. exists 0%nat, ship. split; [done|]. split; [by apply Hshot|].
    split; [intros k' s' Hlt; lia|].
    rewrite Nat.add_0_r. simpl. destruct Hyes as (Ht & Hl & Hex).
    destruct (Nat.eqb_spec j attacker) as [Heq|Hne].
    { destruct Ht. apply (Hteam 0%nat ship); [done|lia]. }
    simpl. rewrite bool_decide_eq_false_2 by done. rewrite Hl. simpl.
    rewrite Hcells. simpl. by rewrite Hex.
  - assert (¬ shotAt t targetCell ship) as Hnot by (by rewrite <- Hshot).
    rewrite (Hskip Hnot).
    destruct (IH Hwf' (S j) Hteam')
      as [[Hrun Hnone] | (k & s & Hk & Hs & Hfirst & Hrun)].
    + left. split; [done|]. intros [|k] s Hk; simpl in Hk; [by simplify_eq|].
      by apply (Hnone k s).
    + right. exists (S k), s. split; [done|]. split; [done|]. split.
      * intros [|k'] s' Hlt Hk'; simpl in Hk'; [by simplify_eq|].
        apply (Hfirst k' s'); [lia|done].
      * by replace (j + S k)%nat with (S j + k)%nat by lia.
Qed.

(** X8.  In a roster of ships with one of the four headings, the single
    shot [fire] returns, and
    - it misses ([hitShip] null, not destroyed, roster unchanged) when the
      target cell is outside the attacker's narrow zone, or when no living
      ship of the other team occupies it; an attacker without cannons has
      an empty zone, so it always misses;
    - otherwise it hits the first ship in roster order that is of the other
      team, alive and on the cell: that ship, and no other, has
      [takeDamage(1)] applied once. *)
Theorem fire_hits_the_first_enemy_on_the_cell
    (board : Board.t) (attacker : nat) (targetCell : Cell)
    (allShips : list Ship.t) (a : Ship.t) :
  wellFormed allShips →
  allShips !! attacker = Some a →
  ∃ zones,
    Combat.getSideFireZones board a = Some zones ∧
    (Ship.cannonsPerSide a ≤ 0 → zones = []) ∧
    ((Combat.fire board attacker targetCell allShips = Some (None, false, allShips) ∧
      (targetCell ∉ zones ∨
       ∀ j s, allShips !! j = Some s → ¬ shotAt (Ship.team a) targetCell s)) ∨
     (∃ j s,
        targetCell ∈ zones ∧
        allShips !! j = Some s ∧ shotAt (Ship.team a) targetCell s ∧
        (∀ j' s', (j' < j)%nat → allShips !! j' = Some s' →
                  ¬ shotAt (Ship.team a) targetCell s') ∧
        Combat.fire board attacker targetCell allShips
        = Some (Some j, (Ship.takeDamage s 1).2,
                <[j := (Ship.takeDamage s 1).1]> allShips))).
Proof.
  intros Hwf Ha.
  assert (validOrientation (Ship.orientation a)) as Hv.
  { apply Hwf. by eapply list_elem_of_lookup_2. }
  destruct (getSideFireZones_elem board a Hv) as (zones & Hzones & _ & Hmem).
  exists zones. split; [done|]. split.
  { intros Hcap. destruct zones as [|c zones]; [done|].
    destruct (proj1 (Hmem c)) as (_ & i & Hi & _); [left|].
    unfold firingSegment in Hi. lia. }
  unfold Combat.fire. rewrite Ha. simpl. rewrite Hzones. simpl.
  destruct (existsb (λ z, sameCell z targetCell) zones) eqn:Hin; simpl.
  2: { left. split; [done|]. left.
       apply not_true_iff_false in Hin. by rewrite existsb_sameCell_l in Hin. }
  apply existsb_sameCell_l in Hin.
  destruct (fireLoop_spec attacker (Ship.team a) targetCell allShips allShips Hwf 0%nat)
    as [[Hrun Hnone] | (k & s & Hk & Hs & Hfirst & Hrun)].
  { intros k s Hk Heq. simpl in Heq. subst k. by simplify_eq. }
  - left. split; [done|]. by right.
  - right. by exists k, s.
Qed.

Lemma fire_hits_the_first_enemy_on_the_cell_witness :
  wellFormed broadsideRoster ∧
  broadsideRoster !! 0%nat = Some frigate ∧
  (∃ zones, Combat.getSideFireZones gameBoard frigate = Some zones) ∧
  Combat.fire gameBoard 0 (3, 4) broadsideRoster
  = Some (Some 1%nat, false,
          <[1%nat := (Ship.takeDamage (Ship.new 2 4 3 LEFT enemy gameBoard) 1).1]>
            broadsideRoster) ∧
  Combat.fire gameBoard 0 (3, 6) broadsideRoster = Some (None, false, broadsideRoster) ∧
  Combat.fire gameBoard 0 (2, 4) broadsideRoster = Some (None, false, broadsideRoster).
Proof.
  assert (wellFormed broadsideRoster) as Hwf.
  { apply validPlacementb_sound. vm_compute. reflexivity. }
  split; [exact Hwf|]. split; [reflexivity|].
  destruct (fire_hits_the_first_enemy_on_the_cell gameBoard 0 (3, 4)
              broadsideRoster frigate Hwf eq_refl) as (zones & Hzones & _).
  split; [by exists zones|]. split; [|split]; by vm_compute.
Defined.

(** ** The shuffle *)

Lemma insert_head_perm {A} (l : list A) (j : nat) (a b : A) :
  l !! j = Some b → b :: <[j := a]> l ≡ₚ a :: l.
Proof.
  revert j. induction l as [|x l IH]; intros [|j] Hj; simpl in *; try done.
  - simplify_eq. apply Permutation_swap.
  - rewrite Permutation_swap. rewrite (IH j Hj). apply Permutation_swap.
Qed.

Lemma swap_perm {A} (array : list A) (i j : nat) : AI.swap array i j ≡ₚ array.
Proof.
  unfold AI.swap. revert i j.
  induction array as [|x l IH]; intros i j; [by destruct i|].
  destruct i as [|i], j as [|j]; simpl.
  - done.
  - destruct (l !! j) as [aj|] eqn:Hj; [|done]. simpl. by apply insert_head_perm.
  - destruct (l !! i) as [ai|] eqn:Hi; [|done]. simpl. by apply insert_head_perm.
  - specialize (IH i j).
    destruct (l !! i) as [ai|]; [|done]. destruct (l !! j) as [aj|]; [|done].
    simpl. by rewrite IH.
Qed.

Lemma randomBelow_rest (n : nat) (rng : AI.Rng) :
  (AI.randomBelow n rng).2 = drop 1 rng.
Proof. by destruct rng. Qed.

Lemma randomBelow_bound (n : nat) (rng : AI.Rng) :
  (0 < n)%nat → ((AI.randomBelow n rng).1 < n)%nat.
Proof.
  intros Hn. destruct rng as [|r rng]; simpl; [done|].
  destruct (Nat.eqb_spec n 0); [lia|]. by apply Nat.mod_upper_bound.
Qed.

Lemma shuffleFrom_perm {A} (i : nat) :
  ∀ (array : list A) (rng : AI.Rng),
    (AI.shuffleFrom i array rng).1 ≡ₚ array ∧
    (AI.shuffleFrom i array rng).2 = drop i rng.
Proof.
  induction i as [|i IH]; intros array rng; simpl; [by rewrite drop_0|].
  pose proof (randomBelow_rest (S (S i)) rng) as Hrest.
  destruct (AI.randomBelow (S (S i)) rng) as [j rng1]. simpl in Hrest. subst rng1.
  destruct (IH (AI.swap array (S i) j) (drop 1 rng)) as [Hperm Hrng].
  split.
  - by rewrite Hperm, swap_perm.
  - by rewrite Hrng, drop_drop.
Qed.

Lemma shuffle_perm {A} (array : list A) (rng : AI.Rng) :
  (AI.shuffle array rng).1 ≡ₚ array.
Proof. apply shuffleFrom_perm. Qed.

(** X9.  [shuffle] returns a permutation of its array, whatever the random
    draws: nothing is lost, added or duplicated, and the length is kept.
    It makes one draw per element after the first. *)
Theorem shuffle_permutes {A} (array : list A) (rng : AI.Rng) :
  (AI.shuffle array rng).1 ≡ₚ array ∧
  length (AI.shuffle array rng).1 = length array ∧
  (∀ a, a ∈ (AI.shuffle array rng).1 ↔ a ∈ array) ∧
  (NoDup array → NoDup (AI.shuffle array rng).1) ∧
  (AI.shuffle array rng).2 = drop (length array - 1) rng.
Proof.
  unfold AI.shuffle.
  destruct (shuffleFrom_perm (length array - 1) array rng) as [Hperm Hrng].
  split; [done|]. split; [by rewrite Hperm|]. split; [|split; [|done]].
  - intros a. by rewrite Hperm.
  - intros Hnd. by rewrite Hperm.
Qed.

(** ** The move the opponent picks *)

Lemma tryMoves_best (board : Board.t) (ship : nat) (playerShips : list nat)
    (allShips : list Ship.t) (moves : list AI.Action) :
  ∀ bestScore bestMove best allShips',
    AI.tryMoves board ship playerShips moves bestScore bestMove allShips
      = Some (best, allShips') →
    ∃ top,
      bestScore ≤ top ∧
      (∀ m z, m ∈ moves → scores board ship playerShips allShips m z → z ≤ top) ∧
      ((top = bestScore ∧ best = bestMove) ∨
       (∃ m, best = Some m ∧ m ∈ moves ∧ bestScore < top ∧
             scores board ship playerShips allShips m top)).
Proof.
  induction moves as [|move rest IH];
    intros bestScore bestMove best allShips' Hrun; simpl in Hrun.
  { simplify_eq. exists bestScore. split; [lia|]. split; [|by left].
    intros m z Hm. by inversion Hm. }
  destruct (allShips !! ship) as [self|] eqn:Hself; [|done]. simpl in Hrun.
  fold (attempt ship move allShips) in Hrun.
  destruct (attempt ship move allShips) as [[success allShips1]|] eqn:Htrial;
    [|done].
  pose proof (trial_restore ship move allShips allShips1 self success Hself Htrial)
    as Hrestore.
  simpl in Hrun. destruct success.
  - destruct (AI.evaluatePosition board ship playerShips allShips1) as [score|]
      eqn:Hscore; [|done].
    simpl in Hrun. rewrite Hrestore in Hrun. simpl in Hrun.
    assert (scores board ship playerShips allShips move score) as Hmove
      by (by exists allShips1).
    assert (∀ z, scores board ship playerShips allShips move z → z = score) as Honly.
    { intros z (st1 & Hst1 & Hz). by simplify_eq. }
    destruct (Z.gtb_spec score bestScore) as [Hgt|Hle].
    + destruct (IH _ _ _ _ Hrun) as (top & Hle & Hbound & Hbest).
      exists top. split; [lia|]. split.
      * intros m z [->|Hm]%elem_of_cons Hz; [rewrite (Honly z Hz); lia|].
        by apply (Hbound m z).
      * right. destruct Hbest as [[-> ->] | (m & -> & Hm & Hlt & Hs)].
        -- exists move. split; [done|]. split; [left|]. split; [lia|done].
        -- exists m. split; [done|]. split; [by right|]. split; [lia|done].
    + destruct (IH _ _ _ _ Hrun) as (top & Htop & Hbound & Hbest).
      exists top. split; [lia|]. split.
      * intros m z [->|Hm]%elem_of_cons Hz; [rewrite (Honly z Hz); lia|].
        by apply (Hbound m z).
      * destruct Hbest as [[-> ->] | (m & -> & Hm & Hlt & Hs)]; [by left|].
        right. exists m. split; [done|]. split; [by right|done].
  - rewrite Hrestore in Hrun. simpl in Hrun.
    destruct (IH _ _ _ _ Hrun) as (top & Htop & Hbound & Hbest).
    exists top. split; [lia|]. split.
    + intros m z [->|Hm]%elem_of_cons Hz; [|by apply (Hbound m z)].
      destruct Hz as (st1 & Hst1 & _). by simplify_eq.
    + destruct Hbest as [[-> ->] | (m & -> & Hm & Hlt & Hs)]; [by left|].
      right. exists m. split; [done|]. split; [by right|done].
Qed.

Lemma findBestMove_best (board : Board.t) (ship : nat) (playerShips : list nat)
    (allShips allShips' : list Ship.t) (rng rng' : AI.Rng) (best : option AI.Action) :
  AI.findBestMove board ship playerShips allShips rng = Some (best, allShips', rng') →
  match best with
  | Some m =>
      m ∈ AI.candidateMoves ∧
      ∃ z, scores board ship playerShips allShips m z ∧ 0 ≤ z ∧
           ∀ m' z', m' ∈ AI.candidateMoves →
                    scores board ship playerShips allShips m' z' → z' ≤ z
  | None =>
      ∀ m' z', m' ∈ AI.candidateMoves →
               scores board ship playerShips allShips m' z' → z' < 0
  end.
Proof.
  unfold AI.findBestMove.
  pose proof (shuffle_perm AI.candidateMoves rng) as Hperm.
  destruct (AI.shuffle AI.candidateMoves rng) as [moves rng1]. simpl in Hperm.
  assert (∀ m, m ∈ moves ↔ m ∈ AI.candidateMoves) as Hmem
    by (intros m; by rewrite Hperm).
  intros Hrun.
  destruct (AI.tryMoves board ship playerShips moves (-1) None allShips)
    as [[best1 allShips1]|] eqn:Htry; [|done].
  simpl in Hrun. simplify_eq.
  destruct (tryMoves_best _ _ _ _ _ _ _ _ _ Htry) as (top & Htop & Hbound & Hbest).
  destruct Hbest as [[-> ->] | (m & -> & Hm & Hlt & Hs)].
  - intros m' z' Hm' Hz'. apply Hmem in Hm'. specialize (Hbound m' z' Hm' Hz'). lia.
  - split; [by apply Hmem|]. exists top. split; [done|]. split; [lia|].
    intros m' z' Hm'%Hmem Hz'. by apply (Hbound m' z').
Qed.

(** X10.  In a roster of ships with one of the four headings,
    [findBestMove] returns, and what it proposes is either one of the four
    candidates (forward, backward, clockwise, counter-clockwise) that the
    ship can legally make from where it is, whose position scores at least
    0 and at least as much as every other legal candidate, or nothing, and
    then every legal candidate scores below 0.  It never proposes a move
    that [move] or [rotate] would refuse. *)
Theorem findBestMove_proposes_a_best_legal_move
    (board : Board.t) (ship : nat) (playerShips : list nat)
    (allShips : list Ship.t) (rng : AI.Rng) :
  wellFormed allShips →
  is_Some (allShips !! ship) →
  (∀ p, p ∈ playerShips → is_Some (allShips !! p)) →
  ∃ best rng',
    AI.findBestMove board ship playerShips allShips rng
      = Some (best, allShips, rng') ∧
    match best with
    | Some m =>
        m ∈ AI.candidateMoves ∧
        ∃ allShips1 z,
          attempt ship m allShips = Some (true, allShips1) ∧
          AI.evaluatePosition board ship playerShips allShips1 = Some z ∧
          0 ≤ z ∧
          ∀ m' z', m' ∈ AI.candidateMoves →
                   scores board ship playerShips allShips m' z' → z' ≤ z
    | None =>
        ∀ m' z', m' ∈ AI.candidateMoves →
                 scores board ship playerShips allShips m' z' → z' < 0
    end.
Proof.
  intros Hwf [self Hself] Hplayers.
  destruct (tryMoves_total board ship playerShips allShips
              (AI.shuffle AI.candidateMoves rng).1 Hwf (mk_is_Some _ _ Hself)
              Hplayers (-1) None) as [best Htry].
  assert (AI.findBestMove board ship playerShips allShips rng
          = Some (best, allShips, (AI.shuffle AI.candidateMoves rng).2)) as Hrun.
  { unfold AI.findBestMove.
    destruct (AI.shuffle AI.candidateMoves rng) as [moves rng1]. simpl in *.
    by rewrite Htry. }
  exists best, (AI.shuffle AI.candidateMoves rng).2. split; [done|].
  pose proof (findBestMove_best _ _ _ _ _ _ _ _ Hrun) as Hbest.
  destruct best as [m|]; [|done].
  destruct Hbest as (Hm & z & (allShips1 & Htrial & Hscore) & Hz & Hmax).
  split; [done|]. by exists allShips1, z.
Qed.

Lemma findBestMove_proposes_a_best_legal_move_witness :
  wellFormed duelStart ∧
  is_Some (duelStart !! 1%nat) ∧
  (∀ p, p ∈ [0%nat] → is_Some (duelStart !! p)) ∧
  AI.findBestMove gameBoard 1 [0%nat] duelStart [2; 0; 1]%nat
  = Some (Some (AI.mkAction "move" (Some "forward")), duelStart, []).
Proof.
  assert (wellFormed duelStart) as Hwf.
  { apply validPlacementb_sound. vm_compute. reflexivity. }
  assert (∀ p, p ∈ [0%nat] → is_Some (duelStart !! p)) as Hplayers.
  { intros p ->%list_elem_of_singleton. by eexists. }
  split; [exact Hwf|]. split; [by eexists|]. split; [exact Hplayers|].
  destruct (findBestMove_proposes_a_best_legal_move gameBoard 1 [0%nat] duelStart
              [2; 0; 1]%nat Hwf (mk_is_Some _ _ eq_refl) Hplayers)
    as (best & rng' & Hrun & _).
  rewrite Hrun. vm_compute in Hrun. by injection Hrun as <- <-.
Defined.

(** ** The opponent's turn *)

Lemma findBestMove_total (board : Board.t) (ship : nat) (playerShips : list nat)
    (allShips : list Ship.t) (rng : AI.Rng) :
  wellFormed allShips →
  is_Some (allShips !! ship) →
  (∀ p, p ∈ playerShips → is_Some (allShips !! p)) →
  ∃ best rng',
    AI.findBestMove board ship playerShips allShips rng = Some (best, allShips, rng').
Proof.
  intros Hwf Hship Hplayers. unfold AI.findBestMove.
  destruct (AI.shuffle AI.candidateMoves rng) as [moves rng1].
  destruct (tryMoves_total board ship playerShips allShips moves Hwf Hship
              Hplayers (-1) None) as [best ->].
  by exists best, rng1.
Qed.

Lemma findBestMove_useful (board : Board.t) (ship : nat) (playerShips : list nat)
    (allShips allShips' : list Ship.t) (rng rng' : AI.Rng) (best : option AI.Action) :
  AI.findBestMove board ship playerShips allShips rng = Some (best, allShips', rng') →
  match best with
  | Some m => usefulMove board playerShips allShips ship m
  | None => ∀ m, ¬ usefulMove board playerShips allShips ship m
  end.
Proof.
  intros Hbest%findBestMove_best. destruct best as [m|].
  - destruct Hbest as (Hm & z & Hz & Hpos & _). split; [done|]. by exists z.
  - intros m (Hm & z & Hz & Hpos). specialize (Hbest m z Hm Hz). lia.
Qed.

Lemma hasTargets_length (board : Board.t) (allShips : list Ship.t) (ship : nat)
    (targets : list Combat.Target) :
  Combat.getTargetsInRange board ship allShips = Some targets →
  (0 <? length targets)%nat = true ↔ hasTargets board allShips ship.
Proof.
  intros Htargets. unfold hasTargets. rewrite Htargets. split.
  - intros Hlen%Nat.ltb_lt. exists targets. split; [done|].
    intros ->. simpl in Hlen. lia.
  - intros (targets' & [= <-] & Hne). apply Nat.ltb_lt.
    destruct targets; [done|simpl; lia].
Qed.

Lemma filterAlive_spec (ships : list nat) (allShips : list Ship.t) :
  (∀ j, j ∈ ships → is_Some (allShips !! j)) →
  ∃ alive,
    AI.filterAlive ships allShips = Some alive ∧
    ∀ j, j ∈ alive ↔ j ∈ ships ∧ ∃ s, allShips !! j = Some s ∧ living s.
Proof.
  induction ships as [|j rest IH]; intros Hships; simpl.
  { exists []. split; [done|]. intros j. split; [by inversion 1|].
    intros [Hj _]. by inversion Hj. }
  destruct (Hships j) as [s Hs]; [left|]. rewrite Hs. simpl.
  destruct IH as (alive & -> & Halive); [intros j' Hj'; apply Hships; by right|].
  simpl. destruct (Ship.isAlive s) eqn:Hlive.
  - exists (j :: alive). split; [done|]. intros k. rewrite !elem_of_cons, Halive.
    split; [|naive_solver].
    intros [->|[Hk Hliving]]; [|naive_solver].
    split; [by left|]. exists s. split; [done|]. by apply isAlive_living.
  - exists alive. split; [done|]. intros k. rewrite elem_of_cons, Halive.
    split; [naive_solver|].
    intros [[->|Hk] (s' & Hs' & Hliving)]; [|naive_solver].
    simplify_eq. apply isAlive_living in Hliving. congruence.
Qed.

(** What the scan of [takeTurn] ends with: the choice it started with, a
    ship that has targets, or a ship with a useful move. *)
Lemma scan_spec (board : Board.t) (playerShips : list nat) (allShips : list Ship.t) :
  wellFormed allShips →
  (∀ p, p ∈ playerShips → is_Some (allShips !! p)) →
  ∀ aliveShips,
    (∀ k, k ∈ aliveShips → is_Some (allShips !! k)) →
    ∀ bestShip bestAction bestPriority rng,
    ∃ bestShip' bestAction' rng',
      AI.scan board playerShips aliveShips bestShip bestAction bestPriority
              allShips rng
        = Some (bestShip', bestAction', allShips, rng') ∧
      ((bestShip' = bestShip ∧ bestAction' = bestAction ∧
        (bestPriority < 2 →
         ∀ k, k ∈ aliveShips → ¬ hasTargets board allShips k) ∧
        (bestPriority < 1 →
         ∀ k, k ∈ aliveShips → ¬ canAct board playerShips allShips k)) ∨
       (bestPriority < 2 ∧
        ∃ k, bestShip' = Some k ∧ bestAction' = Some (AI.mkAction "fire" None) ∧
             k ∈ aliveShips ∧ hasTargets board allShips k) ∨
       (bestPriority < 1 ∧
        (∀ k, k ∈ aliveShips → ¬ hasTargets board allShips k) ∧
        ∃ k m, bestShip' = Some k ∧ bestAction' = Some m ∧ k ∈ aliveShips ∧
               usefulMove board playerShips allShips k m)).
Proof.
  intros Hwf Hplayers.
  induction aliveShips as [|ship rest IH];
    intros Hships bestShip bestAction bestPriority rng; simpl.
  { exists bestShip, bestAction, rng. split; [done|]. left.
    split; [done|]. split; [done|]. split; intros _ k Hk; by inversion Hk. }
  assert (∀ k, k ∈ rest → is_Some (allShips !! k)) as Hrest
    by (intros k Hk; apply Hships; by right).
  destruct (Hships ship) as [a Ha]; [left|].
  destruct (getTargetsInRange_spec board ship allShips a Hwf Ha)
    as (zones & targets & _ & Htargets & _).
  rewrite Htargets. simpl.
  pose proof (hasTargets_length board allShips ship targets Htargets) as Hlen.
  destruct (0 <? length targets)%nat.
  - assert (hasTargets board allShips ship) as Hhas by by apply Hlen.
    destruct (Z.ltb_spec bestPriority 2) as [Hlt|Hge].
    + destruct (IH Hrest (Some ship) (Some (AI.mkAction "fire" None)) 2 rng)
        as (bs & ba & rng' & Hrun & Hcases).
      exists bs, ba, rng'. split; [done|]. right. left. split; [done|].
      destruct Hcases as [(-> & -> & _) | [[? _] | [? _]]]; [|lia|lia].
      exists ship. split; [done|]. split; [done|]. split; [left|done].
    + destruct (IH Hrest bestShip bestAction bestPriority rng)
        as (bs & ba & rng' & Hrun & Hcases).
      exists bs, ba, rng'. split; [done|].
      destruct Hcases as [(-> & -> & _) | [[? _] | [? _]]]; [|lia|lia].
      left. split; [done|]. split; [done|]. split; intros ?; lia.
  - assert (¬ hasTargets board allShips ship) as Hnone.
    { intros Hhas%Hlen. done. }
    destruct (findBestMove_total board ship playerShips allShips rng Hwf
                (mk_is_Some _ _ Ha) Hplayers) as (move & rng1 & Hbest).
    rewrite Hbest. simpl.
    apply findBestMove_useful in Hbest.
    destruct move as [m|]; simpl.
    + destruct (Z.ltb_spec bestPriority 1) as [Hlt|Hge].
      * destruct (IH Hrest (Some ship) (Some m) 1 rng1)
          as (bs & ba & rng' & Hrun & Hcases).
        exists bs, ba, rng'. split; [done|].
        destruct Hcases as [(-> & -> & Hno & _) | [[_ (k & -> & -> & Hk & Hhas)] | [? _]]];
          [| |lia].
        -- right. right. split; [done|]. split.
           { intros k [->|Hk]%elem_of_cons; [done|]. apply Hno; [lia|done]. }
           exists ship, m. split; [done|]. split; [done|]. split; [left|done].
        -- right. left. split; [lia|]. exists k.
           split; [done|]. split; [done|]. split; [by right|done].
      * destruct (IH Hrest bestShip bestAction bestPriority rng1)
          as (bs & ba & rng' & Hrun & Hcases).
        exists bs, ba, rng'. split; [done|].
        destruct Hcases as [(-> & -> & Hno & _) | [[Hlt (k & -> & -> & Hk & Hhas)] | [? _]]];
          [| |lia].
        -- left. split; [done|]. split; [done|]. split; [|intros ?; lia].
           intros Hlt k [->|Hk]%elem_of_cons; [done|]. by apply Hno.
        -- right. left. split; [done|]. exists k.
           split; [done|]. split; [done|]. split; [by right|done].
    + destruct (IH Hrest bestShip bestAction bestPriority rng1)
        as (bs & ba & rng' & Hrun & Hcases).
      exists bs, ba, rng'. split; [done|].
      destruct Hcases as [(-> & -> & Hno & Hstuck) |
                          [[Hlt (k & -> & -> & Hk & Hhas)] |
                           (Hlt & Hno & k & m & -> & -> & Hk & Hm)]].
      * left. split; [done|]. split; [done|]. split.
        -- intros Hlt k [->|Hk]%elem_of_cons; [done|]. by apply Hno.
        -- intros Hlt k [->|Hk]%elem_of_cons; [|by apply Hstuck].
           intros [Hhas | [m Hm]]; [done|]. by apply (Hbest m).
      * right. left. split; [done|]. exists k.
        split; [done|]. split; [done|]. split; [by right|done].
      * right. right. split; [done|]. split.
        { intros k' [->|Hk']%elem_of_cons; [done|]. by apply Hno. }
        exists k, m. split; [done|]. split; [done|]. split; [by right|done].
Qed.

Lemma execute_fire (board : Board.t) (k : nat) (allShips : list Ship.t) (a : Ship.t) :
  wellFormed allShips →
  allShips !! k = Some a →
  living a →
  hasTargets board allShips k →
  ∃ hits allShips1,
    Combat.fireBroadside board k allShips = Some (hits, allShips1) ∧
    hits ≠ [] ∧
    AI.execute board k (AI.mkAction "fire" None) allShips
      = Some ([firedLine hits], <[k := Ship.set_hasFired a true]> allShips1).
Proof.
  intros Hwf Ha Hliving (targets' & Htargets' & Hne).
  destruct (getTargetsInRange_spec board k allShips a Hwf Ha)
    as (zones & targets & Hzones & Htargets & Hmem & Hnonempty & Hsorted).
  rewrite Htargets in Htargets'. injection Htargets' as <-.
  destruct (broadsideLoop_spec targets [] allShips) as
    (hits & allShips1 & Hrun & Hlen & Hlookup & Hfst & Hflags).
  { by apply StronglySorted_lt_NoDup. }
  { done. }
  { intros j (s & Hs & _)%Hmem. by exists s. }
  simpl in Hrun.
  assert (Combat.fireBroadside board k allShips = Some (hits, allShips1)) as Hfire.
  { unfold Combat.fireBroadside. rewrite Ha. simpl.
    destruct (Z.leb_spec (Ship.cannonsPerSide a) 0) as [?|_];
      [unfold living in Hliving; lia|].
    rewrite Htargets. simpl. by rewrite Hrun. }
  assert (hits ≠ []) as Hhits.
  { intros ->. destruct targets; [done|]. by simpl in Hfst. }
  exists hits, allShips1. split; [done|]. split; [done|].
  unfold AI.execute. simpl. rewrite Hfire. simpl.
  rewrite (Hlookup k a Ha). rewrite decide_False.
  - simpl. destruct hits; [done|]. done.
  - intros (s & Hs & Hteam & _)%Hmem. by simplify_eq.
Qed.

Lemma attempt_lookup (ship : nat) (m : AI.Action) (allShips allShips1 : list Ship.t)
    (ok : bool) :
  attempt ship m allShips = Some (ok, allShips1) →
  is_Some (allShips !! ship) →
  is_Some (allShips1 !! ship).
Proof.
  unfold attempt. intros Hrun Hship.
  destruct (String.eqb (AI.type m) "move").
  { apply move_inv in Hrun
      as (self & Hself & [[_ ->] | (newX & newY & ? & _ & -> & _)]); [done|].
    apply lookup_lt_is_Some. rewrite length_insert. by apply lookup_lt_is_Some. }
  destruct (String.eqb (AI.type m) "rotate"); [|by simplify_eq].
  apply rotate_inv in Hrun
    as (self & Hself & [[_ ->] | (newO & ? & _ & _ & -> & _)]); [done|].
  apply lookup_lt_is_Some. rewrite length_insert. by apply lookup_lt_is_Some.
Qed.

Lemma execute_move (board : Board.t) (k : nat) (m : AI.Action)
    (allShips allShips1 : list Ship.t) :
  m ∈ AI.candidateMoves →
  is_Some (allShips !! k) →
  attempt k m allShips = Some (true, allShips1) →
  ∃ self,
    allShips1 !! k = Some self ∧
    AI.execute board k m allShips
      = Some ([movedLine m], <[k := Ship.set_hasMoved self true]> allShips1).
Proof.
  intros Hm Hk Hrun.
  destruct (attempt_lookup k m allShips allShips1 true Hrun Hk) as [self Hself].
  exists self. split; [done|].
  unfold AI.candidateMoves in Hm. unfold attempt in Hrun. unfold AI.execute, movedLine.
  repeat (apply elem_of_cons in Hm as [->|Hm]); [..|by inversion Hm];
    simpl in *; rewrite Hrun; simpl; by rewrite Hself.
Qed.

Lemma firedLine_not_missed (hits : list Combat.Hit) :
  firedLine hits ≠ "Enemy ship fired but missed!".
Proof. unfold firedLine. simpl. discriminate. Qed.

Lemma movedLine_not_missed (m : AI.Action) :
  movedLine m ≠ "Enemy ship fired but missed!".
Proof. unfold movedLine. by destruct (String.eqb (AI.type m) "move"). Qed.

(** The opponent's turn returns, and does one of three things. *)
Lemma takeTurn_cases
    (board : Board.t) (enemyShips playerShips : list nat)
    (allShips : list Ship.t) (rng : AI.Rng) :
  wellFormed allShips →
  (∀ e, e ∈ enemyShips → is_Some (allShips !! e)) →
  (∀ p, p ∈ playerShips → is_Some (allShips !! p)) →
  ∃ actions allShips' rng',
    AI.takeTurn board enemyShips playerShips allShips rng
      = Some (actions, allShips', rng') ∧
    ((actions = [] ∧ allShips' = allShips ∧
      ∀ k s, k ∈ enemyShips → allShips !! k = Some s → living s →
             ¬ canAct board playerShips allShips k) ∨
     (∃ k a hits allShips1,
        k ∈ enemyShips ∧ allShips !! k = Some a ∧ living a ∧
        hasTargets board allShips k ∧
        Combat.fireBroadside board k allShips = Some (hits, allShips1) ∧
        hits ≠ [] ∧
        actions = [firedLine hits] ∧
        allShips' = <[k := Ship.set_hasFired a true]> allShips1) ∨
     (∃ k a m allShips1 self,
        k ∈ enemyShips ∧ allShips !! k = Some a ∧ living a ∧
        (∀ j s, j ∈ enemyShips → allShips !! j = Some s → living s →
                ¬ hasTargets board allShips j) ∧
        usefulMove board playerShips allShips k m ∧
        attempt k m allShips = Some (true, allShips1) ∧
        allShips1 !! k = Some self ∧
        actions = [movedLine m] ∧
        allShips' = <[k := Ship.set_hasMoved self true]> allShips1)).
Proof.
  intros Hwf Henemies Hplayers. unfold AI.takeTurn.
  destruct (filterAlive_spec enemyShips allShips Henemies) as (alive & -> & Halive).
  simpl. destruct (Nat.eqb_spec (length alive) 0) as [Hnone|Hsome].
  { exists [], allShips, rng. split; [done|]. left.
    split; [done|]. split; [done|]. intros k s Hk Hs Hliving _.
    apply length_zero_iff_nil in Hnone. subst alive.
    assert (k ∈ @nil nat) as Hin by (apply Halive; eauto). by inversion Hin. }
  pose proof (shuffle_perm alive rng) as Hperm.
  destruct (AI.shuffle alive rng) as [shuffled rng1]. simpl in Hperm.
  assert (∀ k, k ∈ shuffled ↔ k ∈ enemyShips ∧ ∃ s, allShips !! k = Some s ∧ living s)
    as Hshuffled by (intros k; by rewrite Hperm).
  assert (∀ k, k ∈ shuffled → is_Some (allShips !! k)) as Hvalid.
  { intros k (_ & s & Hs & _)%Hshuffled. by exists s. }
  destruct (scan_spec board playerShips allShips Hwf Hplayers shuffled Hvalid
              None None (-1) rng1) as (bs & ba & rng2 & -> & Hcases).
  destruct Hcases as [(-> & -> & _ & Hstuck) |
                      [[_ (k & -> & -> & Hk & Hhas)] |
                       (_ & Hno & k & m & -> & -> & Hk & Hm)]].
  - simpl. pose proof (randomBelow_bound (length shuffled) rng2) as Hbound.
    destruct (AI.randomBelow (length shuffled) rng2) as [i rng3]. simpl in Hbound.
    destruct (lookup_lt_is_Some_2 shuffled i) as [chosen Hchosen].
    { apply Hbound. rewrite Hperm. lia. }
    rewrite Hchosen. simpl.
    assert (chosen ∈ shuffled) as Hin by by eapply list_elem_of_lookup_2.
    destruct (findBestMove_total board chosen playerShips allShips rng3 Hwf
                (Hvalid _ Hin) Hplayers) as (best & rng4 & Hbest).
    rewrite Hbest. simpl. apply findBestMove_useful in Hbest.
    destruct best as [m|].
    { exfalso. apply (Hstuck ltac:(lia) chosen Hin). right. by exists m. }
    exists [], allShips, rng4. split; [done|]. left.
    split; [done|]. split; [done|]. intros k s Hk Hs Hliving.
    apply Hstuck; [lia|]. apply Hshuffled. eauto.
  - apply Hshuffled in Hk as (Hk & a & Ha & Hliving).
    destruct (execute_fire board k allShips a Hwf Ha Hliving Hhas)
      as (hits & allShips1 & Hfire & Hhits & Hexec).
    unfold mbind, option_bind. rewrite Hexec. exists [firedLine hits], (<[k := Ship.set_hasFired a true]> allShips1), rng2.
    split; [done|]. right. left. by exists k, a, hits, allShips1.
  - apply Hshuffled in Hk as (Hk & a & Ha & Hliving).
    pose proof Hm as (Hcand & z & (allShips1 & Htrial & Hscore) & Hz).
    destruct (execute_move board k m allShips allShips1 Hcand (mk_is_Some _ _ Ha) Htrial)
      as (self & Hself & Hexec).
    unfold mbind, option_bind. rewrite Hexec. exists [movedLine m], (<[k := Ship.set_hasMoved self true]> allShips1), rng2.
    split; [done|]. right. right. exists k, a, m, allShips1, self.
    split; [done|]. split; [done|]. split; [done|]. split; [|done].
    intros j s Hj Hs Hl. apply Hno. apply Hshuffled. eauto.
Qed.

(** X11.  The opponent's turn, in a roster of ships with one of the four
    headings.  [takeTurn] returns, and it has done exactly one of three
    things:
    - nothing: no line, the roster unchanged, and this only when no living
      ship of [enemyShips] has a target or a useful move (the random
      fall-back never finds a move the scan did not);
    - one broadside by a living ship of [enemyShips] that has a target, and
      the one line names its hits, of which there is at least one; that
      ship's [hasFired] is set;
    - one accepted move or rotation by a living ship of [enemyShips], and
      this only when no living ship of [enemyShips] has a target; that
      ship's [hasMoved] is set.
    So firing comes before moving, there is at most one line, and the line
    "Enemy ship fired but missed!" is never logged. *)
Theorem takeTurn_acts_with_one_living_ship
    (board : Board.t) (enemyShips playerShips : list nat)
    (allShips : list Ship.t) (rng : AI.Rng) :
  wellFormed allShips →
  (∀ e, e ∈ enemyShips → is_Some (allShips !! e)) →
  (∀ p, p ∈ playerShips → is_Some (allShips !! p)) →
  ∃ actions allShips' rng',
    AI.takeTurn board enemyShips playerShips allShips rng
      = Some (actions, allShips', rng') ∧
    ("Enemy ship fired but missed!" ∉ actions) ∧
    ((actions = [] ∧ allShips' = allShips ∧
      ∀ k s, k ∈ enemyShips → allShips !! k = Some s → living s →
             ¬ canAct board playerShips allShips k) ∨
     (∃ k a hits allShips1,
        k ∈ enemyShips ∧ allShips !! k = Some a ∧ living a ∧
        hasTargets board allShips k ∧
        Combat.fireBroadside board k allShips = Some (hits, allShips1) ∧
        hits ≠ [] ∧
        actions = [firedLine hits] ∧
        allShips' = <[k := Ship.set_hasFired a true]> allShips1) ∨
     (∃ k a m allShips1 self,
        k ∈ enemyShips ∧ allShips !! k = Some a ∧ living a ∧
        (∀ j s, j ∈ enemyShips → allShips !! j = Some s → living s →
                ¬ hasTargets board allShips j) ∧
        usefulMove board playerShips allShips k m ∧
        attempt k m allShips = Some (true, allShips1) ∧
        allShips1 !! k = Some self ∧
        actions = [movedLine m] ∧
        allShips' = <[k := Ship.set_hasMoved self true]> allShips1)).
Proof.
  intros Hwf Henemies Hplayers.
  destruct (takeTurn_cases board enemyShips playerShips allShips rng
              Hwf Henemies Hplayers) as (actions & allShips' & rng' & Hrun & Hcases).
  exists actions, allShips', rng'. split; [done|]. split; [|done].
  destruct Hcases as [(-> & _) |
                      [(k & a & hits & st1 & _ & _ & _ & _ & _ & _ & -> & _) |
                       (k & a & m & st1 & self & _ & _ & _ & _ & _ & _ & _ & -> & _)]].
  - by inversion 1.
  - intros Hin%list_elem_of_singleton. by eapply firedLine_not_missed.
  - intros Hin%list_elem_of_singleton. by eapply movedLine_not_missed.
Qed.

Lemma takeTurn_acts_with_one_living_ship_witness :
  wellFormed duelAfterMove ∧
  (∀ e, e ∈ [1%nat] → is_Some (duelAfterMove !! e)) ∧
  (∀ p, p ∈ [0%nat] → is_Some (duelAfterMove !! p)) ∧
  ∃ actions allShips' rng',
    AI.takeTurn gameBoard [1%nat] [0%nat] duelAfterMove [0%nat]
      = Some (actions, allShips', rng') ∧
    length actions = 1%nat.
Proof.
  assert (wellFormed duelAfterMove) as Hwf.
  { apply validPlacementb_sound. vm_compute. reflexivity. }
  assert (∀ e, e ∈ [1%nat] → is_Some (duelAfterMove !! e)) as Henemies.
  { intros e ->%list_elem_of_singleton. by eexists. }
  assert (∀ p, p ∈ [0%nat] → is_Some (duelAfterMove !! p)) as Hplayers.
  { intros p ->%list_elem_of_singleton. by eexists. }
  split; [exact Hwf|]. split; [exact Henemies|]. split; [exact Hplayers|].
  destruct (takeTurn_acts_with_one_living_ship gameBoard [1%nat] [0%nat]
              duelAfterMove [0%nat] Hwf Henemies Hplayers)
    as (actions & allShips' & rng' & Hrun & _).
  exists actions, allShips', rng'. split; [exact Hrun|].
  vm_compute in Hrun. by injection Hrun as <- _ _.
Defined.

(** ** The title screen *)

Lemma onMenu_cases (ts : TitleScreen.t) :
  onMenu ts →
  ∃ st idx, ts = TitleScreen.mk st idx ∧
    ((st = 0 ∧ (idx = 0 ∨ idx = 1)) ∨
     (st = 1 ∧ (idx = 0 ∨ idx = 1)) ∨
     (st = 2 ∧ (idx = 0 ∨ idx = 1 ∨ idx = 2))).
Proof.
  destruct ts as [st idx]. unfold onMenu, menuShown, TitleScreen.item. simpl.
  intros Hon. exists st, idx. split; [done|].
  destruct Hon as [[-> Hidx] | [Hst Hitem]].
  { left. split; [done|]. lia. }
  destruct (Z.ltb_spec idx 0) as [?|Hpos]; [by destruct Hitem|].
  destruct Hitem as [name Hname]. apply lookup_lt_Some in Hname.
  unfold TitleScreen.STATE_MENU, TitleScreen.STATE_NEWGAME in *.
  destruct (Z.eqb_spec st 1) as [->|_].
  { right. left. split; [done|]. simpl in Hname. lia. }
  destruct (Z.eqb_spec st 2) as [->|_]; [|simpl in Hname; lia].
  right. right. split; [done|]. simpl in Hname. lia.
Qed.

(** X12.  The menus of the title screen.  From a screen whose selected
    index names an item of the menu shown, a key leaves such a screen:
    Up and Down wrap around the menu and never leave it.  Only Enter
    returns a result, the screen is then unchanged, and the result is
    'quit' from QUIT on the main menu, 'start_single' or 'start_multi' from
    the first or second item of the new-game menu.  Up followed by Down,
    and Down followed by Up, give back the screen. *)
Theorem handleKey_keeps_a_menu_item_selected (ts : TitleScreen.t) (key : string) :
  onMenu ts →
  onMenu (TitleScreen.handleKey ts key).2 ∧
  (∀ r, (TitleScreen.handleKey ts key).1 = Some r →
        key = "Enter" ∧ (TitleScreen.handleKey ts key).2 = ts ∧
        ((r = "quit" ∧ TitleScreen.state ts = TitleScreen.STATE_MENU ∧
          TitleScreen.selectedIndex ts = 1) ∨
         (r = "start_single" ∧ TitleScreen.state ts = TitleScreen.STATE_NEWGAME ∧
          TitleScreen.selectedIndex ts = 0) ∨
         (r = "start_multi" ∧ TitleScreen.state ts = TitleScreen.STATE_NEWGAME ∧
          TitleScreen.selectedIndex ts = 1))) ∧
  (TitleScreen.handleKey (TitleScreen.handleKey ts "ArrowUp").2 "ArrowDown").2 = ts ∧
  (TitleScreen.handleKey (TitleScreen.handleKey ts "ArrowDown").2 "ArrowUp").2 = ts.
Proof.
  intros (st & idx & -> & Hcases)%onMenu_cases.
  assert (∀ st' idx', (st' = 0 ∧ (idx' = 0 ∨ idx' = 1)) ∨
                      (st' = 1 ∧ (idx' = 0 ∨ idx' = 1)) ∨
                      (st' = 2 ∧ (idx' = 0 ∨ idx' = 1 ∨ idx' = 2)) →
                      onMenu (TitleScreen.mk st' idx')) as Hon.
  { intros st' idx' H. unfold onMenu, menuShown, TitleScreen.item. simpl.
    destruct H as [[-> H] | [[-> H] | [-> H]]]; [left; split; [done|lia]|..];
      right; (split; [done|]); simpl;
      repeat (destruct H as [->|H]; [by eexists|]); subst; by eexists. }
  split; [|split; [|split]].
  - destruct Hcases as [[-> H] | [[-> H] | [-> H]]];
      repeat (destruct H as [->|H]); subst;
      unfold TitleScreen.handleKey; simpl; repeat case_match; simpl;
      apply Hon; vm_compute; intuition congruence.
  - intros r.
    destruct Hcases as [[-> H] | [[-> H] | [-> H]]];
      repeat (destruct H as [->|H]); subst;
      unfold TitleScreen.handleKey; simpl; repeat case_match; simpl;
      intros [= <-]; rewrite ?String.eqb_eq in *; (split; [done|]);
      (split; [done|]); simpl; naive_solver.
  - destruct Hcases as [[-> H] | [[-> H] | [-> H]]];
      repeat (destruct H as [->|H]); by subst.
  - destruct Hcases as [[-> H] | [[-> H] | [-> H]]];
      repeat (destruct H as [->|H]); by subst.
Qed.

Lemma handleKey_keeps_a_menu_item_selected_witness :
  onMenu (TitleScreen.mk TitleScreen.STATE_NEWGAME 0) ∧
  TitleScreen.handleKey (TitleScreen.mk TitleScreen.STATE_NEWGAME 0) "ArrowUp"
  = (None, TitleScreen.mk TitleScreen.STATE_NEWGAME 2) ∧
  onMenu (TitleScreen.mk TitleScreen.STATE_NEWGAME 2).
Proof.
  assert (onMenu (TitleScreen.mk TitleScreen.STATE_NEWGAME 0)) as Hon.
  { right. split; [done|]. by eexists. }
  split; [exact Hon|]. split; [reflexivity|].
  exact (proj1 (handleKey_keeps_a_menu_item_selected
                  (TitleScreen.mk TitleScreen.STATE_NEWGAME 0) "ArrowUp" Hon)).
Defined.

(** ** Setting up the fleets *)

Lemma shuffle_rng {A} (array : list A) (rng : AI.Rng) :
  (AI.shuffle array rng).2 = drop (length array - 1) rng.
Proof. apply shuffleFrom_perm. Qed.

Lemma placeShips_zip (build : Z → Z → Ship.t) (lengths rows : list Z) :
  ∀ i, (i + length lengths ≤ length rows)%nat →
       Play.placeShips build i lengths rows
       = Some (zip_with build lengths (drop i rows)).
Proof.
  induction lengths as [|l rest IH]; intros i Hlen; simpl in *; [done|].
  rewrite Nat.mod_small by lia.
  destruct (lookup_lt_is_Some_2 rows i) as [y Hy]; [lia|].
  rewrite Hy. simpl. rewrite IH by lia. simpl.
  by rewrite (drop_S rows y i Hy).
Qed.

Lemma occupies_playerShipOf (l y : Z) (c : Cell) :
  occupies (playerShipOf l y) c → c.2 = y ∧ 0 ≤ c.1 ≤ l - 1.
Proof.
  intros (cells & Hcells & Hc).
  rewrite getCells_segments in Hcells by (right; by left).
  injection Hcells as <-.
  apply list_elem_of_fmap in Hc as (i & -> & Hi%elem_of_seqZ).
  unfold segment, heading. simpl in *. lia.
Qed.

Lemma occupies_enemyShipOf (l y : Z) (c : Cell) :
  occupies (enemyShipOf l y) c → c.2 = y ∧ 20 - l ≤ c.1 ≤ 19.
Proof.
  intros (cells & Hcells & Hc).
  rewrite getCells_segments in Hcells by (right; right; by right).
  injection Hcells as <-.
  apply list_elem_of_fmap in Hc as (i & -> & Hi%elem_of_seqZ).
  unfold segment, heading. simpl in *. lia.
Qed.

Lemma fleetLengths_bound (lengths : list Z) (l : Z) :
  lengths ≡ₚ fleetLengths → l ∈ lengths → 2 ≤ l ≤ 4.
Proof.
  intros Hperm Hl. rewrite Hperm in Hl. unfold fleetLengths in Hl.
  repeat (apply elem_of_cons in Hl as [->|Hl]; [lia|]). by inversion Hl.
Qed.

Lemma fleetRows_bound (rows : list Z) (y : Z) :
  rows ≡ₚ fleetRows → y ∈ rows → 0 ≤ y ≤ 12.
Proof.
  intros Hperm Hy. rewrite Hperm in Hy. unfold fleetRows in Hy.
  repeat (apply elem_of_cons in Hy as [->|Hy]; [lia|]). by inversion Hy.
Qed.

Lemma fleetRows_NoDup (rows : list Z) : rows ≡ₚ fleetRows → NoDup rows.
Proof.
  intros ->. unfold fleetRows.
  repeat (apply NoDup_cons; split; [set_solver by lia|]). apply NoDup_nil_2.
Qed.

(** The ship at a position of a fresh fleet. *)
Lemma freshFleet_lookup (build : Z → Z → Ship.t) (lengths rows : list Z)
    (i : nat) (s : Ship.t) :
  zip_with build lengths rows !! i = Some s →
  ∃ l y, lengths !! i = Some l ∧ rows !! i = Some y ∧ s = build l y.
Proof.
  intros (l & y & -> & Hl & Hy)%lookup_zip_with_Some. by exists l, y.
Qed.

Lemma freshFleet_length (build : Z → Z → Ship.t) (ships : list Ship.t) :
  freshFleet build ships → length ships = 7%nat.
Proof.
  intros (lengths & rows & Hl & Hr & ->).
  rewrite length_zip_with, Hl, Hr. done.
Qed.

(** Two fresh fleets face each other without touching. *)
Lemma freshFleets_validPlacement (players enemies : list Ship.t) :
  freshFleet playerShipOf players →
  freshFleet enemyShipOf enemies →
  validPlacement (players ++ enemies).
Proof.
  intros (pl & pr & Hpl & Hpr & ->) (el & er & Hel & Her & ->).
  set (P := zip_with playerShipOf pl pr). set (E := zip_with enemyShipOf el er).
  assert (∀ i s, P !! i = Some s →
            ∃ l y, pr !! i = Some y ∧ s = playerShipOf l y ∧
                   2 ≤ l ≤ 4 ∧ 0 ≤ y ≤ 12) as HP.
  { intros i s (l & y & Hl & Hy & ->)%freshFleet_lookup. exists l, y.
    split; [done|]. split; [done|]. split.
    - apply (fleetLengths_bound pl); [done|]. by eapply list_elem_of_lookup_2.
    - apply (fleetRows_bound pr); [done|]. by eapply list_elem_of_lookup_2. }
  assert (∀ i s, E !! i = Some s →
            ∃ l y, er !! i = Some y ∧ s = enemyShipOf l y ∧
                   2 ≤ l ≤ 4 ∧ 0 ≤ y ≤ 12) as HE.
  { intros i s (l & y & Hl & Hy & ->)%freshFleet_lookup. exists l, y.
    split; [done|]. split; [done|]. split.
    - apply (fleetLengths_bound el); [done|]. by eapply list_elem_of_lookup_2.
    - apply (fleetRows_bound er); [done|]. by eapply list_elem_of_lookup_2. }
  assert (∀ i s, (P ++ E) !! i = Some s →
            (∃ l y, pr !! i = Some y ∧ s = playerShipOf l y ∧
                    2 ≤ l ≤ 4 ∧ 0 ≤ y ≤ 12) ∨
            (∃ l y, er !! (i - length P)%nat = Some y ∧ (length P ≤ i)%nat ∧
                    s = enemyShipOf l y ∧ 2 ≤ l ≤ 4 ∧ 0 ≤ y ≤ 12)) as Hall.
  { intros i s [Hi | [Hge Hi]]%lookup_app_Some.
    - left. by apply HP.
    - right. destruct (HE _ _ Hi) as (l & y & ? & ? & ? & ?). by exists l, y. }
  pose proof (fleetRows_NoDup pr Hpr) as Hndp.
  pose proof (fleetRows_NoDup er Her) as Hnde.
  split; [|split].
  - intros s (i & Hi)%list_elem_of_lookup_1.
    destruct (Hall i s Hi) as [(l & y & _ & -> & _) | (l & y & _ & _ & -> & _)].
    + right. by left.
    + right. right. by right.
  - intros i j s s' c Hne Hi Hj _ _ Hc Hc'.
    destruct (Hall i s Hi) as [(l & y & Hy & -> & Hl & Hyb) |
                               (l & y & Hy & Hge & -> & Hl & Hyb)];
      destruct (Hall j s' Hj) as [(l' & y' & Hy' & -> & Hl' & Hyb') |
                                  (l' & y' & Hy' & Hge' & -> & Hl' & Hyb')].
    + apply occupies_playerShipOf in Hc, Hc'.
      assert (y = y') as <- by lia.
      apply Hne. by eapply (NoDup_lookup pr).
    + apply occupies_playerShipOf in Hc. apply occupies_enemyShipOf in Hc'. lia.
    + apply occupies_enemyShipOf in Hc. apply occupies_playerShipOf in Hc'. lia.
    + apply occupies_enemyShipOf in Hc, Hc'.
      assert (y = y') as <- by lia.
      assert ((i - length P)%nat = (j - length P)%nat)
        by by eapply (NoDup_lookup er).
      lia.
  - intros s c (i & Hi)%list_elem_of_lookup_1 _ Hc.
    destruct (Hall i s Hi) as [(l & y & _ & -> & Hl & Hy) |
                               (l & y & _ & _ & -> & Hl & Hy)].
    + apply occupies_playerShipOf in Hc. unfold inBounds. simpl.
      unfold GRID_COLS, GRID_ROWS. lia.
    + apply occupies_enemyShipOf in Hc. unfold inBounds. simpl.
      unfold GRID_COLS, GRID_ROWS. lia.
Qed.

Lemma initShips_fresh {T} `{!Millis T} (this : Play.t T) :
  ∃ players enemies,
    Play.initShips this
    = Some (Play.set_random (Play.set_fleets this players enemies)
                            (drop 24 (Play.random this))) ∧
    freshFleet playerShipOf players ∧
    freshFleet enemyShipOf enemies.
Proof.
  unfold Play.initShips, Play.shuffle, Play.shipConfigs. simpl.
  change [2; 2; 3; 3; 3; 4; 4] with fleetLengths.
  change [0; 2; 4; 6; 8; 10; 12] with fleetRows.
  pose proof (shuffle_perm fleetLengths (Play.random this)) as Hl1.
  pose proof (shuffle_rng fleetLengths (Play.random this)) as Hr1.
  destruct (AI.shuffle fleetLengths (Play.random this)) as [pl rng1].
  simpl in Hl1, Hr1.
  pose proof (shuffle_perm fleetRows rng1) as Hl2.
  pose proof (shuffle_rng fleetRows rng1) as Hr2.
  destruct (AI.shuffle fleetRows rng1) as [pr rng2]. simpl in Hl2, Hr2.
  pose proof (shuffle_perm fleetRows rng2) as Hl3.
  pose proof (shuffle_rng fleetRows rng2) as Hr3.
  destruct (AI.shuffle fleetRows rng2) as [er rng3]. simpl in Hl3, Hr3.
  rewrite placeShips_zip by (simpl; by rewrite Hl1, Hl2).
  simpl. rewrite drop_0.
  pose proof (shuffle_perm pl rng3) as Hl4.
  pose proof (shuffle_rng pl rng3) as Hr4.
  destruct (AI.shuffle pl rng3) as [el rng4]. simpl in Hl4, Hr4.
  rewrite placeShips_zip by (simpl; by rewrite Hl4, Hl1, Hl3).
  simpl. rewrite drop_0.
  exists (zip_with playerShipOf pl pr), (zip_with enemyShipOf el er).
  split; [|split].
  - do 2 f_equal. rewrite Hr4, Hr3, Hr2, Hr1, Hl1. simpl.
    by rewrite !drop_drop.
  - by exists pl, pr.
  - exists el, er. split; [by rewrite Hl4|done].
Qed.

(** X13.  [initShips] always succeeds, whatever the random draws, and
    builds two fleets of seven ships: in each fleet the lengths are 2, 2,
    3, 3, 3, 4, 4 in some order and the ships lie on the rows 0, 2, ..., 12,
    one per row; the player ships face right with the stern on the left
    edge, the enemy ships face left with the stern on the right edge; every
    ship has all its cannons and no flag set.  The placement is valid: no
    two ships share a cell and every cell is on the board.  It consumes 24
    draws and changes nothing but the fleets. *)
Theorem initShips_places_two_valid_fleets {T} `{!Millis T} (this : Play.t T) :
  ∃ players enemies,
    Play.initShips this
    = Some (Play.set_random (Play.set_fleets this players enemies)
                            (drop 24 (Play.random this))) ∧
    freshFleet playerShipOf players ∧
    freshFleet enemyShipOf enemies ∧
    length players = 7%nat ∧ length enemies = 7%nat ∧
    Forall fullyArmed (players ++ enemies) ∧
    validPlacement (players ++ enemies).
Proof.
  destruct (initShips_fresh this) as (players & enemies & Hrun & Hp & He).
  exists players, enemies. split; [done|]. split; [done|]. split; [done|].
  split; [by eapply freshFleet_length|]. split; [by eapply freshFleet_length|].
  split; [|by apply freshFleets_validPlacement].
  destruct Hp as (pl & pr & Hpl & Hpr & ->). destruct He as (el & er & Hel & Her & ->).
  apply Forall_app. split; apply Forall_lookup; intros i s
    (l & y & Hl & Hy & ->)%freshFleet_lookup;
    (split; [done|]); simpl;
    (assert (2 ≤ l ≤ 4); [|lia]).
  - apply (fleetLengths_bound pl); [done|]. by eapply list_elem_of_lookup_2.
  - apply (fleetLengths_bound el); [done|]. by eapply list_elem_of_lookup_2.
Qed.

(** ** The fleets through a match *)

Lemma kept_refl (mode : GameMode) (s : Ship.t) : kept mode s s.
Proof. by split; [|split]. Qed.

Lemma kept_trans (mode : GameMode) (s1 s2 s3 : Ship.t) :
  kept mode s1 s2 → kept mode s2 s3 → kept mode s1 s3.
Proof.
  intros (Ht & Hd & Hc) (Ht' & Hd' & Hc'). split; [congruence|]. split; [auto|].
  intros Hout. destruct (Hc Hout) as [Hc1 Hc2].
  destruct Hc' as [Hc3 Hc4]; [|split; congruence].
  destruct Hout as [Hteam | ->]; [left; congruence | by right].
Qed.

Lemma samePlace_refl (s : Ship.t) : samePlace s s.
Proof. by repeat split. Qed.

Lemma samePlace_kept (mode : GameMode) (s s' : Ship.t) :
  samePlace s s' → kept mode s s'.
Proof.
  intros (_ & _ & _ & Ht & Hc & Hm). split; [done|]. unfold living.
  split; [by rewrite Hc|done].
Qed.

Lemma Forall2_kept_trans (mode : GameMode) (l1 l2 l3 : list Ship.t) :
  Forall2 (kept mode) l1 l2 → Forall2 (kept mode) l2 l3 →
  Forall2 (kept mode) l1 l3.
Proof.
  intros H12. revert l3.
  induction H12 as [|s1 s2 l1 l2 Hs _ IH]; intros l3 H23.
  { inversion H23. constructor. }
  inversion H23 as [|? s3 ? l3' Hs' Hrest]; subst. constructor.
  - by eapply kept_trans.
  - by apply IH.
Qed.

Lemma Forall2_diag {A} (R : A → A → Prop) (l : list A) :
  (∀ a, R a a) → Forall2 R l l.
Proof. intros Hrefl. induction l; by constructor. Qed.

Lemma Forall2_insert_diag {A} (R : A → A → Prop) (l : list A) (i : nat) (s x : A) :
  (∀ a, R a a) → l !! i = Some s → R s x → Forall2 R l (<[i := x]> l).
Proof.
  intros Hrefl Hi Hx.
  rewrite <- (list_insert_id l i s Hi) at 1.
  apply Forall2_insert; [by apply Forall2_diag|done].
Qed.

Lemma Forall2_samePlace_kept (mode : GameMode) (l l' : list Ship.t) :
  Forall2 samePlace l l' → Forall2 (kept mode) l l'.
Proof.
  intros H. eapply Forall2_impl; [done|]. intros s s'. apply samePlace_kept.
Qed.

(** Ships that lie where they lay are validly placed if they were. *)
Lemma validPlacement_samePlace (allShips allShips' : list Ship.t) :
  Forall2 samePlace allShips allShips' →
  validPlacement allShips → validPlacement allShips'.
Proof.
  intros Hsame (Hwf & Hno & Hin).
  assert (∀ i s', allShips' !! i = Some s' →
            ∃ s, allShips !! i = Some s ∧ samePlace s s') as Hback.
  { intros i s' Hi.
    destruct (Forall2_lookup_r _ _ _ _ _ Hsame Hi) as (s & Hs & Hss). eauto. }
  split; [|split].
  - intros s' (i & Hi)%list_elem_of_lookup_1.
    destruct (Hback i s' Hi) as (s & Hs & _ & -> & _).
    apply Hwf. by eapply list_elem_of_lookup_2.
  - intros i j s1' s2' c Hne Hi Hj.
    destruct (Hback i s1' Hi) as (s1 & Hs1 & Hc1 & _ & _ & _ & Hl1 & _).
    destruct (Hback j s2' Hj) as (s2 & Hs2 & Hc2 & _ & _ & _ & Hl2 & _).
    unfold living, occupies. rewrite Hc1, Hc2, Hl1, Hl2.
    by apply (Hno i j).
  - intros s' c (i & Hi)%list_elem_of_lookup_1.
    destruct (Hback i s' Hi) as (s & Hs & Hc & _ & Hb & _ & Hl & _).
    unfold living, occupies. rewrite Hc, Hb, Hl.
    apply Hin. by eapply list_elem_of_lookup_2.
Qed.

Lemma update_ship_Some (ship : nat) (f : Ship.t → Ship.t) (roster : list Ship.t) :
  (ship < length roster)%nat →
  ∃ s, roster !! ship = Some s ∧
       Play.update_ship ship f roster = Some (<[ship := f s]> roster).
Proof.
  intros [s Hs]%lookup_lt_is_Some_2. exists s. split; [done|].
  unfold Play.update_ship. by rewrite Hs.
Qed.

(** Setting a flag of one ship. *)
Lemma flag_samePlace (ship : nat) (f : Ship.t → Ship.t) (roster : list Ship.t) :
  (∀ s, samePlace s (f s)) →
  (ship < length roster)%nat →
  ∃ roster',
    Play.update_ship ship f roster = Some roster' ∧
    Forall2 samePlace roster roster'.
Proof.
  intros Hf Hlt. destruct (update_ship_Some ship f roster Hlt) as (s & Hs & ->).
  eexists. split; [done|].
  by apply (Forall2_insert_diag samePlace roster ship s); [apply samePlace_refl| |].
Qed.

Lemma move_samePlace_arms (mode : GameMode) (this : nat) (direction : string)
    (allShips allShips' : list Ship.t) (ok : bool) :
  Ship.move this direction allShips = Some (ok, allShips') →
  Forall2 (kept mode) allShips allShips'.
Proof.
  intros Hrun.
  apply move_inv in Hrun
    as (self & Hself & [[_ ->] | (newX & newY & ? & _ & -> & _)]).
  - apply Forall2_diag, kept_refl.
  - apply (Forall2_insert_diag _ allShips this self); [apply kept_refl|done|].
    by split; [|split].
Qed.

Lemma rotate_samePlace_arms (mode : GameMode) (this : nat) (direction : string)
    (allShips allShips' : list Ship.t) (ok : bool) :
  Ship.rotate this direction allShips = Some (ok, allShips') →
  Forall2 (kept mode) allShips allShips'.
Proof.
  intros Hrun.
  apply rotate_inv in Hrun
    as (self & Hself & [[_ ->] | (newO & ? & _ & _ & -> & _)]).
  - apply Forall2_diag, kept_refl.
  - apply (Forall2_insert_diag _ allShips this self); [apply kept_refl|done|].
    by split; [|split].
Qed.

Lemma attempt_kept (mode : GameMode) (ship : nat) (m : AI.Action)
    (allShips allShips1 : list Ship.t) (ok : bool) :
  attempt ship m allShips = Some (ok, allShips1) →
  Forall2 (kept mode) allShips allShips1.
Proof.
  unfold attempt. intros Hrun.
  destruct (String.eqb (AI.type m) "move"); [by eapply move_samePlace_arms|].
  destruct (String.eqb (AI.type m) "rotate"); [by eapply rotate_samePlace_arms|].
  simplify_eq. apply Forall2_diag, kept_refl.
Qed.

Lemma takeDamage_kept (s : Ship.t) :
  Ship.team s ≠ enemy → kept SINGLE_PLAYER s (Ship.takeDamage s 1).1.
Proof.
  intros Hteam. split; [done|]. split.
  - unfold living. simpl. lia.
  - by intros [?|?].
Qed.

(** A broadside of an enemy ship in a single-player game. *)
Lemma fireBroadside_kept (board : Board.t) (k : nat) (allShips allShips1 : list Ship.t)
    (a : Ship.t) (hits : list Combat.Hit) :
  wellFormed allShips →
  allShips !! k = Some a →
  Ship.team a = enemy →
  Combat.fireBroadside board k allShips = Some (hits, allShips1) →
  Forall2 (kept SINGLE_PLAYER) allShips allShips1 ∧ allShips1 !! k = Some a.
Proof.
  intros Hwf Ha Hteam Hrun. unfold Combat.fireBroadside in Hrun.
  rewrite Ha in Hrun. simpl in Hrun.
  destruct (Ship.cannonsPerSide a <=? 0).
  { simplify_eq. split; [apply Forall2_diag, kept_refl|done]. }
  destruct (getTargetsInRange_spec board k allShips a Hwf Ha)
    as (zones & targets & Hzones & Htargets & Hmem & Hnonempty & Hsorted).
  rewrite Htargets in Hrun. simpl in Hrun.
  destruct (broadsideLoop_spec targets [] allShips) as
    (new & allShips' & Hloop & Hlen & Hlookup & Hfst & Hflags).
  { by apply StronglySorted_lt_NoDup. }
  { done. }
  { intros j (s & Hs & _)%Hmem. by exists s. }
  rewrite Hloop in Hrun. simplify_eq. split.
  - apply Forall2_same_length_lookup. split; [done|].
    intros i s s' Hs Hs'. rewrite (Hlookup i s Hs) in Hs'.
    destruct (decide (i ∈ targets.*1)) as [Hin|_]; simplify_eq;
      [|apply kept_refl].
    apply Hmem in Hin as (s2 & Hs2 & Hne & _). simplify_eq.
    apply takeDamage_kept. congruence.
  - rewrite (Hlookup k a Ha). rewrite decide_False; [done|].
    intros (s & Hs & Hne & _)%Hmem. by simplify_eq.
Qed.

(** The opponent's turn in a single-player game: it returns, keeps the
    placement valid, and spares its own fleet. *)
Lemma takeTurn_kept (board : Board.t) (enemyShips playerShips : list nat)
    (allShips : list Ship.t) (rng : AI.Rng) :
  validPlacement allShips →
  (∀ e, e ∈ enemyShips → ∃ s, allShips !! e = Some s ∧ Ship.team s = enemy) →
  (∀ p, p ∈ playerShips → is_Some (allShips !! p)) →
  ∃ actions allShips' rng',
    AI.takeTurn board enemyShips playerShips allShips rng
      = Some (actions, allShips', rng') ∧
    validPlacement allShips' ∧
    Forall2 (kept SINGLE_PLAYER) allShips allShips'.
Proof.
  intros Hvp Henemies Hplayers. pose proof Hvp as (Hwf & _).
  destruct (takeTurn_cases board enemyShips playerShips allShips rng Hwf)
    as (actions & allShips' & rng' & Hrun & Hcases); [|done|].
  { intros e (s & Hs & _)%Henemies. by exists s. }
  exists actions, allShips', rng'. split; [done|].
  split; [by eapply takeTurn_validPlacement|].
  destruct Hcases as [(_ & -> & _) |
                      [(k & a & hits & allShips1 & Hk & Ha & _ & _ & Hfire & _ & _ & ->) |
                       (k & a & m & allShips1 & self & Hk & Ha & _ & _ & _ & Htrial & Hself & _ & ->)]].
  - apply Forall2_diag, kept_refl.
  - destruct (Henemies k Hk) as (a' & Ha' & Hteam).
    rewrite Ha in Ha'. injection Ha' as <-.
    destruct (fireBroadside_kept board k allShips allShips1 a hits Hwf Ha Hteam Hfire)
      as [Hkept Hk1].
    eapply Forall2_kept_trans; [done|].
    apply (Forall2_insert_diag _ allShips1 k a); [apply kept_refl|done|].
    by split; [|split].
  - eapply Forall2_kept_trans; [by eapply attempt_kept|].
    apply (Forall2_insert_diag _ allShips1 k self); [apply kept_refl|done|].
    by split; [|split].
Qed.

(** The fleets read back from a roster of kept ships are in order. *)
Lemma fleets_kept (mode : GameMode) (players enemies roster' : list Ship.t) :
  fleetsInOrder mode players enemies →
  Forall2 (kept mode) (players ++ enemies) roster' →
  validPlacement roster' →
  fleetsInOrder mode (take (length players) roster') (drop (length players) roster').
Proof.
  intros (Hp & He & _ & Htp & Hte & Harmed) Hkept Hvp.
  apply Forall2_app_inv_l in Hkept as (players' & enemies' & Hkp & Hke & ->).
  pose proof (Forall2_length _ _ _ Hkp) as Hlp.
  pose proof (Forall2_length _ _ _ Hke) as Hle.
  rewrite Hlp, take_app_length, drop_app_length.
  split; [lia|]. split; [lia|]. split; [done|].
  apply Forall_app in Harmed as [Hap Hae].
  assert (∀ l l' t, Forall2 (kept mode) l l' →
            Forall (λ s, Ship.team s = t) l → Forall (λ s, Ship.team s = t) l')
    as Hteams.
  { intros l l' t H2 HF. induction H2 as [|s s' l l' (Ht & _) _ IH]; [done|].
    apply Forall_cons in HF as [Hs HF]. constructor; [congruence|by apply IH]. }
  assert (∀ l l', Forall2 (kept mode) l l' →
            Forall (λ s, outOfReach mode s → fullyArmed s) l →
            Forall (λ s, outOfReach mode s → fullyArmed s) l') as Harmed'.
  { intros l l' H2 HF. induction H2 as [|s s' l l' (Ht & _ & Hc) _ IH]; [done|].
    apply Forall_cons in HF as [Hs HF]. constructor; [|by apply IH].
    intros Hout.
    assert (outOfReach mode s) as Hout'.
    { destruct Hout as [Hteam | ->]; [left; congruence | by right]. }
    destruct (Hc Hout') as [Hc1 Hc2]. destruct (Hs Hout') as [Hfull Hpos].
    unfold fullyArmed. rewrite Hc1, Hc2. done. }
  split; [by eapply Hteams|]. split; [by eapply Hteams|].
  apply Forall_app. split; by eapply Harmed'.
Qed.

Lemma kept_noneLiving (mode : GameMode) (l l' : list Ship.t) :
  Forall2 (kept mode) l l' → noneLiving l → noneLiving l'.
Proof.
  intros H2 Hnone s' (i & Hi)%list_elem_of_lookup_1.
  destruct (Forall2_lookup_r _ _ _ _ _ H2 Hi) as (s & Hs & _ & Hdead & _).
  apply Hdead, Hnone. by eapply list_elem_of_lookup_2.
Qed.

(** ** The controller keeps the game in play *)

Section InPlay.
Context {T : Type} `{!Millis T}.
Implicit Types this : Play.t T.

Lemma inPlay_same this this' :
  Play.game this' = Play.game this →
  Play.selectedShip this' = Play.selectedShip this →
  inPlay this → inPlay this'.
Proof.
  unfold inPlay, Play.gameMode, Play.state, Play.playerWon. by intros -> ->.
Qed.

Lemma inPlay_set_state this (s : GameState) :
  inPlay this →
  s ≠ GAME_OVER →
  (s = PLAYER_FIRE → Play.selectedShip this = None) →
  (s = PLAYER2_FIRE → Play.selectedShip this = None) →
  inPlay (Play.set_state this s).
Proof.
  intros (Hfleets & Hsel & _ & Hwon & _) Hs Hfire1 Hfire2.
  split; [done|]. split; [done|]. split; [by intros [?|?]; auto|]. split; [done|].
  simpl. by intros ?.
Qed.

Lemma inPlay_set_selectedShip this (ship : option nat) :
  inPlay this →
  (∀ i, ship = Some i → (i < 14)%nat) →
  (Play.state this = PLAYER_FIRE ∨ Play.state this = PLAYER2_FIRE → ship = None) →
  inPlay (Play.set_selectedShip this ship).
Proof.
  intros (Hfleets & _ & _ & Hwon & Hover) Hship Hfire.
  split; [done|]. split; [done|]. split; [done|]. by split.
Qed.

Lemma inPlay_set_fleets this (players enemies : list Ship.t) :
  inPlay this →
  Forall2 (kept (Play.gameMode this)) (Game.playerShips (Play.game this)) players →
  Forall2 (kept (Play.gameMode this)) (Game.enemyShips (Play.game this)) enemies →
  validPlacement (players ++ enemies) →
  inPlay (Play.set_fleets this players enemies).
Proof.
  intros (Hfleets & Hsel & Hfire & Hwon & Hover) Hp He Hvp.
  split; [|split; [done|]; split; [done|]; split; [done|]].
  - assert (Forall2 (kept (Play.gameMode this))
              (Game.playerShips (Play.game this) ++ Game.enemyShips (Play.game this))
              (players ++ enemies)) as Hall by by apply Forall2_app.
    pose proof (fleets_kept _ _ _ (players ++ enemies) Hfleets Hall Hvp) as Hnew.
    rewrite (Forall2_length _ _ _ Hp) in Hnew.
    by rewrite take_app_length, drop_app_length in Hnew.
  - simpl. intros Hstate. eapply kept_noneLiving; [done|]. by apply Hover.
Qed.

Lemma inPlay_set_allShips this (roster : list Ship.t) :
  inPlay this →
  Forall2 (kept (Play.gameMode this)) (Play.allShips this) roster →
  validPlacement roster →
  inPlay (Play.set_allShips this roster) ∧
  Play.allShips (Play.set_allShips this roster) = roster.
Proof.
  intros Hin Hkept Hvp. unfold Play.set_allShips. split.
  - apply Forall2_app_inv_l in Hkept as (players & enemies & Hkp & Hke & ->).
    rewrite (Forall2_length _ _ _ Hkp), take_app_length, drop_app_length.
    by apply inPlay_set_fleets.
  - unfold Play.allShips, Game.allShips. simpl. apply take_drop.
Qed.

Lemma inPlay_length this : inPlay this → length (Play.allShips this) = 14%nat.
Proof.
  intros ((Hp & He & _) & _). unfold Play.allShips, Game.allShips.
  rewrite length_app. lia.
Qed.

Lemma inPlay_validPlacement this : inPlay this → validPlacement (Play.allShips this).
Proof. by intros ((_ & _ & Hvp & _) & _). Qed.

(** Setting flags of one ship of the roster. *)
Lemma inPlay_flag this (ship : nat) (f : Ship.t → Ship.t) :
  inPlay this →
  (∀ s, samePlace s (f s)) →
  (ship < 14)%nat →
  ∃ roster,
    Play.update_ship ship f (Play.allShips this) = Some roster ∧
    inPlay (Play.set_allShips this roster) ∧
    Play.allShips (Play.set_allShips this roster) = roster.
Proof.
  intros Hin Hf Hlt.
  destruct (flag_samePlace ship f (Play.allShips this) Hf) as (roster & Hrun & Hsame).
  { by rewrite inPlay_length. }
  exists roster. split; [done|].
  apply inPlay_set_allShips; [done|by apply Forall2_samePlace_kept|].
  eapply validPlacement_samePlace; [done|]. by apply inPlay_validPlacement.
Qed.

Lemma set_selected_samePlace (b : bool) (s : Ship.t) :
  samePlace s (Ship.set_selected s b).
Proof. by repeat split. Qed.

Lemma fmap_samePlace (f : Ship.t → Ship.t) (l : list Ship.t) :
  (∀ s, samePlace s (f s)) → Forall2 samePlace l (f <$> l).
Proof. intros Hf. induction l; simpl; by constructor. Qed.

Lemma deselect_inPlay this :
  inPlay this →
  ∃ this',
    Play.deselect this = Some this' ∧ inPlay this' ∧
    Play.selectedShip this' = None ∧
    Play.state this' = Play.state this ∧
    Play.gameMode this' = Play.gameMode this.
Proof.
  intros Hin. unfold Play.deselect.
  destruct (Play.selectedShip this) as [selected|] eqn:Hsel; [|by exists this].
  destruct (inPlay_flag this selected (λ s, Ship.set_selected s false) Hin)
    as (roster & -> & Hin' & _);
    [apply set_selected_samePlace | by apply Hin |].
  simpl. eexists. split; [done|]. split; [|done].
  by apply inPlay_set_selectedShip.
Qed.

Lemma steer_inPlay this (key : string) :
  inPlay this →
  ∃ this',
    Play.steer this key = Some this' ∧ inPlay this' ∧
    Play.selectedShip this' = Play.selectedShip this ∧
    Play.state this' = Play.state this ∧
    Play.gameMode this' = Play.gameMode this.
Proof.
  intros Hin. unfold Play.steer.
  destruct (Play.selectedShip this) as [selected|] eqn:Hsel; [|by exists this].
  pose proof (inPlay_validPlacement this Hin) as Hvp. pose proof Hvp as (Hwf & _).
  assert (is_Some (Play.allShips this !! selected)) as Hship.
  { apply lookup_lt_is_Some. rewrite inPlay_length by done. by apply Hin. }
  assert (∀ r : option (bool * list Ship.t),
            (∃ ok roster, r = Some (ok, roster) ∧ validPlacement roster ∧
               Forall2 (kept (Play.gameMode this)) (Play.allShips this) roster) →
            ∃ this',
              (r ≫= λ '(moved, roster), Some (Play.set_allShips this roster))
              = Some this' ∧ inPlay this' ∧
              Play.selectedShip this' = Some selected ∧
              Play.state this' = Play.state this ∧
              Play.gameMode this' = Play.gameMode this) as Hdone.
  { intros r (ok & roster & -> & Hvp' & Hkept). simpl.
    eexists. split; [done|]. split; [|done].
    by apply inPlay_set_allShips. }
  assert (∀ direction,
            ∃ ok roster,
              Ship.move selected direction (Play.allShips this) = Some (ok, roster) ∧
              validPlacement roster ∧
              Forall2 (kept (Play.gameMode this)) (Play.allShips this) roster)
    as Hmove.
  { intros direction.
    destruct (move_total selected direction (Play.allShips this) Hwf Hship)
      as [[ok roster] Hrun].
    exists ok, roster. split; [done|].
    split; [by eapply move_validPlacement | by eapply move_samePlace_arms]. }
  assert (∀ direction,
            ∃ ok roster,
              Ship.rotate selected direction (Play.allShips this) = Some (ok, roster) ∧
              validPlacement roster ∧
              Forall2 (kept (Play.gameMode this)) (Play.allShips this) roster)
    as Hrotate.
  { intros direction.
    destruct (rotate_total selected direction (Play.allShips this) Hwf Hship)
      as [[ok roster] Hrun].
    exists ok, roster. split; [done|].
    split; [by eapply rotate_validPlacement | by eapply rotate_samePlace_arms]. }
  apply Hdone. repeat case_match; try done.
  exists false, (Play.allShips this). split; [done|]. split; [done|].
  apply Forall2_diag, kept_refl.
Qed.
Lemma fleetsInOrder_enemyAlive (mode : GameMode) (players enemies : list Ship.t) :
  fleetsInOrder mode players enemies → existsb Ship.isAlive enemies = true.
Proof.
  intros (_ & He & _ & _ & Hte & Harmed).
  apply Forall_app in Harmed as [_ Harmed].
  destruct enemies as [|s rest]; [done|]. simpl.
  apply Forall_cons in Hte as [Hs _]. apply Forall_cons in Harmed as [Hfull _].
  destruct Hfull as [_ Hpos]; [by left|].
  apply isAlive_living in Hpos. by rewrite Hpos.
Qed.

Lemma checkGameOver_inPlay this :
  inPlay this →
  inPlay (Play.checkGameOver this).2 ∧
  Play.selectedShip (Play.checkGameOver this).2 = Play.selectedShip this ∧
  Play.gameMode (Play.checkGameOver this).2 = Play.gameMode this ∧
  ((Play.checkGameOver this).1 = false → (Play.checkGameOver this).2 = this) ∧
  ((Play.checkGameOver this).1 = true →
   Play.state (Play.checkGameOver this).2 = GAME_OVER).
Proof.
  intros Hin. pose proof Hin as (Hfleets & Hsel & Hfire & Hwon & Hover).
  destruct this as [[st won mode P E] ts sel msg mt at' acts idx rng].
  unfold Play.checkGameOver, Game.checkGameOver, Play.gameMode, Play.state,
    Play.playerWon in *.
  simpl in *. rewrite (fleetsInOrder_enemyAlive _ _ _ Hfleets). simpl.
  destruct (existsb Ship.isAlive P) eqn:Hp; simpl.
  - done.
  - split; [|done]. split; [done|]. split; [done|]. split; [by intros [?|?]|].
    split; [done|]. intros _. by apply existsb_isAlive_false.
Qed.

Lemma resetFlags_samePlace (s : Ship.t) :
  samePlace s (Ship.set_selected
                 (Ship.set_hasFired (Ship.set_hasMoved s false) false) false).
Proof. by repeat split. Qed.

Lemma turnFlags_samePlace (s : Ship.t) :
  samePlace s (Ship.set_hasFired (Ship.set_hasMoved s false) false).
Proof. by repeat split. Qed.

(** Setting flags of all the ships of one fleet. *)
Lemma inPlay_flags this (f g : Ship.t → Ship.t) :
  inPlay this →
  (∀ s, samePlace s (f s)) → (∀ s, samePlace s (g s)) →
  inPlay (Play.set_fleets this (f <$> Game.playerShips (Play.game this))
                          (g <$> Game.enemyShips (Play.game this))).
Proof.
  intros Hin Hf Hg.
  apply inPlay_set_fleets; [done|..].
  - by apply Forall2_samePlace_kept, fmap_samePlace.
  - by apply Forall2_samePlace_kept, fmap_samePlace.
  - eapply validPlacement_samePlace; [|by apply inPlay_validPlacement].
    by apply Forall2_app; apply fmap_samePlace.
Qed.

Lemma startPlayerTurn_inPlay this :
  inPlay this →
  inPlay (Play.startPlayerTurn this) ∧
  Play.gameMode (Play.startPlayerTurn this) = Play.gameMode this.
Proof.
  intros Hin. split; [|done]. unfold Play.startPlayerTurn. cbv zeta.
  set (this1 := Play.set_selectedShip (Play.set_state this PLAYER_SELECT) None).
  assert (inPlay this1) as Hin1.
  { apply inPlay_set_selectedShip; [by apply inPlay_set_state|done|done]. }
  rewrite <- (list_fmap_id (Game.enemyShips (Play.game this1))).
  apply inPlay_flags; [done|apply resetFlags_samePlace|apply samePlace_refl].
Qed.

Lemma startPlayer2Turn_inPlay this :
  inPlay this →
  inPlay (Play.startPlayer2Turn this) ∧
  Play.gameMode (Play.startPlayer2Turn this) = Play.gameMode this.
Proof.
  intros Hin. split; [|done]. unfold Play.startPlayer2Turn. cbv zeta.
  set (this1 := Play.set_selectedShip (Play.set_state this PLAYER2_SELECT) None).
  assert (inPlay this1) as Hin1.
  { apply inPlay_set_selectedShip; [by apply inPlay_set_state|done|done]. }
  eapply inPlay_same; [| |
    exact (inPlay_flags this1 id _ Hin1 samePlace_refl resetFlags_samePlace)].
  - simpl. by rewrite list_fmap_id.
  - done.
Qed.

(** The two fleets as positions of the roster. *)
Lemma inPlay_positions this :
  inPlay this →
  (∀ e, e ∈ Play.enemyShips this →
        ∃ s, Play.allShips this !! e = Some s ∧ Ship.team s = enemy) ∧
  (∀ p, p ∈ Play.playerShips this → (p < 14)%nat) ∧
  (∀ e, e ∈ Play.enemyShips this → (e < 14)%nat).
Proof.
  intros ((Hp & He & _ & _ & Hte & _) & _).
  unfold Play.enemyShips, Play.playerShips, Play.allShips, Game.allShips.
  rewrite Hp, He. split; [|split].
  - intros e [Hge Hlt]%elem_of_seq.
    destruct (lookup_lt_is_Some_2 (Game.enemyShips (Play.game this)) (e - 7))
      as [s Hs]; [lia|].
    exists s. split.
    + rewrite lookup_app_r by lia. by rewrite Hp.
    + rewrite Forall_lookup in Hte. by eapply Hte.
  - intros p [_ Hlt]%elem_of_seq. lia.
  - intros e [_ Hlt]%elem_of_seq. lia.
Qed.

Lemma startEnemyTurn_inPlay this :
  inPlay this →
  ∃ this', Play.startEnemyTurn this = Some this' ∧ inPlay this' ∧
           Play.gameMode this' = Play.gameMode this.
Proof.
  intros Hin. unfold Play.startEnemyTurn.
  destruct (Play.gameMode this) eqn:Hmode;
    [|eexists; split; [done|]; rewrite <- Hmode; by apply startPlayer2Turn_inPlay].
  cbv zeta.
  set (this1 := Play.set_selectedShip (Play.set_state this ENEMY_TURN) None).
  assert (inPlay this1) as Hin1.
  { apply inPlay_set_selectedShip; [by apply inPlay_set_state|done|].
    by intros [?|?]. }
  set (this2 := Play.set_fleets this1 _ _).
  assert (inPlay this2) as Hin2.
  { eapply inPlay_same; [| |
      exact (inPlay_flags this1 id _ Hin1 samePlace_refl turnFlags_samePlace)].
    - simpl. by rewrite list_fmap_id.
    - done. }
  destruct (inPlay_positions this2 Hin2) as (Henemies & Hplayers & _).
  destruct (takeTurn_kept Play.board (Play.enemyShips this2) (Play.playerShips this2)
              (Play.allShips this2) (Play.random this2))
    as (actions & roster & rng' & Hrun & Hvp & Hkept).
  { by apply inPlay_validPlacement. }
  { done. }
  { intros p Hp%Hplayers. apply lookup_lt_is_Some. by rewrite inPlay_length. }
  rewrite Hrun. simpl. eexists. split; [done|]. split; [|done].
  assert (Play.gameMode this2 = SINGLE_PLAYER) as Hmode2 by done.
  destruct (inPlay_set_allShips this2 roster Hin2) as [Hin3 _];
    [by rewrite Hmode2|done|].
  eapply inPlay_same; [| |exact Hin3]; done.
Qed.

Lemma selectShip_inPlay this (ship : nat) (player : Z) :
  inPlay this →
  (ship < 14)%nat →
  ¬ (Play.state this = PLAYER_FIRE ∨ Play.state this = PLAYER2_FIRE) →
  ∃ this', Play.selectShip this ship player = Some this' ∧ inPlay this'.
Proof.
  intros Hin Hship Hstate. unfold Play.selectShip.
  assert (∃ roster,
            match Play.selectedShip this with
            | Some old =>
                Play.update_ship old (λ s, Ship.set_selected s false)
                                 (Play.allShips this)
            | None => Some (Play.allShips this)
            end = Some roster ∧
            inPlay (Play.set_allShips this roster) ∧
            Play.allShips (Play.set_allShips this roster) = roster)
    as (roster & -> & Hin1 & Hroster).
  { destruct (Play.selectedShip this) as [old|] eqn:Hsel.
    - apply inPlay_flag; [done|apply set_selected_samePlace|by apply Hin].
    - exists (Play.allShips this). split; [done|].
      apply inPlay_set_allShips; [done| |by apply inPlay_validPlacement].
      apply Forall2_diag, kept_refl. }
  simpl.
  set (this1 := Play.set_selectedShip (Play.set_allShips this roster) (Some ship)).
  assert (inPlay this1) as Hin2.
  { apply inPlay_set_selectedShip; [done|by intros i [= <-]|].
    intros Hfire. by destruct Hstate. }
  destruct (inPlay_flag this1 ship (λ s, Ship.set_selected s true) Hin2)
    as (roster2 & -> & Hin3 & _); [apply set_selected_samePlace|done|].
  simpl. eexists. split; [done|].
  by apply inPlay_set_state; destruct (player =? 1).
Qed.

Lemma clickLoop_inPlay (ships : list nat) (grid : Cell) (player : Z) this :
  inPlay this →
  (∀ i, i ∈ ships → (i < 14)%nat) →
  ¬ (Play.state this = PLAYER_FIRE ∨ Play.state this = PLAYER2_FIRE) →
  ∃ this', Play.clickLoop ships grid player this = Some this' ∧ inPlay this'.
Proof.
  intros Hin Hships Hstate.
  induction ships as [|ship rest IH]; simpl; [by exists this|].
  assert (∀ i, i ∈ rest → (i < 14)%nat) as Hrest
    by (intros i Hi; apply Hships; by right).
  destruct (lookup_lt_is_Some_2 (Play.allShips this) ship) as [s Hs].
  { rewrite inPlay_length by done. apply Hships. by left. }
  rewrite Hs. simpl. destruct (Ship.isAlive s); simpl; [|by apply IH].
  destruct (getCells_valid s) as [cells ->].
  { apply (inPlay_validPlacement this Hin). by eapply list_elem_of_lookup_2. }
  simpl. destruct (existsb _ cells); [|by apply IH].
  apply selectShip_inPlay; [done| |done]. apply Hships. by left.
Qed.

Lemma handleClick_inPlay this (grid : Cell) :
  inPlay this →
  ∃ this', Play.handleClick this grid = Some this' ∧ inPlay this'.
Proof.
  intros Hin. unfold Play.handleClick.
  destruct (inPlay_positions this Hin) as (_ & Hplayers & Henemies).
  case_bool_decide as Hover; [by exists this|].
  case_bool_decide as Hs1.
  { apply clickLoop_inPlay; [done|done|]. rewrite Hs1. by intros [?|?]. }
  case_bool_decide as Hs2.
  { apply clickLoop_inPlay; [done|done|]. rewrite Hs2. by intros [?|?]. }
  destruct (bool_decide (Play.state this = PLAYER_FIRE)
            || bool_decide (Play.state this = PLAYER2_FIRE)) eqn:Hfire;
    [|by exists this].
  destruct Hin as (Hfleets & Hsel & Hnone & Hrest).
  rewrite Hnone; [by exists this|].
  apply orb_true_iff in Hfire as [?%bool_decide_eq_true | ?%bool_decide_eq_true];
    [by left | by right].
Qed.
Lemma freshFleet_ships (build : Z → Z → Ship.t) (ships : list Ship.t) :
  freshFleet build ships →
  Forall (λ s, ∃ l y, s = build l y ∧ 2 ≤ l ≤ 4) ships.
Proof.
  intros (lengths & rows & Hl & Hr & ->). apply Forall_lookup.
  intros i s (l & y & Hli & Hy & ->)%freshFleet_lookup. exists l, y.
  split; [done|]. apply (fleetLengths_bound lengths); [done|].
  by eapply list_elem_of_lookup_2.
Qed.

Lemma freshFleets_inOrder (mode : GameMode) (players enemies : list Ship.t) :
  freshFleet playerShipOf players →
  freshFleet enemyShipOf enemies →
  fleetsInOrder mode players enemies.
Proof.
  intros Hp He.
  split; [by eapply freshFleet_length|]. split; [by eapply freshFleet_length|].
  split; [by apply freshFleets_validPlacement|].
  apply freshFleet_ships in Hp, He.
  split; [|split; [|apply Forall_app; split]].
  - eapply Forall_impl; [exact Hp|]. by intros s (l & y & -> & _).
  - eapply Forall_impl; [exact He|]. by intros s (l & y & -> & _).
  - eapply Forall_impl; [exact Hp|]. intros s (l & y & -> & Hl) _.
    split; [done|]. simpl. lia.
  - eapply Forall_impl; [exact He|]. intros s (l & y & -> & Hl) _.
    split; [done|]. simpl. lia.
Qed.

Lemma startGame_inPlay this (mode : GameMode) :
  ∃ this', Play.startGame this mode = Some this' ∧ inPlay this' ∧
           Play.state this' = PLAYER_SELECT ∧ Play.gameMode this' = mode.
Proof.
  unfold Play.startGame, Play.resetGame. cbv zeta.
  match goal with |- context [Play.initShips ?start] =>
    destruct (initShips_fresh start) as (players & enemies & -> & Hp & He)
  end.
  simpl.
  assert (∀ text : string,
            inPlay (Play.showMessage
                      (Play.set_random
                         (Play.set_fleets
                            (Play.set_messageTimer
                               (Play.set_message
                                  (Play.set_playerWon
                                     (Play.set_selectedShip
                                        (Play.set_state (Play.set_gameMode this mode)
                                                        PLAYER_SELECT) None) false)
                                  "") (millis 0)) players enemies)
                         (drop 24 (Play.random this))) text 3000)) as Hin.
  { intros text. split; [by apply freshFleets_inOrder|].
    split; [done|]. split; [done|]. split; [done|]. by intros ?. }
  destruct mode; eexists; (split; [done|]); split; [apply Hin|done|apply Hin|done].
Qed.

Lemma new_inPlay (rng : AI.Rng) :
  ∃ start : Play.t T, Play.new rng = Some start ∧ inPlay start.
Proof.
  unfold Play.new.
  destruct (initShips_fresh (Play.fresh (T:=T) rng))
    as (players & enemies & -> & Hp & He).
  eexists. split; [done|]. split; [by apply freshFleets_inOrder|].
  split; [done|]. split; [by intros [?|?]|]. split; [done|]. by intros ?.
Qed.

Lemma player1Select_inPlay this (key : string) :
  inPlay this →
  ∃ this', Play.player1Select this key = Some this' ∧ inPlay this'.
Proof.
  intros Hin. unfold Play.player1Select.
  case_bool_decide; [|by exists this].
  destruct (String.eqb key "Enter"); [|by exists this].
  destruct (startEnemyTurn_inPlay this Hin) as (this' & -> & Hin' & _).
  by exists this'.
Qed.

Lemma movePhase_inPlay this (key : string) (next : GameState)
    (text : string) (duration : Z) :
  inPlay this →
  next ≠ GAME_OVER →
  ∃ r,
    (this ← Play.steer this key;
     if String.eqb key "Enter" then
       this ← Play.deselect this;
       let this := Play.set_state this next in
       Some (true, Play.showMessage this text duration)
     else Some (false, this)) = Some r ∧
    inPlay r.2.
Proof.
  intros Hin Hnext.
  destruct (steer_inPlay this key Hin) as (this1 & -> & Hin1 & _).
  simpl. destruct (String.eqb key "Enter"); [|by eexists].
  destruct (deselect_inPlay this1 Hin1) as (this2 & -> & Hin2 & Hsel & _).
  simpl. eexists. split; [done|]. simpl.
  eapply inPlay_same; [| |exact (inPlay_set_state this2 next Hin2 Hnext
                                   (λ _, Hsel) (λ _, Hsel))]; done.
Qed.

Lemma player1Move_inPlay this (key : string) :
  inPlay this →
  ∃ r, Play.player1Move this key = Some r ∧ inPlay r.2.
Proof.
  intros Hin. unfold Play.player1Move.
  case_bool_decide; [|by eexists].
  by apply movePhase_inPlay.
Qed.

Lemma player2Move_inPlay this (key : string) :
  inPlay this →
  ∃ r, Play.player2Move this key = Some r ∧ inPlay r.2.
Proof.
  intros Hin. unfold Play.player2Move.
  case_bool_decide; [|by eexists].
  by apply movePhase_inPlay.
Qed.

(** In a fire phase nothing is selected, so nothing can fire. *)
Lemma canFire_inPlay this :
  inPlay this →
  Play.state this = PLAYER_FIRE ∨ Play.state this = PLAYER2_FIRE →
  Play.canFire this = Some None.
Proof.
  intros (_ & _ & Hfire & _) Hstate. unfold Play.canFire. by rewrite Hfire.
Qed.

Lemma player1Fire_inPlay this (key : string) :
  inPlay this →
  ∃ this', Play.player1Fire this key = Some this' ∧ inPlay this'.
Proof.
  intros Hin. unfold Play.player1Fire.
  case_bool_decide as Hstate; [|by exists this].
  rewrite (canFire_inPlay this Hin (or_introl Hstate)). simpl.
  match goal with |- context [if ?b then Some this else Some this] =>
    replace (if b then Some this else Some this) with (Some this)
      by by destruct b
  end.
  simpl. destruct (String.eqb key "Enter"); [|by exists this].
  destruct (startEnemyTurn_inPlay this Hin) as (this' & -> & Hin' & _).
  by exists this'.
Qed.

Lemma player2Fire_inPlay this (key : string) :
  inPlay this →
  ∃ this', Play.player2Fire this key = Some this' ∧ inPlay this'.
Proof.
  intros Hin. unfold Play.player2Fire.
  case_bool_decide as Hstate; [|by exists this].
  rewrite (canFire_inPlay this Hin (or_intror Hstate)). simpl.
  match goal with |- context [if ?b then Some this else Some this] =>
    replace (if b then Some this else Some this) with (Some this)
      by by destruct b
  end.
  simpl. destruct (String.eqb key "Enter"); [|by exists this].
  eexists. split; [done|].
  eapply inPlay_same; [| |exact (proj1 (startPlayerTurn_inPlay this Hin))]; done.
Qed.

Lemma tabKey_inPlay this (key : string) :
  inPlay this →
  ∃ this', Play.tabKey this key = Some this' ∧ inPlay this'.
Proof.
  intros Hin. unfold Play.tabKey.
  destruct (String.eqb key "Tab"); [|by exists this].
  destruct (Play.selectedShip this) eqn:Hsel; [|by exists this].
  destruct (deselect_inPlay this Hin) as (this1 & -> & Hin1 & Hnone & _).
  simpl. repeat case_match; eexists; (split; [done|]);
    try done; by apply inPlay_set_state.
Qed.

Lemma handleKeyDown_inPlay this (key : string) :
  inPlay this →
  ∃ this', Play.handleKeyDown this key = Some this' ∧ inPlay this'.
Proof.
  intros Hin. unfold Play.handleKeyDown.
  case_bool_decide as Htitle.
  { destruct (TitleScreen.handleKey (Play.titleScreen this) key) as [result ts].
    cbv zeta.
    repeat case_bool_decide;
      try (destruct (startGame_inPlay (Play.set_titleScreen this ts) SINGLE_PLAYER)
             as (this' & -> & Hin' & _); by exists this');
      try (destruct (startGame_inPlay (Play.set_titleScreen this ts) TWO_PLAYER)
             as (this' & -> & Hin' & _); by exists this').
    eexists. split; [done|]. eapply inPlay_same; [| |exact Hin]; done. }
  case_bool_decide as Hover.
  { destruct (isKey key ["r"; "R"]); [|by exists this].
    destruct (startGame_inPlay this (Play.gameMode this)) as (this' & -> & Hin' & _).
    by exists this'. }
  destruct (String.eqb key "Escape").
  { eexists. split; [done|]. cbv zeta.
    eapply inPlay_same;
      [| |exact (inPlay_set_state this TITLE Hin ltac:(done) ltac:(done) ltac:(done))];
      done. }
  destruct (player1Select_inPlay this key Hin) as (this1 & -> & Hin1). simpl.
  destruct (player1Move_inPlay this1 key Hin1) as ([returned this2] & -> & Hin2).
  simpl in *. destruct returned; [by exists this2|].
  destruct (player1Fire_inPlay this2 key Hin2) as (this3 & -> & Hin3). simpl.
  destruct (player2Move_inPlay this3 key Hin3) as ([returned this4] & -> & Hin4).
  simpl in *. destruct returned; [by exists this4|].
  destruct (player2Fire_inPlay this4 key Hin4) as (this5 & -> & Hin5). simpl.
  by apply tabKey_inPlay.
Qed.

Lemma update_inPlay this (elapsed : T) :
  inPlay this → inPlay (Play.update this elapsed).
Proof.
  intros Hin. unfold Play.update.
  case_bool_decide as Htitle; [done|]. cbv zeta.
  match goal with |- context [bool_decide (Play.state ?x = ENEMY_TURN)] =>
    set (this1 := x) end.
  assert (inPlay this1) as Hin1.
  { subst this1. repeat case_match; (eapply inPlay_same; [| |exact Hin]); done. }
  clearbody this1.
  case_bool_decide as Henemy; [|done].
  destruct (isNonPositive _);
    [|eapply inPlay_same; [| |exact Hin1]; done].
  destruct (_ !! _) as [action|].
  { eapply inPlay_same; [| |exact Hin1]; done. }
  match goal with |- context [Play.checkGameOver ?x] => set (this2 := x) end.
  assert (inPlay this2) as Hin2 by (eapply inPlay_same; [| |exact Hin1]; done).
  clearbody this2.
  pose proof (checkGameOver_inPlay this2 Hin2) as (Hin3 & _).
  destruct (Play.checkGameOver this2) as [over this3]. simpl in Hin3.
  destruct over; [done|].
  eapply inPlay_same; [| |exact (proj1 (startPlayerTurn_inPlay this3 Hin3))]; done.
Qed.

Lemma handle_inPlay this (event : Event T) :
  inPlay this →
  ∃ this', handle this event = Some this' ∧ inPlay this'.
Proof.
  intros Hin. destruct event as [key|grid|elapsed]; simpl.
  - by apply handleKeyDown_inPlay.
  - by apply handleClick_inPlay.
  - eexists. split; [done|]. by apply update_inPlay.
Qed.

Lemma play_inPlay (events : list (Event T)) this :
  inPlay this →
  ∃ final, play events this = Some final ∧ inPlay final.
Proof.
  revert this. induction events as [|event rest IH]; intros this Hin; simpl.
  { by exists this. }
  destruct (handle_inPlay this event Hin) as (this' & -> & Hin'). simpl.
  by apply IH.
Qed.
End InPlay.

(** X14.  The turn controller never throws, whatever the players do.  From
    the state the constructor builds, for every oracle and every sequence
    of keys, clicks and frames, every handler returns, and in the state
    reached the two fleets have seven ships each, the placement is valid
    (every living ship on the board, no two living ships on a common
    cell), and a selected ship is one of the fourteen. *)
Theorem play_never_throws {T} `{!Millis T} (rng : AI.Rng) (events : list (Event T)) :
  ∃ start final,
    Play.new rng = Some start ∧
    play events start = Some final ∧
    length (Game.playerShips (Play.game final)) = 7%nat ∧
    length (Game.enemyShips (Play.game final)) = 7%nat ∧
    validPlacement (Play.allShips final) ∧
    (∀ i, Play.selectedShip final = Some i → is_Some (Play.allShips final !! i)).
Proof.
  destruct (new_inPlay (T:=T) rng) as (start & Hstart & Hin).
  destruct (play_inPlay events start Hin) as (final & Hfinal & Hin').
  exists start, final. split; [done|]. split; [done|].
  pose proof (inPlay_length final Hin') as Hlen.
  destruct Hin' as ((Hp & He & Hvp & _) & Hsel & _).
  split; [done|]. split; [done|]. split; [done|].
  intros i Hi%Hsel. apply lookup_lt_is_Some. by rewrite Hlen.
Qed.

(** X15.  A human player never fires.  In every state reached from the
    constructor's, a fire phase has no ship selected, so the fire keys
    (space, f, F) and a click change nothing there.  Hence cannons are
    lost only to the opponent's broadsides: the enemy fleet always has all
    its cannons, [playerWon] is never set, a game that is over was lost by
    the player in single-player mode, and in a two-player game no ship is
    ever damaged and the game is never over. *)
Theorem human_players_never_fire {T} `{!Millis T}
    (rng : AI.Rng) (events : list (Event T)) (start final : Play.t T) :
  Play.new rng = Some start →
  play events start = Some final →
  (Play.state final = PLAYER_FIRE ∨ Play.state final = PLAYER2_FIRE →
   Play.selectedShip final = None ∧
   (∀ grid, Play.handleClick final grid = Some final) ∧
   (∀ key, isKey key [" "; "f"; "F"] = true →
           Play.handleKeyDown final key = Some final)) ∧
  Forall fullyArmed (Game.enemyShips (Play.game final)) ∧
  Play.playerWon final = false ∧
  (Play.state final = GAME_OVER →
   Play.gameMode final = SINGLE_PLAYER ∧
   noneLiving (Game.playerShips (Play.game final))) ∧
  (Play.gameMode final = TWO_PLAYER →
   Forall fullyArmed (Play.allShips final) ∧ Play.state final ≠ GAME_OVER).
Proof.
  intros Hstart Hfinal.
  destruct (new_inPlay (T:=T) rng) as (start' & Hstart' & Hin).
  rewrite Hstart in Hstart'. injection Hstart' as <-.
  destruct (play_inPlay events start Hin) as (final' & Hfinal' & Hin').
  rewrite Hfinal in Hfinal'. injection Hfinal' as <-.
  pose proof Hin' as ((Hp & He & Hvp & Htp & Hte & Harmed) & Hsel & Hfire & Hwon & Hover).
  assert (Play.gameMode final = TWO_PLAYER → Forall fullyArmed (Play.allShips final))
    as Htwo.
  { intros Hmode. eapply Forall_impl; [exact Harmed|].
    intros s Hs. apply Hs. by right. }
  assert (Play.state final = GAME_OVER → Play.gameMode final = SINGLE_PLAYER)
    as Hsingle.
  { intros Hstate. destruct (Play.gameMode final) eqn:Hmode; [done|]. exfalso.
    specialize (Htwo eq_refl). apply Forall_app in Htwo as [Hplayers _].
    destruct (Game.playerShips (Play.game final)) as [|s rest] eqn:Hships;
      [done|].
    apply Forall_cons in Hplayers as [[_ Hs] _].
    apply (Hover Hstate s); [left|done]. }
  split; [|split; [|split; [done|split]]].
  - intros Hstate. pose proof (Hfire Hstate) as Hnone. split; [done|]. split.
    + intros grid. unfold Play.handleClick. rewrite Hnone.
      by destruct Hstate as [-> | ->].
    + intros key Hkey.
      assert (key = " " ∨ key = "f" ∨ key = "F") as Hcases.
      { unfold isKey in Hkey. simpl in Hkey.
        repeat (apply orb_true_iff in Hkey as [?%String.eqb_eq | Hkey]; [by auto|]).
        done. }
      clear -Hstate Hnone Hcases.
      destruct final as [[st won mode P E] ts sel msg mt at' acts idx rng'].
      unfold Play.state in Hstate. simpl in Hstate, Hnone. subst sel.
      destruct Hstate as [-> | ->];
        destruct Hcases as [-> | [-> | ->]]; reflexivity.
  - apply Forall_app in Harmed as [_ Harmed].
    apply Forall_forall. intros s Hs.
    rewrite Forall_forall in Harmed, Hte. apply Harmed; [done|]. left. by apply Hte.
  - intros Hstate. split; [by apply Hsingle|by apply Hover].
  - intros Hmode. split; [by apply Htwo|].
    intros Hstate. specialize (Hsingle Hstate). congruence.
Qed.

Lemma human_players_never_fire_witness :
  Play.new [] = Some openingStart ∧
  play openingMatch openingStart = Some openingEnd ∧
  Play.state openingEnd = PLAYER_SELECT ∧
  Play.aiActions openingEnd = ["Enemy ship advanced"] ∧
  Forall fullyArmed (Game.enemyShips (Play.game openingEnd)) ∧
  Play.playerWon openingEnd = false.
Proof.
  assert (Play.new [] = Some openingStart) as Hstart by (vm_compute; reflexivity).
  assert (play openingMatch openingStart = Some openingEnd) as Hend
    by (vm_compute; reflexivity).
  split; [exact Hstart|]. split; [exact Hend|].
  split; [reflexivity|]. split; [reflexivity|].
  destruct (human_players_never_fire [] openingMatch openingStart openingEnd
              Hstart Hend) as (_ & Harmed & Hwon & _).
  split; [exact Harmed|exact Hwon].
Defined.

(** ** Who holds the helm *)

Section Helm.
Context {T : Type} `{!Millis T}.
Implicit Types this : Play.t T.

Lemma sameCannons_refl (l : list Ship.t) : Forall2 sameCannons l l.
Proof. by apply Forall2_diag. Qed.

Lemma sameHands_refl this : sameHands this this.
Proof. split; [done|]. split; [done|]. apply sameCannons_refl. Qed.

Lemma sameHands_same this this' :
  Play.game this' = Play.game this →
  Play.selectedShip this' = Play.selectedShip this →
  sameHands this this'.
Proof.
  intros Hgame Hsel. unfold sameHands, Play.state, Play.allShips.
  rewrite Hgame, Hsel. split; [done|]. split; [done|]. apply sameCannons_refl.
Qed.

Lemma ownShipSelected_sameHands this this' :
  ownShipSelected this → sameHands this this' → ownShipSelected this'.
Proof.
  intros (H1 & H2 & H3) (Hs & Hsel & Hc). rewrite <- Hs, <- Hsel in *.
  split; [done|]. split; intros Hstate.
  - destruct (H2 Hstate) as (i & s & Hi & Hlt & Hship & Hliving).
    destruct (Forall2_lookup_l _ _ _ _ _ Hc Hship) as (s' & Hs' & Hsame).
    exists i, s'. split; [done|]. split; [done|]. split; [done|].
    unfold living. by rewrite Hsame.
  - destruct (H3 Hstate) as (i & s & Hi & Hlt & Hship & Hliving).
    destruct (Forall2_lookup_l _ _ _ _ _ Hc Hship) as (s' & Hs' & Hsame).
    exists i, s'. split; [done|]. split; [done|]. split; [done|].
    unfold living. by rewrite Hsame.
Qed.

(** Nothing selected, and not a move phase. *)
Lemma ownShipSelected_idle this :
  Play.selectedShip this = None →
  Play.state this ≠ PLAYER_MOVE → Play.state this ≠ PLAYER2_MOVE →
  ownShipSelected this.
Proof. intros Hsel H1 H2. split; [by rewrite Hsel|]. by split. Qed.

Lemma allShips_set_allShips this (roster : list Ship.t) :
  Play.allShips (Play.set_allShips this roster) = roster.
Proof. unfold Play.allShips, Game.allShips. simpl. apply take_drop. Qed.

Lemma update_ship_sameCannons (ship : nat) (f : Ship.t → Ship.t)
    (roster roster' : list Ship.t) :
  (∀ s, sameCannons s (f s)) →
  Play.update_ship ship f roster = Some roster' →
  Forall2 sameCannons roster roster'.
Proof.
  intros Hf Hrun. unfold Play.update_ship in Hrun.
  destruct (roster !! ship) as [s|] eqn:Hs; [|done]. simpl in Hrun.
  injection Hrun as <-. by apply (Forall2_insert_diag _ roster ship s).
Qed.

Lemma move_sameCannons (this : nat) (direction : string)
    (allShips allShips' : list Ship.t) (ok : bool) :
  Ship.move this direction allShips = Some (ok, allShips') →
  Forall2 sameCannons allShips allShips'.
Proof.
  intros Hrun.
  apply move_inv in Hrun
    as (self & Hself & [[_ ->] | (newX & newY & ? & _ & -> & _)]).
  - apply sameCannons_refl.
  - by apply (Forall2_insert_diag _ allShips this self).
Qed.

Lemma rotate_sameCannons (this : nat) (direction : string)
    (allShips allShips' : list Ship.t) (ok : bool) :
  Ship.rotate this direction allShips = Some (ok, allShips') →
  Forall2 sameCannons allShips allShips'.
Proof.
  intros Hrun.
  apply rotate_inv in Hrun
    as (self & Hself & [[_ ->] | (newO & ? & _ & _ & -> & _)]).
  - apply sameCannons_refl.
  - by apply (Forall2_insert_diag _ allShips this self).
Qed.

Lemma steer_sameHands this this' (key : string) :
  Play.steer this key = Some this' → sameHands this this'.
Proof.
  unfold Play.steer. intros Hrun.
  destruct (Play.selectedShip this) as [selected|] eqn:Hsel;
    [|injection Hrun as <-; apply sameHands_refl].
  match type of Hrun with (?r ≫= _) = _ =>
    destruct r as [[moved roster]|] eqn:Hmove; [|done]
  end.
  simpl in Hrun. injection Hrun as <-.
  split; [done|]. split; [done|]. rewrite allShips_set_allShips.
  repeat case_match;
    try (by eapply move_sameCannons); try (by eapply rotate_sameCannons).
  injection Hmove as _ <-. apply sameCannons_refl.
Qed.

Lemma deselect_hands this this' :
  Play.deselect this = Some this' →
  Play.selectedShip this' = None ∧
  Play.state this' = Play.state this ∧
  Forall2 sameCannons (Play.allShips this) (Play.allShips this').
Proof.
  unfold Play.deselect. intros Hrun.
  destruct (Play.selectedShip this) as [selected|] eqn:Hsel.
  - destruct (Play.update_ship _ _ _) as [roster|] eqn:Hroster; [|done].
    simpl in Hrun. injection Hrun as <-. split; [done|]. split; [done|].
    change (Play.allShips (Play.set_selectedShip (Play.set_allShips this roster) None))
      with (Play.allShips (Play.set_allShips this roster)).
    rewrite allShips_set_allShips.
    eapply update_ship_sameCannons; [|exact Hroster]. by intros s.
  - injection Hrun as <-. split; [done|]. split; [done|]. apply sameCannons_refl.
Qed.
Lemma sameCannons_trans (l1 l2 l3 : list Ship.t) :
  Forall2 sameCannons l1 l2 → Forall2 sameCannons l2 l3 → Forall2 sameCannons l1 l3.
Proof.
  intros H12. revert l3.
  induction H12 as [|s1 s2 l1 l2 Hs _ IH]; intros l3 H23; inversion H23; subst;
    constructor; [unfold sameCannons in *; congruence | by apply IH].
Qed.

Lemma selectShip_hands this this' (ship : nat) (player : Z) :
  Play.selectShip this ship player = Some this' →
  Play.selectedShip this' = Some ship ∧
  Play.state this' = (if player =? 1 then PLAYER_MOVE else PLAYER2_MOVE) ∧
  Forall2 sameCannons (Play.allShips this) (Play.allShips this').
Proof.
  unfold Play.selectShip. intros Hrun.
  match type of Hrun with (?r ≫= _) = _ =>
    destruct r as [roster|] eqn:Hfirst; [|done]
  end.
  assert (Forall2 sameCannons (Play.allShips this) roster) as Hsame1.
  { destruct (Play.selectedShip this).
    - eapply update_ship_sameCannons; [|exact Hfirst]. by intros s.
    - injection Hfirst as <-. apply sameCannons_refl. }
  cbn [mbind option_bind] in Hrun. cbv zeta in Hrun.
  change (Play.allShips (Play.set_selectedShip (Play.set_allShips this roster)
                                               (Some ship)))
    with (Play.allShips (Play.set_allShips this roster)) in Hrun.
  rewrite allShips_set_allShips in Hrun.
  destruct (Play.update_ship ship _ roster) as [roster2|] eqn:Hsecond; [|done].
  cbn [mbind option_bind] in Hrun. injection Hrun as <-.
  split; [done|]. split; [done|].
  match goal with |- Forall2 _ _ (Play.allShips (Play.set_state (Play.set_allShips ?x ?r) _)) =>
    change (Play.allShips (Play.set_state (Play.set_allShips x r) _))
      with (Play.allShips (Play.set_allShips x r))
  end.
  rewrite allShips_set_allShips.
  eapply sameCannons_trans; [done|].
  eapply update_ship_sameCannons; [|exact Hsecond]. by intros s.
Qed.

Lemma clickLoop_hands (ships : list nat) (grid : Cell) (player : Z) this this' :
  Play.clickLoop ships grid player this = Some this' →
  this' = this ∨
  ∃ i s, i ∈ ships ∧ Play.allShips this !! i = Some s ∧ living s ∧
         Play.selectedShip this' = Some i ∧
         Play.state this' = (if player =? 1 then PLAYER_MOVE else PLAYER2_MOVE) ∧
         Forall2 sameCannons (Play.allShips this) (Play.allShips this').
Proof.
  induction ships as [|ship rest IH]; simpl; intros Hrun.
  { injection Hrun as <-. by left. }
  assert (Play.clickLoop rest grid player this = Some this' →
          this' = this ∨
          ∃ i s, i ∈ ship :: rest ∧ Play.allShips this !! i = Some s ∧ living s ∧
                 Play.selectedShip this' = Some i ∧
                 Play.state this' = (if player =? 1 then PLAYER_MOVE else PLAYER2_MOVE) ∧
                 Forall2 sameCannons (Play.allShips this) (Play.allShips this'))
    as IH'.
  { intros [-> | (i & s & Hi & Hrest)]%IH; [by left|].
    right. exists i, s. split; [by right|done]. }
  destruct (Play.allShips this !! ship) as [s|] eqn:Hs; [|done].
  simpl in Hrun. destruct (Ship.isAlive s) eqn:Hlive; simpl in Hrun; [|by apply IH'].
  destruct (Ship.getCells s) as [cells|]; [|done]. simpl in Hrun.
  destruct (existsb _ cells); [|by apply IH'].
  apply selectShip_hands in Hrun as (Hsel & Hstate & Hsame).
  right. exists ship, s. split; [left|]. split; [done|].
  split; [by apply isAlive_living|done].
Qed.

Lemma startEnemyTurn_hands this this' :
  Play.startEnemyTurn this = Some this' →
  Play.selectedShip this' = None ∧
  (Play.state this' = ENEMY_TURN ∨ Play.state this' = PLAYER2_SELECT).
Proof.
  unfold Play.startEnemyTurn. intros Hrun.
  destruct (Play.gameMode this).
  - cbv zeta in Hrun.
    destruct (AI.takeTurn _ _ _ _ _) as [[[actions roster] rng]|]; [|done].
    simpl in Hrun. injection Hrun as <-. split; [done|by left].
  - injection Hrun as <-. split; [done|by right].
Qed.

Lemma startGame_hands this this' (mode : GameMode) :
  Play.startGame this mode = Some this' →
  Play.selectedShip this' = None ∧ Play.state this' = PLAYER_SELECT.
Proof.
  unfold Play.startGame, Play.resetGame. cbv zeta.
  match goal with |- context [Play.initShips ?start] =>
    destruct (initShips_fresh start) as (players & enemies & -> & _)
  end.
  simpl. by destruct mode; intros [= <-].
Qed.

Lemma handleClick_helm this this' (grid : Cell) :
  inPlay this → ownShipSelected this →
  Play.handleClick this grid = Some this' →
  ownShipSelected this'.
Proof.
  intros Hin Hown. pose proof Hin as ((Hp & He & _) & _ & Hfire & _).
  unfold Play.handleClick.
  case_bool_decide as Hover; [by intros [= <-]|].
  assert (∀ i s, Play.allShips this !! i = Some s → living s →
            Forall2 sameCannons (Play.allShips this) (Play.allShips this') →
            ∃ s', Play.allShips this' !! i = Some s' ∧ living s') as Hkeep.
  { intros i s Hs Hliving Hsame.
    destruct (Forall2_lookup_l _ _ _ _ _ Hsame Hs) as (s' & Hs' & Hc).
    exists s'. split; [done|]. unfold living. by rewrite Hc. }
  case_bool_decide as Hs1.
  { intros [-> | (i & s & Hi & Hs & Hliving & Hsel & Hstate & Hsame)]%clickLoop_hands;
      [done|].
    simpl in Hstate. destruct (Hkeep i s Hs Hliving Hsame) as (s' & Hs' & Hl').
    unfold Play.playerShips in Hi. rewrite Hp in Hi. apply elem_of_seq in Hi.
    split; [intros ? _; by left|]. split; [|by rewrite Hstate].
    intros _. exists i, s'. split; [done|]. split; [lia|done]. }
  case_bool_decide as Hs2.
  { intros [-> | (i & s & Hi & Hs & Hliving & Hsel & Hstate & Hsame)]%clickLoop_hands;
      [done|].
    simpl in Hstate. destruct (Hkeep i s Hs Hliving Hsame) as (s' & Hs' & Hl').
    unfold Play.enemyShips in Hi. rewrite Hp, He in Hi. apply elem_of_seq in Hi.
    split; [intros ? _; right; by left|]. split; [by rewrite Hstate|].
    intros _. exists i, s'. split; [done|]. split; [lia|done]. }
  destruct (bool_decide (Play.state this = PLAYER_FIRE)
            || bool_decide (Play.state this = PLAYER2_FIRE)) eqn:Hstate;
    [|by intros [= <-]].
  rewrite Hfire; [by intros [= <-]|].
  apply orb_true_iff in Hstate as [?%bool_decide_eq_true | ?%bool_decide_eq_true];
    [by left | by right].
Qed.

Lemma player1Select_helm this this' (key : string) :
  ownShipSelected this →
  Play.player1Select this key = Some this' →
  ownShipSelected this'.
Proof.
  intros Hown. unfold Play.player1Select.
  case_bool_decide; [|by intros [= <-]].
  destruct (String.eqb key "Enter"); [|by intros [= <-]].
  intros [Hsel [Hstate | Hstate]]%startEnemyTurn_hands;
    apply ownShipSelected_idle; by rewrite ?Hstate.
Qed.

Lemma movePhase_helm this (key : string) (next : GameState)
    (text : string) (duration : Z) (r : bool * Play.t T) :
  ownShipSelected this →
  next ≠ PLAYER_MOVE → next ≠ PLAYER2_MOVE →
  (this ← Play.steer this key;
   if String.eqb key "Enter" then
     this ← Play.deselect this;
     let this := Play.set_state this next in
     Some (true, Play.showMessage this text duration)
   else Some (false, this)) = Some r →
  ownShipSelected r.2.
Proof.
  intros Hown Hn1 Hn2 Hrun.
  destruct (Play.steer this key) as [this1|] eqn:Hsteer; [|done].
  apply steer_sameHands in Hsteer.
  pose proof (ownShipSelected_sameHands _ _ Hown Hsteer) as Hown1.
  simpl in Hrun. destruct (String.eqb key "Enter"); [|by injection Hrun as <-].
  destruct (Play.deselect this1) as [this2|] eqn:Hdeselect; [|done].
  apply deselect_hands in Hdeselect as (Hsel & _).
  simpl in Hrun. injection Hrun as <-. by apply ownShipSelected_idle.
Qed.

Lemma player1Move_helm this (key : string) (r : bool * Play.t T) :
  ownShipSelected this →
  Play.player1Move this key = Some r →
  ownShipSelected r.2.
Proof.
  intros Hown. unfold Play.player1Move.
  case_bool_decide; [|by intros [= <-]].
  by apply movePhase_helm.
Qed.

Lemma player2Move_helm this (key : string) (r : bool * Play.t T) :
  ownShipSelected this →
  Play.player2Move this key = Some r →
  ownShipSelected r.2.
Proof.
  intros Hown. unfold Play.player2Move.
  case_bool_decide; [|by intros [= <-]].
  by apply movePhase_helm.
Qed.

Lemma player1Fire_helm this this' (key : string) :
  inPlay this → ownShipSelected this →
  Play.player1Fire this key = Some this' →
  ownShipSelected this'.
Proof.
  intros Hin Hown. unfold Play.player1Fire.
  case_bool_decide as Hstate; [|by intros [= <-]].
  rewrite (canFire_inPlay this Hin (or_introl Hstate)). simpl.
  match goal with |- context [if ?b then Some this else Some this] =>
    replace (if b then Some this else Some this) with (Some this)
      by by destruct b
  end.
  simpl. destruct (String.eqb key "Enter"); [|by intros [= <-]].
  intros [Hsel [Hst | Hst]]%startEnemyTurn_hands;
    apply ownShipSelected_idle; by rewrite ?Hst.
Qed.

Lemma player2Fire_helm this this' (key : string) :
  inPlay this → ownShipSelected this →
  Play.player2Fire this key = Some this' →
  ownShipSelected this'.
Proof.
  intros Hin Hown. unfold Play.player2Fire.
  case_bool_decide as Hstate; [|by intros [= <-]].
  rewrite (canFire_inPlay this Hin (or_intror Hstate)). simpl.
  match goal with |- context [if ?b then Some this else Some this] =>
    replace (if b then Some this else Some this) with (Some this)
      by by destruct b
  end.
  simpl. destruct (String.eqb key "Enter"); [|by intros [= <-]].
  intros [= <-]. by apply ownShipSelected_idle.
Qed.

Lemma tabKey_helm this this' (key : string) :
  ownShipSelected this →
  Play.tabKey this key = Some this' →
  ownShipSelected this'.
Proof.
  intros Hown. unfold Play.tabKey.
  destruct (String.eqb key "Tab"); [|by intros [= <-]].
  destruct (Play.selectedShip this) eqn:Hsel; [|by intros [= <-]].
  destruct (Play.deselect this) as [this1|] eqn:Hdeselect; [|done].
  apply deselect_hands in Hdeselect as (Hnone & Hstate & _).
  simpl. rewrite Hstate. intros Hrun.
  destruct (bool_decide (Play.state this = PLAYER_MOVE)
            || bool_decide (Play.state this = PLAYER_FIRE)) eqn:H1.
  { injection Hrun as <-. by apply ownShipSelected_idle. }
  destruct (bool_decide (Play.state this = PLAYER2_MOVE)
            || bool_decide (Play.state this = PLAYER2_FIRE)) eqn:H2.
  { injection Hrun as <-. by apply ownShipSelected_idle. }
  injection Hrun as <-.
  apply orb_false_iff in H1 as [H1%bool_decide_eq_false _].
  apply orb_false_iff in H2 as [H2%bool_decide_eq_false _].
  apply ownShipSelected_idle; [done|by rewrite Hstate..].
Qed.

Lemma handleKeyDown_helm this this' (key : string) :
  inPlay this → ownShipSelected this →
  Play.handleKeyDown this key = Some this' →
  ownShipSelected this'.
Proof.
  intros Hin Hown. unfold Play.handleKeyDown.
  case_bool_decide as Htitle.
  { destruct (TitleScreen.handleKey (Play.titleScreen this) key) as [result ts].
    cbv zeta.
    repeat case_bool_decide;
      try (intros [Hsel Hstate]%startGame_hands;
           apply ownShipSelected_idle; by rewrite ?Hstate).
    intros [= <-]. eapply ownShipSelected_sameHands; [done|].
    by apply sameHands_same. }
  case_bool_decide as Hover.
  { destruct (isKey key ["r"; "R"]); [|by intros [= <-]].
    intros [Hsel Hstate]%startGame_hands.
    apply ownShipSelected_idle; by rewrite ?Hstate. }
  destruct (String.eqb key "Escape").
  { intros [= <-]. destruct Hown as (H1 & _).
    split; [by intros i _; right; right|]. by split. }
  destruct (player1Select_inPlay this key Hin) as (this1 & Heq1 & Hin1).
  pose proof (player1Select_helm this this1 key Hown Heq1) as Hown1.
  rewrite Heq1. simpl.
  destruct (player1Move_inPlay this1 key Hin1) as ([returned this2] & Heq2 & Hin2).
  pose proof (player1Move_helm this1 key _ Hown1 Heq2) as Hown2.
  rewrite Heq2. simpl in *. destruct returned; [by intros [= <-]|].
  destruct (player1Fire_inPlay this2 key Hin2) as (this3 & Heq3 & Hin3).
  pose proof (player1Fire_helm this2 this3 key Hin2 Hown2 Heq3) as Hown3.
  rewrite Heq3. simpl.
  destruct (player2Move_inPlay this3 key Hin3) as ([returned this4] & Heq4 & Hin4).
  pose proof (player2Move_helm this3 key _ Hown3 Heq4) as Hown4.
  rewrite Heq4. simpl in *. destruct returned; [by intros [= <-]|].
  destruct (player2Fire_inPlay this4 key Hin4) as (this5 & Heq5 & Hin5).
  pose proof (player2Fire_helm this4 this5 key Hin4 Hown4 Heq5) as Hown5.
  rewrite Heq5. simpl. by apply tabKey_helm.
Qed.

Lemma update_helm this (elapsed : T) :
  inPlay this → ownShipSelected this →
  ownShipSelected (Play.update this elapsed).
Proof.
  intros Hin Hown. unfold Play.update.
  case_bool_decide as Htitle; [done|]. cbv zeta.
  match goal with |- context [bool_decide (Play.state ?x = ENEMY_TURN)] =>
    set (this1 := x) end.
  assert (sameHands this this1) as Hsame.
  { subst this1. repeat case_match; by apply sameHands_same. }
  assert (inPlay this1) as Hin1.
  { subst this1. repeat case_match; (eapply inPlay_same; [| |exact Hin]); done. }
  pose proof (ownShipSelected_sameHands _ _ Hown Hsame) as Hown1.
  clearbody this1.
  case_bool_decide as Henemy; [|done].
  assert (Play.selectedShip this1 = None) as Hnone.
  { destruct Hown1 as (H1 & _).
    destruct (Play.selectedShip this1) as [i|]; [|done].
    destruct (H1 i eq_refl) as [? | [? | ?]]; congruence. }
  destruct (isNonPositive _);
    [|eapply ownShipSelected_sameHands; [exact Hown1|by apply sameHands_same]].
  destruct (_ !! _) as [action|].
  { eapply ownShipSelected_sameHands; [exact Hown1|by apply sameHands_same]. }
  match goal with |- context [Play.checkGameOver ?x] => set (this2 := x) end.
  assert (inPlay this2) as Hin2 by (eapply inPlay_same; [| |exact Hin1]; done).
  assert (Play.selectedShip this2 = None) as Hnone2 by done.
  clearbody this2.
  pose proof (checkGameOver_inPlay this2 Hin2) as (_ & Hsel3 & _ & _ & Hover).
  destruct (Play.checkGameOver this2) as [over this3]. simpl in *.
  destruct over.
  - apply ownShipSelected_idle; [congruence|by rewrite Hover..].
  - by apply ownShipSelected_idle.
Qed.

Lemma handle_helm this (event : Event T) :
  inPlay this → ownShipSelected this →
  ∃ this', handle this event = Some this' ∧ inPlay this' ∧ ownShipSelected this'.
Proof.
  intros Hin Hown. destruct (handle_inPlay this event Hin) as (this' & Hrun & Hin').
  exists this'. split; [done|]. split; [done|].
  destruct event as [key|grid|elapsed]; simpl in Hrun.
  - exact (handleKeyDown_helm this this' key Hin Hown Hrun).
  - exact (handleClick_helm this this' grid Hin Hown Hrun).
  - injection Hrun as <-. by apply update_helm.
Qed.

Lemma play_helm (events : list (Event T)) this :
  inPlay this → ownShipSelected this →
  ∃ final, play events this = Some final ∧ inPlay final ∧ ownShipSelected final.
Proof.
  revert this. induction events as [|event rest IH]; intros this Hin Hown; simpl.
  { by exists this. }
  destruct (handle_helm this event Hin Hown) as (this' & -> & Hin' & Hown'). simpl.
  by apply IH.
Qed.

Lemma new_helm (rng : AI.Rng) (start : Play.t T) :
  Play.new rng = Some start → ownShipSelected start.
Proof.
  unfold Play.new.
  destruct (initShips_fresh (Play.fresh (T:=T) rng))
    as (players & enemies & -> & _).
  intros [= <-]. by apply ownShipSelected_idle.
Qed.
End Helm.

(** X16.  A player steers only a living ship of their own fleet.  In every
    state reached from the constructor's by keys, clicks and frames, a ship
    is selected only during a move phase (or on the title screen, after a
    match was left with Escape); during the first player's move phase the
    selected ship is a living ship of [playerShips], and during the second
    player's it is a living ship of [enemyShips].  The steering keys act on
    the selected ship, so they never move an opponent's ship or a wreck. *)
Theorem players_steer_their_own_living_ships {T} `{!Millis T}
    (rng : AI.Rng) (events : list (Event T)) (start final : Play.t T) :
  Play.new rng = Some start →
  play events start = Some final →
  (∀ i, Play.selectedShip final = Some i →
        Play.state final = PLAYER_MOVE ∨ Play.state final = PLAYER2_MOVE ∨
        Play.state final = TITLE) ∧
  (Play.state final = PLAYER_MOVE →
   ∃ i s, Play.selectedShip final = Some i ∧
          Game.playerShips (Play.game final) !! i = Some s ∧
          Ship.team s = player ∧ living s) ∧
  (Play.state final = PLAYER2_MOVE →
   ∃ i s, Play.selectedShip final = Some (7 + i)%nat ∧
          Game.enemyShips (Play.game final) !! i = Some s ∧
          Ship.team s = enemy ∧ living s).
Proof.
  intros Hstart Hfinal.
  destruct (new_inPlay (T:=T) rng) as (start' & Hstart' & Hin).
  rewrite Hstart in Hstart'. injection Hstart' as <-.
  destruct (play_helm events start Hin (new_helm rng start Hstart))
    as (final' & Hfinal' & Hin' & Hown).
  rewrite Hfinal in Hfinal'. injection Hfinal' as <-.
  destruct Hown as (H1 & H2 & H3).
  destruct Hin' as ((Hp & He & _ & Htp & Hte & _) & _).
  split; [done|]. unfold Play.allShips, Game.allShips in *. split; intros Hstate.
  - destruct (H2 Hstate) as (i & s & Hsel & Hlt & Hs & Hliving).
    rewrite lookup_app_l in Hs by lia.
    exists i, s. split; [done|]. split; [done|]. split; [|done].
    rewrite Forall_lookup in Htp. by eapply Htp.
  - destruct (H3 Hstate) as (i & s & Hsel & Hge & Hs & Hliving).
    rewrite lookup_app_r, Hp in Hs by lia.
    exists (i - 7)%nat, s. split; [by replace (7 + (i - 7))%nat with i by lia|].
    split; [done|]. split; [|done].
    rewrite Forall_lookup in Hte. by eapply Hte.
Qed.

Lemma players_steer_their_own_living_ships_witness :
  Play.new [] = Some openingStart ∧
  play firstSelection openingStart = Some firstSelected ∧
  Play.state firstSelected = PLAYER_MOVE ∧
  ∃ i s, Play.selectedShip firstSelected = Some i ∧
         Game.playerShips (Play.game firstSelected) !! i = Some s ∧
         Ship.team s = player ∧ living s.
Proof.
  assert (Play.new [] = Some openingStart) as Hstart by (vm_compute; reflexivity).
  assert (play firstSelection openingStart = Some firstSelected) as Hend
    by (vm_compute; reflexivity).
  split; [exact Hstart|]. split; [exact Hend|]. split; [reflexivity|].
  exact (proj1 (proj2 (players_steer_their_own_living_ships
                         [] firstSelection openingStart firstSelected Hstart Hend))
               eq_refl).
Defined.

(** ** Words [move] and [rotate] do not know *)

(** X17.  The direction of [move] and [rotate] is compared with two words
    only.  For a living ship of a valid placement, [move] with a direction
    that is neither 'forward' nor 'backward' asks for the cells the ship
    already has: it returns [true] and leaves the roster as it is.
    [rotate] with any direction other than 'cw' is [rotate('ccw')]. *)
Theorem move_and_rotate_with_other_words
    (this : nat) (direction : string) (allShips : list Ship.t) (self : Ship.t) :
  validPlacement allShips →
  allShips !! this = Some self →
  living self →
  (direction ≠ "forward" → direction ≠ "backward" →
   Ship.move this direction allShips = Some (true, allShips)) ∧
  (direction ≠ "cw" →
   Ship.rotate this direction allShips = Ship.rotate this "ccw" allShips).
Proof.
  intros Hvp Hself Hliving. split.
  - intros Hf%String.eqb_neq Hb%String.eqb_neq.
    destruct (placed_ship_canOccupy this allShips self Hvp Hself Hliving)
      as (cells & Hcells & Hocc).
    unfold Ship.move. rewrite Hself. simpl. rewrite Hf, Hb. simpl.
    unfold Ship.canMoveTo. rewrite Hself. simpl.
    unfold Ship.getCellsAt. simpl. rewrite !Z.add_0_r.
    fold (Ship.getCells self). rewrite Hcells. simpl. rewrite Hocc. simpl.
    by rewrite set_xy_same, list_insert_id.
  - intros Hcw%String.eqb_neq. unfold Ship.rotate. by rewrite Hcw.
Qed.

Lemma move_and_rotate_with_other_words_witness :
  validPlacement duelStart ∧
  living (Ship.new 2 0 3 RIGHT player gameBoard) ∧
  Ship.move 0 "sideways" duelStart = Some (true, duelStart) ∧
  Ship.rotate 0 "left" duelStart = Ship.rotate 0 "ccw" duelStart.
Proof.
  assert (validPlacement duelStart) as Hvp.
  { apply validPlacementb_sound. vm_compute. reflexivity. }
  assert (living (Ship.new 2 0 3 RIGHT player gameBoard)) as Hliving
    by (unfold living; simpl; lia).
  split; [exact Hvp|]. split; [exact Hliving|].
  destruct (move_and_rotate_with_other_words 0 "sideways" duelStart _ Hvp eq_refl Hliving)
    as [Hmove _].
  destruct (move_and_rotate_with_other_words 0 "left" duelStart _ Hvp eq_refl Hliving)
    as [_ Hrotate].
  split; [by apply Hmove|by apply Hrotate].
Defined.

(** ** A game that is over *)

(** X18.  A game that is over waits for the restart key.  In the state
    GAME_OVER no key other than r or R, no click and no frame changes the
    fleets, the winner, the mode, the selection or the title screen, and
    the state stays GAME_OVER (frames only run the message timer): Escape
    does not lead back to the title.  The key r or R starts a new game in
    the same mode, with fresh fleets, in the first player's select phase. *)
Theorem game_over_waits_for_restart {T} `{!Millis T}
    (events : list (Event T)) (this : Play.t T) :
  Play.state this = GAME_OVER →
  (Forall notRestart events →
   ∃ final,
     play events this = Some final ∧
     Play.game final = Play.game this ∧
     Play.selectedShip final = Play.selectedShip this ∧
     Play.titleScreen final = Play.titleScreen this) ∧
  (∀ key, isKey key ["r"; "R"] = true →
     ∃ next,
       Play.handleKeyDown this key = Some next ∧
       Play.state next = PLAYER_SELECT ∧
       Play.gameMode next = Play.gameMode this ∧
       Play.playerWon next = false ∧
       Play.selectedShip next = None ∧
       freshFleet playerShipOf (Game.playerShips (Play.game next)) ∧
       freshFleet enemyShipOf (Game.enemyShips (Play.game next))).
Proof.
  intros Hover. split.
  - revert this Hover.
    induction events as [|event rest IH]; intros this Hover Hevents; simpl.
    { by exists this. }
    apply Forall_cons in Hevents as [Hevent Hrest].
    assert (∃ this', handle this event = Some this' ∧
                     Play.game this' = Play.game this ∧
                     Play.selectedShip this' = Play.selectedShip this ∧
                     Play.titleScreen this' = Play.titleScreen this)
      as (this' & -> & Hgame & Hsel & Hts).
    { destruct event as [key|grid|elapsed]; simpl in *.
      - exists this. split; [|done]. unfold Play.handleKeyDown.
        rewrite Hover. simpl. by rewrite Hevent.
      - exists this. split; [|done]. unfold Play.handleClick. by rewrite Hover.
      - eexists. split; [done|]. unfold Play.update. rewrite Hover. simpl.
        match goal with |- context [bool_decide (Play.state ?x = ENEMY_TURN)] =>
          set (this1 := x) end.
        assert (Play.game this1 = Play.game this ∧
                Play.selectedShip this1 = Play.selectedShip this ∧
                Play.titleScreen this1 = Play.titleScreen this) as (Hg & Hs & Ht)
          by (subst this1; by repeat case_match).
        rewrite bool_decide_false; [done|].
        unfold Play.state in *. rewrite Hg, Hover. done. }
    simpl. destruct (IH this') as (final & Hfinal & Hgame' & Hsel' & Hts').
    { unfold Play.state. by rewrite Hgame. }
    { done. }
    exists final. split; [done|]. split; [congruence|]. split; congruence.
  - intros key Hkey. unfold Play.handleKeyDown. rewrite Hover.
    rewrite bool_decide_false by done. rewrite bool_decide_true by done.
    rewrite Hkey. unfold Play.startGame, Play.resetGame. cbv zeta.
    match goal with |- context [Play.initShips ?start] =>
      destruct (initShips_fresh start) as (players & enemies & -> & Hp & He)
    end.
    simpl. destruct (Play.gameMode this) eqn:Hmode; eexists; (split; [done|]);
      by repeat split.
Qed.

Lemma game_over_waits_for_restart_witness :
  Play.state lostGame = GAME_OVER ∧
  Forall notRestart idleEvents ∧
  ∃ final, play idleEvents lostGame = Some final ∧
           Play.game final = Play.game lostGame.
Proof.
  assert (Forall notRestart idleEvents) as Hidle by (by repeat constructor).
  split; [reflexivity|]. split; [exact Hidle|].
  destruct (proj1 (game_over_waits_for_restart idleEvents lostGame eq_refl) Hidle)
    as (final & Hfinal & Hgame & _).
  by exists final.
Defined.

(** ** Clicks *)

Section Clicks.
Context {T : Type} `{!Millis T}.
Implicit Types this : Play.t T.

Lemma clickLoop_miss (ships : list nat) (grid : Cell) (player : Z) this :
  wellFormed (Play.allShips this) →
  (∀ j, j ∈ ships → is_Some (Play.allShips this !! j)) →
  (∀ j s, j ∈ ships → Play.allShips this !! j = Some s → living s →
          ¬ occupies s grid) →
  Play.clickLoop ships grid player this = Some this.
Proof.
  intros Hwf. induction ships as [|j rest IH]; intros Hvalid Hmiss; simpl; [done|].
  destruct (Hvalid j) as [s Hs]; [left|]. rewrite Hs. simpl.
  assert (Play.clickLoop rest grid player this = Some this) as Hrest.
  { apply IH; [intros k Hk; apply Hvalid; by right|].
    intros k s' Hk. apply Hmiss. by right. }
  destruct (Ship.isAlive s) eqn:Hlive; simpl; [|done].
  destruct (getCells_valid s) as [cells Hcells].
  { apply Hwf. by eapply list_elem_of_lookup_2. }
  rewrite Hcells. simpl.
  destruct (existsb (λ c, sameCell c grid) cells) eqn:Hhit; [|done].
  exfalso. apply (Hmiss j s); [left|done|by apply isAlive_living|].
  exists cells. split; [done|]. by apply existsb_sameCell_l.
Qed.

Lemma clickLoop_hit (ships : list nat) (grid : Cell) (player : Z) this
    (i : nat) (s : Ship.t) :
  validPlacement (Play.allShips this) →
  (∀ j, j ∈ ships → is_Some (Play.allShips this !! j)) →
  i ∈ ships →
  Play.allShips this !! i = Some s → living s → occupies s grid →
  Play.clickLoop ships grid player this = Play.selectShip this i player.
Proof.
  intros (Hwf & Hno & _) Hvalid Hi Hs Hliving Hocc.
  induction ships as [|j rest IH]; simpl; [by inversion Hi|].
  destruct (decide (j = i)) as [->|Hne].
  - rewrite Hs. simpl. apply isAlive_living in Hliving. rewrite Hliving. simpl.
    destruct Hocc as (cells & -> & Hin). simpl.
    by rewrite (proj2 (existsb_sameCell_l grid cells) Hin).
  - assert (Play.clickLoop rest grid player this = Play.selectShip this i player)
      as Hrest.
    { apply IH; [intros k Hk; apply Hvalid; by right|].
      apply elem_of_cons in Hi as [->|Hi]; done. }
    destruct (Hvalid j) as [s' Hs']; [left|]. rewrite Hs'. simpl.
    destruct (Ship.isAlive s') eqn:Hlive; simpl; [|done].
    destruct (getCells_valid s') as [cells Hcells].
    { apply Hwf. by eapply list_elem_of_lookup_2. }
    rewrite Hcells. simpl.
    destruct (existsb (λ c, sameCell c grid) cells) eqn:Hhit; [|done].
    exfalso. apply (Hno i j s s' grid); [done..| |done|].
    + by apply isAlive_living.
    + exists cells. split; [done|]. by apply existsb_sameCell_l.
Qed.

Lemma selectShip_first this (ship : nat) (player : Z) (s : Ship.t) :
  Play.selectedShip this = None →
  Play.allShips this !! ship = Some s →
  ∃ this',
    Play.selectShip this ship player = Some this' ∧
    Play.state this' = movePhase player ∧
    Play.selectedShip this' = Some ship ∧
    Play.allShips this' = <[ship := Ship.set_selected s true]> (Play.allShips this) ∧
    Play.gameMode this' = Play.gameMode this ∧
    Play.playerWon this' = Play.playerWon this.
Proof.
  intros Hsel Hs. unfold Play.selectShip. rewrite Hsel.
  cbn [mbind option_bind]. cbv zeta.
  change (Play.allShips (Play.set_selectedShip
                           (Play.set_allShips this (Play.allShips this)) (Some ship)))
    with (Play.allShips (Play.set_allShips this (Play.allShips this))).
  rewrite allShips_set_allShips. unfold Play.update_ship. rewrite Hs.
  cbn [mbind option_bind]. eexists. split; [done|].
  split; [done|]. split; [done|]. split; [|done].
  match goal with |- Play.allShips (Play.set_state (Play.set_allShips ?x ?r) _) = _ =>
    change (Play.allShips (Play.set_state (Play.set_allShips x r) _))
      with (Play.allShips (Play.set_allShips x r))
  end.
  by rewrite allShips_set_allShips.
Qed.
End Clicks.

(** X19.  A click in a select phase.  In every state reached from the
    constructor's in which player 1 or 2 is to select, nothing is selected
    yet, and a click on a cell
    - of a living ship of that player's fleet selects it: the game goes to
      the player's move phase with that ship selected and marked, and
      nothing else in the roster changes (no two living ships share a cell,
      so the ship is the only one the click can mean);
    - of no living ship of that fleet (open water, a wreck, a ship of the
      other fleet) changes nothing. *)
Theorem click_selects_the_ship_on_the_cell {T} `{!Millis T}
    (rng : AI.Rng) (events : list (Event T)) (start this : Play.t T)
    (player : Z) (grid : Cell) :
  Play.new rng = Some start →
  play events start = Some this →
  player = 1 ∨ player = 2 →
  Play.state this = selectPhase player →
  Play.selectedShip this = None ∧
  (∀ i s, i ∈ fleetOf this player → Play.allShips this !! i = Some s →
          living s → occupies s grid →
     ∃ this',
       Play.handleClick this grid = Some this' ∧
       Play.state this' = movePhase player ∧
       Play.selectedShip this' = Some i ∧
       Play.allShips this' = <[i := Ship.set_selected s true]> (Play.allShips this) ∧
       Play.gameMode this' = Play.gameMode this ∧
       Play.playerWon this' = Play.playerWon this) ∧
  ((∀ i s, i ∈ fleetOf this player → Play.allShips this !! i = Some s →
           living s → ¬ occupies s grid) →
   Play.handleClick this grid = Some this).
Proof.
  intros Hstart Hfinal Hplayer Hstate.
  destruct (new_inPlay (T:=T) rng) as (start' & Hstart' & Hin).
  rewrite Hstart in Hstart'. injection Hstart' as <-.
  destruct (play_helm events start Hin (new_helm rng start Hstart))
    as (final' & Hfinal' & Hin' & Hown).
  rewrite Hfinal in Hfinal'. injection Hfinal' as <-.
  assert (Play.selectedShip this = None) as Hnone.
  { destruct Hown as (H1 & _).
    destruct (Play.selectedShip this) as [i|]; [|done].
    destruct (H1 i eq_refl) as [H | [H | H]]; rewrite H in Hstate;
      by destruct Hplayer as [-> | ->]. }
  pose proof (inPlay_validPlacement this Hin') as Hvp.
  destruct (inPlay_positions this Hin') as (_ & Hplayers & Henemies).
  assert (∀ j, j ∈ fleetOf this player → is_Some (Play.allShips this !! j))
    as Hvalid.
  { intros j Hj. apply lookup_lt_is_Some. rewrite inPlay_length by done.
    unfold fleetOf in Hj. destruct (player =? 1); auto. }
  assert (Play.handleClick this grid
          = Play.clickLoop (fleetOf this player) grid player this) as Hclick.
  { unfold Play.handleClick, fleetOf. rewrite Hstate.
    by destruct Hplayer as [-> | ->]. }
  split; [done|]. rewrite Hclick. split.
  - intros i s Hi Hs Hliving Hocc.
    rewrite (clickLoop_hit _ grid player this i s Hvp Hvalid Hi Hs Hliving Hocc).
    by apply selectShip_first.
  - intros Hmiss. apply clickLoop_miss; [by destruct Hvp|done|done].
Qed.

Lemma click_selects_the_ship_on_the_cell_witness :
  Play.new [] = Some openingStart ∧
  play (take 3 openingMatch) openingStart = Some menusDone ∧
  Play.handleClick menusDone (0, 0) = Some firstSelected ∧
  Play.handleClick menusDone (10, 7) = Some menusDone.
Proof.
  assert (Play.new [] = Some openingStart) as Hstart by (vm_compute; reflexivity).
  assert (play (take 3 openingMatch) openingStart = Some menusDone) as Hthis
    by (vm_compute; reflexivity).
  split; [exact Hstart|]. split; [exact Hthis|].
  split; [vm_compute; reflexivity|].
  apply (click_selects_the_ship_on_the_cell [] (take 3 openingMatch)
           openingStart menusDone 1 (10, 7) Hstart Hthis (or_introl eq_refl) eq_refl).
  intros i s Hi Hs Hliving Hocc.
  apply list_elem_of_lookup_2 in Hs.
  assert (∀ c : Cell, occupies s c → c.1 ≤ 3 ∨ 15 ≤ c.1) as Hside.
  { vm_compute in Hs. intros c (cells & Hcells & Hc).
    repeat (apply elem_of_cons in Hs as [-> | Hs];
            [vm_compute in Hcells; injection Hcells as <-;
             repeat (apply elem_of_cons in Hc as [-> | Hc]; [simpl; lia|]);
             by inversion Hc|]).
    by inversion Hs. }
  destruct (Hside _ Hocc) as [H | H]; simpl in H; lia.
Defined.

(** ** Keys and clicks without effect *)

(** X20.  Input that is ignored.  In every state reached from the
    constructor's:
    - while the second player is to select a ship, and during the
      opponent's turn, every key but Escape leaves the game as it is: the
      second player cannot pass with Enter, which the first player can;
    - while the first player is to select, every key but Escape and Enter
      leaves the game as it is;
    - outside the two select phases and the two fire phases a click leaves
      the game as it is. *)
Theorem ignored_keys_and_clicks {T} `{!Millis T}
    (rng : AI.Rng) (events : list (Event T)) (start this : Play.t T) :
  Play.new rng = Some start →
  play events start = Some this →
  (Play.state this = PLAYER2_SELECT ∨ Play.state this = ENEMY_TURN →
   ∀ key, key ≠ "Escape" → Play.handleKeyDown this key = Some this) ∧
  (Play.state this = PLAYER_SELECT →
   ∀ key, key ≠ "Escape" → key ≠ "Enter" →
          Play.handleKeyDown this key = Some this) ∧
  (Play.state this ≠ PLAYER_SELECT → Play.state this ≠ PLAYER2_SELECT →
   Play.state this ≠ PLAYER_FIRE → Play.state this ≠ PLAYER2_FIRE →
   ∀ grid, Play.handleClick this grid = Some this).
Proof.
  intros Hstart Hfinal.
  destruct (new_inPlay (T:=T) rng) as (start' & Hstart' & Hin).
  rewrite Hstart in Hstart'. injection Hstart' as <-.
  destruct (play_helm events start Hin (new_helm rng start Hstart))
    as (final' & Hfinal' & Hin' & (Hsel & _)).
  rewrite Hfinal in Hfinal'. injection Hfinal' as <-.
  assert (Play.state this = PLAYER2_SELECT ∨ Play.state this = ENEMY_TURN ∨
          Play.state this = PLAYER_SELECT → Play.selectedShip this = None) as Hnone.
  { intros Hstate. destruct (Play.selectedShip this) as [i|]; [|done].
    destruct (Hsel i eq_refl) as [H | [H | H]]; rewrite H in Hstate;
      by destruct Hstate as [? | [? | ?]]. }
  clear -Hnone.
  destruct this as [[st won mode P E] ts sel msg mt at' acts idx rng'].
  unfold Play.state in *. simpl in *.
  split; [|split].
  - intros Hstate key Hesc%String.eqb_neq. rewrite Hnone in * by tauto.
    unfold Play.handleKeyDown, Play.player1Select, Play.player1Move,
      Play.player1Fire, Play.player2Move, Play.player2Fire, Play.tabKey,
      Play.state.
    destruct Hstate as [-> | ->]; simpl; rewrite Hesc;
      by destruct (String.eqb key "Tab").
  - intros -> key Hesc%String.eqb_neq Henter%String.eqb_neq.
    rewrite Hnone in * by tauto.
    unfold Play.handleKeyDown, Play.player1Select, Play.player1Move,
      Play.player1Fire, Play.player2Move, Play.player2Fire, Play.tabKey,
      Play.state.
    simpl. rewrite Hesc, Henter. simpl. by destruct (String.eqb key "Tab").
  - intros H1 H2 H3 H4 grid. unfold Play.handleClick, Play.state. simpl.
    by destruct st.
Qed.

Lemma ignored_keys_and_clicks_witness :
  Play.new [] = Some openingStart ∧
  play (take 3 openingMatch) openingStart = Some menusDone ∧
  Play.handleKeyDown menusDone "w" = Some menusDone ∧
  Play.handleClick firstSelected (0, 2) = Some firstSelected.
Proof.
  assert (Play.new [] = Some openingStart) as Hstart by (vm_compute; reflexivity).
  assert (play (take 3 openingMatch) openingStart = Some menusDone) as Hthis
    by (vm_compute; reflexivity).
  assert (play firstSelection openingStart = Some firstSelected) as Hsel
    by (vm_compute; reflexivity).
  split; [exact Hstart|]. split; [exact Hthis|]. split.
  - by apply (ignored_keys_and_clicks [] (take 3 openingMatch) openingStart
                menusDone Hstart Hthis).
  - by apply (ignored_keys_and_clicks [] firstSelection openingStart
                firstSelected Hstart Hsel).
Defined.

(** ** The order of the phases *)

Section Turns.
Context {T : Type} `{!Millis T}.
Implicit Types this : Play.t T.

Lemma player1Select_skip this (key : string) :
  Play.state this ≠ PLAYER_SELECT → Play.player1Select this key = Some this.
Proof. intros Hs. unfold Play.player1Select. by rewrite bool_decide_false. Qed.

Lemma player1Move_skip this (key : string) :
  Play.state this ≠ PLAYER_MOVE → Play.player1Move this key = Some (false, this).
Proof. intros Hs. unfold Play.player1Move. by rewrite bool_decide_false. Qed.

Lemma player1Fire_skip this (key : string) :
  Play.state this ≠ PLAYER_FIRE → Play.player1Fire this key = Some this.
Proof. intros Hs. unfold Play.player1Fire. by rewrite bool_decide_false. Qed.

Lemma player2Move_skip this (key : string) :
  Play.state this ≠ PLAYER2_MOVE → Play.player2Move this key = Some (false, this).
Proof. intros Hs. unfold Play.player2Move. by rewrite bool_decide_false. Qed.

Lemma player2Fire_skip this (key : string) :
  Play.state this ≠ PLAYER2_FIRE → Play.player2Fire this key = Some this.
Proof. intros Hs. unfold Play.player2Fire. by rewrite bool_decide_false. Qed.

Lemma tabKey_skip this (key : string) :
  key ≠ "Tab" ∨ Play.selectedShip this = None →
  Play.tabKey this key = Some this.
Proof.
  unfold Play.tabKey. intros [Hkey%String.eqb_neq | Hsel].
  - by rewrite Hkey.
  - rewrite Hsel. by destruct (String.eqb key "Tab").
Qed.

Lemma steer_mode this this' (key : string) :
  Play.steer this key = Some this' → Play.gameMode this' = Play.gameMode this.
Proof.
  unfold Play.steer. intros Hrun.
  destruct (Play.selectedShip this); [|by injection Hrun as <-].
  match type of Hrun with (?r ≫= _) = _ =>
    destruct r as [[moved roster]|]; [|done]
  end.
  simpl in Hrun. by injection Hrun as <-.
Qed.

Lemma deselect_mode this this' :
  Play.deselect this = Some this' → Play.gameMode this' = Play.gameMode this.
Proof.
  unfold Play.deselect. intros Hrun.
  destruct (Play.selectedShip this); [|by injection Hrun as <-].
  destruct (Play.update_ship _ _ _); [|done].
  simpl in Hrun. by injection Hrun as <-.
Qed.

Lemma selectShip_mode this this' (ship : nat) (player : Z) :
  Play.selectShip this ship player = Some this' →
  Play.gameMode this' = Play.gameMode this.
Proof.
  unfold Play.selectShip. intros Hrun.
  match type of Hrun with (?r ≫= _) = _ => destruct r as [roster|]; [|done] end.
  cbn [mbind option_bind] in Hrun. cbv zeta in Hrun.
  destruct (Play.update_ship ship _ _); [|done].
  cbn [mbind option_bind] in Hrun. by injection Hrun as <-.
Qed.

Lemma clickLoop_mode (ships : list nat) (grid : Cell) (player : Z) this this' :
  Play.clickLoop ships grid player this = Some this' →
  Play.gameMode this' = Play.gameMode this.
Proof.
  induction ships as [|ship rest IH]; simpl; intros Hrun.
  { by injection Hrun as <-. }
  destruct (Play.allShips this !! ship) as [s|]; [|done].
  simpl in Hrun. destruct (Ship.isAlive s); simpl in Hrun; [|by apply IH].
  destruct (Ship.getCells s) as [cells|]; [|done]. simpl in Hrun.
  destruct (existsb _ cells); [|by apply IH].
  by eapply selectShip_mode.
Qed.

Lemma startEnemyTurn_turn this this' :
  Play.startEnemyTurn this = Some this' →
  Play.gameMode this' = Play.gameMode this ∧
  Play.selectedShip this' = None ∧
  ((Play.gameMode this = SINGLE_PLAYER ∧ Play.state this' = ENEMY_TURN) ∨
   (Play.gameMode this = TWO_PLAYER ∧ Play.state this' = PLAYER2_SELECT)).
Proof.
  unfold Play.startEnemyTurn. intros Hrun.
  destruct (Play.gameMode this) eqn:Hmode.
  - cbv zeta in Hrun.
    destruct (AI.takeTurn _ _ _ _ _) as [[[actions roster] rng]|]; [|done].
    simpl in Hrun. injection Hrun as <-. split; [done|]. split; [done|by left].
  - injection Hrun as <-. split; [done|]. split; [done|by right].
Qed.

Lemma startGame_turn this this' (mode : GameMode) :
  Play.startGame this mode = Some this' →
  Play.gameMode this' = mode ∧ Play.state this' = PLAYER_SELECT.
Proof.
  unfold Play.startGame, Play.resetGame. cbv zeta.
  match goal with |- context [Play.initShips ?start] =>
    destruct (initShips_fresh start) as (players & enemies & -> & _)
  end.
  simpl. by destruct mode; intros [= <-].
Qed.

Lemma handleClick_turn this this' (grid : Cell) :
  inPlay this →
  Play.handleClick this grid = Some this' →
  turnStep (T:=T) (Click grid) (Play.gameMode this) (Play.state this)
           (Play.gameMode this') (Play.state this').
Proof.
  intros (_ & _ & Hfire & _). unfold Play.handleClick.
  case_bool_decide as Hover; [intros [= <-]; constructor|].
  case_bool_decide as Hs1.
  { intros Hrun. rewrite (clickLoop_mode _ _ _ _ _ Hrun).
    apply clickLoop_hands in Hrun as [-> | (i & s & _ & _ & _ & _ & -> & _)];
      [constructor|].
    rewrite Hs1. simpl. constructor. }
  case_bool_decide as Hs2.
  { intros Hrun. rewrite (clickLoop_mode _ _ _ _ _ Hrun).
    apply clickLoop_hands in Hrun as [-> | (i & s & _ & _ & _ & _ & -> & _)];
      [constructor|].
    rewrite Hs2. simpl. constructor. }
  destruct (bool_decide (Play.state this = PLAYER_FIRE)
            || bool_decide (Play.state this = PLAYER2_FIRE)) eqn:Hstate;
    [|intros [= <-]; constructor].
  rewrite Hfire; [intros [= <-]; constructor|].
  apply orb_true_iff in Hstate as [?%bool_decide_eq_true | ?%bool_decide_eq_true];
    [by left | by right].
Qed.

Lemma update_turn this (elapsed : T) :
  inPlay this →
  turnStep (T:=T) (Frame elapsed) (Play.gameMode this) (Play.state this)
           (Play.gameMode (Play.update this elapsed))
           (Play.state (Play.update this elapsed)).
Proof.
  intros Hin. unfold Play.update.
  case_bool_decide as Htitle; [constructor|]. cbv zeta.
  match goal with |- context [bool_decide (Play.state ?x = ENEMY_TURN)] =>
    set (this1 := x) end.
  assert (Play.game this1 = Play.game this) as Hgame
    by (subst this1; by repeat case_match).
  assert (inPlay this1) as Hin1.
  { subst this1. repeat case_match; (eapply inPlay_same; [| |exact Hin]); done. }
  assert (Play.gameMode this = Play.gameMode this1 ∧
          Play.state this = Play.state this1) as [-> ->]
    by (unfold Play.gameMode, Play.state; by rewrite Hgame).
  clearbody this1.
  case_bool_decide as Henemy; [|constructor].
  destruct (isNonPositive _); [|constructor].
  destruct (_ !! _) as [action|]; [constructor|].
  match goal with |- context [Play.checkGameOver ?x] => set (this2 := x) end.
  assert (inPlay this2) as Hin2 by (eapply inPlay_same; [| |exact Hin1]; done).
  rewrite Henemy. change (Play.gameMode this1) with (Play.gameMode this2).
  clearbody this2.
  pose proof (checkGameOver_inPlay this2 Hin2) as (_ & _ & Hmode & Hsame & Hover).
  destruct (Play.checkGameOver this2) as [over this3]. simpl in *.
  destruct over; rewrite <- Hmode.
  - rewrite Hover by done. constructor.
  - constructor.
Qed.
Lemma movePhase_facts this (key : string) (next : GameState)
    (text : string) (duration : Z) (r : bool * Play.t T) :
  (this ← Play.steer this key;
   if String.eqb key "Enter" then
     this ← Play.deselect this;
     let this := Play.set_state this next in
     Some (true, Play.showMessage this text duration)
   else Some (false, this)) = Some r →
  Play.gameMode r.2 = Play.gameMode this ∧
  ((r.1 = true ∧ key = "Enter" ∧ Play.state r.2 = next) ∨
   (r.1 = false ∧ key ≠ "Enter" ∧ Play.state r.2 = Play.state this ∧
    Play.selectedShip r.2 = Play.selectedShip this)).
Proof.
  intros Hrun.
  destruct (Play.steer this key) as [this1|] eqn:Hsteer; [|done].
  pose proof (steer_mode _ _ _ Hsteer) as Hmode.
  apply steer_sameHands in Hsteer as (Hstate & Hsel & _).
  simpl in Hrun. destruct (String.eqb key "Enter") eqn:Henter.
  - destruct (Play.deselect this1) as [this2|] eqn:Hdeselect; [|done].
    apply deselect_mode in Hdeselect.
    simpl in Hrun. injection Hrun as <-. simpl.
    split; [|left; split; [done|]; split; [by apply String.eqb_eq|done]].
    transitivity (Play.gameMode this2); [done|congruence].
  - injection Hrun as <-. simpl. split; [done|]. right.
    split; [done|]. split; [by apply String.eqb_neq|done].
Qed.

Ltac skip_blocks Hrun :=
  repeat first
    [ rewrite player1Select_skip in Hrun by congruence
    | rewrite player1Move_skip in Hrun by congruence
    | rewrite player1Fire_skip in Hrun by congruence
    | rewrite player2Move_skip in Hrun by congruence
    | rewrite player2Fire_skip in Hrun by congruence
    | rewrite tabKey_skip in Hrun by (first [by left | by right])
    | progress simpl in Hrun ].

(** The Tab key in a move phase. *)
Lemma tabKey_turn this this' (key : string) (here back : GameState) :
  Play.state this = here →
  (here = PLAYER_MOVE ∧ back = PLAYER_SELECT) ∨
  (here = PLAYER2_MOVE ∧ back = PLAYER2_SELECT) →
  is_Some (Play.selectedShip this) →
  Play.tabKey this key = Some this' →
  Play.gameMode this' = Play.gameMode this ∧
  ((key = "Tab" ∧ Play.state this' = back) ∨
   (key ≠ "Tab" ∧ Play.state this' = here)).
Proof.
  intros Hstate Hphase [i Hsel]. unfold Play.tabKey. rewrite Hsel.
  destruct (String.eqb key "Tab") eqn:Htab;
    [|intros [= <-]; split; [done|]; right; split; [by apply String.eqb_neq|done]].
  apply String.eqb_eq in Htab as ->.
  destruct (Play.deselect this) as [this1|] eqn:Hdeselect; [|done].
  pose proof (deselect_mode _ _ Hdeselect) as Hmode.
  apply deselect_hands in Hdeselect as (_ & Hstate1 & _).
  simpl. rewrite Hstate1, Hstate.
  destruct Hphase as [[-> ->] | [-> ->]]; simpl; intros [= <-];
    (split; [done|]); by left.
Qed.

Lemma handleKeyDown_turn this this' (key : string) :
  inPlay this → ownShipSelected this →
  Play.handleKeyDown this key = Some this' →
  turnStep (T:=T) (KeyDown key) (Play.gameMode this) (Play.state this)
           (Play.gameMode this') (Play.state this').
Proof.
  intros Hin Hown. unfold Play.handleKeyDown.
  case_bool_decide as Htitle.
  { destruct (TitleScreen.handleKey (Play.titleScreen this) key) as [result ts].
    cbv zeta. rewrite Htitle.
    repeat case_bool_decide;
      try (intros [-> ->]%startGame_turn; constructor).
    intros [= <-]. simpl. rewrite <- Htitle. constructor. }
  case_bool_decide as Hover.
  { rewrite Hover. destruct (isKey key ["r"; "R"]) eqn:Hkey;
      [|intros [= <-]; rewrite <- Hover; constructor].
    intros [-> ->]%startGame_turn. by constructor. }
  destruct (String.eqb key "Escape") eqn:Hesc.
  { apply String.eqb_eq in Hesc as ->. intros [= <-]. by constructor. }
  intros Hrun.
  assert (Play.state this ≠ PLAYER_MOVE → Play.state this ≠ PLAYER2_MOVE →
          Play.selectedShip this = None) as Hnone.
  { intros H1 H2. destruct Hown as (Hsel & _).
    destruct (Play.selectedShip this) as [i|]; [|done].
    by destruct (Hsel i eq_refl) as [? | [? | ?]]. }
  destruct Hown as (_ & Hmove1 & Hmove2).
  destruct (Play.state this) eqn:Hstate; try done.
  - (* PLAYER_SELECT *)
    unfold Play.player1Select in Hrun. rewrite Hstate in Hrun.
    rewrite bool_decide_true in Hrun by done.
    destruct (String.eqb key "Enter") eqn:Henter.
    + apply String.eqb_eq in Henter as ->.
      destruct (Play.startEnemyTurn this) as [this1|] eqn:Hstart; [|done].
      apply startEnemyTurn_turn in Hstart
        as (Hmode & Hsel & [[Hsingle Hst] | [Htwo Hst]]);
        skip_blocks Hrun; injection Hrun as <-; rewrite Hmode, Hst.
      * rewrite Hsingle. constructor. by left.
      * rewrite Htwo. constructor. by left.
    + specialize (Hnone ltac:(done) ltac:(done)).
      skip_blocks Hrun. injection Hrun as <-. rewrite Hstate. constructor.
  - (* PLAYER_MOVE *)
    destruct (Hmove1 eq_refl) as (i & s & Hsel & _).
    skip_blocks Hrun. unfold Play.player1Move in Hrun. rewrite Hstate in Hrun.
    rewrite bool_decide_true in Hrun by done.
    match type of Hrun with (?m ≫= _) = _ =>
      destruct m as [[returned this1]|] eqn:Hmove; [|done]
    end.
    apply movePhase_facts in Hmove as (Hmode & Hcases).
    simpl in Hmode, Hcases.
    destruct Hcases as [(-> & -> & Hst) | (-> & Henter & Hst & Hsel1)];
      simpl in Hrun.
    + injection Hrun as <-. rewrite Hmode, Hst. constructor.
    + rewrite Hstate in Hst. skip_blocks Hrun.
      destruct (tabKey_turn this1 this' key PLAYER_MOVE PLAYER_SELECT Hst
                  ltac:(by left) ltac:(rewrite Hsel1, Hsel; by eexists) Hrun)
        as (Hmode' & [[-> Hst'] | [_ Hst']]);
        rewrite Hmode', Hmode, Hst'; constructor.
  - (* PLAYER_FIRE *)
    specialize (Hnone ltac:(done) ltac:(done)).
    skip_blocks Hrun. unfold Play.player1Fire in Hrun. rewrite Hstate in Hrun.
    rewrite bool_decide_true in Hrun by done.
    unfold Play.canFire in Hrun. rewrite Hnone in Hrun. simpl in Hrun.
    match type of Hrun with context [if ?b then Some this else Some this] =>
      replace (if b then Some this else Some this) with (Some this) in Hrun
        by by destruct b
    end.
    simpl in Hrun. destruct (String.eqb key "Enter") eqn:Henter.
    + apply String.eqb_eq in Henter as ->.
      destruct (Play.startEnemyTurn this) as [this1|] eqn:Hstart; [|done].
      apply startEnemyTurn_turn in Hstart
        as (Hmode & Hsel & [[Hsingle Hst] | [Htwo Hst]]);
        skip_blocks Hrun; injection Hrun as <-; rewrite Hmode, Hst.
      * rewrite Hsingle. constructor. by right.
      * rewrite Htwo. constructor. by right.
    + skip_blocks Hrun. injection Hrun as <-. rewrite Hstate. constructor.
  - (* ENEMY_TURN *)
    specialize (Hnone ltac:(done) ltac:(done)).
    skip_blocks Hrun. injection Hrun as <-. rewrite Hstate. constructor.
  - (* PLAYER2_SELECT *)
    specialize (Hnone ltac:(done) ltac:(done)).
    skip_blocks Hrun. injection Hrun as <-. rewrite Hstate. constructor.
  - (* PLAYER2_MOVE *)
    destruct (Hmove2 eq_refl) as (i & s & Hsel & _).
    skip_blocks Hrun. unfold Play.player2Move in Hrun. rewrite Hstate in Hrun.
    rewrite bool_decide_true in Hrun by done.
    match type of Hrun with (?m ≫= _) = _ =>
      destruct m as [[returned this1]|] eqn:Hmove; [|done]
    end.
    apply movePhase_facts in Hmove as (Hmode & Hcases).
    simpl in Hmode, Hcases.
    destruct Hcases as [(-> & -> & Hst) | (-> & Henter & Hst & Hsel1)];
      simpl in Hrun.
    + injection Hrun as <-. rewrite Hmode, Hst. constructor.
    + rewrite Hstate in Hst. skip_blocks Hrun.
      destruct (tabKey_turn this1 this' key PLAYER2_MOVE PLAYER2_SELECT Hst
                  ltac:(by right) ltac:(rewrite Hsel1, Hsel; by eexists) Hrun)
        as (Hmode' & [[-> Hst'] | [_ Hst']]);
        rewrite Hmode', Hmode, Hst'; constructor.
  - (* PLAYER2_FIRE *)
    specialize (Hnone ltac:(done) ltac:(done)).
    skip_blocks Hrun. unfold Play.player2Fire in Hrun. rewrite Hstate in Hrun.
    rewrite bool_decide_true in Hrun by done.
    unfold Play.canFire in Hrun. rewrite Hnone in Hrun. simpl in Hrun.
    match type of Hrun with context [if ?b then Some this else Some this] =>
      replace (if b then Some this else Some this) with (Some this) in Hrun
        by by destruct b
    end.
    simpl in Hrun. destruct (String.eqb key "Enter") eqn:Henter.
    + apply String.eqb_eq in Henter as ->.
      skip_blocks Hrun. injection Hrun as <-. simpl. constructor.
    + skip_blocks Hrun. injection Hrun as <-. rewrite Hstate. constructor.
Qed.

Lemma handle_turn this this' (event : Event T) :
  inPlay this → ownShipSelected this →
  handle this event = Some this' →
  turnStep event (Play.gameMode this) (Play.state this)
           (Play.gameMode this') (Play.state this').
Proof.
  intros Hin Hown Hrun. destruct event as [key|grid|elapsed]; simpl in Hrun.
  - by apply handleKeyDown_turn.
  - by apply handleClick_turn.
  - injection Hrun as <-. by apply update_turn.
Qed.

Lemma turnStep_phaseOfMode (event : Event T) (mode mode' : GameMode)
    (phase phase' : GameState) :
  turnStep event mode phase mode' phase' →
  phaseOfMode mode phase → phaseOfMode mode' phase'.
Proof.
  intros Hstep Hphase.
  destruct Hstep; try done; destruct mode; simpl in *; try done;
    try (by destruct mode'); naive_solver.
Qed.

Lemma play_phaseOfMode (events : list (Event T)) this final :
  inPlay this → ownShipSelected this →
  phaseOfMode (Play.gameMode this) (Play.state this) →
  play events this = Some final →
  phaseOfMode (Play.gameMode final) (Play.state final).
Proof.
  revert this. induction events as [|event rest IH];
    intros this Hin Hown Hphase; simpl.
  { by intros [= <-]. }
  destruct (handle_helm this event Hin Hown) as (this' & Hrun & Hin' & Hown').
  rewrite Hrun. simpl. apply IH; [done|done|].
  exact (turnStep_phaseOfMode _ _ _ _ _
           (handle_turn this this' event Hin Hown Hrun) Hphase).
Qed.
End Turns.

(** X21.  The turn controller follows one order of phases.  In every state
    reached from the constructor's, an event that is handled changes the
    mode and the phase in one of these ways only, or not at all:
    - on the title screen a key starts a game, in either mode, in the
      first player's select phase; in a game that is over r or R restarts
      it in the same mode; Escape leads from any other phase to the title;
    - a click leads from a select phase to the move phase of the same
      player; Tab leads back; Enter leads from the move phase to the fire
      phase of the same player;
    - Enter passes the turn from the first player's select or fire phase
      to the opponent (single player) or to the second player's select
      phase (two players), and from the second player's fire phase to the
      first player's select phase;
    - a frame ends the opponent's turn: the first player selects, or the
      game is over.
    The mode changes only when a game is started from the title screen. *)
Theorem handlers_follow_the_turn_order {T} `{!Millis T}
    (rng : AI.Rng) (events : list (Event T)) (start this this' : Play.t T)
    (event : Event T) :
  Play.new rng = Some start →
  play events start = Some this →
  handle this event = Some this' →
  turnStep event (Play.gameMode this) (Play.state this)
           (Play.gameMode this') (Play.state this').
Proof.
  intros Hstart Hthis Hrun.
  destruct (new_inPlay (T:=T) rng) as (start' & Hstart' & Hin).
  rewrite Hstart in Hstart'. injection Hstart' as <-.
  destruct (play_helm events start Hin (new_helm rng start Hstart))
    as (this0 & Hthis0 & Hin' & Hown).
  rewrite Hthis in Hthis0. injection Hthis0 as <-.
  by apply handle_turn.
Qed.

Lemma handlers_follow_the_turn_order_witness :
  Play.new [] = Some openingStart ∧
  play (take 3 openingMatch) openingStart = Some menusDone ∧
  handle menusDone (Click (0, 0)) = Some firstSelected ∧
  turnStep (T:=Z) (Click (0, 0)) SINGLE_PLAYER PLAYER_SELECT
           SINGLE_PLAYER PLAYER_MOVE.
Proof.
  assert (Play.new [] = Some openingStart) as Hstart by (vm_compute; reflexivity).
  assert (play (take 3 openingMatch) openingStart = Some menusDone) as Hthis
    by (vm_compute; reflexivity).
  assert (handle menusDone (Click (0, 0)) = Some firstSelected) as Hrun
    by (vm_compute; reflexivity).
  split; [exact Hstart|]. split; [exact Hthis|]. split; [exact Hrun|].
  exact (handlers_follow_the_turn_order [] (take 3 openingMatch) openingStart
           menusDone firstSelected (Click (0, 0)) Hstart Hthis Hrun).
Defined.

(** X22.  Each mode keeps to its phases.  In every state reached from the
    constructor's, a single-player game is never in a phase of the second
    player (P2 select, P2 move, P2 fire), and a two-player game is never in
    the opponent's turn: the opponent's [takeTurn] runs in single-player
    games only. *)
Theorem modes_keep_their_phases {T} `{!Millis T}
    (rng : AI.Rng) (events : list (Event T)) (start final : Play.t T) :
  Play.new rng = Some start →
  play events start = Some final →
  (Play.gameMode final = SINGLE_PLAYER →
   Play.state final ≠ PLAYER2_SELECT ∧ Play.state final ≠ PLAYER2_MOVE ∧
   Play.state final ≠ PLAYER2_FIRE) ∧
  (Play.gameMode final = TWO_PLAYER → Play.state final ≠ ENEMY_TURN).
Proof.
  intros Hstart Hfinal.
  destruct (new_inPlay (T:=T) rng) as (start' & Hstart' & Hin).
  rewrite Hstart in Hstart'. injection Hstart' as <-.
  assert (phaseOfMode (Play.gameMode start) (Play.state start)) as Hphase.
  { revert Hstart. unfold Play.new.
    destruct (initShips_fresh (Play.fresh (T:=T) rng))
      as (players & enemies & -> & _).
    by intros [= <-]. }
  pose proof (play_phaseOfMode events start final Hin (new_helm rng start Hstart)
                Hphase Hfinal) as Hend.
  unfold phaseOfMode in Hend. split; intros Hmode; by rewrite Hmode in Hend.
Qed.

Lemma modes_keep_their_phases_witness :
  Play.new [] = Some openingStart ∧
  play openingMatch openingStart = Some openingEnd ∧
  Play.gameMode openingEnd = SINGLE_PLAYER ∧
  Play.state openingEnd ≠ PLAYER2_SELECT.
Proof.
  assert (Play.new [] = Some openingStart) as Hstart by (vm_compute; reflexivity).
  assert (play openingMatch openingStart = Some openingEnd) as Hend
    by (vm_compute; reflexivity).
  split; [exact Hstart|]. split; [exact Hend|]. split; [reflexivity|].
  exact (proj1 (proj1 (modes_keep_their_phases [] openingMatch openingStart
                         openingEnd Hstart Hend) eq_refl)).
Defined.
